(** * genmlir: lowering of a Python AST to the scripting dialect

    A shallow embedding of [standalone-python/genmlir/genmlir.py]: the
    builtin registry, the name allocator ([Module.fresh_symbol]), the scope
    analyser ([VariableCapture]), the IR builder operations the translator
    consumes, the translator itself ([Translator]) and the module driver
    ([translateModule]), followed by the properties established about them.

    Python values are modelled as follows: [str] is [string], [int] is [Z]
    (counters that only grow from 0 are [nat]), a [dict] used as an ordered
    set or ordered map is an association list in insertion order, a [dict]
    used only for lookups is a [gmap], an exception is a value of [exn]
    returned in the [Raise] branch of [res]. *)

From stdpp Require Import gmap strings list pretty.
From Stdlib Require Import Ascii ZArith Lia.

Local Open Scope string_scope.
Local Open Scope list_scope.

(** ** Exceptions and results *)

(** The exceptions the program can raise. [Exception] sites that format a
    message from the class or the position of a node are kept apart by a
    constructor each; the one message a property talks about (the driver's
    list of unknown variables) is carried in full. *)
Inductive exn : Type :=
  | UnsupportedExpression            (* 'Unsupported expression {type(e)}' *)
  | UnexpectedTarget                 (* 'Unexpected target ...' *)
  | StoreAttributeUnsupported
  | DeleteAttributeUnsupported
  | ConversionUnsupported
  | UnknownConstant                  (* 'Unknown Constant {c.value}' *)
  | UnexpectedStarStar               (* 'Did not expect ** in call' *)
  | JoinExpected                     (* 'Join expression expected ...' *)
  | CouldNotFindVariable (name : string) (lineno col_offset : Z)
  | SingleLhs                        (* 'Assignment must have single left-hand side.' *)
  | ForOrelseUnsupported
  | WhileOrelseUnsupported
  | UnknownVariables (msg : string)  (* the driver's message, in full *)
  | UnexpectedUnknownVariables       (* 'Did not expect unknown variables ...' *)
  | AssertionError
  | AttributeError (obj attr : string)
  | KeyError (key : string)
  | ScopeKeyError (ident : nat)
  | StopIterationError               (* [__next__] on an exhausted iterator *)
  | UnboundLocalError (name : string).

Inductive res (A : Type) : Type :=
  | Ok (a : A)
  | Raise (e : exn).
Arguments Ok {A} a.
Arguments Raise {A} e.

(** ** 4.2 Name allocator: [Module.fresh_symbol] *)

Module Names.

(** [nm.replace('@', '')] *)
Fixpoint strip_at (s : string) : string :=
  match s with
  | EmptyString => EmptyString
  | String c s' =>
      if Ascii.eqb c "@"%char then strip_at s' else String c (strip_at s')
  end.

(** The stem under which a request is counted: lines 180-186. *)
Definition stem (nm : option string) : string :=
  match nm with
  | None => "_mlir_gen"
  | Some nm =>
      let nm := strip_at nm in
      if String.eqb nm "" then "_mlir_gen" else nm
  end.

(** [fresh_symbol] on the counter table [_vars]; returns the name and the
    updated table. *)
Definition fresh_symbol (nm : option string) (_vars : gmap string nat)
  : string * gmap string nat :=
  let nm := stem nm in
  match _vars !! nm with
  | None => (nm, <[nm := 0]> _vars)
  | Some cnt => (nm +:+ "@" +:+ pretty cnt, <[nm := S cnt]> _vars)
  end.

(** A sequence of requests against one table, in order. *)
Fixpoint fresh_symbols (nms : list (option string)) (_vars : gmap string nat)
  : list string :=
  match nms with
  | [] => []
  | nm :: rest =>
      let '(s, _vars') := fresh_symbol nm _vars in
      s :: fresh_symbols rest _vars'
  end.

(** The name handed out for stem [nm] when it was requested [k] times
    before. *)
Definition render (nm : string) (k : nat) : string :=
  match k with
  | O => nm
  | S cnt => nm +:+ "@" +:+ pretty cnt
  end.

(** How often a stem was requested so far, read off the table. *)
Definition seen (_vars : gmap string nat) (nm : string) : nat :=
  match _vars !! nm with
  | None => 0
  | Some cnt => S cnt
  end.

(** Number of requests in [nms] that count under stem [nm]. *)
Definition requests (nm : string) (nms : list (option string)) : nat :=
  length (filter (λ b, stem b = nm) nms).

Fixpoint has_at (s : string) : bool :=
  match s with
  | EmptyString => false
  | String c s' => Ascii.eqb c "@"%char || has_at s'
  end.

End Names.


(** ** 4.1 Builtin registry: [BuiltinSet] *)

Module Builtins.

(** [addBuiltin(mlirName, pyName)]: [_builtins[name] = mlirName] with
    [name = pyName] unless it is [None]. *)
Definition addBuiltin (mlirName : string) (pyName : option string)
  (_builtins : gmap string string) : gmap string string :=
  let name := match pyName with Some p => p | None => mlirName end in
  <[name := mlirName]> _builtins.

(** The calls of [addBuiltins], in source order. *)
Definition addBuiltins_calls : list (string * option string) :=
  [ ("abs", None); ("aiter", None); ("all", None); ("any", None);
    ("anext", None); ("ascii", None); ("bin", None);
    ("bool_builtin", Some "bool"); ("breakpoint", None);
    ("bytearray", None); ("bytes", None); ("callable", None);
    ("chr", None); ("classmethod", None); ("compile", None);
    ("complex", None); ("delattr", None); ("dict", None); ("dir", None);
    ("divmod", None); ("enumerate", None); ("eval", None); ("exec", None);
    ("filter", None); ("float_builtin", Some "float"); ("format", None);
    ("frozenset", None); ("getattr", None); ("globals", None);
    ("hasattr", None); ("hash", None); ("help", None); ("hex", None);
    ("id", None); ("input", None); ("int_builtin", Some "int");
    ("isinstance", None); ("issubclass", None); ("iter", None);
    ("len", None); ("list", None); ("locals", None); ("map", None);
    ("max", None); ("memoryview", None); ("min", None); ("next", None);
    ("object", None); ("oct", None); ("open", None); ("ord", None);
    ("pow", None); ("print", None); ("property", None); ("range", None);
    ("repr", None); ("reversed", None); ("round", None); ("set", None);
    ("setattr", None); ("slice", None); ("sorted", None);
    ("staticmethod", None); ("str", None); ("sum", None); ("super", None);
    ("tuple", None); ("type", None); ("vars", None); ("zip", None);
    ("import", Some "__import__"); ("scriptmain", Some "__name__") ].

Definition bc : gmap string string :=
  foldl (λ m c, addBuiltin c.1 c.2 m) ∅ addBuiltins_calls.

Definition builtin_mlir_name (name : string) : option string := bc !! name.

End Builtins.

(** ** 3. The AST

    The node kinds of Python's [ast] module the two visitors have methods
    for, with the fields those methods read. Every other node class is
    [OtherExpr] / [OtherStmt]: for it [NodeVisitor.visit] falls back on
    [generic_visit], whose [None] makes the checked visit raise.

    The children of such a node are not kept. [generic_visit] visits them
    before it returns [None]: on such a node the program may lower
    children, or raise what a child raises, before the check raises, where
    the embedding raises at once. A visit of such a node raises in both,
    so the two agree on every run that returns and on every tree without
    such a node ([Supported]). *)

Record loc : Type := Loc { lineno : Z; col_offset : Z }.

Inductive expr_context : Type := Load | Store | Del.

(** [ast.Constant.value]. [bool] is a subclass of [int] in Python, which is
    what [isinstance(c.value, int)] sees. *)
Inductive constant : Type :=
  | CStr (s : string)
  | CInt (n : Z)
  | CBool (b : bool)
  | CNone
  | COther.                         (* float, complex, bytes, Ellipsis *)

Inductive operator : Type :=
  | Add | Sub | Mult | MatMult | Div | Mod | Pow
  | LShift | RShift | BitOr | BitXor | BitAnd | FloorDiv.

Inductive unaryop : Type := Invert | Not | UAdd | USub.

Inductive cmpop : Type :=
  | Eq | NotEq | Lt | LtE | Gt | GtE | Is | IsNot | In | NotIn.

(** Nested induction: the AST nests through [list], [option] and the three
    records below, so their lifting of a predicate is registered first and
    the induction principles of [expr] and [stmt] carry it. *)
Scheme All for list.
Scheme All for option.

(** [ast.arguments]; an [ast.arg] is its name [arg]. *)
Record arguments_ (E : Type) : Type := Arguments_ {
  args : list string;
  vararg : option string;
  kwonlyargs : list string;
  kw_defaults : list (option E);
  kwarg : option string;
  defaults : list E
}.
Arguments Arguments_ {E}.
Arguments args {E}. Arguments vararg {E}. Arguments kwonlyargs {E}.
Arguments kw_defaults {E}. Arguments kwarg {E}. Arguments defaults {E}.
Scheme All for arguments_.

(** [ast.keyword] *)
Record keyword_ (E : Type) : Type := Keyword {
  kw_arg : option string;
  kw_value : E
}.
Arguments Keyword {E}. Arguments kw_arg {E}. Arguments kw_value {E}.
Scheme All for keyword_.

(** [ast.comprehension]; [comp_id] stands for [id(g)], the identity of the
    node object. *)
Record comprehension_ (E : Type) : Type := Comprehension {
  comp_id : nat;
  target : E;
  iter : E;
  ifs : list E;
  is_async : bool
}.
Arguments Comprehension {E}. Arguments comp_id {E}. Arguments target {E}.
Arguments iter {E}. Arguments ifs {E}. Arguments is_async {E}.
Scheme All for comprehension_.

Inductive expr : Type :=
  | Constant (l : loc) (value : constant)
  | Name (l : loc) (id : string)
  | Attribute (l : loc) (value : expr) (attr : string) (ctx : expr_context)
  | Subscript (l : loc) (value : expr) (slice : expr)
  | Slice (l : loc) (lower upper step : option expr)
  | Tuple (l : loc) (elts : list expr)
  | List_ (l : loc) (elts : list expr)
  | UnaryOp (l : loc) (op : unaryop) (operand : expr)
  | BinOp (l : loc) (left : expr) (op : operator) (right : expr)
  | Compare (l : loc) (left : expr) (ops : list cmpop) (comparators : list expr)
  | Call (l : loc) (func : expr) (cargs : list expr)
         (keywords : list (keyword_ expr))
  | FormattedValue (l : loc) (value : expr) (conversion : Z)
                   (format_spec : option expr)
  | JoinedStr (l : loc) (values : list expr)
  | Lambda (l : loc) (node_id : nat) (largs : arguments_ expr) (body : expr)
  | ListComp (l : loc) (elt : expr) (generators : list (comprehension_ expr))
  | GeneratorExp (l : loc)
  | OtherExpr (l : loc).

Abbreviation arguments := (arguments_ expr).
Abbreviation keyword := (keyword_ expr).
Abbreviation comprehension := (comprehension_ expr).

(** [ast.alias] and [ast.withitem] *)
Record alias : Type := Alias { name : string; asname : option string }.
Record withitem : Type := WithItem {
  context_expr : expr;
  optional_vars : option expr
}.

Inductive stmt : Type :=
  | Assign (targets : list expr) (value : expr)
  | AugAssign (tgt : expr) (op : operator) (value : expr)
  | Expr (value : expr)
  | For (tgt : expr) (it : expr) (body orelse : list stmt)
  | FunctionDef (node_id : nat) (fname : string) (fargs : arguments)
                (body : list stmt)
  | If (test : expr) (body orelse : list stmt)
  | Import (names : list alias)
  | Return (value : option expr)
  | With (items : list withitem) (body : list stmt)
  | While (test : expr) (body orelse : list stmt)
  | OtherStmt.

(** [ast.Module] *)
Record module_ : Type := Module_ { mbody : list stmt }.

(** The position of an expression node. *)
Definition loc_of (e : expr) : loc :=
  match e with
  | Constant l _ | Name l _ | Attribute l _ _ _ | Subscript l _ _
  | Slice l _ _ _ | Tuple l _ | List_ l _ | UnaryOp l _ _ | BinOp l _ _ _
  | Compare l _ _ _ | Call l _ _ _ | FormattedValue l _ _ _ | JoinedStr l _
  | Lambda l _ _ _ | ListComp l _ _ | GeneratorExp l | OtherExpr l => l
  end.

(** An [ast.Name] node as the analyser stores it. *)
Record ast_Name : Type := AstName { nm_id : string; nm_loc : loc }.

(** ** 3. [VariableScope] *)

Module VariableScope.

(** [vars] is a dict used as an ordered set: its keys in insertion order.
    [parent_vars] is the list the constructor copies out of the analyser's
    [references]. *)
Record t : Type := Mk {
  vars : list string;
  parent_vars : list ast_Name
}.

(** [VariableScope.__init__(vars, parentVars)] *)
Definition init (vars : list string) (parentVars : list (string * ast_Name)) : t :=
  Mk vars (parentVars.*2).

End VariableScope.

(** The scope map: [id(node)] to the scope of the node. One dict object,
    shared by every analyser of a run. *)
Abbreviation scope_map := (gmap nat VariableScope.t).

(** ** 4.3 Scope analyser: [VariableCapture] *)

Module VariableCapture.

(** The fields an analyser object owns. Its [map] field aliases the one
    scope map of the run, which is threaded through as the store. *)
Record t : Type := Mk {
  vars : list string;                        (* Dict[str, None] *)
  references : list (string * ast_Name)      (* Dict[str, ast.Name] *)
}.

(** [VariableCapture(map)] *)
Definition init : t := Mk [] [].

(** Computations over the shared scope map that may raise. *)
Definition St (A : Type) : Type := scope_map → res (A * scope_map).

Definition ret {A} (a : A) : St A := λ m, Ok (a, m).
Definition bind {A B} (x : St A) (f : A → St B) : St B :=
  λ m, match x m with
       | Ok (a, m') => f a m'
       | Raise e => Raise e
       end.
Definition raise {A} (e : exn) : St A := λ _, Raise e.

#[global] Instance St_ret : MRet St := @ret.
#[global] Instance St_bind : MBind St := λ A B f x, bind x f.

(** [dict] membership and the two dict updates the analyser performs. *)
Definition has_key {V} (name : string) (d : list (string * V)) : bool :=
  bool_decide (name ∈ d.*1).
Definition set_add (name : string) (d : list string) : list string :=
  if bool_decide (name ∈ d) then d else d ++ [name].
Definition dict_pop {V} (name : string) (d : list (string * V)) : list (string * V) :=
  filter (λ kv, kv.1 ≠ name) d.

Definition add_reference (ast : ast_Name) (self : t) : t :=
  let name := nm_id ast in
  if bool_decide (Builtins.builtin_mlir_name name = None)
     && negb (bool_decide (name ∈ vars self))
     && negb (has_key name (references self))
  then Mk (vars self) (references self ++ [(name, ast)])
  else self.

(** [mkScope]: the scope holds the analyser's own [vars] dict and a copy of
    the values of [references]. An analyser is not written to after its
    scope is made, so the scope's [vars] is the value at that time. *)
Definition mkScope (self : t) : VariableScope.t :=
  VariableScope.init (vars self) (references self).

(** [close_scope(id, inner)]: the loop runs over [inner.references.values()]. *)
Definition close_scope (id : nat) (inner : t) (self : t) : St t :=
  λ m, Ok (foldl (λ s v, add_reference v s) self (references inner).*2,
           <[id := mkScope inner]> m).

Definition addVar (name : string) (self : t) : t :=
  Mk (set_add name (vars self)) (dict_pop name (references self)).

(** A [for] loop over nodes whose body can only raise. *)
Definition each_r {A} (f : A → t → res t) : list A → t → res t :=
  fix go (l : list A) (self : t) : res t :=
    match l with
    | [] => Ok self
    | x :: rest =>
        match f x self with
        | Ok self' => go rest self'
        | Raise e => Raise e
        end
    end.

Fixpoint addLhs (tgt : expr) (self : t) {struct tgt} : res t :=
  match tgt with
  | Tuple _ elts => each_r addLhs elts self
  | Name _ id => Ok (addVar id self)
  | _ => Raise UnexpectedTarget
  end.

Definition lift {A} (r : res A) : St A :=
  λ m, match r with Ok a => Ok (a, m) | Raise e => Raise e end.

Definition assert (b : bool) : St unit :=
  if b then ret tt else raise AssertionError.

Definition addArgs (a : arguments) (self : t) : St t :=
  let self := foldl (λ s x, addVar x s) self (args a) in
  _ ← assert (bool_decide (vararg a = None));
  _ ← assert (bool_decide (length (kwonlyargs a) = 0));
  _ ← assert (bool_decide (length (kw_defaults a) = 0));
  _ ← assert (bool_decide (kwarg a = None));
  _ ← assert (bool_decide (length (defaults a) = 0));
  ret self.

(** A [for] loop over a list of nodes, each visited on the analyser the
    previous visit left. *)
Definition each {A} (f : A → t → St t) : list A → t → St t :=
  fix go (l : list A) (self : t) : St t :=
    match l with
    | [] => ret self
    | x :: rest => self ← f x self; go rest self
    end.

Definition opt {A} (f : A → t → St t) (o : option A) (self : t) : St t :=
  match o with
  | Some x => f x self
  | None => ret self
  end.

(** The first loop of [visit_ListComp]: each generator's iterable is visited
    on the current analyser, which is then pushed on [captures] (innermost
    first here) and replaced by a new one holding the generator's target. *)
Definition comp_loop (visit : expr → t → St t)
  : list comprehension → t → list t → St (t * list t) :=
  fix loop (gen : list comprehension) (var_capture : t) (captures : list t) :=
    match gen with
    | [] => ret (var_capture, captures)
    | g :: rest =>
        _ ← assert (negb (is_async g));
        _ ← assert (bool_decide (length (ifs g) = 0));
        var_capture ← visit (iter g) var_capture;
        inner ← lift (addLhs (target g) init);
        loop rest inner (var_capture :: captures)
    end.

(** The unwinding loop of [visit_ListComp]: [captures] holds the analysers
    from the innermost outer one to [self], [ids] the generators' identities
    in the same order. *)
Fixpoint pop_captures (ids : list nat) (captures : list t) (var_capture : t) : St t :=
  match ids, captures with
  | i :: ids', outer :: captures' =>
      outer ← close_scope i var_capture outer;
      pop_captures ids' captures' outer
  | _, _ => ret var_capture
  end.

(** [checked_visit_expr]: every expression visitor below returns [True];
    a class without a visitor yields [None] and the check raises. *)
Fixpoint checked_visit_expr (e : expr) (self : t) {struct e} : St t :=
  match e with
  | Attribute _ value _ ctx =>
      self ← checked_visit_expr value self;
      match ctx with
      | Load => ret self
      | Store => raise StoreAttributeUnsupported
      | Del => raise DeleteAttributeUnsupported
      end
  | BinOp _ e_left _ e_right =>
      self ← checked_visit_expr e_left self;
      checked_visit_expr e_right self
  | Call _ func cargs keywords =>
      self ← checked_visit_expr func self;
      self ← each checked_visit_expr cargs self;
      each (λ k, checked_visit_expr (kw_value k)) keywords self
  | Compare _ e_left _ comparators =>
      self ← checked_visit_expr e_left self;
      each checked_visit_expr comparators self
  | Constant _ _ => ret self
  | FormattedValue _ value conversion format_spec =>
      self ← checked_visit_expr value self;
      if bool_decide (conversion ≠ (-1)%Z) then raise ConversionUnsupported
      else opt checked_visit_expr format_spec self
  | GeneratorExp _ => ret self
  | JoinedStr _ values => each checked_visit_expr values self
  | Lambda _ node_id largs body =>
      var_capture ← addArgs largs init;
      var_capture ← checked_visit_expr body var_capture;
      close_scope node_id var_capture self
  | List_ _ elts => each checked_visit_expr elts self
  | ListComp _ elt gen =>
      '(var_capture, captures) ← comp_loop checked_visit_expr gen self [];
      var_capture ← checked_visit_expr elt var_capture;
      pop_captures (rev (map comp_id gen)) captures var_capture
  | Name l id => ret (add_reference (AstName id l) self)
  | Slice _ lower upper step =>
      self ← opt checked_visit_expr upper self;
      self ← opt checked_visit_expr lower self;
      opt checked_visit_expr step self
  | Subscript _ value slice =>
      self ← checked_visit_expr value self;
      checked_visit_expr slice self
  | Tuple _ elts => each checked_visit_expr elts self
  | UnaryOp _ _ operand => checked_visit_expr operand self
  | OtherExpr _ => raise UnsupportedExpression
  end.

Definition addAssignLhs (tgt : expr) (self : t) : St t :=
  match tgt with
  | Subscript _ value slice =>
      self ← checked_visit_expr value self;
      checked_visit_expr slice self
  | _ => lift (addLhs tgt self)
  end.

(** [a.asname or a.name]: an empty [asname] is falsy as well. *)
Definition alias_binding (a : alias) : string :=
  match asname a with
  | Some s => if String.eqb s "" then name a else s
  | None => name a
  end.

Definition nonempty {A} (l : list A) : bool :=
  match l with [] => false | _ => true end.

Fixpoint checked_visit_stmt (s : stmt) (self : t) {struct s} : St t :=
  match s with
  | Assign targets value =>
      self ← checked_visit_expr value self;
      each addAssignLhs targets self
  | AugAssign tgt _ value =>
      self ← addAssignLhs tgt self;
      checked_visit_expr value self
  | Expr value => checked_visit_expr value self
  | For tgt it body orelse =>
      self ← lift (addLhs tgt self);
      self ← checked_visit_expr it self;
      self ← each checked_visit_stmt body self;
      each checked_visit_stmt orelse self
  | FunctionDef node_id fname fargs body =>
      let self := addVar fname self in
      var_capture ← addArgs fargs init;
      var_capture ← each checked_visit_stmt body var_capture;
      close_scope node_id var_capture self
  | If test body orelse =>
      self ← checked_visit_expr test self;
      self ← (if nonempty body then each checked_visit_stmt body self
               else ret self);
      if nonempty orelse then each checked_visit_stmt orelse self
      else ret self
  | Import names =>
      ret (foldl (λ s a, addVar (alias_binding a) s) self names)
  | Return value => opt checked_visit_expr value self
  | With items body =>
      self ← each (λ item, checked_visit_expr (context_expr item)) items self;
      each checked_visit_stmt body self
  | While test body orelse =>
      self ← checked_visit_expr test self;
      self ← each checked_visit_stmt body self;
      each checked_visit_stmt orelse self
  | OtherStmt => raise UnsupportedExpression
  end.

Definition visit_stmts (stmts : list stmt) (self : t) : St t :=
  each checked_visit_stmt stmts self.

(** Locals and free names of a scope do not meet. *)
Definition locals_free_disjoint (s : VariableScope.t) : Prop :=
  ∀ n, n ∈ VariableScope.vars s → n ∉ nm_id <$> VariableScope.parent_vars s.

(** What every analyser object satisfies: the key of a reference is the
    identifier of its node, and no local is a key of [references]. *)
Definition cap_ok (c : t) : Prop :=
  (∀ k a, (k, a) ∈ references c → k = nm_id a) ∧
  (∀ k, k ∈ vars c → k ∉ (references c).*1).

Definition map_ok (m : scope_map) : Prop :=
  ∀ i s, m !! i = Some s → locals_free_disjoint s.

(** A visitor keeps both. *)
Definition preserves (f : t → St t) : Prop :=
  ∀ c m c' m', cap_ok c → map_ok m → f c m = Ok (c', m') → cap_ok c' ∧ map_ok m'.

End VariableCapture.

(** ** 6.2 The IR under construction

    What the translator asks of the IR library: blocks that belong to the
    region of a function and carry typed arguments, operations appended at
    the end of a block, value handles. A block handle is its index in
    [blocks] (blocks are appended and never deleted), a function its index
    in [funcs]. *)

Inductive ty : Type := ScopeType | CellType | ValueType | ReturnValueType.

Inductive Value : Type :=
  | OpResult (n : nat)               (* the result of the [n]-th op built *)
  | BlockArg (b : nat) (i : nat).    (* [block.arguments[i]] *)

(** The two-operand and one-operand op classes of the dialect that take a
    return and an exception successor. *)
Inductive binop_class : Type :=
  | AddOp | BitAndOp | BitOrOp | BitXorOp | DivOp | FloorDivOp | LShiftOp
  | ModOp | MultOp | MatMultOp | PowOp | RShiftOp | SubOp
  | EqOp | GtOp | GtEOp | InOp | IsOp | IsNotOp | LtOp | LtEOp | NotEqOp
  | NotInOp.

Inductive unop_class : Type := InvertOp | NotOp | UAddOp | USubOp.

Inductive Op : Type :=
  | CellAlloc (r : Value)
  | CellLoad (r : Value) (cell : Value)
  | CellStore (cell : Value) (v : Value)
  | BranchOp (bargs : list Value) (dest : nat)
  | CondBranchOp (c : Value) (true_args false_args : list Value)
                 (true_dest false_dest : nat)
  | InvokeOp (method : Value) (iargs : list Value)
             (keys : option (list string)) (returnBlock exceptBlock : nat)
  | BinaryOp (cls : binop_class) (lhs rhs : Value) (returnBlock exceptBlock : nat)
  | UnaryOp_ (cls : unop_class) (arg : Value) (returnBlock exceptBlock : nat)
  | IsInstance (r : Value) (v : Value) (cls : string)
  | Truthy (r : Value) (v : Value)
  | ListOp (r : Value) (elems : list Value)
  | TupleOp (r : Value) (elems : list Value)
  | TupleCheck (v : Value) (n : Z)
  | TupleGet (r : Value) (v : Value) (i : Z)
  | ArraySet (a idx v : Value)
  | StrLit (r : Value) (s : string)
  | S64Lit (r : Value) (n : Z)
  | IntLit (r : Value) (s : string)
  | NoneOp (r : Value)
  | UndefinedOp (r : Value)
  | Builtin (r : Value) (nm : string)
  | ModuleOp (r : Value) (nm : string)
  | FunctionRef (r : Value) (symbol : string) (arg_names : list string)
                (scope : Value) (closure_cells : list Value)
  | GetMethod (r : Value) (w : Value) (nm : string)
  | FormattedString (r : Value) (parts : list Value)
  | MkExceptOp (r : Value) (v : Value)
  | MkReturnOp (r : Value) (v : Value)
  | ReturnOp (vals : list Value)
  | ScopeInit (r : Value) (names : list string) (cells : list Value)
  | ScopeExtend (r : Value) (scope : Value) (names : list string)
                (cells : list Value).

(** The successor blocks of an op. *)
Definition successors (o : Op) : list nat :=
  match o with
  | BranchOp _ d => [d]
  | CondBranchOp _ _ _ t f => [t; f]
  | InvokeOp _ _ _ r e | BinaryOp _ _ _ r e | UnaryOp_ _ _ r e => [r; e]
  | _ => []
  end.

(** The ops that can raise: the ones built with a return and an exception
    successor. *)
Definition fallible (o : Op) : bool :=
  match o with
  | InvokeOp _ _ _ _ _ | BinaryOp _ _ _ _ _ | UnaryOp_ _ _ _ _ => true
  | _ => false
  end.

(** The exception successor of a fallible op. *)
Definition failure_successor (o : Op) : option nat :=
  match o with
  | InvokeOp _ _ _ _ e | BinaryOp _ _ _ _ e | UnaryOp_ _ _ _ e => Some e
  | _ => None
  end.

Record Block : Type := MkBlock {
  blk_parent : nat;                  (* the function whose region holds it *)
  blk_args : list ty;
  blk_ops : list Op
}.

Record FuncOp : Type := MkFuncOp {
  sym_name : string;
  arg_types : list ty;
  result_types : list ty;
  region : list nat                  (* its blocks, in region order *)
}.

(** The state the translators of a run share: the MLIR module, the
    [Module] object's [_scope_map] and [_vars], and what was written to
    [sys.stderr]. *)
Record State : Type := MkState {
  funcs : list FuncOp;
  blocks : list Block;
  next_result : nat;
  _scope_map : scope_map;
  _vars : gmap string nat;
  stderr : list string
}.

Module IR.

Definition set_blocks (f : list Block → list Block) (g : State) : State :=
  MkState (funcs g) (f (blocks g)) (next_result g) (_scope_map g) (_vars g)
          (stderr g).
Definition set_funcs (f : list FuncOp → list FuncOp) (g : State) : State :=
  MkState (f (funcs g)) (blocks g) (next_result g) (_scope_map g) (_vars g)
          (stderr g).

Definition parent_of (g : State) (b : nat) : nat :=
  match blocks g !! b with Some blk => blk_parent blk | None => 0 end.

Definition ops_of (g : State) (b : nat) : list Op :=
  match blocks g !! b with Some blk => blk_ops blk | None => [] end.

(** Position after [b] in a region; at the end when [b] is not in it. *)
Fixpoint insert_after (b new : nat) (r : list nat) : list nat :=
  match r with
  | [] => [new]
  | x :: r' => if decide (x = b) then x :: new :: r' else x :: insert_after b new r'
  end.

(** [b.create_after(tys...)]: a new block in the region of [b], right after
    [b]. *)
Definition create_after (b : nat) (tys : list ty) (g : State) : nat * State :=
  let new := length (blocks g) in
  let f := parent_of g b in
  (new,
   set_funcs (alter (λ fn, MkFuncOp (sym_name fn) (arg_types fn)
                                    (result_types fn)
                                    (insert_after b new (region fn))) f)
     (set_blocks (λ bs, bs ++ [MkBlock f tys []]) g)).

(** [builtin_d.FuncOp(name, FunctionType.get(args, results))] appended to
    the module body, then [Block.create_at_start(fun.regions[0], args)]. *)
Definition create_func (name : string) (args results : list ty) (g : State)
  : nat * State :=
  let new := length (blocks g) in
  let f := length (funcs g) in
  (new,
   set_funcs (λ fs, fs ++ [MkFuncOp name args results [new]])
     (set_blocks (λ bs, bs ++ [MkBlock f args []]) g)).

(** An op built under [InsertionPoint(b)]: appended to [b]. *)
Definition append_op (b : nat) (o : Op) (g : State) : State :=
  set_blocks (alter (λ blk, MkBlock (blk_parent blk) (blk_args blk)
                                    (blk_ops blk ++ [o])) b) g.

Definition fresh_result (g : State) : Value * State :=
  (OpResult (next_result g),
   MkState (funcs g) (blocks g) (S (next_result g)) (_scope_map g) (_vars g)
           (stderr g)).

(** An op with one result, built under [InsertionPoint(b)]. *)
Definition build (b : nat) (mk : Value → Op) (g : State) : Value * State :=
  let '(r, g) := fresh_result g in
  (r, append_op b (mk r) g).

End IR.

(** ** Module-level functions of the program *)

(** [alloc_variable_cells(map, names, cells, block, vars)]: the three
    containers are updated in place; here they are returned. *)
Fixpoint alloc_variable_cells (map : gmap string Value) (names : list string)
  (cells : list Value) (block : nat) (vars : list string) (g : State)
  : (gmap string Value * list string * list Value) * State :=
  match vars with
  | [] => ((map, names, cells), g)
  | var :: rest =>
      let '(cell, g) := IR.build block CellAlloc g in
      alloc_variable_cells (<[var := cell]> map) (names ++ [var])
                           (cells ++ [cell]) block rest g
  end.

(** [invoke_next(next, curBlock, doneBlock, throwBlock)] *)
Definition invoke_next (next : Value) (curBlock doneBlock throwBlock : nat)
  (g : State) : (nat * nat * Value) * State :=
  let '(nextBlock, g) := IR.create_after curBlock [] g in
  let g := IR.append_op curBlock (BranchOp [] nextBlock) g in
  let '(bodyBlock, g) := IR.create_after nextBlock [ValueType] g in
  let '(exceptBlock, g) := IR.create_after nextBlock [ValueType] g in
  let g := IR.append_op nextBlock
             (InvokeOp next [] None bodyBlock exceptBlock) g in
  let exception := BlockArg exceptBlock 0 in
  let '(c, g) := IR.build exceptBlock
                   (λ r, IsInstance r exception "StopIteration") g in
  let g := IR.append_op exceptBlock
             (CondBranchOp c [] [exception] doneBlock throwBlock) g in
  ((nextBlock, bodyBlock, BlockArg bodyBlock 0), g).

(** ** 3. [LoweringContext]: the fields of a [Translator] *)

(** [onDone] is [None] or the closure [visit_With] installs, which holds
    the [exitMethods] of its statement and the [prevDone] it replaced. *)
Inductive OnDone : Type :=
  | NoDone
  | DoneClosure (exitMethods : list Value) (prevDone : OnDone).

Module Translator.

Record t : Type := Mk {
  block : nat;
  onDone : OnDone;
  exceptBlock : option nat;
  _cell_map : gmap string Value;
  _scope_value : Value
}.

(** [Translator(m, block, scope, cell_map)] *)
Definition init (block : nat) (scope : Value) (cell_map : gmap string Value) : t :=
  Mk block NoDone None cell_map scope.

Definition set_block (b : nat) (s : t) : t :=
  Mk b (onDone s) (exceptBlock s) (_cell_map s) (_scope_value s).
Definition set_onDone (d : OnDone) (s : t) : t :=
  Mk (block s) d (exceptBlock s) (_cell_map s) (_scope_value s).
Definition set_exceptBlock (e : option nat) (s : t) : t :=
  Mk (block s) (onDone s) e (_cell_map s) (_scope_value s).
Definition set_cell_map (m : gmap string Value) (s : t) : t :=
  Mk (block s) (onDone s) (exceptBlock s) m (_scope_value s).
Definition set_scope_value (v : Value) (s : t) : t :=
  Mk (block s) (onDone s) (exceptBlock s) (_cell_map s) v.

(** A method of a translator: it reads and writes the fields of [self] and
    the shared state, and returns or raises. The shared state is kept when
    it raises. *)
Definition M (A : Type) : Type := t → State → State * res (A * t).

Definition ret {A} (a : A) : M A := λ self g, (g, Ok (a, self)).
Definition bind {A B} (x : M A) (f : A → M B) : M B :=
  λ self g,
    match x self g with
    | (g', Ok (a, self')) => f a self' g'
    | (g', Raise e) => (g', Raise e)
    end.
#[global] Instance M_ret : MRet M := @ret.
#[global] Instance M_bind : MBind M := λ A B f x, bind x f.

Definition raise {A} (e : exn) : M A := λ _ g, (g, Raise e).
Definition get : M t := λ self g, (g, Ok (self, self)).
Definition modify (f : t → t) : M unit := λ self g, (g, Ok (tt, f self)).
Definition state {A} (f : State → A * State) : M A :=
  λ self g, let '(a, g') := f g in (g', Ok (a, self)).
Definition read {A} (f : State → A) : M A := λ self g, (g, Ok (f g, self)).
Definition lift {A} (r : res A) : M A :=
  λ self g, match r with Ok a => (g, Ok (a, self)) | Raise e => (g, Raise e) end.
Definition assert (b : bool) : M unit :=
  if b then ret tt else raise AssertionError.

(** A method call on another translator object: [child.method()] runs on
    the fields of [child]; [self] is untouched. *)
Definition on {A} (child : t) (x : M A) : M (A * t) :=
  λ self g,
    match x child g with
    | (g', Ok (a, child')) => (g', Ok ((a, child'), self))
    | (g', Raise e) => (g', Raise e)
    end.

(** Building ops. *)
Definition create_after (b : nat) (tys : list ty) : M nat :=
  state (IR.create_after b tys).
Definition emit (b : nat) (o : Op) : M unit :=
  state (λ g, (tt, IR.append_op b o g)).
Definition build (b : nat) (mk : Value → Op) : M Value :=
  state (IR.build b mk).

(** [for x in l: out.append(f(x))] *)
Definition mapM {A B} (f : A → M B) : list A → M (list B) :=
  fix go (l : list A) : M (list B) :=
    match l with
    | [] => mret []
    | x :: rest => y ← f x; ys ← go rest; mret (y :: ys)
    end.

Definition forM_ {A} (f : A → M unit) : list A → M unit :=
  fix go (l : list A) : M unit :=
    match l with
    | [] => mret tt
    | x :: rest => _ ← f x; go rest
    end.

(** *** Support methods *)

Definition class_name (e : expr) : string :=
  match e with
  | Constant _ _ => "Constant" | Name _ _ => "Name"
  | Attribute _ _ _ _ => "Attribute" | Subscript _ _ _ => "Subscript"
  | Slice _ _ _ _ => "Slice" | Tuple _ _ => "Tuple" | List_ _ _ => "List"
  | UnaryOp _ _ _ => "UnaryOp" | BinOp _ _ _ _ => "BinOp"
  | Compare _ _ _ _ => "Compare" | Call _ _ _ _ => "Call"
  | FormattedValue _ _ _ _ => "FormattedValue" | JoinedStr _ _ => "JoinedStr"
  | Lambda _ _ _ _ => "Lambda" | ListComp _ _ _ => "ListComp"
  | GeneratorExp _ => "GeneratorExp" | OtherExpr _ => "expr"
  end.

Definition nl : string := String (ascii_of_nat 10) EmptyString.

Definition undef_value (e : expr) : M Value :=
  _ ← state (λ g, (tt, MkState (funcs g) (blocks g) (next_result g)
                          (_scope_map g) (_vars g)
                          (stderr g ++
                             ["Unsupported value " +:+ class_name e +:+ " at "
                              +:+ pretty (lineno (loc_of e)) +:+ ":"
                              +:+ pretty (col_offset (loc_of e)) +:+ nl])));
  self ← get;
  build (block self) UndefinedOp.

Definition none_value : M Value :=
  self ← get; build (block self) NoneOp.

Definition get_method (w : Value) (name : string) : M Value :=
  self ← get; build (block self) (λ r, GetMethod r w name).

Definition get_except_block : M nat :=
  self ← get;
  match exceptBlock self with
  | Some b => mret b
  | None =>
      exceptBlock ← create_after (block self) [ValueType];
      r ← build exceptBlock (λ r, MkExceptOp r (BlockArg exceptBlock 0));
      _ ← emit exceptBlock (ReturnOp [r]);
      _ ← modify (set_exceptBlock (Some exceptBlock));
      mret exceptBlock
  end.

Definition invoke (method : Value) (args : list Value)
  (keywords : option (list string)) : M Value :=
  let keyAttr := match keywords with
                 | None | Some [] => None
                 | Some ks => Some ks
                 end in
  exceptBlock ← get_except_block;
  self ← get;
  returnBlock ← create_after (block self) [ValueType];
  _ ← emit (block self) (InvokeOp method args keyAttr returnBlock exceptBlock);
  _ ← modify (set_block returnBlock);
  mret (BlockArg returnBlock 0).

Definition format_value (v : Value) (format : Value) : M Value :=
  m ← get_method v "__format__";
  invoke m [v; format] None.

(** [self._cell_map[name]], a [KeyError] when the name has no cell. *)
Definition cell_of (name : string) : M Value :=
  self ← get;
  match _cell_map self !! name with
  | Some c => mret c
  | None => raise (KeyError name)
  end.

Definition pythonImport (module : string) (name : string) : M unit :=
  self ← get;
  m ← build (block self) (λ r, ModuleOp r module);
  c ← cell_of name;
  emit (block self) (CellStore c m).

Definition joined_string (args : list Value) : M Value :=
  self ← get; build (block self) (λ r, FormattedString r args).

Definition string_constant (c : string) : M Value :=
  self ← get; build (block self) (λ r, StrLit r c).

Definition int_constant (c : Z) : M Value :=
  self ← get;
  if bool_decide (- 2 ^ 63 ≤ c)%Z && bool_decide (c < 2 ^ 63)%Z
  then build (block self) (λ r, S64Lit r c)
  else build (block self) (λ r, IntLit r (pretty c)).

Definition builtin (name : string) : M Value :=
  self ← get; build (block self) (λ r, Builtin r name).

Definition load_value_attribute (v : Value) (attr : string) : M Value :=
  get_ ← builtin "getattr";
  s ← string_constant attr;
  invoke get_ [v; s] None.

Definition returnOp (v : Value) : M unit :=
  self ← get;
  r ← build (block self) (λ r, MkReturnOp r v);
  emit (block self) (ReturnOp [r]).

Definition _lookup_cell (l : loc) (name : string) : M Value :=
  self ← get;
  match _cell_map self !! name with
  | Some c => mret c
  | None => raise (CouldNotFindVariable name (lineno l) (col_offset l))
  end.

(** [Module.fresh_symbol] and [Module.get_scope] on the shared module. *)
Definition fresh_symbol (nm : option string) : M string :=
  state (λ g, let '(s, v) := Names.fresh_symbol nm (_vars g) in
              (s, MkState (funcs g) (blocks g) (next_result g) (_scope_map g)
                          v (stderr g))).

Definition get_scope (ident : nat) : M VariableScope.t :=
  m ← read _scope_map;
  match m !! ident with
  | Some s => mret s
  | None => raise (ScopeKeyError ident)
  end.

(** The loop of [create_fun] over the captured variables, from index [i]. *)
Fixpoint capture_args (fun_block : nat) (captured_vars : list ast_Name) (i : nat)
  (fun_cell_map : gmap string Value) (fun_name_attrs : list string)
  (fun_cells closure_cells : list Value)
  : M (gmap string Value * list string * list Value * list Value) :=
  match captured_vars with
  | [] => mret (fun_cell_map, fun_name_attrs, fun_cells, closure_cells)
  | ast :: rest =>
      let name := nm_id ast in
      let cell := BlockArg fun_block (1 + i) in
      c ← _lookup_cell (nm_loc ast) name;
      capture_args fun_block rest (S i) (<[name := cell]> fun_cell_map)
                   (fun_name_attrs ++ [name]) (fun_cells ++ [cell])
                   (closure_cells ++ [c])
  end.

(** The loop of [create_fun] over the explicit arguments, from index [i]. *)
Fixpoint store_args (fun_block : nat) (fun_cell_map : gmap string Value)
  (capture_count : nat) (names : list string) (i : nat) : M unit :=
  match names with
  | [] => mret tt
  | name :: rest =>
      match fun_cell_map !! name with
      | None => raise (KeyError name)
      | Some arg_cell =>
          _ ← emit fun_block
                (CellStore arg_cell (BlockArg fun_block (1 + capture_count + i)));
          store_args fun_block fun_cell_map capture_count rest (S i)
      end
  end.

Definition create_fun (name : string) (a : arguments) (var_scope : VariableScope.t)
  : M (t * Value) :=
  _ ← assert (bool_decide (vararg a = None));
  _ ← assert (bool_decide (length (kwonlyargs a) = 0));
  _ ← assert (bool_decide (length (kw_defaults a) = 0));
  _ ← assert (bool_decide (kwarg a = None));
  _ ← assert (bool_decide (length (defaults a) = 0));
  let arg_count := length (args a) in
  symbol_name ← fresh_symbol (Some name);
  let captured_vars := VariableScope.parent_vars var_scope in
  let capture_count := length captured_vars in
  let arg_types := [ScopeType] ++ replicate capture_count CellType
                               ++ replicate arg_count ValueType in
  fun_block ← state (IR.create_func symbol_name arg_types [ReturnValueType]);
  '(fun_cell_map, fun_name_attrs, fun_cells, closure_cells) ←
    capture_args fun_block captured_vars 0 ∅ [] [] [];
  '(fun_cell_map, fun_name_attrs, fun_cells) ←
    state (alloc_variable_cells fun_cell_map fun_name_attrs fun_cells
                                fun_block (VariableScope.vars var_scope));
  fun_scope ← build fun_block
                (λ r, ScopeExtend r (BlockArg fun_block 0) fun_name_attrs fun_cells);
  _ ← store_args fun_block fun_cell_map capture_count (args a) 0;
  let fun_translator := init fun_block fun_scope fun_cell_map in
  self ← get;
  fun_value ← build (block self)
                (λ r, FunctionRef r symbol_name (args a) (_scope_value self)
                                  closure_cells);
  mret (fun_translator, fun_value).

(** *** Operator tables *)

Definition bin_operator_map (op : operator) : option binop_class :=
  match op with
  | Add => Some AddOp | BitAnd => Some BitAndOp | BitOr => Some BitOrOp
  | BitXor => Some BitXorOp | Div => Some DivOp | FloorDiv => Some FloorDivOp
  | LShift => Some LShiftOp | Mod => Some ModOp | Mult => Some MultOp
  | MatMult => Some MatMultOp | Pow => Some PowOp | RShift => Some RShiftOp
  | Sub => Some SubOp
  end.

Definition comparison_map (op : cmpop) : option binop_class :=
  match op with
  | Eq => Some EqOp | Gt => Some GtOp | GtE => Some GtEOp | In => Some InOp
  | Is => Some IsOp | IsNot => Some IsNotOp | Lt => Some LtOp
  | LtE => Some LtEOp | NotEq => Some NotEqOp | NotIn => Some NotInOp
  end.

Definition unary_operator_map (op : unaryop) : option unop_class :=
  match op with
  | Invert => Some InvertOp | Not => Some NotOp | UAdd => Some UAddOp
  | USub => Some USubOp
  end.

Definition apply_binop (left_ : Value) (op : binop_class) (right_ : Value) : M Value :=
  exceptBlock ← get_except_block;
  self ← get;
  returnBlock ← create_after (block self) [ValueType];
  _ ← emit (block self) (BinaryOp op left_ right_ returnBlock exceptBlock);
  _ ← modify (set_block returnBlock);
  mret (BlockArg returnBlock 0).

Definition apply_unop (op : unop_class) (arg : Value) : M Value :=
  exceptBlock ← get_except_block;
  self ← get;
  returnBlock ← create_after (block self) [ValueType];
  _ ← emit (block self) (UnaryOp_ op arg returnBlock exceptBlock);
  _ ← modify (set_block returnBlock);
  mret (BlockArg returnBlock 0).

(** *** 4.5 Expressions *)

Definition visit_Constant (value : constant) : M Value :=
  match value with
  | CStr s => string_constant s
  | CInt n => int_constant n
  | CBool b => int_constant (Z.b2z b)  (* [isinstance(True, int)] holds *)
  | CNone | COther => raise UnknownConstant
  end.

Definition visit_Name (l : loc) (name : string) : M Value :=
  self ← get;
  match _cell_map self !! name with
  | Some cell => build (block self) (λ r, CellLoad r cell)
  | None =>
      match Builtins.builtin_mlir_name name with
      | None => raise (CouldNotFindVariable name (lineno l) (col_offset l))
      | Some mlir_name => builtin mlir_name
      end
  end.

(** The loop of [visit_Compare]: [args] is the iterator over the
    comparators, advanced once per operator. *)
Definition compare_loop (e : expr) (visit : expr → M Value)
  : list expr → list cmpop → Value → M Value :=
  fix loop (args : list expr) (ops : list cmpop) (left_ : Value) {struct args} :=
    match ops with
    | [] => mret left_
    | cmpop :: ops' =>
        match args with
        | [] => raise StopIterationError
        | a :: args' =>
            right_ ← visit a;
            left_ ← match comparison_map cmpop with
                    | None => undef_value e
                    | Some op => apply_binop left_ op right_
                    end;
            loop args' ops' left_
        end
    end.

(** The keyword loop of [visit_Call]: values are appended to [args], names
    to [keywords]. *)
Definition call_keywords (visit : expr → M Value)
  : list keyword → list Value → list string → M (list Value * list string) :=
  fix loop (ks : list keyword) (args : list Value) (keywords : list string) :=
    match ks with
    | [] => mret (args, keywords)
    | k :: rest =>
        match kw_arg k with
        | None => raise UnexpectedStarStar
        | Some arg =>
            v ← visit (kw_value k);
            loop rest (args ++ [v]) (keywords ++ [arg])
        end
    end.

(** The loop of [visit_JoinedStr]. *)
Definition joined_parts (visit : expr → M Value) : list expr → M (list Value) :=
  fix loop (values : list expr) : M (list Value) :=
    match values with
    | [] => mret []
    | a :: rest =>
        v ← match a with
            | Constant _ c => visit_Constant c
            | FormattedValue _ _ _ _ => visit a
            | _ => raise JoinExpected
            end;
        vs ← loop rest;
        mret (v :: vs)
    end.

(** The loop of [assign_lhs] over the elements of a tuple target: the
    [TupleGet] ops are built under the insertion point [b0] entered before
    the loop. *)
Definition tuple_targets (assign : expr → Value → M unit) (b0 : nat) (v : Value)
  : list expr → Z → M unit :=
  fix loop (elts : list expr) (i : Z) : M unit :=
    match elts with
    | [] => mret tt
    | tgt :: rest =>
        sv ← build b0 (λ r, TupleGet r v i);
        _ ← assign tgt sv;
        loop rest (i + 1)%Z
    end.

(** The generator loop of [visit_ListComp]. [l] is the local variable of
    that name: unbound before the first generator. *)
Definition generators_loop (visit : expr → M Value)
  (assign : expr → Value → M unit) (throwBlock : nat)
  : list comprehension → nat → option Value → M (nat * option Value) :=
  fix loop (gens : list comprehension) (doneBlock : nat) (l : option Value) :=
    match gens with
    | [] => mret (doneBlock, l)
    | g :: rest =>
        _ ← assert (negb (is_async g));
        _ ← assert (bool_decide (length (ifs g) = 0));
        l ← visit (iter g);
        it ← get_method l "__iter__";
        i ← invoke it [] None;
        next ← get_method i "__next__";
        self ← get;
        '(nextBlock, bodyBlock, bodyValue) ←
          state (invoke_next next (block self) doneBlock throwBlock);
        _ ← modify (set_block bodyBlock);
        inner_var_scope ← get_scope (comp_id g);
        self ← get;
        '(cell_map, var_name_attrs, cells) ←
          state (alloc_variable_cells (_cell_map self) [] [] (block self)
                                      (VariableScope.vars inner_var_scope));
        _ ← modify (set_cell_map cell_map);
        self ← get;
        sv ← build (block self)
               (λ r, ScopeExtend r (_scope_value self) var_name_attrs cells);
        _ ← modify (set_scope_value sv);
        _ ← assign (target g) bodyValue;
        loop rest nextBlock (Some l)
    end.

Definition is_other (e : expr) : bool :=
  match e with OtherExpr _ => true | _ => false end.

(** [checked_visit_expr] and [assign_lhs]. For a node class without a
    visitor method [visit] returns [None] and the check raises; what
    [generic_visit] does to the children before that is not modelled. *)
Fixpoint checked_visit_expr (e : expr) {struct e} : M Value :=
  match e with
  | Attribute _ value attr ctx =>
      val ← checked_visit_expr value;
      match ctx with
      | Load => load_value_attribute val attr
      | Store => raise StoreAttributeUnsupported
      | Del => raise DeleteAttributeUnsupported
      end
  | BinOp _ e_left op e_right =>
      match bin_operator_map op with
      | None => undef_value e
      | Some op =>
          left_ ← checked_visit_expr e_left;
          right_ ← checked_visit_expr e_right;
          apply_binop left_ op right_
      end
  | Call _ func cargs keywords =>
      (* [f = self.visit(c.func); assert(f != None)] *)
      f ← (if is_other func then raise AssertionError
           else checked_visit_expr func);
      args ← mapM checked_visit_expr cargs;
      '(args, keywords) ← call_keywords checked_visit_expr keywords args [];
      invoke f args (Some keywords)
  | Compare _ e_left ops comparators =>
      left_ ← checked_visit_expr e_left;
      compare_loop e checked_visit_expr comparators ops left_
  | Constant _ value => visit_Constant value
  | FormattedValue _ value conversion format_spec =>
      v ← checked_visit_expr value;
      if bool_decide (conversion ≠ (-1)%Z) then raise ConversionUnsupported
      else
        format ← match format_spec with
                 | None => none_value
                 | Some f => checked_visit_expr f
                 end;
        format_value v format
  | GeneratorExp _ => undef_value e
  | JoinedStr _ values =>
      args ← joined_parts checked_visit_expr values;
      joined_string args
  | Lambda _ node_id largs body =>
      var_scope ← get_scope node_id;
      '(funTranslator, fun_value) ← create_fun "_lambda" largs var_scope;
      _ ← on funTranslator (v ← checked_visit_expr body; returnOp v);
      mret fun_value
  | List_ _ elts =>
      (* [map] is lazy: the elements are lowered when the op builder reads
         its operands, under the insertion point entered before. *)
      self ← get;
      args ← mapM checked_visit_expr elts;
      build (block self) (λ r, ListOp r args)
  | ListComp _ elt generators =>
      throwBlock ← get_except_block;
      self ← get;
      let orig_cell_map := _cell_map self in
      let orig_scope := _scope_value self in
      r ← build (block self) (λ r, ListOp r []);
      append ← get_method r "append";
      self ← get;
      finalBlock ← create_after (block self) [];
      (* [self._cell_map = orig_cell_map.copy()]: the same entries *)
      '(doneBlock, l) ←
        generators_loop checked_visit_expr assign_lhs throwBlock
                        generators finalBlock None;
      e ← checked_visit_expr elt;
      _ ← invoke append [e] None;
      self ← get;
      _ ← emit (block self) (BranchOp [] doneBlock);
      _ ← modify (set_block finalBlock);
      _ ← modify (set_cell_map orig_cell_map);
      _ ← modify (set_scope_value orig_scope);
      match l with
      | Some l => mret l
      | None => raise (UnboundLocalError "l")
      end
  | Name l id => visit_Name l id
  | Slice _ lower upper step =>
      upper ← match upper with
              | Some u => checked_visit_expr u
              | None => none_value
              end;
      sliceFn ← builtin "slice";
      match step with
      | Some st =>
          lower ← match lower with
                  | Some lo => checked_visit_expr lo
                  | None => none_value
                  end;
          step ← checked_visit_expr st;
          invoke sliceFn [lower; upper; step] None
      | None =>
          match lower with
          | Some lo =>
              lower ← checked_visit_expr lo;
              invoke sliceFn [lower; upper] None
          | None => invoke sliceFn [upper] None
          end
      end
  | Subscript _ value slice =>
      v ← checked_visit_expr value;
      slice ← checked_visit_expr slice;
      getitem ← get_method v "__getitem__";
      invoke getitem [slice] None
  | Tuple _ elts =>
      self ← get;
      args ← mapM checked_visit_expr elts;
      build (block self) (λ r, TupleOp r args)
  | UnaryOp _ op operand =>
      match unary_operator_map op with
      | None => undef_value e
      | Some op =>
          arg ← checked_visit_expr operand;
          apply_unop op arg
      end
  | OtherExpr _ => raise UnsupportedExpression
  end

with assign_lhs (tgt : expr) (v : Value) {struct tgt} : M unit :=
  match tgt with
  | Tuple _ elts =>
      self ← get;
      _ ← emit (block self) (TupleCheck v (Z.of_nat (length elts)));
      tuple_targets assign_lhs (block self) v elts 0%Z
  | Subscript _ value slice =>
      a ← checked_visit_expr value;
      idx ← checked_visit_expr slice;
      self ← get;
      emit (block self) (ArraySet a idx v)
  | Name _ id =>
      self ← get;
      c ← cell_of id;
      emit (block self) (CellStore c v)
  | _ => raise UnexpectedTarget
  end.

(** *** 4.7 Statements *)

(** The class defines no attribute [funTranslator] and no attribute [map]
    (its fields are [module], [block], [onDone], [exceptBlock], [_cell_map]
    and [_scope_value]): reading either raises. *)
Definition self_funTranslator : M t :=
  raise (AttributeError "Translator" "funTranslator").
Definition self_map : M (gmap string Value) :=
  raise (AttributeError "Translator" "map").

(** Calling the closure [onDone] of [visit_With]. *)
Fixpoint call_onDone (d : OnDone) : M unit :=
  match d with
  | NoDone => mret tt
  | DoneClosure exitMethods prevDone =>
      _ ← forM_ (λ exit, _ ← invoke exit [] None; mret tt) (rev exitMethods);
      match prevDone with
      | NoDone => mret tt
      | _ => call_onDone prevDone
      end
  end.

Definition visit_Return (value : option expr) : M bool :=
  self ← get;
  _ ← match onDone self with
      | NoDone => mret tt
      | d => call_onDone d
      end;
  ret_ ← match value with
         | Some v => checked_visit_expr v
         | None => '(v, _) ← (ft ← self_funTranslator; on ft none_value); mret v
         end;
  _ ← returnOp ret_;
  mret false.

(** The item loop of [visit_With]; returns [exitMethods]. *)
Fixpoint with_items (items : list withitem) (exitMethods : list Value)
  : M (list Value) :=
  match items with
  | [] => mret exitMethods
  | item :: rest =>
      ctx ← checked_visit_expr (context_expr item);
      enter ← get_method ctx "__enter__";
      exit ← get_method ctx "__exit__";
      r ← invoke enter [] None;
      _ ← match optional_vars item with
          | None => mret tt
          | Some var =>
              match var with
              | Name _ id =>
                  self ← get;
                  m ← self_map;
                  match m !! id with
                  | Some c => emit (block self) (CellStore c r)
                  | None => raise (KeyError id)
                  end
              | _ => raise AssertionError
              end
          end;
      with_items rest (exitMethods ++ [exit])
  end.

Definition visit_Import (names : list alias) : M bool :=
  _ ← forM_ (λ a, pythonImport (name a) (VariableCapture.alias_binding a)) names;
  mret true.

(** [visit_stmts]: stops at the first statement whose visitor returns
    [False]. *)
Definition visit_stmts_with (visit : stmt → M bool) : list stmt → M bool :=
  fix go (stmts : list stmt) : M bool :=
    match stmts with
    | [] => mret true
    | s :: rest =>
        c ← visit s;
        if (c : bool) then go rest else mret false
    end.

(** One arm of [visit_If]: a new block after [initBlock], the statements
    lowered into it, a branch to [newBlock] when they fall through. *)
Definition if_arm (visit_stmts : list stmt → M bool) (initBlock newBlock : nat)
  (stmts : list stmt) : M nat :=
  if VariableCapture.nonempty stmts then
    armBlock ← create_after initBlock [];
    _ ← modify (set_block armBlock);
    c ← visit_stmts stmts;
    _ ← (if (c : bool) then self ← get; emit (block self) (BranchOp [] newBlock)
         else mret tt);
    mret armBlock
  else mret newBlock.

Fixpoint checked_visit_stmt (s : stmt) {struct s} : M bool :=
  match s with
  | Assign targets value =>
      match targets with
      | [tgt] =>
          r ← checked_visit_expr value;
          _ ← assign_lhs tgt r;
          mret true
      | _ => raise SingleLhs
      end
  | AugAssign _ _ _ => mret true
  | Expr value =>
      _ ← checked_visit_expr value;
      mret true
  | For tgt it body orelse =>
      if VariableCapture.nonempty orelse then raise ForOrelseUnsupported
      else
        r ← checked_visit_expr it;
        enter ← get_method r "__iter__";
        i ← invoke enter [] None;
        next ← get_method i "__next__";
        throwBlock ← get_except_block;
        self ← get;
        doneBlock ← create_after (block self) [];
        '(nextBlock, bodyBlock, value) ←
          state (invoke_next next (block self) doneBlock throwBlock);
        _ ← modify (set_block bodyBlock);
        _ ← assign_lhs tgt value;
        bodyCont ← visit_stmts_with checked_visit_stmt body;
        _ ← (if (bodyCont : bool) then self ← get; emit (block self) (BranchOp [] nextBlock)
             else mret tt);
        _ ← modify (set_block doneBlock);
        mret true
  | FunctionDef node_id fname fargs body =>
      var_scope ← get_scope node_id;
      '(fun_translator, fun_value) ← create_fun fname fargs var_scope;
      '(cont, fun_translator) ←
        on fun_translator (visit_stmts_with checked_visit_stmt body);
      _ ← (if (cont : bool) then
             _ ← on fun_translator (n ← none_value; returnOp n); mret tt
           else mret tt);
      self ← get;
      c ← cell_of fname;
      _ ← emit (block self) (CellStore c fun_value);
      mret true
  | If test body orelse =>
      test ← checked_visit_expr test;
      self ← get;
      c ← build (block self) (λ r, Truthy r test);
      let initBlock := block self in
      newBlock ← create_after initBlock [];
      falseBlock ← if_arm (visit_stmts_with checked_visit_stmt)
                          initBlock newBlock orelse;
      trueBlock ← if_arm (visit_stmts_with checked_visit_stmt)
                         initBlock newBlock body;
      _ ← emit initBlock (CondBranchOp c [] [] trueBlock falseBlock);
      _ ← modify (set_block newBlock);
      mret true
  | Import names => visit_Import names
  | Return value => visit_Return value
  | With items body =>
      exitMethods ← with_items items [];
      self ← get;
      let prevDone := onDone self in
      let onDone_ := DoneClosure exitMethods prevDone in
      _ ← modify (set_onDone onDone_);
      cont ← visit_stmts_with checked_visit_stmt body;
      _ ← modify (set_onDone prevDone);
      _ ← (if (cont : bool) then call_onDone onDone_ else mret tt);
      mret cont
  | While test body orelse =>
      if VariableCapture.nonempty orelse then raise WhileOrelseUnsupported
      else
        self ← get;
        testBlock ← create_after (block self) [];
        _ ← emit (block self) (BranchOp [] testBlock);
        _ ← modify (set_block testBlock);
        testExpr ← checked_visit_expr test;
        self ← get;
        c ← build (block self) (λ r, Truthy r testExpr);
        bodyBlock ← create_after (block self) [];
        doneBlock ← create_after bodyBlock [];
        _ ← emit (block self) (CondBranchOp c [] [] bodyBlock doneBlock);
        _ ← modify (set_block bodyBlock);
        bodyCont ← visit_stmts_with checked_visit_stmt body;
        _ ← (if (bodyCont : bool) then self ← get; emit (block self) (BranchOp [] testBlock)
             else mret tt);
        _ ← modify (set_block doneBlock);
        mret true
  | OtherStmt => raise UnsupportedExpression
  end.

Definition visit_stmts (stmts : list stmt) : M bool :=
  visit_stmts_with checked_visit_stmt stmts.

End Translator.

(** ** 4, item 7. The module driver *)

(** The report of the driver: one line per unresolved reference. *)
Definition unknown_line (a : ast_Name) : string :=
  "  " +:+ pretty (lineno (nm_loc a)) +:+ ":" +:+ pretty (col_offset (nm_loc a))
       +:+ ": " +:+ nm_id a +:+ Translator.nl.

Definition unknown_message (refs : list ast_Name) : string :=
  foldl (λ msg a, msg +:+ unknown_line a) ("Unknown variables:" +:+ Translator.nl) refs.

(** [mlir.Module.create()]: no function, no block. *)
Definition Module_create : State := MkState [] [] 0 ∅ ∅ [].

(** [translateModule(tree)]: the module it built up to the point it
    returned or raised, and the outcome. *)
Definition translateModule (tree : module_) : State * res unit :=
  let m := Module_create in
  match VariableCapture.visit_stmts (mbody tree) VariableCapture.init ∅ with
  | Raise e => (m, Raise e)
  | Ok (varCapture, scope_map) =>
      if VariableCapture.nonempty (VariableCapture.references varCapture)
      then (m, Raise (UnknownVariables
                        (unknown_message (VariableCapture.references varCapture).*2)))
      else
        let var_scope := VariableCapture.mkScope varCapture in
        (* [mod = Module(m, scope_map)] *)
        let mod_ := MkState (funcs m) (blocks m) (next_result m) scope_map ∅ (stderr m) in
        let '(fun_block, g) := IR.create_func "script_main" [] [ReturnValueType] mod_ in
        if VariableCapture.nonempty (VariableScope.parent_vars var_scope)
        then (g, Raise UnexpectedUnknownVariables)
        else
          let '(global_cell_map, fun_name_attrs, fun_cells, g) :=
            alloc_variable_cells ∅ [] [] fun_block (VariableScope.vars var_scope) g in
          let '(fun_scope, g) :=
            IR.build fun_block (λ r, ScopeInit r fun_name_attrs fun_cells) g in
          let t := Translator.init fun_block fun_scope global_cell_map in
          match Translator.visit_stmts (mbody tree) t g with
          | (g, Ok (cont, t)) =>
              if (cont : bool) then
                let '(n, g) := IR.build (Translator.block t) NoneOp g in
                let '(r, g) := IR.build (Translator.block t) (λ r, MkReturnOp r n) g in
                (IR.append_op (Translator.block t) (ReturnOp [r]) g, Ok tt)
              else (g, Ok tt)
          | (g, Raise e) => (g, Raise e)
          end
  end.

(** ** Running a block of the emitted control flow

    Enough of the meaning of the IR to follow a thrown value through the
    blocks [invoke_next] builds: an [IsInstance] test binds its result, a
    branch ends the block and names the successor and the values passed to
    it. The class test itself is the runtime's and a parameter here. Ops of
    the scripting dialect beyond these have no meaning given to them. *)

Module Sem.
Section Run.

Variable Obj : Type.
Variable isinstance : Obj → string → bool.

Inductive rt : Type :=
  | RObj (o : Obj)
  | RBool (b : bool).

Definition env : Type := list (Value * rt).

Definition Value_eqb (a b : Value) : bool :=
  match a, b with
  | OpResult n, OpResult m => Nat.eqb n m
  | BlockArg b1 i1, BlockArg b2 i2 => Nat.eqb b1 b2 && Nat.eqb i1 i2
  | _, _ => false
  end.

Fixpoint lookup (v : Value) (ρ : env) : option rt :=
  match ρ with
  | [] => None
  | (w, x) :: ρ' => if Value_eqb v w then Some x else lookup v ρ'
  end.

Fixpoint lookups (vs : list Value) (ρ : env) : option (list rt) :=
  match vs with
  | [] => Some []
  | v :: rest =>
      match lookup v ρ, lookups rest ρ with
      | Some x, Some xs => Some (x :: xs)
      | _, _ => None
      end
  end.

(** The successor a block's ops reach and the values it receives. *)
Fixpoint run (ops : list Op) (ρ : env) : option (nat * list rt) :=
  match ops with
  | IsInstance r v cls :: rest =>
      match lookup v ρ with
      | Some (RObj o) => run rest ((r, RBool (isinstance o cls)) :: ρ)
      | _ => None
      end
  | BranchOp args dest :: _ =>
      match lookups args ρ with
      | Some xs => Some (dest, xs)
      | None => None
      end
  | CondBranchOp c targs fargs tdest fdest :: _ =>
      match lookup c ρ with
      | Some (RBool true) =>
          match lookups targs ρ with Some xs => Some (tdest, xs) | None => None end
      | Some (RBool false) =>
          match lookups fargs ρ with Some xs => Some (fdest, xs) | None => None end
      | _ => None
      end
  | _ => None
  end.

(** Entering block [b] with the values [args] for its arguments. *)
Definition enter (g : State) (b : nat) (args : list rt) : option (nat * list rt) :=
  run (IR.ops_of g b) (imap (λ i x, (BlockArg b i, x)) args).

End Run.
End Sem.

(** ** The landing pad of a function in the emitted IR *)

Module Pad.

Definition is_MkExcept (o : Op) : bool :=
  match o with MkExceptOp _ _ => true | _ => false end.

(** Block [p] is a landing pad: it wraps its argument in the exception
    discriminator and returns it. *)
Definition is_landing_pad (g : State) (p : nat) : Prop :=
  ∃ r, [MkExceptOp r (BlockArg p 0); ReturnOp [r]] `prefix_of` IR.ops_of g p.

(** Block [e] is the test block of an [invoke_next] that hands every
    exception but [StopIteration] to [p]. *)
Definition is_stop_test (g : State) (e p : nat) : Prop :=
  ∃ c done,
    [IsInstance c (BlockArg e 0) "StopIteration";
     CondBranchOp c [] [BlockArg e 0] done p] `prefix_of` IR.ops_of g e.

(** The blocks of function [f]. *)
Definition block_of (g : State) (f b : nat) : Prop :=
  b < length (blocks g) ∧ IR.parent_of g b = f.

(** Function [f] has the landing pad [pad] (or none): [pad] is the only
    block of [f] that builds an exception return, and every fallible op of
    [f] has two successors, the second of which is [pad] or a
    [StopIteration] test in front of it. *)
Definition pad_ok (g : State) (f : nat) (pad : option nat) : Prop :=
  (∀ b o, block_of g f b → o ∈ IR.ops_of g b →
     (is_MkExcept o = true → pad = Some b) ∧
     (fallible o = true →
        length (successors o) = 2 ∧
        ∃ p e, pad = Some p ∧ failure_successor o = Some e ∧
               successors o !! 1 = Some e ∧
               (e = p ∨ is_stop_test g e p))) ∧
  (∀ p, pad = Some p → block_of g f p ∧ is_landing_pad g p).

End Pad.

(** ** Chained comparisons in the emitted IR *)

Module Chain.

Definition is_comparison (o : Op) : bool :=
  match o with
  | BinaryOp (EqOp | GtOp | GtEOp | InOp | IsOp | IsNotOp | LtOp | LtEOp
              | NotEqOp | NotInOp) _ _ _ _ => true
  | _ => false
  end.

Definition operands (o : Op) : option (Value * Value) :=
  match o with
  | BinaryOp _ l r _ _ => Some (l, r)
  | _ => None
  end.

(** The comparison ops of a module, block by block. *)
Definition comparisons (g : State) : list Op :=
  filter (λ o, is_comparison o = true) (concat (blk_ops <$> blocks g)).

(** Each comparison after the first takes the right operand of the one
    before it as its left operand. *)
Definition reuses_right_operand (cs : list Op) : Prop :=
  ∀ i l1 r1 l2 r2,
    (cs !! i) ≫= operands = Some (l1, r1) →
    (cs !! S i) ≫= operands = Some (l2, r2) →
    l2 = r1.

End Chain.

(** ** Example programs *)

Module Examples.

Definition no_defaults (names : list string) : arguments :=
  Arguments_ names None [] [] None [].

(** [def f(x): return x + y] followed by [y = 1]. *)
Definition closure : list stmt :=
  [ FunctionDef 7 "f" (no_defaults ["x"])
      [Return (Some (BinOp (Loc 1 17) (Name (Loc 1 17) "x") Add
                           (Name (Loc 1 21) "y")))];
    Assign [Name (Loc 2 0) "y"] (Constant (Loc 2 4) (CInt 1)) ].

(** [xs = [1, 2]] followed by [ys = [x for x in xs]]. *)
Definition listcomp_assigned : module_ :=
  Module_
    [ Assign [Name (Loc 1 0) "xs"]
             (List_ (Loc 1 5) [Constant (Loc 1 6) (CInt 1);
                               Constant (Loc 1 9) (CInt 2)]);
      Assign [Name (Loc 2 0) "ys"]
             (ListComp (Loc 2 5) (Name (Loc 2 6) "x")
                [Comprehension 5 (Name (Loc 2 12) "x") (Name (Loc 2 17) "xs")
                               [] false]) ].

(** The expression [[x for x in xs]], and a translator and a module in
    which [xs] has the cell [OpResult 0]. *)
Definition listcomp_expr : expr :=
  ListComp (Loc 2 5) (Name (Loc 2 6) "x")
    [Comprehension 5 (Name (Loc 2 12) "x") (Name (Loc 2 17) "xs") [] false].

Definition listcomp_self : Translator.t :=
  Translator.init 0 (OpResult 1) (<["xs" := OpResult 0]> ∅).

Definition listcomp_state : State :=
  MkState [MkFuncOp "script_main" [] [ReturnValueType] [0]]
          [MkBlock 0 [] [CellAlloc (OpResult 0); ScopeInit (OpResult 1) ["xs"] [OpResult 0]]]
          2 (<[5 := VariableScope.Mk ["x"] []]> ∅) ∅ [].

(** [a = 1], [b = 2], [c = 3], then [a < b < c]. *)
Definition chained : module_ :=
  Module_
    [ Assign [Name (Loc 1 0) "a"] (Constant (Loc 1 4) (CInt 1));
      Assign [Name (Loc 2 0) "b"] (Constant (Loc 2 4) (CInt 2));
      Assign [Name (Loc 3 0) "c"] (Constant (Loc 3 4) (CInt 3));
      Expr (Compare (Loc 4 0) (Name (Loc 4 0) "a") [Lt; Lt]
              [Name (Loc 4 4) "b"; Name (Loc 4 8) "c"]) ].

(** [def f(): return] with a bare [return]. *)
Definition bare_return : module_ :=
  Module_ [ FunctionDef 3 "f" (no_defaults []) [Return None] ].

(** [def f(x): return x] *)
Definition return_value : module_ :=
  Module_ [ FunctionDef 3 "f" (no_defaults ["x"])
              [Return (Some (Name (Loc 1 17) "x"))] ].

(** [a = 1], [b = 2], then [with a as b: a = 3]. *)
Definition with_as : module_ :=
  Module_
    [ Assign [Name (Loc 1 0) "a"] (Constant (Loc 1 4) (CInt 1));
      Assign [Name (Loc 2 0) "b"] (Constant (Loc 2 4) (CInt 2));
      With [WithItem (Name (Loc 3 5) "a") (Some (Name (Loc 3 10) "b"))]
           [Assign [Name (Loc 4 4) "a"] (Constant (Loc 4 8) (CInt 3))] ].

(** [a = 1], [b = 2], then [with a, b: a = 3]. *)
Definition with_two : module_ :=
  Module_
    [ Assign [Name (Loc 1 0) "a"] (Constant (Loc 1 4) (CInt 1));
      Assign [Name (Loc 2 0) "b"] (Constant (Loc 2 4) (CInt 2));
      With [WithItem (Name (Loc 3 5) "a") None; WithItem (Name (Loc 3 8) "b") None]
           [Assign [Name (Loc 4 4) "a"] (Constant (Loc 4 8) (CInt 3))] ].

(** [print(foo)] followed by [bar], neither defined. *)
Definition unknown : module_ :=
  Module_
    [ Expr (Call (Loc 1 0) (Name (Loc 1 0) "print") [Name (Loc 1 6) "foo"] []);
      Expr (Name (Loc 2 0) "bar") ].

(** [for i in range(3): print(i < 2)] followed by [f = lambda x: -x]. *)
Definition loop_and_lambda : module_ :=
  Module_
    [ For (Name (Loc 1 4) "i")
          (Call (Loc 1 9) (Name (Loc 1 9) "range") [Constant (Loc 1 15) (CInt 3)] [])
          [Expr (Call (Loc 2 4) (Name (Loc 2 4) "print")
                   [Compare (Loc 2 10) (Name (Loc 2 10) "i") [Lt]
                            [Constant (Loc 2 14) (CInt 2)]] [])] [];
      Assign [Name (Loc 3 0) "f"]
             (Lambda (Loc 3 4) 9 (no_defaults ["x"])
                     (UnaryOp (Loc 3 14) USub (Name (Loc 3 15) "x"))) ].

End Examples.

(** ** The invariant of the lowering

    What holds of the IR between any two steps of a translator that lowers
    function [f], and how a step may change the IR. [n] bounds the
    functions that existed when the translator's current method was
    entered: the functions from [n] on were created since. *)

Module Lowering.
Import IR Pad Translator.

(** Every block belongs to a function of the module. *)
Definition wf (g : State) : Prop :=
  ∀ b, b < length (blocks g) → parent_of g b < length (funcs g).

(** [g'] has everything [g] has: blocks keep their function and their ops,
    with more ops after them at most. *)
Definition ext (g g' : State) : Prop :=
  (length (blocks g) ≤ length (blocks g'))%nat ∧
  (length (funcs g) ≤ length (funcs g'))%nat ∧
  ∀ b, b < length (blocks g) →
       parent_of g' b = parent_of g b ∧ ops_of g b `prefix_of` ops_of g' b.

(** A step of the translator of [f]: the blocks of the other functions
    below [n] are as they were, the new blocks are blocks of [f] or of
    functions from [n] on. *)
Definition R (f n : nat) (g g' : State) : Prop :=
  ext g g' ∧
  (∀ b, b < length (blocks g) → parent_of g b ≠ f → parent_of g b < n →
        ops_of g' b = ops_of g b) ∧
  (∀ b, (length (blocks g) ≤ b)%nat → b < length (blocks g') →
        parent_of g' b = f ∨ (n ≤ parent_of g' b)%nat).

(** The functions from [n] on have a landing pad as [pad_ok] wants it. *)
Definition complete_from (n : nat) (g : State) : Prop :=
  ∀ f, (n ≤ f)%nat → f < length (funcs g) → ∃ pad, pad_ok g f pad.

Definition Inv (f n : nat) (self : t) (g : State) : Prop :=
  f < n ∧ (n ≤ length (funcs g))%nat ∧ wf g ∧
  block_of g f (block self) ∧
  pad_ok g f (exceptBlock self) ∧
  complete_from n g.

(** An op that neither raises nor builds an exception return. *)
Definition harmless (o : Op) : Prop :=
  fallible o = false ∧ is_MkExcept o = false.

(** A change that only adds harmless ops, to block [b] at most. *)
Definition quiet_at (b : nat) (g g' : State) : Prop :=
  length (funcs g') = length (funcs g) ∧
  length (blocks g') = length (blocks g) ∧
  (∀ b', parent_of g' b' = parent_of g b') ∧
  (∀ b', ops_of g b' `prefix_of` ops_of g' b') ∧
  (∀ b', b' ≠ b → ops_of g' b' = ops_of g b') ∧
  (∀ f pad, pad_ok g f pad → pad_ok g' f pad).

(** [p] is the landing pad of [f]. *)
Definition pad_of (g : State) (f p : nat) : Prop :=
  block_of g f p ∧ is_landing_pad g p.

(** Weakest precondition of a method for a postcondition on its normal
    return. *)
Definition wp {A} (m : M A) (self : t) (g : State)
  (Q : A → t → State → Prop) : Prop :=
  match m self g with
  | (g', Ok (a, self')) => Q a self' g'
  | (_, Raise _) => True
  end.

(** A method that keeps the invariant, for whichever function its
    translator lowers. *)
Definition sound {A} (m : M A) : Prop :=
  ∀ f n self g, Inv f n self g →
    wp m self g (λ _ self' g', Inv f n self' g' ∧ R f n g g').

(** A function that was just created, with harmless ops in its entry block
    at most: ready for a translator of its own. *)
Definition child_ready (nf nb : nat) (g : State) : Prop :=
  length (funcs g) = S nf ∧ wf g ∧ block_of g nf nb ∧ pad_ok g nf None.

(** Lowering the expression and assigning to it as a target both keep the
    invariant. *)
Definition expr_sound (e : expr) : Prop :=
  sound (checked_visit_expr e) ∧ ∀ v, sound (assign_lhs e v).

(** The shape [invoke], [apply_binop] and the unary case share: the op
    [mk returnBlock exceptBlock] ends the current block and the cursor
    moves to its return block. *)
Definition fallible_op (mk : nat → nat → Op) : M Value :=
  exceptBlock ← get_except_block;
  self ← get;
  returnBlock ← create_after (block self) [ValueType];
  _ ← emit (block self) (mk returnBlock exceptBlock);
  _ ← modify (set_block returnBlock);
  mret (BlockArg returnBlock 0).

End Lowering.

(** ** The scope analyser: what its scopes look like *)

Module Scopes.
Import VariableCapture.

(** A visitor keeps a property [P] of analyser objects and a property [Q]
    of the scope map. *)
Definition keeps (P : t → Prop) (Q : scope_map → Prop) (f : t → St t) : Prop :=
  ∀ c m c' m', P c → Q m → f c m = Ok (c', m') → P c' ∧ Q m'.

(** No name is listed twice, a reference is filed under the identifier of
    its node, and no reference is to a builtin. *)
Definition tidy (c : t) : Prop :=
  NoDup (vars c) ∧ NoDup (references c).*1 ∧
  ∀ k a, (k, a) ∈ references c →
         k = nm_id a ∧ Builtins.builtin_mlir_name k = None.

Definition tidy_scope (s : VariableScope.t) : Prop :=
  NoDup (VariableScope.vars s) ∧
  NoDup (nm_id <$> VariableScope.parent_vars s) ∧
  ∀ a, a ∈ VariableScope.parent_vars s →
       Builtins.builtin_mlir_name (nm_id a) = None.

(** A visitor takes an analyser to one related to it by [Rl]. *)
Definition moves (Rl : t → t → Prop) (f : t → St t) : Prop :=
  ∀ c m c' m', f c m = Ok (c', m') → Rl c c'.

(** The analyser a visit leaves has the locals it was entered with and
    references added after the ones it had. *)
Definition same_locals (c c' : t) : Prop :=
  vars c' = vars c ∧ references c `prefix_of` references c'.

Definition locals_prefix (c c' : t) : Prop := vars c `prefix_of` vars c'.

(** The analyser below a stack of suspended ones: [c] is the current
    analyser, [captures] the suspended ones, innermost first. *)
Definition bottom (c : t) (captures : list t) : t :=
  default c (last captures).

(** The names a target of the forms [addLhs] accepts binds. *)
Fixpoint target_names (tgt : expr) : list string :=
  match tgt with
  | Name _ id => [id]
  | Tuple _ elts => concat (map target_names elts)
  | _ => []
  end.

(** A generator clause neither visitor accepts: [async for], or one with
    [if] filters. *)
Definition unsupported_generator (g : comprehension) : Prop :=
  is_async g = true ∨ ifs g ≠ [].

End Scopes.

(** ** The translator: outcomes of a method *)

Module Outcome.
Import Translator.

(** A method that raises, whatever translator and module it runs on. *)
Definition raises {A} (m : M A) : Prop :=
  ∀ self g, ∃ g' e, m self g = (g', Raise e).


(** The ops that unpack a tuple [v] into the cells [cs], element by
    element from index [i], when the results are numbered from [n]. *)
Fixpoint unpack (v : Value) (n : nat) (i : Z) (cs : list Value) : list Op :=
  match cs with
  | [] => []
  | c :: cs' =>
      TupleGet (OpResult n) v i :: CellStore c (OpResult n)
        :: unpack v (S n) (i + 1)%Z cs'
  end.

End Outcome.

(** ** The translator: entering and leaving a [with] statement *)

Module Exits.
Import IR Translator.



End Exits.

(** ** The translator: how a run changes the module

    Every change a translator makes to the shared state is one of five
    edits: an op with a result built at the end of a block, an op without a
    result appended to a block, a block created after another, a function
    created under a name obtained from [fresh_symbol], a line written to
    [sys.stderr]. *)

Module Trace.
Import IR Translator.

(** The result of an op: the value the op builder returned for it. *)
Definition result_of (o : Op) : option Value :=
  match o with
  | CellAlloc r | CellLoad r _ | IsInstance r _ _ | Truthy r _ | ListOp r _
  | TupleOp r _ | TupleGet r _ _ | StrLit r _ | S64Lit r _ | IntLit r _
  | NoneOp r | UndefinedOp r | Builtin r _ | ModuleOp r _
  | FunctionRef r _ _ _ _ | GetMethod r _ _ | FormattedString r _
  | MkExceptOp r _ | MkReturnOp r _ | ScopeInit r _ _
  | ScopeExtend r _ _ _ => Some r
  | CellStore _ _ | BranchOp _ _ | CondBranchOp _ _ _ _ _
  | InvokeOp _ _ _ _ _ | BinaryOp _ _ _ _ _ | UnaryOp_ _ _ _ _
  | TupleCheck _ _ | ArraySet _ _ _ | ReturnOp _ => None
  end.

Definition with_vars (v : gmap string nat) (g : State) : State :=
  MkState (funcs g) (blocks g) (next_result g) (_scope_map g) v (stderr g).

Definition with_stderr (e : list string) (g : State) : State :=
  MkState (funcs g) (blocks g) (next_result g) (_scope_map g) (_vars g) e.

Inductive edit : State → State → Prop :=
  | edit_build b mk g :
      (∀ r, result_of (mk r) = Some r) → edit g (IR.build b mk g).2
  | edit_emit b o g :
      result_of o = None → edit g (append_op b o g)
  | edit_block b tys g :
      edit g (IR.create_after b tys g).2
  | edit_func nm a r g :
      edit g (create_func (Names.fresh_symbol nm (_vars g)).1 a r
                (with_vars (Names.fresh_symbol nm (_vars g)).2 g)).2
  | edit_warn s g :
      edit g (with_stderr (stderr g ++ [s]) g).

Definition edits : State → State → Prop := rtc edit.

(** A method whose effect on the module is a sequence of edits, whether it
    returns or raises. *)
Definition traced {A} (m : M A) : Prop := ∀ self g, edits g (m self g).1.

Definition expr_traced (e : expr) : Prop :=
  traced (checked_visit_expr e) ∧ ∀ v, traced (assign_lhs e v).

(** [g'] is [g] grown: what [ext] says of the blocks, and moreover the
    blocks keep their argument types, the functions keep their symbol and
    their type and the blocks of their region in order, the scope map is
    the same, [sys.stderr] has what it had, and no result number is handed
    out again. *)
Definition grows (g g' : State) : Prop :=
  Lowering.ext g g' ∧
  (∀ b blk, blocks g !! b = Some blk →
     ∃ blk', blocks g' !! b = Some blk' ∧ blk_args blk' = blk_args blk) ∧
  (∀ f fn, funcs g !! f = Some fn →
     ∃ fn', funcs g' !! f = Some fn' ∧ sym_name fn' = sym_name fn ∧
            arg_types fn' = arg_types fn ∧ result_types fn' = result_types fn ∧
            region fn `sublist_of` region fn') ∧
  _scope_map g' = _scope_map g ∧
  stderr g `prefix_of` stderr g' ∧
  (next_result g ≤ next_result g')%nat.

(** The module right after the driver created [script_main]. *)
Definition script_main_state (sm : scope_map) : State :=
  (create_func "script_main" [] [ReturnValueType] (MkState [] [] 0 sm ∅ [])).2.

(** The symbols of the module: the first is the driver's [script_main];
    the ones after it are pairwise distinct, and each is a name
    [fresh_symbol] has handed out. *)
Definition symbols_ok (g : State) : Prop :=
  ∃ rest,
    sym_name <$> funcs g = "script_main" :: rest ∧
    NoDup rest ∧
    ∀ s, s ∈ rest →
      ∃ stem k, Names.has_at stem = false ∧ s = Names.render stem k ∧
                k < Names.seen (_vars g) stem.

(** What a method leaves of the translator it ran on. [kept]: the closure
    [onDone] is the same and an exception block, once there, stays.
    [frame]: moreover the cell map and the scope value are the same. *)
Definition kept (s s' : t) : Prop :=
  onDone s' = onDone s ∧ ∀ p, exceptBlock s = Some p → exceptBlock s' = Some p.

Definition frame (s s' : t) : Prop :=
  kept s s' ∧ _cell_map s' = _cell_map s ∧ _scope_value s' = _scope_value s.

(** A method that, when it returns, leaves a translator related by [Rt] to
    the one it was called on. *)
Definition framed_by (Rt : t → t → Prop) {A} (m : M A) : Prop :=
  ∀ self g, Lowering.wp m self g (λ _ self' _, Rt self self').

(** The relations a method can be framed by: they hold of a translator
    and itself, compose, and allow moving the cursor and installing the
    exception block when there is none. *)
Class FrameRel (Rt : t → t → Prop) : Prop := {
  fr_refl : ∀ s, Rt s s;
  fr_trans : ∀ s1 s2 s3, Rt s1 s2 → Rt s2 s3 → Rt s1 s3;
  fr_block : ∀ s b, Rt s (set_block b s);
  fr_except : ∀ s b, exceptBlock s = None → Rt s (set_exceptBlock (Some b) s)
}.

Definition expr_framed (e : expr) : Prop :=
  framed_by frame (checked_visit_expr e) ∧ ∀ v, framed_by frame (assign_lhs e v).

End Trace.

(** ** Names the translator looks up

    The translator finds a name in the cell map of its scope or among the
    builtins, or raises the [Could not find variable] exception. What
    follows describes, for a scope map [m] and the set [D] of names that
    have a cell, the trees whose every lookup finds its name. *)

Module Resolve.
Import Translator.

Definition is_unknown (e : exn) : bool :=
  match e with CouldNotFindVariable _ _ _ => true | _ => false end.

(** The identities the analyser files scopes under when it accepts a tree,
    in the order it files them: a lambda and a function definition after
    what is inside them, a generator after the generators that follow it
    and the element. Targets bind names and file nothing, but for a
    subscript assigned to. *)
Fixpoint ids (e : expr) : list nat :=
  match e with
  | Constant _ _ | Name _ _ | GeneratorExp _ | OtherExpr _ => []
  | Attribute _ v _ _ => ids v
  | Subscript _ v s => ids v ++ ids s
  | Slice _ lo up st =>
      from_option ids [] up ++ from_option ids [] lo ++ from_option ids [] st
  | Tuple _ elts | List_ _ elts | JoinedStr _ elts => concat (map ids elts)
  | UnaryOp _ _ x => ids x
  | BinOp _ a _ b => ids a ++ ids b
  | Compare _ a _ cs => ids a ++ concat (map ids cs)
  | Call _ f cargs kws =>
      ids f ++ concat (map ids cargs) ++ concat (map (λ k, ids (kw_value k)) kws)
  | FormattedValue _ v _ fs => ids v ++ from_option ids [] fs
  | Lambda _ i _ body => ids body ++ [i]
  | ListComp _ elt gens =>
      (fix go (gens : list comprehension) : list nat :=
         match gens with
         | [] => ids elt
         | g :: rest => ids (iter g) ++ go rest ++ [comp_id g]
         end) gens
  end.

Definition target_ids (tgt : expr) : list nat :=
  match tgt with
  | Subscript _ v s => ids v ++ ids s
  | _ => []
  end.

Fixpoint stmt_ids (s : stmt) : list nat :=
  match s with
  | Assign targets value => ids value ++ concat (map target_ids targets)
  | AugAssign tgt _ value => target_ids tgt ++ ids value
  | Expr value => ids value
  | For _ it body orelse =>
      ids it ++ concat (map stmt_ids body) ++ concat (map stmt_ids orelse)
  | FunctionDef i _ _ body => concat (map stmt_ids body) ++ [i]
  | If test body orelse =>
      ids test ++ concat (map stmt_ids body) ++ concat (map stmt_ids orelse)
  | Import _ | OtherStmt => []
  | Return value => from_option ids [] value
  | With items body =>
      concat (map (λ it, ids (context_expr it)) items)
        ++ concat (map stmt_ids body)
  | While test body orelse =>
      ids test ++ concat (map stmt_ids body) ++ concat (map stmt_ids orelse)
  end.

Definition all_ {A} (P : A → Prop) (l : list A) : Prop :=
  fold_right (λ x acc, P x ∧ acc) True l.

Definition opt_ {A} (P : A → Prop) (o : option A) : Prop :=
  match o with Some x => P x | None => True end.

(** A target made of names and tuples only: what [addLhs] accepts. *)
Fixpoint plain_target (tgt : expr) : Prop :=
  match tgt with
  | Name _ _ => True
  | Tuple _ elts => all_ plain_target elts
  | _ => False
  end.

(** The names a translator made for the scope [s] has cells for. *)
Definition scope_names (s : VariableScope.t) : gset string :=
  list_to_set (nm_id <$> VariableScope.parent_vars s)
    ∪ list_to_set (VariableScope.vars s).

(** The names an analyser has filed: its locals and its free references. *)
Definition filed (c : VariableCapture.t) : gset string :=
  list_to_set (VariableCapture.vars c)
    ∪ list_to_set (VariableCapture.references c).*1.

Section Resolves.
Variable m : scope_map.

(** The generators of a comprehension: each iterable is looked up with
    the cells there are so far, and the locals of the generator's scope
    get cells before the next one; [last] is what is asked of the names
    with cells after the last generator. *)
Definition gens_resolve (res : gset string → expr → Prop)
    (last : gset string → Prop) : list comprehension → gset string → Prop :=
  fix loop (gens : list comprehension) (D : gset string) : Prop :=
    match gens with
    | [] => last D
    | g :: rest =>
        res D (iter g) ∧ plain_target (target g) ∧
        ∀ s, m !! comp_id g = Some s →
             loop rest (D ∪ list_to_set (VariableScope.vars s))
    end.

Fixpoint resolves (D : gset string) (e : expr) {struct e} : Prop :=
  match e with
  | Constant _ _ | GeneratorExp _ | OtherExpr _ => True
  | Name _ id => id ∈ D ∨ Builtins.builtin_mlir_name id ≠ None
  | Attribute _ v _ _ => resolves D v
  | Subscript _ v s => resolves D v ∧ resolves D s
  | Slice _ lo up st =>
      opt_ (resolves D) lo ∧ opt_ (resolves D) up ∧ opt_ (resolves D) st
  | Tuple _ elts | List_ _ elts | JoinedStr _ elts => all_ (resolves D) elts
  | UnaryOp _ _ x => resolves D x
  | BinOp _ a _ b => resolves D a ∧ resolves D b
  | Compare _ a _ cs => resolves D a ∧ all_ (resolves D) cs
  | Call _ f cargs kws =>
      resolves D f ∧ all_ (resolves D) cargs
      ∧ all_ (λ k, resolves D (kw_value k)) kws
  | FormattedValue _ v _ fs => resolves D v ∧ opt_ (resolves D) fs
  | Lambda _ i _ body =>
      ∀ s, m !! i = Some s →
           (∀ an, an ∈ VariableScope.parent_vars s → nm_id an ∈ D) ∧
           resolves (scope_names s) body
  | ListComp _ elt gens =>
      gens_resolve resolves (λ D', resolves D' elt) gens D
  end.

(** A target of an assignment statement: a subscript, whose parts are
    looked up, or a plain target. *)
Definition assignable (D : gset string) (tgt : expr) : Prop :=
  match tgt with
  | Subscript _ v s => resolves D v ∧ resolves D s
  | _ => plain_target tgt
  end.

Fixpoint closed (D : gset string) (s : stmt) {struct s} : Prop :=
  match s with
  | Assign targets value => resolves D value ∧ all_ (assignable D) targets
  | AugAssign _ _ _ | Import _ | OtherStmt => True
  | Expr v => resolves D v
  | For tgt it body _ => resolves D it ∧ plain_target tgt ∧ all_ (closed D) body
  | FunctionDef i _ _ body =>
      ∀ s, m !! i = Some s →
           (∀ an, an ∈ VariableScope.parent_vars s → nm_id an ∈ D) ∧
           all_ (closed (scope_names s)) body
  | If test body orelse =>
      resolves D test ∧ all_ (closed D) body ∧ all_ (closed D) orelse
  | Return v => opt_ (resolves D) v
  | With items body =>
      all_ (λ it, resolves D (context_expr it)) items ∧ all_ (closed D) body
  | While test body _ => resolves D test ∧ all_ (closed D) body
  end.

End Resolves.

(** A method that does not raise the unknown-variable exception. *)
Definition wpn {A} (x : M A) (self : t) (g : State)
    (Q : A → t → State → Prop) : Prop :=
  match x self g with
  | (g', Ok (a, self')) => Q a self' g'
  | (_, Raise e) => is_unknown e = false
  end.

Definition nu0 {A} (x : M A) : Prop :=
  ∀ self g g' e, x self g = (g', Raise e) → is_unknown e = false.

(** A method that, run on a translator whose cells are for the names [D]
    and on a module whose scope map is [sm], does not raise the
    unknown-variable exception and leaves both as they were. *)
Definition finds (sm : scope_map) (D : gset string) {A} (x : M A) : Prop :=
  ∀ self g, _scope_map g = sm → dom (_cell_map self) = D →
    wpn x self g (λ _ self' g', _scope_map g' = sm ∧ dom (_cell_map self') = D).

Definition visit_finds (sm : scope_map) (e : expr) : Prop :=
  ∀ D, resolves sm D e → finds sm D (checked_visit_expr e).

(** [visit_ListComp] as a nest of scopes: the scope of a generator holds
    the generators after it and the element, and is closed into the
    analyser that visited the generator's iterable. *)
Definition nested_scopes (visit : expr → VariableCapture.t → VariableCapture.St VariableCapture.t)
    (elt : expr)
  : list comprehension → VariableCapture.t → VariableCapture.St VariableCapture.t :=
  fix go (gens : list comprehension) (c : VariableCapture.t) :=
    match gens with
    | [] => visit elt c
    | g :: rest =>
        _ ← VariableCapture.assert (negb (is_async g));
        _ ← VariableCapture.assert (bool_decide (length (ifs g) = 0));
        c1 ← visit (iter g) c;
        inner ← VariableCapture.lift
                  (VariableCapture.addLhs (target g) VariableCapture.init);
        inner ← go rest inner;
        VariableCapture.close_scope (comp_id g) inner c1
    end.

(** A visitor of the analyser covers the lookups [R] of the translator:
    when it accepts, the analyser it leaves has filed what the one it was
    given had filed; it files scopes under the identities [I] only; and if
    these are pairwise distinct, [R] holds of every scope map that has
    what it filed and of every set of names that has what the analyser has
    filed. *)
Definition cov (f : VariableCapture.t → VariableCapture.St VariableCapture.t)
    (I : list nat) (R : scope_map → gset string → Prop) : Prop :=
  ∀ c m c' m', f c m = Ok (c', m') →
    filed c ⊆ filed c' ∧
    (∀ j, j ∉ I → m' !! j = m !! j) ∧
    (NoDup I → ∀ mf D,
       (∀ j, j ∈ I → mf !! j = m' !! j) → filed c' ⊆ D → R mf D).

(** A visitor of the analyser that does not raise the unknown-variable
    exception of the translator. *)
Definition never_unknown (f : VariableCapture.t → VariableCapture.St VariableCapture.t) : Prop :=
  ∀ c m e, f c m = Raise e → is_unknown e = false.

Definition stmt_finds (sm : scope_map) (s : stmt) : Prop :=
  ∀ D, closed sm D s → finds sm D (checked_visit_stmt s).

End Resolve.

(** ** Trees of nodes the visitors have methods for *)

Module Supported.
Import Resolve.



End Supported.

(** ** Further example programs *)

Module Examples2.

(** The expression [lambda x: x + y]. *)
Definition lambda_free : expr :=
  Lambda (Loc 1 0) 4 (Examples.no_defaults ["x"])
    (BinOp (Loc 1 10) (Name (Loc 1 10) "x") Add (Name (Loc 1 14) "y")).

(** [[x for x in xs if x]] *)
Definition listcomp_filtered : expr :=
  ListComp (Loc 1 0) (Name (Loc 1 1) "x")
    [Comprehension 5 (Name (Loc 1 7) "x") (Name (Loc 1 12) "xs")
       [Name (Loc 1 18) "x"] false].

(** [f = lambda: 1] followed by [g = lambda: 2]. *)
Definition two_lambdas : module_ :=
  Module_
    [ Assign [Name (Loc 1 0) "f"]
             (Lambda (Loc 1 4) 3 (Examples.no_defaults [])
                     (Constant (Loc 1 12) (CInt 1)));
      Assign [Name (Loc 2 0) "g"]
             (Lambda (Loc 2 4) 6 (Examples.no_defaults [])
                     (Constant (Loc 2 12) (CInt 2))) ].

(** [def script_main(): return 1] *)
Definition def_script_main : module_ :=
  Module_ [ FunctionDef 3 "script_main" (Examples.no_defaults [])
              [Return (Some (Constant (Loc 1 26) (CInt 1)))] ].

(** [y = 1], [f = lambda x: x + y], then [for i in f: pass] with an
    [else: y]. *)
Definition lambda_then_for_else : module_ :=
  Module_
    [ Assign [Name (Loc 1 0) "y"] (Constant (Loc 1 4) (CInt 1));
      Assign [Name (Loc 2 0) "f"]
             (Lambda (Loc 2 4) 4 (Examples.no_defaults ["x"])
                (BinOp (Loc 2 14) (Name (Loc 2 14) "x") Add (Name (Loc 2 18) "y")));
      For (Name (Loc 3 4) "i") (Name (Loc 3 9) "f") []
          [Expr (Name (Loc 5 4) "y")] ].

(** The translator and the module [translateModule] starts the lowering
    of a body with when the locals of the module are [a], [b] and [c]. *)
Definition abc_cells : gmap string Value * list string * list Value * State :=
  alloc_variable_cells ∅ [] [] 0 ["a"; "b"; "c"]
    (IR.create_func "script_main" [] [ReturnValueType]
       (MkState [] [] 0 ∅ ∅ [])).2.

Definition abc_state : State :=
  (IR.build 0 (λ r, ScopeInit r abc_cells.1.1.2 abc_cells.1.2) abc_cells.2).2.

Definition abc_self : Translator.t :=
  Translator.init 0 (OpResult (next_result abc_cells.2)) abc_cells.1.1.1.

(** [a < b < c] *)
Definition a_lt_b_lt_c : expr :=
  Compare (Loc 4 0) (Name (Loc 4 0) "a") ([Lt] ++ [Lt])
          ([Name (Loc 4 4) "b"] ++ [Name (Loc 4 8) "c"]).



End Examples2.
Section NamesFacts.
Import Names.

Lemma strip_at_clean s : has_at (strip_at s) = false.
Proof.
  induction s as [|c s IH]; simpl; [done|].
  destruct (Ascii.eqb c "@") eqn:E; simpl; [done|]. by rewrite E.
Qed.

Lemma stem_clean b : has_at (stem b) = false.
Proof.
  destruct b as [s|]; simpl; [|done].
  destruct (String.eqb _ _); [done|apply strip_at_clean].
Qed.

Lemma has_at_app s t : has_at (s +:+ t) = has_at s || has_at t.
Proof.
  induction s as [|c s IH]; simpl; [done|]. by rewrite IH, orb_assoc.
Qed.

Lemma render_has_at nm k :
  has_at nm = false → has_at (render nm k) = match k with O => false | S _ => true end.
Proof.
  intros H. destruct k; simpl; [done|].
  rewrite has_at_app, H. done.
Qed.

(** Splitting at the first [@]: the stem and the suffix are determined. *)
Lemma app_at_inj s1 s2 t1 t2 :
  has_at s1 = false → has_at s2 = false →
  s1 +:+ "@" +:+ t1 = s2 +:+ "@" +:+ t2 → s1 = s2 ∧ t1 = t2.
Proof.
  revert s2. induction s1 as [|c s1 IH]; intros [|d s2]; simpl; intros H1 H2 E.
  - by inversion E.
  - inversion E; subst. simpl in H2. done.
  - inversion E; subst. simpl in H1. done.
  - inversion E; subst.
    apply orb_false_iff in H1 as [_ H1]. apply orb_false_iff in H2 as [_ H2].
    destruct (IH s2 H1 H2) as [-> ->]; done.
Qed.

Lemma render_inj nm1 k1 nm2 k2 :
  has_at nm1 = false → has_at nm2 = false →
  render nm1 k1 = render nm2 k2 → nm1 = nm2 ∧ k1 = k2.
Proof.
  intros H1 H2 E.
  pose proof (render_has_at nm1 k1 H1) as A1.
  pose proof (render_has_at nm2 k2 H2) as A2.
  rewrite E in A1. rewrite A1 in A2.
  destruct k1 as [|c1], k2 as [|c2]; try done; simpl in E.
  apply app_at_inj in E as [-> E]; [|done..].
  split; [done|]. f_equal. by apply (inj pretty).
Qed.

Lemma fresh_symbol_render b vars :
  (fresh_symbol b vars).1 = render (stem b) (seen vars (stem b)).
Proof.
  unfold fresh_symbol, seen. by destruct (vars !! stem b).
Qed.

Lemma fresh_symbol_seen b vars nm :
  seen (fresh_symbol b vars).2 nm =
  seen vars nm + (if decide (stem b = nm) then 1 else 0).
Proof.
  unfold fresh_symbol, seen.
  destruct (vars !! stem b) eqn:E; simpl;
    (destruct (decide (stem b = nm)) as [<-|Hne];
     [rewrite lookup_insert_eq, E; lia | rewrite lookup_insert_ne by done; lia]).
Qed.

(** The [i]-th answer of a run, in closed form. *)
Lemma fresh_symbols_lookup nms vars i b :
  nms !! i = Some b →
  fresh_symbols nms vars !! i =
  Some (render (stem b) (seen vars (stem b) + requests (stem b) (take i nms))).
Proof.
  revert vars i. induction nms as [|a nms IH]; intros vars i Hi; [done|].
  simpl. destruct (fresh_symbol a vars) as [s vars'] eqn:E.
  destruct i as [|i]; simpl in *.
  - inversion Hi; subst. pose proof (fresh_symbol_render b vars) as R.
    rewrite E in R. simpl in R. rewrite R. unfold requests. simpl.
    by rewrite Nat.add_0_r.
  - rewrite (IH vars' i Hi). do 2 f_equal.
    pose proof (fresh_symbol_seen a vars (stem b)) as S.
    rewrite E in S. simpl in S. rewrite S. unfold requests.
    rewrite filter_cons. destruct (decide (stem a = stem b)); simpl; lia.
Qed.

Lemma fresh_symbols_length nms vars :
  length (fresh_symbols nms vars) = length nms.
Proof.
  revert vars. induction nms as [|a nms IH]; intros vars; [done|].
  simpl. destruct (fresh_symbol a vars). simpl. by rewrite IH.
Qed.

Lemma requests_take_mono nm nms i j :
  i < j → nms !! i = Some nm → requests (stem nm) (take i nms) < requests (stem nm) (take j nms).
Proof.
  intros Hij Hi.
  rewrite <- (take_drop_middle nms i nm Hi) at 2.
  replace j with (length (take i nms) + S (j - S i)).
  2:{ rewrite length_take. apply lookup_lt_Some in Hi. lia. }
  rewrite take_app_add. simpl. unfold requests.
  rewrite filter_app, length_app, filter_cons.
  rewrite decide_True by done. simpl. lia.
Qed.

Lemma fresh_symbols_NoDup nms vars : NoDup (fresh_symbols nms vars).
Proof.
  apply NoDup_alt. intros i j s Hi Hj.
  assert (Li : i < length nms).
  { rewrite <- (fresh_symbols_length nms vars). by eapply lookup_lt_Some. }
  assert (Lj : j < length nms).
  { rewrite <- (fresh_symbols_length nms vars). by eapply lookup_lt_Some. }
  destruct (lookup_lt_is_Some_2 nms i Li) as [bi Bi].
  destruct (lookup_lt_is_Some_2 nms j Lj) as [bj Bj].
  rewrite (fresh_symbols_lookup _ _ _ _ Bi) in Hi.
  rewrite (fresh_symbols_lookup _ _ _ _ Bj) in Hj.
  inversion Hi as [Ei]. inversion Hj as [Ej]. rewrite <- Ej in Ei.
  apply render_inj in Ei as [Es Ek]; [|apply stem_clean..].
  destruct (Nat.lt_trichotomy i j) as [H|[H|H]]; [|done|].
  - pose proof (requests_take_mono bi nms i j H Bi). rewrite Es in *. lia.
  - pose proof (requests_take_mono bj nms j i H Bj). rewrite <- Es in *. lia.
Qed.

(** C7: over a run of requests against a new table, the [i]-th request, for
    base [b], is answered with the stem of [b] when that stem was not
    requested before and with [stem@k] when it was requested [k+1] times
    before; the stem is the base with every [@] removed, or [_mlir_gen] for
    a null base or one that is empty once stripped; the answers of the run
    are pairwise distinct, and the run is the function [fresh_symbols] of
    the sequence of bases. *)
Theorem C7_fresh_symbol (nms : list (option string)) (i : nat) (b : option string) :
  nms !! i = Some b →
  fresh_symbols nms ∅ !! i =
    Some (match requests (stem b) (take i nms) with
          | O => stem b
          | S k => stem b +:+ "@" +:+ pretty k
          end)
  ∧ (b = None ∨ b = Some "" → stem b = "_mlir_gen")
  ∧ (∀ s, b = Some s → strip_at s ≠ "" → stem b = strip_at s)
  ∧ has_at (stem b) = false
  ∧ NoDup (fresh_symbols nms ∅).
Proof.
  intros Hi. split; [|split; [|split; [|split]]].
  - rewrite (fresh_symbols_lookup nms ∅ i b Hi). unfold seen.
    rewrite lookup_empty. simpl. by destruct (requests _ _).
  - intros [->| ->]; reflexivity.
  - intros s -> Hne. simpl. destruct (String.eqb_spec (strip_at s) ""); done.
  - apply stem_clean.
  - apply fresh_symbols_NoDup.
Qed.

Lemma C7_fresh_symbol_witness :
  let nms := [Some "f"; Some "@f"; None; Some "f@@"; Some ""] in
  nms !! 3 = Some (Some "f@@") ∧
  fresh_symbols nms ∅ = ["f"; "f@0"; "_mlir_gen"; "f@1"; "_mlir_gen@0"] ∧
  fresh_symbols nms ∅ !! 3 = Some "f@1".
Proof.
  split; [reflexivity|]. split; [vm_compute; reflexivity|].
  destruct (C7_fresh_symbol [Some "f"; Some "@f"; None; Some "f@@"; Some ""]
              3 (Some "f@@") eq_refl) as [H _].
  rewrite H. vm_compute. reflexivity.
Defined.

End NamesFacts.

(** ** Scope analyser: locals and free names stay apart *)

Section CaptureFacts.
Import VariableCapture.

Lemma init_ok : cap_ok init.
Proof. split; simpl; intros ? *; by rewrite ?elem_of_nil. Qed.

Lemma add_reference_ok a c : cap_ok c → cap_ok (add_reference a c).
Proof.
  intros [Hk Hd]. unfold add_reference, has_key.
  destruct (bool_decide (Builtins.builtin_mlir_name _ = None)); simpl; [|done].
  case_bool_decide as Hv; simpl; [done|].
  case_bool_decide as Hr; simpl; [done|].
  split; simpl.
  - intros k b [H|H]%elem_of_app; [by apply Hk|].
    apply list_elem_of_singleton in H. by inversion H.
  - intros k Hin. rewrite fmap_app, elem_of_app. intros [H|H].
    + by apply (Hd k).
    + simpl in H. apply list_elem_of_singleton in H. by subst.
Qed.

Lemma add_references_ok l c :
  cap_ok c → cap_ok (foldl (λ s v, add_reference v s) c l).
Proof.
  revert c. induction l as [|a l IH]; intros c H; simpl; [done|].
  by apply IH, add_reference_ok.
Qed.

Lemma addVar_ok n c : cap_ok c → cap_ok (addVar n c).
Proof.
  intros [Hk Hd]. unfold addVar, set_add, dict_pop. split; simpl.
  - intros k a [_ H]%list_elem_of_filter. by apply Hk.
  - intros k Hin [[k' a] [-> [Hne H]%list_elem_of_filter]]%list_elem_of_fmap.
    simpl in *. case_bool_decide as Hv.
    + apply (Hd k' Hin). apply list_elem_of_fmap. by exists (k', a).
    + apply elem_of_app in Hin as [Hin|Hin].
      * apply (Hd k' Hin). apply list_elem_of_fmap. by exists (k', a).
      * apply list_elem_of_singleton in Hin. done.
Qed.

Lemma addVars_ok {A} (g : A → string) l c :
  cap_ok c → cap_ok (foldl (λ s x, addVar (g x) s) c l).
Proof.
  revert c. induction l as [|a l IH]; intros c H; simpl; [done|].
  by apply IH, addVar_ok.
Qed.

Lemma mkScope_ok c : cap_ok c → locals_free_disjoint (mkScope c).
Proof.
  intros [Hk Hd] n Hn. unfold mkScope, VariableScope.init in *. simpl in *.
  intros [a [-> [[k a'] [-> Hin]]%list_elem_of_fmap]]%list_elem_of_fmap.
  simpl in *. apply (Hd _ Hn). apply list_elem_of_fmap.
  exists (k, a'). split; [|done]. simpl. symmetry. by apply Hk.
Qed.

Lemma close_scope_ok i inner : cap_ok inner → preserves (close_scope i inner).
Proof.
  intros Hin c m c' m' Hc Hm E. unfold close_scope in E. inversion E; subst.
  split; [by apply add_references_ok|].
  intros j s. rewrite lookup_insert. case_decide.
  - intros [= <-]. by apply mkScope_ok.
  - apply Hm.
Qed.

(** The lifting of a predicate to keywords is the predicate on their values. *)
Lemma keywords_all (P : expr → Prop) (l : list keyword) :
  list_all keyword (keyword__all expr P) l →
  list_all keyword (λ k, P (kw_value k)) l.
Proof.
  intros X. induction X as [|k Hk l X IH]; constructor; [by destruct Hk|done].
Qed.

Lemma each_r_ok {A} (f : A → t → res t) l :
  list_all A (λ x, ∀ c c', cap_ok c → f x c = Ok c' → cap_ok c') l →
  ∀ c c', cap_ok c → each_r f l c = Ok c' → cap_ok c'.
Proof.
  intros X. induction X as [|x Hx l X IH]; intros c c' Hc E; simpl in E.
  - by inversion E; subst.
  - destruct (f x c) as [c1|] eqn:E1; [|done]. eauto.
Qed.

Lemma addLhs_ok tgt : ∀ c c', cap_ok c → addLhs tgt c = Ok c' → cap_ok c'.
Proof.
  induction tgt using expr_ind; intros c c' Hc E; simpl in E; try done.
  - inversion E; subst. by apply addVar_ok.
  - eapply each_r_ok; eauto.
Qed.

Lemma bind_Ok {A B} (x : St A) (f : A → St B) m b m' :
  (x ≫= f) m = Ok (b, m') → ∃ a m1, x m = Ok (a, m1) ∧ f a m1 = Ok (b, m').
Proof.
  unfold mbind, St_bind, bind. destruct (x m) as [[a m1]|]; [|done]. eauto.
Qed.

Lemma assert_Ok b m u m' : assert b m = Ok (u, m') → b = true ∧ m' = m.
Proof. destruct b; simpl; [|done]. unfold ret. by intros [= _ ->]. Qed.

Lemma lift_Ok {A} (r : res A) m a m' : lift r m = Ok (a, m') → r = Ok a ∧ m' = m.
Proof. destruct r; simpl; [|done]. by intros [= -> ->]. Qed.

Lemma ret_Ok {A} (a : A) m a' m' : ret a m = Ok (a', m') → a' = a ∧ m' = m.
Proof. unfold ret. by intros [= -> ->]. Qed.

Lemma preserves_ret (g : t → t) :
  (∀ c, cap_ok c → cap_ok (g c)) → preserves (λ c, ret (g c)).
Proof. intros H c m c' m' Hc Hm [-> ->]%ret_Ok. auto. Qed.

Lemma preserves_bind (f g : t → St t) :
  preserves f → preserves g → preserves (λ c, c1 ← f c; g c1).
Proof.
  intros Hf Hg c m c' m' Hc Hm (c1 & m1 & E1 & E2)%bind_Ok.
  destruct (Hf _ _ _ _ Hc Hm E1). eauto.
Qed.

Lemma preserves_lift (f : t → res t) :
  (∀ c c', cap_ok c → f c = Ok c' → cap_ok c') → preserves (λ c, lift (f c)).
Proof. intros H c m c' m' Hc Hm [E ->]%lift_Ok. eauto. Qed.

Lemma each_ok {A} (f : A → t → St t) l :
  list_all A (λ x, preserves (f x)) l → preserves (each f l).
Proof.
  intros X. induction X as [|x Hx l X IH]; intros c m c' m' Hc Hm E; simpl in E.
  - apply ret_Ok in E as [-> ->]. done.
  - apply bind_Ok in E as (c1 & m1 & E1 & E2).
    destruct (Hx _ _ _ _ Hc Hm E1). eauto.
Qed.

Lemma opt_ok {A} (f : A → t → St t) o :
  option_all A (λ x, preserves (f x)) o → preserves (opt f o).
Proof.
  intros X. destruct X; simpl; [done|].
  intros c m c' m' Hc Hm [-> ->]%ret_Ok. done.
Qed.

Lemma addArgs_ok a c m c' m' :
  cap_ok c → addArgs a c m = Ok (c', m') → cap_ok c' ∧ m' = m.
Proof.
  intros Hc E. unfold addArgs in E.
  repeat (apply bind_Ok in E as (? & ? & [_ ->]%assert_Ok & E)).
  apply ret_Ok in E as [-> ->]. split; [|done].
  by apply (addVars_ok (λ x, x)).
Qed.

Lemma pop_captures_ok ids captures :
  Forall cap_ok captures →
  preserves (pop_captures ids captures).
Proof.
  revert captures. induction ids as [|i ids IH]; intros captures Hcs c m c' m' Hc Hm E.
  - destruct captures; simpl in E; apply ret_Ok in E as [-> ->]; done.
  - destruct captures as [|outer captures]; simpl in E.
    { apply ret_Ok in E as [-> ->]; done. }
    inversion Hcs; subst.
    apply bind_Ok in E as (o1 & m1 & E1 & E2).
    destruct (close_scope_ok i c Hc outer m o1 m1) as [Ho1 Hm1]; auto.
    exact (IH captures H2 o1 m1 c' m' Ho1 Hm1 E2).
Qed.

Lemma comp_loop_ok (visit : expr → t → St t) gen :
  list_all comprehension (comprehension__all expr (λ e, preserves (visit e))) gen →
  ∀ c captures m c' captures' m',
    cap_ok c → Forall cap_ok captures → map_ok m →
    comp_loop visit gen c captures m = Ok ((c', captures'), m') →
    cap_ok c' ∧ Forall cap_ok captures' ∧ map_ok m'.
Proof.
  intros X. induction X as [|g Hg gen X IH]; intros c captures m c' captures' m' Hc Hcs Hm E;
    simpl in E.
  - apply ret_Ok in E as [[= -> ->] ->]. done.
  - apply bind_Ok in E as (? & ? & [_ ->]%assert_Ok & E).
    apply bind_Ok in E as (? & ? & [_ ->]%assert_Ok & E).
    apply bind_Ok in E as (c1 & m1 & E1 & E).
    apply bind_Ok in E as (inner & m2 & [E2 ->]%lift_Ok & E).
    destruct Hg as [cid tg Htg it Hit fs Hfs asy]. simpl in *.
    destruct (Hit _ _ _ _ Hc Hm E1) as [Hc1 Hm1].
    eapply IH; [ | | exact Hm1 | exact E ].
    + eapply addLhs_ok; [apply init_ok|exact E2].
    + by constructor.
Qed.

Lemma checked_visit_expr_ok e : preserves (checked_visit_expr e).
Proof.
  induction e using expr_ind; simpl.
  - (* Constant *) by apply (preserves_ret (λ c, c)).
  - (* Name *) apply (preserves_ret (add_reference _)). apply add_reference_ok.
  - (* Attribute *)
    intros c m c' m' Hc Hm (c1 & m1 & E1 & E2)%bind_Ok.
    destruct ctx; try done. apply ret_Ok in E2 as [-> ->]. eauto.
  - (* Subscript *) by apply preserves_bind.
  - (* Slice *)
    apply (preserves_bind (opt checked_visit_expr _)); [by apply opt_ok|].
    apply (preserves_bind (opt checked_visit_expr _)); by apply opt_ok.
  - (* Tuple *) by apply each_ok.
  - (* List *) by apply each_ok.
  - (* UnaryOp *) done.
  - (* BinOp *) by apply preserves_bind.
  - (* Compare *) apply preserves_bind; [done|by apply each_ok].
  - (* Call *)
    apply preserves_bind; [done|].
    apply (preserves_bind (each checked_visit_expr _)); [by apply each_ok|].
    apply each_ok.
    by apply (keywords_all (λ e, preserves (checked_visit_expr e))).
  - (* FormattedValue *)
    intros c m c' m' Hc Hm (c1 & m1 & E1 & E2)%bind_Ok.
    destruct (IHe _ _ _ _ Hc Hm E1).
    case_bool_decide; [done|]. eapply opt_ok; eauto.
  - (* JoinedStr *) by apply each_ok.
  - (* Lambda *)
    intros c m c' m' Hc Hm (c1 & m1 & E1 & E2)%bind_Ok.
    apply bind_Ok in E2 as (c2 & m2 & E2 & E3).
    apply addArgs_ok in E1 as [Hc1 ->]; [|apply init_ok].
    destruct (IHe _ _ _ _ Hc1 Hm E2) as [Hc2 Hm2].
    exact (close_scope_ok node_id c2 Hc2 c m2 c' m' Hc Hm2 E3).
  - (* ListComp *)
    intros c m c' m' Hc Hm ([c1 caps] & m1 & E1 & E2)%bind_Ok.
    apply bind_Ok in E2 as (c2 & m2 & E2 & E3).
    eapply comp_loop_ok in E1 as (Hc1 & Hcaps & Hm1); eauto.
    destruct (IHe _ _ _ _ Hc1 Hm1 E2) as [Hc2 Hm2].
    exact (pop_captures_ok _ caps Hcaps c2 m2 c' m' Hc2 Hm2 E3).
  - (* GeneratorExp *) by apply (preserves_ret (λ c, c)).
  - (* OtherExpr *) intros c m c' m' _ _ E. done.
Qed.

Lemma addAssignLhs_ok tgt : preserves (addAssignLhs tgt).
Proof.
  destruct tgt; simpl;
    try (apply preserves_lift; intros c c'; apply addLhs_ok).
  apply preserves_bind; apply checked_visit_expr_ok.
Qed.

Lemma all_exprs_ok (l : list expr) :
  list_all expr (λ e, preserves (checked_visit_expr e)) l.
Proof. induction l; constructor; auto using checked_visit_expr_ok. Qed.

Lemma checked_visit_stmt_ok s : preserves (checked_visit_stmt s).
Proof.
  induction s using stmt_ind; simpl.
  - (* Assign *)
    apply preserves_bind; [apply checked_visit_expr_ok|].
    apply each_ok. induction targets; constructor; auto using addAssignLhs_ok.
  - (* AugAssign *)
    apply preserves_bind; [apply addAssignLhs_ok|apply checked_visit_expr_ok].
  - (* Expr *) apply checked_visit_expr_ok.
  - (* For *)
    apply (preserves_bind (λ c, lift (addLhs _ c)));
      [apply preserves_lift; intros c c'; apply addLhs_ok|].
    apply preserves_bind; [apply checked_visit_expr_ok|].
    apply (preserves_bind (each checked_visit_stmt _)); by apply each_ok.
  - (* FunctionDef *)
    intros c m c' m' Hc Hm (c1 & m1 & E1 & E2)%bind_Ok.
    apply bind_Ok in E2 as (c2 & m2 & E2 & E3).
    apply addArgs_ok in E1 as [Hc1 ->]; [|apply init_ok].
    destruct (each_ok checked_visit_stmt body ltac:(assumption) _ _ _ _ Hc1 Hm E2)
      as [Hc2 Hm2].
    exact (close_scope_ok node_id c2 Hc2 _ m2 c' m' (addVar_ok fname c Hc) Hm2 E3).
  - (* If *)
    apply preserves_bind; [apply checked_visit_expr_ok|].
    apply (preserves_bind (λ c, if nonempty body then _ else _)).
    + destruct (nonempty body); [by apply each_ok|by apply (preserves_ret (λ c, c))].
    + destruct (nonempty orelse); [by apply each_ok|by apply (preserves_ret (λ c, c))].
  - (* Import *)
    apply (preserves_ret (λ c, foldl _ c names)). intros c Hc. by apply addVars_ok.
  - (* Return *)
    apply opt_ok. destruct value; constructor. apply checked_visit_expr_ok.
  - (* With *)
    apply (preserves_bind (each _ items)); [|by apply each_ok].
    apply each_ok. induction items; constructor; auto using checked_visit_expr_ok.
  - (* While *)
    apply preserves_bind; [apply checked_visit_expr_ok|].
    apply (preserves_bind (each checked_visit_stmt _)); by apply each_ok.
  - (* OtherStmt *) intros c m c' m' _ _ E. done.
Qed.

Lemma visit_stmts_ok stmts : preserves (visit_stmts stmts).
Proof.
  apply each_ok. induction stmts; constructor; auto using checked_visit_stmt_ok.
Qed.

(** C9: in every scope the analyser produces for a module body, the scopes
    stored in the scope map and the module's own scope, no name is both a
    local ([vars]) and a free reference ([parent_vars]). *)
Theorem C9_locals_free_disjoint (stmts : list stmt) (c : t) (m : scope_map) :
  visit_stmts stmts init ∅ = Ok (c, m) →
  (∀ i s, m !! i = Some s → locals_free_disjoint s) ∧
  locals_free_disjoint (mkScope c).
Proof.
  intros E.
  destruct (visit_stmts_ok stmts init ∅ c m init_ok) as [Hc Hm]; [|done|].
  - intros i s. by rewrite lookup_empty.
  - split; [exact Hm|by apply mkScope_ok].
Qed.

Lemma C9_locals_free_disjoint_witness :
  ∃ c m, visit_stmts Examples.closure init ∅ = Ok (c, m) ∧
         m !! 7 = Some (VariableScope.Mk ["x"] [AstName "y" (Loc 1 21)]) ∧
         (∀ i s, m !! i = Some s → locals_free_disjoint s) ∧
         locals_free_disjoint (mkScope c).
Proof.
  eexists _, _. split; [vm_compute; reflexivity|].
  split; [vm_compute; reflexivity|].
  apply (C9_locals_free_disjoint Examples.closure). vm_compute. reflexivity.
Defined.

End CaptureFacts.

(** ** The IR builder: what each operation changes *)

Section IRFacts.
Import IR.

Lemma append_op_length b o g : length (blocks (append_op b o g)) = length (blocks g).
Proof. unfold append_op, set_blocks. simpl. apply length_alter. Qed.

Lemma append_op_funcs b o g : funcs (append_op b o g) = funcs g.
Proof. done. Qed.

Lemma append_op_next_result b o g : next_result (append_op b o g) = next_result g.
Proof. done. Qed.

Lemma append_op_parent b o g b' : parent_of (append_op b o g) b' = parent_of g b'.
Proof.
  unfold parent_of, append_op, set_blocks. simpl.
  destruct (decide (b = b')) as [->|Hne].
  - rewrite list_lookup_alter_eq. by destruct (blocks g !! b').
  - by rewrite list_lookup_alter_ne.
Qed.

Lemma append_op_ops_eq b o g :
  b < length (blocks g) → ops_of (append_op b o g) b = ops_of g b ++ [o].
Proof.
  intros Hb. unfold ops_of, append_op, set_blocks. simpl.
  rewrite list_lookup_alter_eq.
  destruct (lookup_lt_is_Some_2 _ _ Hb) as [blk ->]. done.
Qed.

Lemma append_op_ops_ne b o g b' :
  b' ≠ b → ops_of (append_op b o g) b' = ops_of g b'.
Proof.
  intros Hne. unfold ops_of, append_op, set_blocks. simpl.
  by rewrite list_lookup_alter_ne.
Qed.

Lemma append_op_ops_prefix b o g b' :
  ops_of g b' `prefix_of` ops_of (append_op b o g) b'.
Proof.
  destruct (decide (b' = b)) as [->|Hne].
  - unfold ops_of, append_op, set_blocks. simpl. rewrite list_lookup_alter_eq.
    destruct (blocks g !! b); simpl; [by apply prefix_app_r|done].
  - by rewrite append_op_ops_ne.
Qed.

Lemma append_op_elem b o g b' o' :
  o' ∈ ops_of (append_op b o g) b' →
  o' ∈ ops_of g b' ∨ (b' = b ∧ o' = o).
Proof.
  destruct (decide (b' = b)) as [->|Hne].
  - unfold ops_of, append_op, set_blocks. simpl. rewrite list_lookup_alter_eq.
    destruct (blocks g !! b); simpl; [|by left].
    rewrite elem_of_app, list_elem_of_singleton. intros [?|?]; auto.
  - rewrite append_op_ops_ne by done. auto.
Qed.

Lemma create_after_fst b tys g : (create_after b tys g).1 = length (blocks g).
Proof. done. Qed.

Lemma create_after_blocks b tys g :
  blocks (create_after b tys g).2 = blocks g ++ [MkBlock (parent_of g b) tys []].
Proof. done. Qed.

Lemma create_after_funcs_length b tys g :
  length (funcs (create_after b tys g).2) = length (funcs g).
Proof. unfold create_after, set_funcs. simpl. apply length_alter. Qed.

Lemma create_after_next_result b tys g :
  next_result (create_after b tys g).2 = next_result g.
Proof. done. Qed.

Lemma create_after_ops_old b tys g b' :
  b' < length (blocks g) → ops_of (create_after b tys g).2 b' = ops_of g b'.
Proof.
  intros H. unfold ops_of. rewrite create_after_blocks.
  by rewrite lookup_app_l.
Qed.

Lemma create_after_ops_new b tys g :
  ops_of (create_after b tys g).2 (length (blocks g)) = [].
Proof.
  unfold ops_of. rewrite create_after_blocks.
  rewrite lookup_app_r, Nat.sub_diag by lia. done.
Qed.

Lemma create_after_parent_old b tys g b' :
  b' < length (blocks g) → parent_of (create_after b tys g).2 b' = parent_of g b'.
Proof.
  intros H. unfold parent_of. rewrite create_after_blocks.
  by rewrite lookup_app_l.
Qed.

Lemma create_after_parent_new b tys g :
  parent_of (create_after b tys g).2 (length (blocks g)) = parent_of g b.
Proof.
  unfold parent_of at 1. rewrite create_after_blocks.
  rewrite lookup_app_r, Nat.sub_diag by lia. done.
Qed.

Lemma create_func_blocks name a r g :
  blocks (create_func name a r g).2 = blocks g ++ [MkBlock (length (funcs g)) a []].
Proof. done. Qed.

Lemma create_func_funcs name a r g :
  funcs (create_func name a r g).2 =
  funcs g ++ [MkFuncOp name a r [length (blocks g)]].
Proof. done. Qed.

Lemma build_fst b mk g : (build b mk g).1 = OpResult (next_result g).
Proof. done. Qed.

Lemma build_snd b mk g :
  (build b mk g).2 =
  append_op b (mk (OpResult (next_result g))) (fresh_result g).2.
Proof. done. Qed.

Lemma fresh_result_blocks g : blocks (fresh_result g).2 = blocks g.
Proof. done. Qed.

Lemma fresh_result_ops g b : ops_of (fresh_result g).2 b = ops_of g b.
Proof. done. Qed.

Lemma fresh_result_parent g b : parent_of (fresh_result g).2 b = parent_of g b.
Proof. done. Qed.

End IRFacts.

(** ** Boolean constants *)

(** C10: a constant whose value is a Python boolean is lowered without an
    error to one signed-64-bit literal op, [s64_lit 1] for [True] and
    [s64_lit 0] for [False], built in the current block, whose result is
    the value returned; no field of the translator changes. *)
Theorem C10_bool_constant (l : loc) (b : bool) (self : Translator.t) (g : State) :
  let r := OpResult (next_result g) in
  let lit := S64Lit r (if b then 1 else 0)%Z in
  ∃ g', Translator.checked_visit_expr (Constant l (CBool b)) self g
          = (g', Ok (r, self)) ∧
        g' = IR.append_op (Translator.block self) lit (IR.fresh_result g).2 ∧
        (Translator.block self < length (blocks g) →
         IR.ops_of g' (Translator.block self)
           = IR.ops_of g (Translator.block self) ++ [lit]).
Proof.
  intros r lit. eexists. split; [|split].
  - destruct b; reflexivity.
  - destruct b; reflexivity.
  - intros Hb. destruct b; simpl; by rewrite append_op_ops_eq.
Qed.

Lemma C10_bool_constant_witness :
  let self := Translator.init 0 (OpResult 0) ∅ in
  let g := MkState [MkFuncOp "script_main" [] [ReturnValueType] [0]]
                   [MkBlock 0 [] [ScopeInit (OpResult 0) [] []]] 1 ∅ ∅ [] in
  Translator.block self < length (blocks g) ∧
  ∃ g', Translator.checked_visit_expr (Constant (Loc 1 0) (CBool true)) self g
          = (g', Ok (OpResult 1, self)) ∧
        IR.ops_of g' 0 = [ScopeInit (OpResult 0) [] []; S64Lit (OpResult 1) 1].
Proof.
  intros self g.
  assert (Hb : Translator.block self < length (blocks g)) by (simpl; lia).
  split; [exact Hb|].
  destruct (C10_bool_constant (Loc 1 0) true self g) as (g' & E & _ & Hops).
  exists g'. split; [exact E|]. exact (Hops Hb).
Defined.

(** ** [invoke_next] *)

Section InvokeNext.
Import IR.

(** The states [invoke_next] goes through, and the blocks it creates. *)
Lemma invoke_next_unfold next cur done throw g :
  let n := length (blocks g) in
  let g1 := (create_after cur [] g).2 in
  let g2 := append_op cur (BranchOp [] n) g1 in
  let g3 := (create_after n [ValueType] g2).2 in
  let g4 := (create_after n [ValueType] g3).2 in
  let g5 := append_op n (InvokeOp next [] None (S n) (S (S n))) g4 in
  let g6 := (build (S (S n))
               (λ r, IsInstance r (BlockArg (S (S n)) 0) "StopIteration") g5).2 in
  let g7 := append_op (S (S n))
              (CondBranchOp (OpResult (next_result g)) [] [BlockArg (S (S n)) 0]
                            done throw) g6 in
  invoke_next next cur done throw g = ((n, S n, BlockArg (S n) 0), g7).
Proof.
  intros n g1 g2 g3 g4 g5 g6 g7. unfold invoke_next.
  change (create_after cur [] g) with (n, g1). cbv beta iota zeta.
  fold g2.
  assert (L2 : length (blocks g2) = S n).
  { unfold g2. rewrite append_op_length. unfold g1.
    rewrite create_after_blocks, length_app. simpl. lia. }
  assert (E3 : create_after n [ValueType] g2 = (S n, g3)).
  { unfold g3. rewrite <- L2. reflexivity. }
  rewrite E3. cbv beta iota zeta.
  assert (L3 : length (blocks g3) = S (S n)).
  { unfold g3. rewrite create_after_blocks, length_app, L2. simpl. lia. }
  assert (E4 : create_after n [ValueType] g3 = (S (S n), g4)).
  { unfold g4. rewrite <- L3. reflexivity. }
  rewrite E4. cbv beta iota zeta. fold g5.
  change (build (S (S n)) (λ r, IsInstance r (BlockArg (S (S n)) 0) "StopIteration") g5)
    with (OpResult (next_result g5), g6).
  cbv beta iota zeta. reflexivity.
Qed.

(** The three blocks [invoke_next] creates, once it is done. *)
Lemma invoke_next_blocks next cur done throw g :
  cur < length (blocks g) →
  let n := length (blocks g) in
  let g' := (invoke_next next cur done throw g).2 in
  let c := OpResult (next_result g) in
  ops_of g' n = [InvokeOp next [] None (S n) (S (S n))] ∧
  ops_of g' (S n) = [] ∧
  ops_of g' (S (S n)) =
    [IsInstance c (BlockArg (S (S n)) 0) "StopIteration";
     CondBranchOp c [] [BlockArg (S (S n)) 0] done throw] ∧
  ops_of g' cur = ops_of g cur ++ [BranchOp [] n] ∧
  length (blocks g') = S (S (S n)).
Proof.
  intros Hcur n g' c. unfold g'. rewrite invoke_next_unfold. cbv zeta.
  cbn [snd]. fold n.
  set (g1 := (create_after cur [] g).2).
  set (g2 := append_op cur (BranchOp [] n) g1).
  set (g3 := (create_after n [ValueType] g2).2).
  set (g4 := (create_after n [ValueType] g3).2).
  set (g5 := append_op n (InvokeOp next [] None (S n) (S (S n))) g4).
  assert (L1 : length (blocks g1) = S n).
  { unfold g1. rewrite create_after_blocks, length_app. simpl. lia. }
  assert (L2 : length (blocks g2) = S n).
  { unfold g2. by rewrite append_op_length. }
  assert (L3 : length (blocks g3) = S (S n)).
  { unfold g3. rewrite create_after_blocks, length_app, L2. simpl. lia. }
  assert (L4 : length (blocks g4) = S (S (S n))).
  { unfold g4. rewrite create_after_blocks, length_app, L3. simpl. lia. }
  assert (L5 : length (blocks g5) = S (S (S n))).
  { unfold g5. by rewrite append_op_length. }
  assert (O2n : ops_of g2 n = []).
  { unfold g2. rewrite append_op_ops_ne by lia. apply create_after_ops_new. }
  assert (O3 : ops_of g3 (S n) = []).
  { unfold g3. rewrite <- L2. apply create_after_ops_new. }
  assert (O4 : ops_of g4 (S (S n)) = []).
  { unfold g4. rewrite <- L3. apply create_after_ops_new. }
  rewrite build_snd.
  repeat split.
  - rewrite !append_op_ops_ne by lia. rewrite fresh_result_ops.
    unfold g5. rewrite append_op_ops_eq by lia. unfold g4.
    rewrite create_after_ops_old by lia. unfold g3.
    rewrite create_after_ops_old by lia. by rewrite O2n.
  - rewrite !append_op_ops_ne by lia. rewrite fresh_result_ops.
    unfold g5. rewrite append_op_ops_ne by lia. unfold g4.
    rewrite create_after_ops_old by lia. exact O3.
  - rewrite append_op_ops_eq
      by (rewrite append_op_length, fresh_result_blocks, L5; lia).
    rewrite append_op_ops_eq by (rewrite fresh_result_blocks, L5; lia).
    rewrite fresh_result_ops.
    unfold g5. rewrite append_op_ops_ne by lia. by rewrite O4.
  - rewrite !append_op_ops_ne by lia. rewrite fresh_result_ops.
    unfold g5. rewrite append_op_ops_ne by lia. unfold g4.
    rewrite create_after_ops_old by lia. unfold g3.
    rewrite create_after_ops_old by lia. unfold g2.
    rewrite append_op_ops_eq by lia. unfold g1.
    by rewrite create_after_ops_old.
  - rewrite !append_op_length, fresh_result_blocks. exact L5.
Qed.

(** C6: in the blocks [invoke_next] builds, the call of [next] has the test
    block as its exception successor; entered with a thrown value that is
    an instance of [StopIteration] the test block branches to the done
    block, passing nothing (so it does not reach the throw block, the two
    being different blocks), and entered with any other thrown value it
    branches to the throw block and passes that value. *)
Theorem C6_invoke_next_exits (Obj : Type) (isinstance : Obj → string → bool)
  (next : Value) (cur done throw : nat) (g : State) (thrown : Obj) :
  cur < length (blocks g) →
  ∃ nextBlock bodyBlock exceptBlock v g',
    invoke_next next cur done throw g = ((nextBlock, bodyBlock, v), g') ∧
    ops_of g' nextBlock = [InvokeOp next [] None bodyBlock exceptBlock] ∧
    match Sem.enter Obj isinstance g' exceptBlock [Sem.RObj Obj thrown] with
    | Some (dest, passed) =>
        if isinstance thrown "StopIteration"
        then dest = done ∧ passed = [] ∧ (done ≠ throw → dest ≠ throw)
        else dest = throw ∧ passed = [Sem.RObj Obj thrown]
    | None => False
    end.
Proof.
  intros Hcur.
  destruct (invoke_next_blocks next cur done throw g Hcur) as (On & _ & Oe & _ & _).
  rewrite invoke_next_unfold in *. cbv zeta in *. cbn [snd] in *.
  eexists _, _, (S (S (length (blocks g)))), _, _.
  split; [reflexivity|]. split; [exact On|].
  unfold Sem.enter. rewrite Oe. simpl.
  rewrite !Nat.eqb_refl. simpl.
  destruct (isinstance thrown "StopIteration"); simpl.
  - done.
  - rewrite ?Nat.eqb_refl. simpl. done.
Qed.

Lemma C6_invoke_next_exits_witness :
  let g := MkState [MkFuncOp "script_main" [] [ReturnValueType] [0; 2; 1]]
                   [MkBlock 0 [] []; MkBlock 0 [ValueType] []; MkBlock 0 [] []]
                   1 ∅ ∅ [] in
  0 < length (blocks g) ∧
  Sem.enter string String.eqb (invoke_next (OpResult 0) 0 2 1 g).2 5
            [Sem.RObj string "KeyError"] = Some (1, [Sem.RObj string "KeyError"]) ∧
  ∃ nextBlock bodyBlock exceptBlock v g',
    invoke_next (OpResult 0) 0 2 1 g = ((nextBlock, bodyBlock, v), g') ∧
    ops_of g' nextBlock = [InvokeOp (OpResult 0) [] None bodyBlock exceptBlock] ∧
    match Sem.enter string String.eqb g' exceptBlock
                    [Sem.RObj string "StopIteration"] with
    | Some (dest, passed) =>
        if String.eqb "StopIteration" "StopIteration"
        then dest = 2 ∧ passed = [] ∧ (2 ≠ 1 → dest ≠ 1)
        else dest = 1 ∧ passed = [Sem.RObj string "StopIteration"]
    | None => False
    end.
Proof.
  intros g.
  assert (H0 : 0 < length (blocks g)) by (simpl; lia).
  split; [exact H0|]. split; [vm_compute; reflexivity|].
  exact (C6_invoke_next_exits string String.eqb (OpResult 0) 0 2 1 g
           "StopIteration" H0).
Defined.

End InvokeNext.

(** ** The driver's report of unknown variables *)

Section Driver.

Lemma string_app_assoc (s t u : string) : (s +:+ t) +:+ u = s +:+ (t +:+ u).
Proof.
  induction s as [|c s IH]; [done|].
  change (String c ((s +:+ t) +:+ u) = String c (s +:+ t +:+ u)). by f_equal.
Qed.

Lemma string_app_nil_r (s : string) : s +:+ "" = s.
Proof.
  induction s as [|c s IH]; [done|].
  change (String c (s +:+ "") = String c s). by f_equal.
Qed.

Lemma unknown_message_from (h : string) (refs : list ast_Name) :
  ∃ rest, foldl (λ msg a, msg +:+ unknown_line a) h refs = h +:+ rest.
Proof.
  revert h. induction refs as [|a refs IH]; intros h; simpl.
  - exists "". by rewrite string_app_nil_r.
  - destruct (IH (h +:+ unknown_line a)) as [rest ->].
    exists (unknown_line a +:+ rest). by rewrite string_app_assoc.
Qed.

Lemma unknown_message_line (h : string) (refs : list ast_Name) (a : ast_Name) :
  a ∈ refs →
  ∃ pre post,
    foldl (λ msg a, msg +:+ unknown_line a) h refs = pre +:+ unknown_line a +:+ post.
Proof.
  revert h. induction refs as [|b refs IH]; intros h Hin; simpl.
  - by apply elem_of_nil in Hin.
  - apply elem_of_cons in Hin as [->|Hin].
    + destruct (unknown_message_from (h +:+ unknown_line b) refs) as [rest ->].
      exists h, rest. by rewrite string_app_assoc.
    + by apply IH.
Qed.

(** C8: when the analysis of the module body ends with free references
    left, [translateModule] raises with a message that begins with
    "Unknown variables" and holds, for every such reference, a line with
    its line, its column and its name; the module it leaves behind is the
    one [Module.create] made, with no function in it. *)
Theorem C8_unknown_variables (tree : module_) (c : VariableCapture.t) (m : scope_map) :
  VariableCapture.visit_stmts (mbody tree) VariableCapture.init ∅ = Ok (c, m) →
  VariableCapture.references c ≠ [] →
  ∃ msg,
    translateModule tree = (Module_create, Raise (UnknownVariables msg)) ∧
    funcs (translateModule tree).1 = [] ∧
    (∃ rest, msg = "Unknown variables" +:+ rest) ∧
    ∀ k a, (k, a) ∈ VariableCapture.references c →
      k = nm_id a ∧
      ∃ pre post,
        msg = pre +:+ ("  " +:+ pretty (lineno (nm_loc a)) +:+ ":"
                       +:+ pretty (col_offset (nm_loc a)) +:+ ": " +:+ k
                       +:+ Translator.nl) +:+ post.
Proof.
  intros E Hne.
  assert (T : translateModule tree =
              (Module_create,
               Raise (UnknownVariables
                        (unknown_message (VariableCapture.references c).*2)))).
  { unfold translateModule. rewrite E.
    destruct (VariableCapture.references c); [done|reflexivity]. }
  eexists. split; [exact T|]. rewrite T. split; [reflexivity|]. split.
  - unfold unknown_message.
    destruct (unknown_message_from ("Unknown variables:" +:+ Translator.nl)
                (VariableCapture.references c).*2) as [rest ->].
    eexists. reflexivity.
  - intros k a Hin.
    destruct (visit_stmts_ok (mbody tree) VariableCapture.init ∅ c m init_ok)
      as [[Hk _] _]; [by intros i s; rewrite lookup_empty|exact E|].
    pose proof (Hk k a Hin) as ->. split; [done|].
    apply (unknown_message_line _ (VariableCapture.references c).*2 a).
    apply list_elem_of_fmap. by exists (nm_id a, a).
Qed.

Lemma C8_unknown_variables_witness :
  ∃ c m,
    VariableCapture.visit_stmts (mbody Examples.unknown) VariableCapture.init ∅
      = Ok (c, m) ∧
    VariableCapture.references c ≠ [] ∧
    (translateModule Examples.unknown).2
      = Raise (UnknownVariables
                 ("Unknown variables:" +:+ Translator.nl +:+
                  "  1:6: foo" +:+ Translator.nl +:+
                  "  2:0: bar" +:+ Translator.nl)) ∧
    ∃ msg,
      translateModule Examples.unknown
        = (Module_create, Raise (UnknownVariables msg)) ∧
      funcs (translateModule Examples.unknown).1 = [] ∧
      (∃ rest, msg = "Unknown variables" +:+ rest) ∧
      ∀ k a, (k, a) ∈ VariableCapture.references c →
        k = nm_id a ∧
        ∃ pre post,
          msg = pre +:+ ("  " +:+ pretty (lineno (nm_loc a)) +:+ ":"
                         +:+ pretty (col_offset (nm_loc a)) +:+ ": " +:+ k
                         +:+ Translator.nl) +:+ post.
Proof.
  eexists _, _. split; [vm_compute; reflexivity|].
  split; [discriminate|]. split; [vm_compute; reflexivity|].
  eapply (C8_unknown_variables Examples.unknown); [vm_compute; reflexivity|discriminate].
Defined.

End Driver.

(** ** Chained comparisons *)

Section Compare.
Import Translator.

Lemma M_bind_assoc {A B C} (m : M A) (k : A → M B) (h : B → M C) self g :
  ((m ≫= k) ≫= h) self g = (m ≫= (λ a, k a ≫= h)) self g.
Proof.
  unfold mbind, M_bind, bind. destruct (m self g) as [g1 [[a s1]|e]]; done.
Qed.

Lemma M_bind_ext {A B} (m : M A) (k k' : A → M B) self g :
  (∀ a s1 g1, k a s1 g1 = k' a s1 g1) →
  (m ≫= k) self g = (m ≫= k') self g.
Proof.
  intros H. unfold mbind, M_bind, bind.
  destruct (m self g) as [g1 [[a s1]|e]]; auto.
Qed.

(** One more operator at the end of the loop is one more comparison on the
    value the loop returned. *)
Lemma compare_loop_snoc e0 visit es ops e op left_ self g :
  length ops = length es →
  compare_loop e0 visit (es ++ [e]) (ops ++ [op]) left_ self g =
  (l ← compare_loop e0 visit es ops left_;
   r ← visit e;
   match comparison_map op with
   | None => undef_value e0
   | Some cls => apply_binop l cls r
   end) self g.
Proof.
  revert ops left_ self g. induction es as [|a es IH]; intros ops left_ self g Hlen.
  - destruct ops; [|done]. simpl.
    unfold mbind, M_bind, bind, mret, M_ret, ret. simpl.
    destruct (visit e self g) as [g1 [[r s1]|x]]; [|done].
    destruct (match comparison_map op with
              | Some op0 => apply_binop left_ op0 r
              | None => undef_value e0
              end s1 g1) as [g2 [[v s2]|x]]; done.
  - destruct ops as [|o ops]; [done|]. simpl in Hlen.
    change (compare_loop e0 visit ((a :: es) ++ [e]) ((o :: ops) ++ [op]) left_)
      with (right_ ← visit a;
            left_ ← match comparison_map o with
                    | None => undef_value e0
                    | Some op => apply_binop left_ op right_
                    end;
            compare_loop e0 visit (es ++ [e]) (ops ++ [op]) left_).
    change (compare_loop e0 visit (a :: es) (o :: ops) left_)
      with (right_ ← visit a;
            left_ ← match comparison_map o with
                    | None => undef_value e0
                    | Some op => apply_binop left_ op right_
                    end;
            compare_loop e0 visit es ops left_).
    rewrite M_bind_assoc. apply M_bind_ext. intros r s1 g1.
    rewrite M_bind_assoc. apply M_bind_ext. intros v s2 g2.
    apply IH. lia.
Qed.

(** The node handed to [undef_value] plays no part: every comparison
    operator has an op class. *)
Lemma compare_loop_node e0 e0' visit es ops left_ self g :
  compare_loop e0 visit es ops left_ self g =
  compare_loop e0' visit es ops left_ self g.
Proof.
  revert ops left_ self g. induction es as [|a es IH]; intros ops left_ self g.
  - by destruct ops.
  - destruct ops as [|o ops]; [done|].
    change (compare_loop ?n visit (a :: es) (o :: ops) left_)
      with (right_ ← visit a;
            left_ ← match comparison_map o with
                    | None => undef_value n
                    | Some op => apply_binop left_ op right_
                    end;
            compare_loop n visit es ops left_).
    apply M_bind_ext. intros r s1 g1.
    destruct o; simpl; apply M_bind_ext; intros v s2 g2; apply IH.
Qed.

(** A chained comparison [a op1 b ... opn z] runs as the chain before its
    last operator, then the last comparator, then one comparison of the two
    values. *)
Lemma compare_chain_snoc (l l' : loc) (a : expr) (ops : list cmpop)
  (es : list expr) (op : cmpop) (e : expr) (cls : binop_class)
  (self : t) (g : State) :
  length ops = length es →
  comparison_map op = Some cls →
  checked_visit_expr (Compare l a (ops ++ [op]) (es ++ [e])) self g =
  (left_ ← checked_visit_expr (Compare l' a ops es);
   right_ ← checked_visit_expr e;
   apply_binop left_ cls right_) self g.
Proof.
  intros Hlen Hcls.
  change (checked_visit_expr (Compare l a (ops ++ [op]) (es ++ [e])))
    with (left_ ← checked_visit_expr a;
          compare_loop (Compare l a (ops ++ [op]) (es ++ [e]))
                       checked_visit_expr (es ++ [e]) (ops ++ [op]) left_).
  change (checked_visit_expr (Compare l' a ops es))
    with (left_ ← checked_visit_expr a;
          compare_loop (Compare l' a ops es) checked_visit_expr es ops left_).
  rewrite M_bind_assoc. apply M_bind_ext. intros v s1 g1.
  rewrite compare_loop_snoc by done. rewrite Hcls.
  unfold mbind at 1 3, M_bind, bind.
  by rewrite (compare_loop_node _ (Compare l' a ops es)).
Qed.

(** C2 as first stated fails: in [a < b < c] the second comparison takes
    the result of the first, not [b], as its left operand. *)
Lemma C2_counterexample :
  ¬ Chain.reuses_right_operand
      (Chain.comparisons (translateModule Examples.chained).1).
Proof.
  intros H.
  specialize (H 0 (OpResult 7) (OpResult 8) (BlockArg 2 0) (OpResult 10)
                ltac:(vm_compute; reflexivity) ltac:(vm_compute; reflexivity)).
  discriminate H.
Qed.

End Compare.

(** ** What the lowering does on three programs *)

Section Evaluations.

(** C1, at [[x for x in xs]]: the list built for the result is
    [OpResult 3] and the elements are appended to it, the cursor ends at
    the final block (block 2) and the cell map and scope value are the
    ones before the comprehension; but the value the lowering returns is
    [OpResult 5], the value loaded from [xs]: [visit_ListComp] ends in
    [return l], the iterable of the last generator, where the list is [r].
    In [ys = [x for x in xs]] the cell of [ys] is therefore given the
    value of [xs]. *)
Theorem C1_listcomp_returns_iterable :
  (∃ g' self',
     Translator.checked_visit_expr Examples.listcomp_expr Examples.listcomp_self
                                   Examples.listcomp_state
       = (g', Ok (OpResult 5, self')) ∧
     IR.ops_of g' 0 !! 2 = Some (ListOp (OpResult 3) []) ∧
     IR.ops_of g' 0 !! 3 = Some (GetMethod (OpResult 4) (OpResult 3) "append") ∧
     IR.ops_of g' 0 !! 4 = Some (CellLoad (OpResult 5) (OpResult 0)) ∧
     IR.ops_of g' 5 !! 4 = Some (InvokeOp (OpResult 4) [OpResult 11] None 7 1) ∧
     OpResult 5 ≠ OpResult 3 ∧
     Translator.block self' = 2 ∧
     Translator._cell_map self' = Translator._cell_map Examples.listcomp_self ∧
     Translator._scope_value self' = Translator._scope_value Examples.listcomp_self) ∧
  let g := (translateModule Examples.listcomp_assigned).1 in
  (translateModule Examples.listcomp_assigned).2 = Ok tt ∧
  IR.ops_of g 0 !! 7 = Some (ListOp (OpResult 7) []) ∧
  IR.ops_of g 0 !! 9 = Some (CellLoad (OpResult 9) (OpResult 0)) ∧
  IR.ops_of g 2 !! 0 = Some (CellStore (OpResult 1) (OpResult 9)).
Proof.
  split.
  - eexists _, _. split; [vm_compute; reflexivity|]. vm_compute. by repeat split.
  - vm_compute. by repeat split.
Qed.

(** Outside a [with], a [return] without a value raises in every state. *)
Lemma visit_Return_bare (self : Translator.t) (g : State) :
  Translator.onDone self = NoDone →
  Translator.visit_Return None self g
    = (g, Raise (AttributeError "Translator" "funTranslator")).
Proof.
  intros H. unfold Translator.visit_Return.
  unfold mbind, Translator.M_bind, Translator.bind, Translator.get.
  by rewrite H.
Qed.

(** C3, at [def f(): return]: lowering the bare [return] reads
    [self.funTranslator], which no translator has, and raises. *)
Theorem C3_bare_return_raises :
  (translateModule Examples.bare_return).2
    = Raise (AttributeError "Translator" "funTranslator") ∧
  (translateModule Examples.return_value).2 = Ok tt.
Proof. vm_compute. by split. Qed.

(** C4, at [with a as b: a = 3]: after [__enter__] is called, storing its
    result into the binding reads [self.map], which no translator has, and
    raises; without a binding, [with a, b: a = 3] is lowered and the
    [__exit__] of [b] is invoked before that of [a]. *)
Theorem C4_with_binding_raises :
  (translateModule Examples.with_as).2 = Raise (AttributeError "Translator" "map") ∧
  let g := (translateModule Examples.with_two).1 in
  (translateModule Examples.with_two).2 = Ok tt ∧
  IR.ops_of g 0 !! 9 = Some (GetMethod (OpResult 7) (OpResult 5) "__exit__") ∧
  IR.ops_of g 2 !! 2 = Some (GetMethod (OpResult 11) (OpResult 9) "__exit__") ∧
  IR.ops_of g 3 !! 2 = Some (InvokeOp (OpResult 11) [] None 4 1) ∧
  IR.ops_of g 4 !! 0 = Some (InvokeOp (OpResult 7) [] None 5 1).
Proof. vm_compute. by repeat split. Qed.

End Evaluations.

(** ** The landing pad of a function *)

Section PadFacts.
Import IR Pad Translator Lowering.

Lemma ops_nonempty_valid g b o : o ∈ ops_of g b → b < length (blocks g).
Proof.
  unfold ops_of. destruct (blocks g !! b) eqn:E.
  - intros _. by eapply lookup_lt_Some.
  - by intros ?%elem_of_nil.
Qed.

Lemma prefix_cons_valid g b o l : (o :: l) `prefix_of` ops_of g b → b < length (blocks g).
Proof.
  intros [k E]. apply (ops_nonempty_valid g b o). rewrite E. by left.
Qed.

Lemma ext_refl g : ext g g.
Proof. by repeat split. Qed.

Lemma ext_trans g1 g2 g3 : ext g1 g2 → ext g2 g3 → ext g1 g3.
Proof.
  intros (B1 & F1 & H1) (B2 & F2 & H2). split; [lia|]. split; [lia|].
  intros b Hb. destruct (H1 b Hb) as [P1 O1].
  destruct (H2 b ltac:(lia)) as [P2 O2]. split; [congruence|].
  by etrans.
Qed.

Lemma R_refl f n g : R f n g g.
Proof. split; [apply ext_refl|]. split; [done|]. intros; lia. Qed.

Lemma R_trans f n g1 g2 g3 : R f n g1 g2 → R f n g2 g3 → R f n g1 g3.
Proof.
  intros (E1 & U1 & N1) (E2 & U2 & N2).
  split; [by eapply ext_trans|]. split.
  - intros b Hb Hf Hn. destruct E1 as (B1 & _ & H1).
    destruct (H1 b Hb) as [P1 _].
    rewrite U2; [by apply U1|lia|congruence|congruence].
  - intros b Hlo Hhi. destruct E2 as (B2 & _ & H2).
    destruct (decide (b < length (blocks g2))) as [Hb|Hb].
    + destruct (H2 b Hb) as [-> _]. by apply N1.
    + apply N2; lia.
Qed.

Lemma block_of_ext g g' f b : ext g g' → block_of g f b → block_of g' f b.
Proof.
  intros (B & _ & H) [Hb Hp]. destruct (H b Hb) as [P _].
  split; [lia|congruence].
Qed.

Lemma is_landing_pad_ext g g' p : ext g g' → is_landing_pad g p → is_landing_pad g' p.
Proof.
  intros (_ & _ & H) [r Hr]. exists r.
  destruct (H p (prefix_cons_valid _ _ _ _ Hr)) as [_ O]. by etrans.
Qed.

Lemma is_stop_test_ext g g' e p : ext g g' → is_stop_test g e p → is_stop_test g' e p.
Proof.
  intros (_ & _ & H) (c & d & Hr). exists c, d.
  destruct (H e (prefix_cons_valid _ _ _ _ Hr)) as [_ O]. by etrans.
Qed.

Lemma pad_of_ext g g' f p : ext g g' → pad_of g f p → pad_of g' f p.
Proof.
  intros E [Hb Hl]. split; [by eapply block_of_ext|by eapply is_landing_pad_ext].
Qed.

(** A fallible op has its two successors by construction. *)
Lemma fallible_successors o :
  fallible o = true →
  ∃ r e, successors o = [r; e] ∧ failure_successor o = Some e.
Proof. destruct o; try done; simpl; eauto. Qed.

(** The pad of a function is unique. *)
Lemma pad_of_unique g f pad p : pad_ok g f pad → pad_of g f p → pad = Some p.
Proof.
  intros [HA _] [Hb [r Hr]].
  apply (HA p (MkExceptOp r (BlockArg p 0)) Hb); [|done].
  destruct Hr as [k ->]. by left.
Qed.

(** [pad_ok] only looks at the blocks of its function that hold ops. *)
Lemma pad_ok_frame g g' f pad :
  ext g g' →
  (∀ b, block_of g f b → ops_of g' b = ops_of g b) →
  (∀ b, block_of g' f b → b < length (blocks g) ∨ ops_of g' b = []) →
  pad_ok g f pad → pad_ok g' f pad.
Proof.
  intros E Hsame Hold [HA HB]. split.
  - intros b o Hb Ho.
    assert (Hb0 : block_of g f b).
    { destruct E as (_ & _ & H). destruct (Hold b Hb) as [Hlt|Hnil].
      - destruct (H b Hlt) as [P _]. destruct Hb as [_ Hp].
        split; [done|congruence].
      - rewrite Hnil in Ho. by apply elem_of_nil in Ho. }
    rewrite (Hsame b Hb0) in Ho. destruct (HA b o Hb0 Ho) as [H1 H2].
    split; [done|]. intros Hf. destruct (H2 Hf) as (L & p & e & -> & Hs & Hs1 & Hd).
    split; [done|]. exists p, e. repeat split; try done.
    destruct Hd as [->|Ht]; [by left|right; by eapply is_stop_test_ext].
  - intros p ->. destruct (HB p eq_refl) as [Hb Hl].
    split; [by eapply block_of_ext|by eapply is_landing_pad_ext].
Qed.

Lemma pad_ok_R g g' f n f' pad :
  R f n g g' → f' ≠ f → f' < n → pad_ok g f' pad → pad_ok g' f' pad.
Proof.
  intros (E & U & N) Hne Hlt. apply pad_ok_frame; [done| |].
  - intros b [Hb Hp]. apply U; [done|congruence|congruence].
  - intros b [Hb Hp]. left. destruct (decide (b < length (blocks g))); [done|].
    destruct (N b ltac:(lia) Hb); lia.
Qed.

(** Appending an op to a block. *)
Lemma ext_append_op b o g : ext g (append_op b o g).
Proof.
  split; [by rewrite append_op_length|]. split; [done|].
  intros b' Hb'. split; [apply append_op_parent|apply append_op_ops_prefix].
Qed.

Lemma block_of_append_op b o g f b' :
  block_of (append_op b o g) f b' ↔ block_of g f b'.
Proof. unfold block_of. by rewrite append_op_length, append_op_parent. Qed.

Lemma pad_ok_append_harmless b o g f pad :
  harmless o → pad_ok g f pad → pad_ok (append_op b o g) f pad.
Proof.
  intros [Hf Hm] [HA HB]. split.
  - intros b' o' Hb' Ho'. apply block_of_append_op in Hb'.
    apply append_op_elem in Ho' as [Ho'|[-> ->]].
    + destruct (HA b' o' Hb' Ho') as [H1 H2]. split; [done|].
      intros Hf'. destruct (H2 Hf') as (L & p & e & -> & Hs & Hs1 & Hd).
      split; [done|]. exists p, e. repeat split; try done.
      destruct Hd as [->|Ht]; [by left|right].
      eapply is_stop_test_ext; [apply ext_append_op|done].
    + split; intros; congruence.
  - intros p ->. destruct (HB p eq_refl) as [Hb Hl].
    split; [by apply block_of_append_op|].
    eapply is_landing_pad_ext; [apply ext_append_op|done].
Qed.

Lemma pad_ok_append_other b o g f pad :
  parent_of g b ≠ f → pad_ok g f pad → pad_ok (append_op b o g) f pad.
Proof.
  intros Hne. apply pad_ok_frame; [apply ext_append_op| |].
  - intros b' [Hb' Hp]. apply append_op_ops_ne. congruence.
  - intros b' [Hb' _]. left. by rewrite append_op_length in Hb'.
Qed.

Lemma pad_ok_append_fallible b o g f p e :
  block_of g f b → fallible o = true → failure_successor o = Some e →
  (e = p ∨ is_stop_test g e p) →
  pad_ok g f (Some p) → pad_ok (append_op b o g) f (Some p).
Proof.
  intros Hb Hf He Hd [HA HB]. split.
  - intros b' o' Hb' Ho'. apply block_of_append_op in Hb'.
    apply append_op_elem in Ho' as [Ho'|[-> ->]].
    + destruct (HA b' o' Hb' Ho') as [H1 H2]. split; [done|].
      intros Hf'. destruct (H2 Hf') as (L & p' & e' & Hp' & Hs & Hs1 & Hd').
      split; [done|]. exists p', e'. repeat split; try done.
      destruct Hd' as [->|Ht]; [by left|right].
      eapply is_stop_test_ext; [apply ext_append_op|done].
    + split; [destruct o; done|]. intros _.
      destruct (fallible_successors o Hf) as (r & e0 & Hs & He0).
      rewrite He in He0. injection He0 as <-.
      split; [by rewrite Hs|]. exists p, e. repeat split; try done.
      * by rewrite Hs.
      * destruct Hd as [->|Ht]; [by left|right].
        eapply is_stop_test_ext; [apply ext_append_op|done].
  - intros p' [= <-]. destruct (HB p eq_refl) as [Hb' Hl].
    split; [by apply block_of_append_op|].
    eapply is_landing_pad_ext; [apply ext_append_op|done].
Qed.

Lemma wf_append_op b o g : wf g → wf (append_op b o g).
Proof.
  intros H b' Hb'. rewrite append_op_length in Hb'.
  rewrite append_op_parent, append_op_funcs. by apply H.
Qed.

Lemma R_append_op f n b o g :
  (parent_of g b = f ∨ (n ≤ parent_of g b)%nat) → R f n g (append_op b o g).
Proof.
  intros Hp. split; [apply ext_append_op|]. split.
  - intros b' Hb' Hf Hn. apply append_op_ops_ne. intros ->. lia.
  - intros b' Hlo Hhi. rewrite append_op_length in Hhi. lia.
Qed.

(** Taking a new result number changes no block. *)
Lemma ext_fresh_result g : ext g (fresh_result g).2.
Proof. by repeat split. Qed.

Lemma pad_ok_fresh_result g f pad : pad_ok g f pad ↔ pad_ok (fresh_result g).2 f pad.
Proof. done. Qed.

End PadFacts.

(** ** Steps that keep the invariant *)

Section Steps.
Import IR Pad Translator Lowering.

Lemma quiet_refl b g : quiet_at b g g.
Proof. unfold quiet_at. split_and!; done. Qed.

Lemma quiet_trans b g1 g2 g3 : quiet_at b g1 g2 → quiet_at b g2 g3 → quiet_at b g1 g3.
Proof.
  intros (F1 & B1 & P1 & O1 & N1 & K1) (F2 & B2 & P2 & O2 & N2 & K2).
  split; [congruence|]. split; [congruence|].
  split; [intros b'; rewrite P2; apply P1|].
  split; [intros b'; etrans; [apply O1|apply O2]|].
  split; [intros b' Hne; rewrite N2 by done; by apply N1|].
  intros f pad H. by apply K2, K1.
Qed.

Lemma quiet_append_harmless b o g : harmless o → quiet_at b g (append_op b o g).
Proof.
  intros Ho. split; [done|]. split; [apply append_op_length|].
  split; [apply append_op_parent|]. split; [apply append_op_ops_prefix|].
  split; [intros b' Hne; by apply append_op_ops_ne|].
  intros f pad. by apply pad_ok_append_harmless.
Qed.

Lemma quiet_fresh_result b g : quiet_at b g (fresh_result g).2.
Proof. unfold quiet_at. split_and!; done. Qed.

Lemma quiet_build b mk g :
  harmless (mk (OpResult (next_result g))) → quiet_at b g (IR.build b mk g).2.
Proof.
  intros H. rewrite build_snd. eapply quiet_trans; [apply quiet_fresh_result|].
  by apply quiet_append_harmless.
Qed.

(** A change that leaves functions and blocks alone. *)
Lemma quiet_same_ir b g g' :
  funcs g' = funcs g → blocks g' = blocks g → quiet_at b g g'.
Proof.
  intros Hf Hb. unfold quiet_at, ops_of, parent_of. rewrite Hf, Hb.
  split_and!; try done.
  intros f pad. unfold pad_ok, block_of, is_stop_test, is_landing_pad, ops_of, parent_of.
  by rewrite Hb.
Qed.

Lemma quiet_ext b g g' : quiet_at b g g' → ext g g'.
Proof.
  intros (F & B & P & O & N & K). split; [lia|]. split; [lia|].
  intros b' _. split; [apply P|apply O].
Qed.

Lemma quiet_R f n b g g' :
  quiet_at b g g' →
  (parent_of g b = f ∨ (n ≤ parent_of g b)%nat) → R f n g g'.
Proof.
  intros Q Hp. split; [by eapply quiet_ext|].
  destruct Q as (F & B & P & O & N & K). split.
  - intros b' Hb' Hf Hn. apply N. intros ->. lia.
  - intros b' Hlo Hhi. lia.
Qed.

Lemma quiet_wf b g g' : quiet_at b g g' → wf g → wf g'.
Proof.
  intros (F & B & P & O & N & K) H b' Hb'. rewrite P, F. apply H. lia.
Qed.

Lemma quiet_block_of b g g' f b' : quiet_at b g g' → block_of g f b' → block_of g' f b'.
Proof. intros Q. apply block_of_ext. by eapply quiet_ext. Qed.

Lemma quiet_complete b g g' n : quiet_at b g g' → complete_from n g → complete_from n g'.
Proof.
  intros (F & B & P & O & N & K) H f Hn Hf.
  destruct (H f Hn ltac:(lia)) as [pad Hp]. exists pad. by apply K.
Qed.

Lemma Inv_quiet f n self b g g' :
  quiet_at b g g' → Inv f n self g → Inv f n self g'.
Proof.
  intros Q (Hfn & Hn & Hwf & Hb & Hp & Hc).
  pose proof Q as (F & B & P & O & N & K).
  split; [done|]. split; [lia|]. split; [by eapply quiet_wf|].
  split; [by eapply quiet_block_of|]. split; [by apply K|].
  by eapply quiet_complete.
Qed.

(** Changing a field other than [block] and [exceptBlock]. *)
Lemma Inv_fields f n self self' g :
  block self' = block self → exceptBlock self' = exceptBlock self →
  Inv f n self g → Inv f n self' g.
Proof. unfold Inv. by intros -> ->. Qed.

Lemma Inv_set_block f n self g b :
  block_of g f b → Inv f n self g → Inv f n (set_block b self) g.
Proof. intros Hb (? & ? & ? & _ & ? & ?). unfold Inv. by split_and!. Qed.

Lemma Inv_block f n self g : Inv f n self g → block_of g f (block self).
Proof. by intros (? & ? & ? & ? & ? & ?). Qed.

(** A new block after a block of the function. *)
Lemma create_after_spec f n self g b tys :
  Inv f n self g → block_of g f b →
  let g' := (IR.create_after b tys g).2 in
  Inv f n self g' ∧ R f n g g' ∧ block_of g' f (length (blocks g)) ∧
  ops_of g' (length (blocks g)) = [].
Proof.
  intros (Hfn & Hn & Hwf & Hb & Hp & Hc) [Hbv Hbp] g'.
  assert (E : ext g g').
  { split; [unfold g'; rewrite create_after_blocks, length_app; simpl; lia|].
    split; [unfold g'; by rewrite create_after_funcs_length|].
    intros b' Hb'. unfold g'.
    by rewrite create_after_parent_old, create_after_ops_old. }
  assert (L : length (blocks g') = S (length (blocks g))).
  { unfold g'. rewrite create_after_blocks, length_app. simpl. lia. }
  assert (K : ∀ f' pad, pad_ok g f' pad → pad_ok g' f' pad).
  { intros f' pad. apply pad_ok_frame; [done| |].
    - intros b' [Hb' _]. unfold g'. by apply create_after_ops_old.
    - intros b' [Hb' _]. rewrite L in Hb'.
      destruct (decide (b' = length (blocks g))) as [->|]; [right|left; lia].
      apply create_after_ops_new. }
  assert (Pn : parent_of g' (length (blocks g)) = f).
  { unfold g'. by rewrite create_after_parent_new. }
  split; [|split; [|split]].
  - split; [done|]. split; [unfold g'; rewrite create_after_funcs_length; lia|].
    split.
    { intros b' Hb'. rewrite L in Hb'. unfold g' at 2.
      rewrite create_after_funcs_length.
      destruct (decide (b' = length (blocks g))) as [->|].
      - rewrite Pn. lia.
      - unfold g'. rewrite create_after_parent_old by lia. apply Hwf. lia. }
    split; [by eapply block_of_ext|]. split; [by apply K|].
    intros f' Hf' Hlt. unfold g' in Hlt. rewrite create_after_funcs_length in Hlt.
    destruct (Hc f' Hf' Hlt) as [pad Hpad]. exists pad. by apply K.
  - split; [done|]. split.
    + intros b' Hb' _ _. unfold g'. by apply create_after_ops_old.
    + intros b' Hlo Hhi. rewrite L in Hhi.
      assert (b' = length (blocks g)) as -> by lia. by left.
  - split; [lia|done].
  - apply create_after_ops_new.
Qed.

(** *** Rules for [wp] *)

Lemma wp_bind {A B} (m : M A) (k : A → M B) self g Q :
  wp m self g (λ a s' g', wp (k a) s' g' Q) → wp (m ≫= k) self g Q.
Proof.
  unfold wp, mbind, M_bind, bind. by destruct (m self g) as [g1 [[a s1]|e]].
Qed.

Lemma wp_ret {A} (a : A) self g (Q : A → t → State → Prop) :
  Q a self g → wp (mret a) self g Q.
Proof. done. Qed.

Lemma wp_get self g (Q : t → t → State → Prop) : Q self self g → wp get self g Q.
Proof. done. Qed.

Lemma wp_modify h self g (Q : unit → t → State → Prop) :
  Q tt (h self) g → wp (modify h) self g Q.
Proof. done. Qed.

Lemma wp_raise {A} e self g (Q : A → t → State → Prop) : wp (raise e) self g Q.
Proof. done. Qed.

Lemma wp_state {A} (h : State → A * State) self g (Q : A → t → State → Prop) :
  Q (h g).1 self (h g).2 → wp (state h) self g Q.
Proof. unfold wp, state. by destruct (h g). Qed.

Lemma wp_read {A} (h : State → A) self g (Q : A → t → State → Prop) :
  Q (h g) self g → wp (read h) self g Q.
Proof. done. Qed.

Lemma wp_assert b self g (Q : unit → t → State → Prop) :
  Q tt self g → wp (assert b) self g Q.
Proof. by destruct b. Qed.

Lemma wp_on {A} (child : t) (m : M A) self g (Q : A * t → t → State → Prop) :
  wp m child g (λ a child' g', Q (a, child') self g') → wp (on child m) self g Q.
Proof. unfold wp, on. by destruct (m child g) as [g1 [[a s1]|e]]. Qed.

Lemma wp_mono {A} (m : M A) self g (Q Q' : A → t → State → Prop) :
  wp m self g Q → (∀ a s' g', Q a s' g' → Q' a s' g') → wp m self g Q'.
Proof. unfold wp. destruct (m self g) as [g1 [[a s1]|e]]; auto. Qed.

Lemma wp_sound {A} (m : M A) f n self g (Q : A → t → State → Prop) :
  sound m → Inv f n self g →
  (∀ a s' g', Inv f n s' g' → R f n g g' → Q a s' g') →
  wp m self g Q.
Proof.
  intros Hs HI HQ. eapply wp_mono; [by apply Hs|].
  intros a s' g' [? ?]. by apply HQ.
Qed.

(** *** Closure of [sound] *)

Lemma sound_ret {A} (a : A) : sound (mret a).
Proof. intros f n self g HI. split; [done|apply R_refl]. Qed.

Lemma sound_raise {A} e : sound (@raise A e).
Proof. by intros f n self g HI. Qed.

Lemma sound_get : sound get.
Proof. intros f n self g HI. split; [done|apply R_refl]. Qed.

Lemma sound_assert b : sound (assert b).
Proof. destruct b; [apply (sound_ret tt)|apply sound_raise]. Qed.

Lemma sound_read {A} (h : State → A) : sound (read h).
Proof. intros f n self g HI. split; [done|apply R_refl]. Qed.

Lemma sound_bind {A B} (m : M A) (k : A → M B) :
  sound m → (∀ a, sound (k a)) → sound (m ≫= k).
Proof.
  intros Hm Hk f n self g HI. apply wp_bind.
  eapply wp_sound; [exact Hm|exact HI|]. intros a s1 g1 I1 R1.
  eapply wp_sound; [apply Hk|exact I1|]. intros b s2 g2 I2 R2.
  split; [done|by eapply R_trans].
Qed.

(** Writing a field that the invariant does not read. *)
Lemma sound_modify h :
  (∀ s, block (h s) = block s ∧ exceptBlock (h s) = exceptBlock s) →
  sound (modify h).
Proof.
  intros H f n self g HI. split; [|apply R_refl].
  destruct (H self). by eapply Inv_fields.
Qed.

(** A state change that is quiet at the block it names. *)
Lemma wp_quiet {A} (h : State → A * State) b f n self g (Q : A → t → State → Prop) :
  Inv f n self g →
  quiet_at b g (h g).2 →
  (parent_of g b = f ∨ (n ≤ parent_of g b)%nat) →
  (Inv f n self (h g).2 → R f n g (h g).2 → Q (h g).1 self (h g).2) →
  wp (state h) self g Q.
Proof.
  intros HI Hq Hp HQ. apply wp_state. apply HQ.
  - by eapply Inv_quiet.
  - by eapply quiet_R.
Qed.

Lemma sound_build_at_cursor (mk : Value → Op) :
  (∀ r, harmless (mk r)) → sound (self ← get; build (block self) mk).
Proof.
  intros H f n self g HI. apply wp_bind, wp_get.
  eapply (wp_quiet _ (block self)); [exact HI| | |by intros].
  - by apply quiet_build.
  - left. by destruct (Inv_block _ _ _ _ HI).
Qed.

Lemma sound_emit_at_cursor (o : Op) :
  harmless o → sound (self ← get; emit (block self) o).
Proof.
  intros H f n self g HI. apply wp_bind, wp_get.
  eapply (wp_quiet _ (block self)); [exact HI| | |by intros].
  - by apply quiet_append_harmless.
  - left. by destruct (Inv_block _ _ _ _ HI).
Qed.

Lemma sound_none_value : sound none_value.
Proof. by apply sound_build_at_cursor. Qed.

Lemma sound_get_method w nm : sound (get_method w nm).
Proof. by apply (sound_build_at_cursor (λ r, GetMethod r w nm)). Qed.

Lemma sound_joined_string args : sound (joined_string args).
Proof. by apply (sound_build_at_cursor (λ r, FormattedString r args)). Qed.

Lemma sound_string_constant c : sound (string_constant c).
Proof. by apply (sound_build_at_cursor (λ r, StrLit r c)). Qed.

Lemma sound_builtin nm : sound (builtin nm).
Proof. by apply (sound_build_at_cursor (λ r, Builtin r nm)). Qed.

Lemma sound_int_constant c : sound (int_constant c).
Proof.
  intros f n self g HI. unfold int_constant. apply wp_bind, wp_get.
  destruct (_ && _).
  - eapply (wp_quiet _ (block self)); [exact HI| | |by intros].
    + by apply quiet_build.
    + left. by destruct (Inv_block _ _ _ _ HI).
  - eapply (wp_quiet _ (block self)); [exact HI| | |by intros].
    + by apply quiet_build.
    + left. by destruct (Inv_block _ _ _ _ HI).
Qed.

Lemma sound_undef_value e : sound (undef_value e).
Proof.
  apply sound_bind; [|intros _; by apply (sound_build_at_cursor UndefinedOp)].
  intros f n self g HI.
  eapply (wp_quiet _ (block self)); [exact HI| | |by intros].
  - by apply quiet_same_ir.
  - left. by destruct (Inv_block _ _ _ _ HI).
Qed.

Lemma sound_cell_of nm : sound (cell_of nm).
Proof.
  apply sound_bind; [apply sound_get|]. intros s.
  destruct (_ !! _); [apply sound_ret|apply sound_raise].
Qed.

Lemma sound__lookup_cell l nm : sound (_lookup_cell l nm).
Proof.
  apply sound_bind; [apply sound_get|]. intros s.
  destruct (_ !! _); [apply sound_ret|apply sound_raise].
Qed.

Lemma sound_get_scope i : sound (get_scope i).
Proof.
  apply sound_bind; [apply sound_read|]. intros m.
  destruct (_ !! _); [apply sound_ret|apply sound_raise].
Qed.

Lemma sound_visit_Constant c : sound (visit_Constant c).
Proof.
  destruct c; simpl; auto using sound_string_constant, sound_int_constant, sound_raise.
Qed.

Lemma sound_visit_Name l nm : sound (visit_Name l nm).
Proof.
  intros f n self g HI. unfold visit_Name. apply wp_bind, wp_get.
  destruct (_ !! _).
  - eapply (wp_quiet _ (block self)); [exact HI| | |by intros].
    + by apply quiet_build.
    + left. by destruct (Inv_block _ _ _ _ HI).
  - destruct (Builtins.builtin_mlir_name nm); [|done].
    by apply sound_builtin.
Qed.

Lemma sound_returnOp v : sound (returnOp v).
Proof.
  intros f n self g HI. unfold returnOp. apply wp_bind, wp_get.
  apply wp_bind.
  eapply (wp_quiet _ (block self)); [exact HI| | |intros I1 R1].
  { by apply quiet_build. }
  { left. by destruct (Inv_block _ _ _ _ HI). }
  eapply (wp_quiet _ (block self)); [exact I1| | |intros I2 R2].
  { by apply quiet_append_harmless. }
  { left. by destruct (Inv_block _ _ _ _ I1). }
  split; [done|by eapply R_trans].
Qed.

Lemma sound_pythonImport module nm : sound (pythonImport module nm).
Proof.
  intros f n self g HI. unfold pythonImport. apply wp_bind, wp_get.
  apply wp_bind.
  eapply (wp_quiet _ (block self)); [exact HI| | |intros I1 R1].
  { by apply quiet_build. }
  { left. by destruct (Inv_block _ _ _ _ HI). }
  apply wp_bind. eapply wp_sound; [apply sound_cell_of|exact I1|].
  intros c s2 g2 I2 R2.
  assert (Hb : block_of g2 f (block self)).
  { eapply block_of_ext; [apply R2|]. by apply Inv_block in I1. }
  eapply (wp_quiet _ (block self)); [exact I2| | |intros I3 R3].
  { by apply quiet_append_harmless. }
  { left. by destruct Hb. }
  split; [done|]. eapply R_trans; [exact R1|]. by eapply R_trans.
Qed.

(** *** Fallible ops *)

Lemma complete_append_in f n b o g :
  f < n → parent_of g b = f → complete_from n g → complete_from n (append_op b o g).
Proof.
  intros Hfn Hp Hc f' Hf' Hlt. rewrite append_op_funcs in Hlt.
  destruct (Hc f' Hf' Hlt) as [pad Hpad]. exists pad.
  apply pad_ok_append_other; [lia|done].
Qed.

Lemma Inv_append_fallible f n self g b o e :
  Inv f n self g → block_of g f b →
  fallible o = true → failure_successor o = Some e →
  (pad_of g f e ∨ ∃ p, pad_of g f p ∧ is_stop_test g e p) →
  Inv f n self (append_op b o g) ∧ R f n g (append_op b o g).
Proof.
  intros (Hfn & Hn & Hwf & Hb & Hp & Hc) [Hbv Hbp] Hf He Hd.
  split; [|apply R_append_op; by left].
  split; [done|]. split; [by rewrite append_op_funcs|].
  split; [by apply wf_append_op|]. split; [by apply block_of_append_op|].
  split; [|by apply (complete_append_in f)].
  destruct Hd as [Hpad|(p & Hpad & Ht)].
  - pose proof (pad_of_unique _ _ _ _ Hp Hpad) as Ex. rewrite Ex in *.
    apply (pad_ok_append_fallible b o g f e e); [by split|done|done|by left|done].
  - pose proof (pad_of_unique _ _ _ _ Hp Hpad) as Ex. rewrite Ex in *.
    apply (pad_ok_append_fallible b o g f p e); [by split|done|done|by right|done].
Qed.

(** Installing the landing pad in a new, empty block of the function. *)
Lemma pad_ok_install g f nb r :
  pad_ok g f None → block_of g f nb → ops_of g nb = [] →
  pad_ok (append_op nb (ReturnOp [r])
            (append_op nb (MkExceptOp r (BlockArg nb 0)) g)) f (Some nb).
Proof.
  intros [HA _] Hnb Hnil.
  set (g1 := append_op nb (MkExceptOp r (BlockArg nb 0)) g).
  assert (O1 : ops_of g1 nb = [MkExceptOp r (BlockArg nb 0)]).
  { unfold g1. rewrite append_op_ops_eq by apply Hnb. by rewrite Hnil. }
  assert (O2 : ops_of (append_op nb (ReturnOp [r]) g1) nb
               = [MkExceptOp r (BlockArg nb 0); ReturnOp [r]]).
  { rewrite append_op_ops_eq; [by rewrite O1|].
    unfold g1. rewrite append_op_length. apply Hnb. }
  split.
  - intros b o Hb Ho. do 2 apply block_of_append_op in Hb.
    destruct (decide (b = nb)) as [->|Hne].
    + rewrite O2 in Ho. apply elem_of_cons in Ho as [->|Ho]; [by split|].
      apply list_elem_of_singleton in Ho as ->. by split.
    + unfold g1 in Ho. rewrite !append_op_ops_ne in Ho by done.
      destruct (HA b o Hb Ho) as [H1 H2]. split.
      * intros Hm. by specialize (H1 Hm).
      * intros Hf. by destruct (H2 Hf) as (_ & p & e & ? & _).
  - intros p [= <-]. split; [by do 2 apply block_of_append_op|].
    exists r. by rewrite O2.
Qed.

Lemma get_except_block_spec f n self g :
  Inv f n self g →
  wp get_except_block self g
     (λ p s' g', Inv f n s' g' ∧ R f n g g' ∧ pad_of g' f p ∧ block s' = block self).
Proof.
  intros HI. unfold get_except_block. apply wp_bind, wp_get.
  destruct (exceptBlock self) as [p|] eqn:Ex.
  - apply wp_ret. split; [done|]. split; [apply R_refl|]. split; [|done].
    destruct HI as (_ & _ & _ & _ & [_ HB] & _). rewrite Ex in HB.
    exact (HB p eq_refl).
  - apply wp_bind, wp_state.
    destruct (create_after_spec f n self g (block self) [ValueType] HI
                (Inv_block _ _ _ _ HI)) as (I1 & R1 & Hnb & Hnil).
    rewrite create_after_fst.
    set (nb := length (blocks g)) in *. set (g1 := (IR.create_after _ _ g).2) in *.
    apply wp_bind, wp_state. rewrite build_fst, build_snd.
    set (r := OpResult (next_result g1)).
    set (g2 := append_op nb (MkExceptOp r (BlockArg nb 0)) (fresh_result g1).2).
    apply wp_bind, wp_state. simpl fst. simpl snd.
    apply wp_bind, wp_modify, wp_ret.
    set (g3 := append_op nb (ReturnOp [r]) g2).
    destruct I1 as (Hfn & Hn & Hwf & Hb & Hp & Hc).
    assert (P3 : pad_ok g3 f (Some nb)).
    { unfold g3, g2. apply pad_ok_install; [by rewrite Ex in Hp|done|done]. }
    assert (R13 : R f n g1 g3).
    { eapply (R_trans _ _ _ g2).
      - eapply R_trans; [|apply R_append_op; left; apply Hnb].
        eapply quiet_R; [apply (quiet_fresh_result nb)|left; apply Hnb].
      - apply R_append_op. left. unfold g2. rewrite append_op_parent. apply Hnb. }
    split; [|split; [by eapply R_trans|split; [|done]]].
    + split; [done|]. split; [done|].
      split; [by do 2 apply wf_append_op|].
      split; [by do 2 apply block_of_append_op|]. split; [done|].
      unfold g3. apply (complete_append_in f); [done| |].
      { unfold g2. rewrite append_op_parent. apply Hnb. }
      apply (complete_append_in f); [done|apply Hnb|done].
    + split; [by do 2 apply block_of_append_op|].
      destruct P3 as [_ HB]. by destruct (HB nb eq_refl).
Qed.

Lemma sound_fallible_op (mk : nat → nat → Op) :
  (∀ r e, fallible (mk r e) = true ∧ failure_successor (mk r e) = Some e) →
  sound (fallible_op mk).
Proof.
  intros Hmk f n self g HI. unfold fallible_op. apply wp_bind.
  eapply wp_mono; [by apply get_except_block_spec|].
  intros p s1 g1 (I1 & R1 & Hpad & Hblk). cbv beta.
  apply wp_bind, wp_get. apply wp_bind, wp_state.
  destruct (create_after_spec f n s1 g1 (block s1) [ValueType] I1
              (Inv_block _ _ _ _ I1)) as (I2 & R2 & Hrb & _).
  rewrite create_after_fst.
  set (rb := length (blocks g1)) in *. set (g2 := (IR.create_after _ _ g1).2) in *.
  apply wp_bind, wp_state. simpl fst. simpl snd.
  destruct (Hmk rb p) as [Hf He].
  destruct (Inv_append_fallible f n s1 g2 (block s1) (mk rb p) p I2
              (Inv_block _ _ _ _ I2) Hf He) as [I3 R3].
  { left. eapply pad_of_ext; [apply R2|done]. }
  apply wp_bind, wp_modify, wp_ret.
  split.
  - apply Inv_set_block; [|done]. by apply block_of_append_op.
  - eapply R_trans; [exact R1|]. by eapply R_trans.
Qed.

Lemma sound_invoke method args keywords : sound (invoke method args keywords).
Proof.
  apply (sound_fallible_op
           (λ r e, InvokeOp method args
                     match keywords with
                     | None | Some [] => None
                     | Some ks => Some ks
                     end r e)).
  by intros.
Qed.

Lemma sound_apply_binop l op r : sound (apply_binop l op r).
Proof. apply (sound_fallible_op (λ rb e, BinaryOp op l r rb e)). by intros. Qed.

Lemma sound_apply_unop op a : sound (apply_unop op a).
Proof. apply (sound_fallible_op (λ rb e, UnaryOp_ op a rb e)). by intros. Qed.

Lemma sound_format_value v fmt : sound (format_value v fmt).
Proof.
  apply sound_bind; [apply sound_get_method|]. intros m. apply sound_invoke.
Qed.

Lemma sound_load_value_attribute v attr : sound (load_value_attribute v attr).
Proof.
  apply sound_bind; [apply sound_builtin|]. intros b.
  apply sound_bind; [apply sound_string_constant|]. intros c. apply sound_invoke.
Qed.

(** *** [invoke_next] keeps the invariant *)

Lemma pad_ok_invoke_next g f p nb bb eb done next c :
  pad_ok g f (Some p) → block_of g f nb → block_of g f eb → nb ≠ eb →
  ops_of g eb = [] →
  pad_ok (append_op eb (CondBranchOp c [] [BlockArg eb 0] done p)
            (append_op eb (IsInstance c (BlockArg eb 0) "StopIteration")
               (fresh_result (append_op nb (InvokeOp next [] None bb eb) g)).2))
         f (Some p).
Proof.
  intros [HA HB] Hnb Heb Hne Hnil.
  set (g1 := append_op nb (InvokeOp next [] None bb eb) g).
  set (g2 := append_op eb (IsInstance c (BlockArg eb 0) "StopIteration")
               (fresh_result g1).2).
  set (g3 := append_op eb (CondBranchOp c [] [BlockArg eb 0] done p) g2).
  assert (E : ext g g3).
  { eapply ext_trans; [apply (ext_append_op nb)|]. fold g1.
    eapply ext_trans; [apply ext_fresh_result|].
    eapply ext_trans; apply ext_append_op. }
  assert (Oe : ops_of g3 eb = [IsInstance c (BlockArg eb 0) "StopIteration";
                               CondBranchOp c [] [BlockArg eb 0] done p]).
  { unfold g3. rewrite append_op_ops_eq.
    2:{ unfold g2. rewrite append_op_length, fresh_result_blocks.
        unfold g1. rewrite append_op_length. apply Heb. }
    unfold g2. rewrite append_op_ops_eq.
    2:{ rewrite fresh_result_blocks. unfold g1. rewrite append_op_length. apply Heb. }
    rewrite fresh_result_ops. unfold g1. rewrite append_op_ops_ne by done.
    by rewrite Hnil. }
  split.
  - intros b o Hb Ho.
    assert (Hb0 : block_of g f b).
    { unfold g3, g2 in Hb. do 2 apply block_of_append_op in Hb.
      unfold block_of in Hb. rewrite fresh_result_blocks, fresh_result_parent in Hb.
      by apply block_of_append_op in Hb. }
    assert (Cases : o ∈ ops_of g b ∨ (b = nb ∧ o = InvokeOp next [] None bb eb)
                    ∨ (b = eb ∧ harmless o)).
    { unfold g3 in Ho. apply append_op_elem in Ho as [Ho|[-> ->]];
        [|right; right; by split].
      unfold g2 in Ho. apply append_op_elem in Ho as [Ho|[-> ->]];
        [|right; right; by split].
      rewrite fresh_result_ops in Ho. unfold g1 in Ho.
      apply append_op_elem in Ho as [Ho|[-> ->]]; [by left|right; by left]. }
    destruct Cases as [Ho0|[[-> ->]|[-> [Hf Hm]]]].
    + destruct (HA b o Hb0 Ho0) as [H1 H2]. split; [done|].
      intros Hf. destruct (H2 Hf) as (L & p' & e & Hp' & Hs & Hs1 & Hd).
      split; [done|]. exists p', e. repeat split; try done.
      destruct Hd as [->|Ht]; [by left|right; by eapply is_stop_test_ext].
    + split; [done|]. intros _. split; [done|]. exists p, eb.
      repeat split; try done. right. exists c, done. by rewrite Oe.
    + split; intros; congruence.
  - intros p' [= <-]. destruct (HB p eq_refl) as [Hb Hl].
    split; [by eapply block_of_ext|by eapply is_landing_pad_ext].
Qed.

Lemma invoke_next_spec f n self g next cur done throw :
  Inv f n self g → block_of g f cur → pad_of g f throw →
  let r := invoke_next next cur done throw g in
  Inv f n self r.2 ∧ R f n g r.2 ∧
  block_of r.2 f r.1.1.1 ∧ block_of r.2 f r.1.1.2.
Proof.
  intros HI Hcur Hpad r. unfold r. rewrite invoke_next_unfold. cbv zeta.
  cbn [fst snd].
  set (nb := length (blocks g)).
  destruct (create_after_spec f n self g cur [] HI Hcur) as (I1 & R1 & Hnb1 & On1).
  fold nb in Hnb1, On1.
  set (g1 := (IR.create_after cur [] g).2) in *.
  set (g2 := append_op cur (BranchOp [] nb) g1).
  assert (Q2 : quiet_at cur g1 g2) by (by apply quiet_append_harmless).
  assert (Hcur1 : block_of g1 f cur) by (eapply block_of_ext; [apply R1|done]).
  assert (I2 : Inv f n self g2) by (by eapply Inv_quiet).
  assert (R2 : R f n g1 g2) by (eapply quiet_R; [done|left; apply Hcur1]).
  assert (L1 : length (blocks g1) = S nb).
  { unfold g1. rewrite create_after_blocks, length_app. simpl. lia. }
  assert (L2 : length (blocks g2) = S nb).
  { unfold g2. by rewrite append_op_length. }
  assert (Hnb2 : block_of g2 f nb) by (by eapply quiet_block_of).
  destruct (create_after_spec f n self g2 nb [ValueType] I2 Hnb2)
    as (I3 & R3 & Hbb3 & Ob3).
  rewrite L2 in Hbb3, Ob3.
  set (g3 := (IR.create_after nb [ValueType] g2).2) in *.
  assert (L3 : length (blocks g3) = S (S nb)).
  { unfold g3. rewrite create_after_blocks, length_app, L2. simpl. lia. }
  assert (Hnb3 : block_of g3 f nb) by (eapply block_of_ext; [apply R3|done]).
  destruct (create_after_spec f n self g3 nb [ValueType] I3 Hnb3)
    as (I4 & R4 & Heb4 & Oe4).
  rewrite L3 in Heb4, Oe4.
  set (g4 := (IR.create_after nb [ValueType] g3).2) in *.
  assert (Hnb4 : block_of g4 f nb) by (eapply block_of_ext; [apply R4|done]).
  assert (Hbb4 : block_of g4 f (S nb)) by (eapply block_of_ext; [apply R4|done]).
  assert (R04 : R f n g g4).
  { eapply R_trans; [exact R1|]. eapply R_trans; [exact R2|].
    by eapply R_trans. }
  assert (Hpad4 : pad_of g4 f throw) by (eapply pad_of_ext; [apply R04|done]).
  rewrite build_snd.
  set (g5 := append_op nb (InvokeOp next [] None (S nb) (S (S nb))) g4).
  set (c := OpResult (next_result g)).
  set (g6 := append_op (S (S nb))
               (IsInstance c (BlockArg (S (S nb)) 0) "StopIteration")
               (fresh_result g5).2).
  set (g7 := append_op (S (S nb))
               (CondBranchOp c [] [BlockArg (S (S nb)) 0] done throw) g6).
  destruct I4 as (Hfn & Hn & Hwf & Hb & Hp & Hc).
  pose proof (pad_of_unique _ _ _ _ Hp Hpad4) as Ex.
  assert (P7 : pad_ok g7 f (Some throw)).
  { unfold g7, g6, g5. apply pad_ok_invoke_next; try done; [congruence|lia]. }
  assert (R47 : R f n g4 g7).
  { eapply (R_trans _ _ _ g5); [apply R_append_op; left; apply Hnb4|].
    eapply (R_trans _ _ _ (fresh_result g5).2).
    { eapply quiet_R; [apply (quiet_fresh_result nb)|].
      left. unfold g5. rewrite append_op_parent. apply Hnb4. }
    eapply (R_trans _ _ _ g6); apply R_append_op; left.
    - rewrite fresh_result_parent. unfold g5. rewrite append_op_parent. apply Heb4.
    - unfold g6. rewrite append_op_parent, fresh_result_parent.
      unfold g5. rewrite append_op_parent. apply Heb4. }
  assert (B7 : ∀ b, block_of g4 f b → block_of g7 f b).
  { intros b. apply block_of_ext, R47. }
  split; [|split; [by eapply R_trans|split; by apply B7]].
  split; [done|]. split.
  { destruct R47 as [(_ & F & _) _]. exact (Nat.le_trans _ _ _ Hn F). }
  split.
  { unfold g7, g6. do 2 apply wf_append_op. unfold g5.
    intros b' Hb'. apply (wf_append_op nb _ g4 Hwf b' Hb'). }
  split; [by apply B7|]. split; [by rewrite Ex|].
  unfold g7. apply (complete_append_in f); [done| |].
  { unfold g6. rewrite append_op_parent, fresh_result_parent.
    unfold g5. rewrite append_op_parent. apply Heb4. }
  unfold g6. apply (complete_append_in f); [done| |].
  { rewrite fresh_result_parent. unfold g5. rewrite append_op_parent. apply Heb4. }
  intros f' Hf' Hlt.
  destruct (complete_append_in f n nb (InvokeOp next [] None (S nb) (S (S nb)))
              g4 Hfn (proj2 Hnb4) Hc f' Hf' Hlt) as [pad Hpad'].
  by exists pad.
Qed.

(** *** Creating a function *)

Lemma quiet_alloc map names cells b vars g :
  quiet_at b g (alloc_variable_cells map names cells b vars g).2.
Proof.
  revert map names cells g. induction vars as [|v vars IH]; intros map names cells g.
  - apply quiet_refl.
  - simpl. change (IR.build b CellAlloc g)
      with (OpResult (next_result g), (IR.build b CellAlloc g).2).
    cbv beta iota. eapply quiet_trans; [|apply IH]. by apply quiet_build.
Qed.

Lemma child_ready_quiet b nf nb g g' :
  quiet_at b g g' → child_ready nf nb g → child_ready nf nb g'.
Proof.
  intros Q (L & W & B & P). pose proof Q as (F & _ & _ & _ & _ & K).
  split; [congruence|]. split; [by eapply quiet_wf|].
  split; [by eapply quiet_block_of|by apply K].
Qed.

Lemma child_ready_Inv nf nb g scope cm :
  child_ready nf nb g → Inv nf (S nf) (init nb scope cm) g.
Proof.
  intros (L & W & B & P). unfold Inv. simpl. split_and!; try done; try lia.
  intros f Hf Hlt. lia.
Qed.

Lemma create_func_spec f n self g nm a r :
  Inv f n self g →
  let g' := (IR.create_func nm a r g).2 in
  Inv f n self g' ∧ R f n g g' ∧
  child_ready (length (funcs g)) (length (blocks g)) g' ∧
  (n ≤ length (funcs g))%nat.
Proof.
  intros (Hfn & Hn & Hwf & Hb & Hp & Hc) g'.
  set (nf := length (funcs g)). set (nb := length (blocks g)).
  assert (Lb : length (blocks g') = S nb).
  { unfold g'. rewrite create_func_blocks, length_app. simpl. lia. }
  assert (Lf : length (funcs g') = S nf).
  { unfold g'. rewrite create_func_funcs, length_app. simpl. lia. }
  assert (Oold : ∀ b, b < nb → ops_of g' b = ops_of g b).
  { intros b Hlt. unfold ops_of, g'. rewrite create_func_blocks.
    by rewrite lookup_app_l. }
  assert (Pold : ∀ b, b < nb → parent_of g' b = parent_of g b).
  { intros b Hlt. unfold parent_of, g'. rewrite create_func_blocks.
    by rewrite lookup_app_l. }
  assert (Onew : ops_of g' nb = []).
  { unfold ops_of, g'. rewrite create_func_blocks.
    rewrite lookup_app_r, Nat.sub_diag by (unfold nb; lia). done. }
  assert (Pnew : parent_of g' nb = nf).
  { unfold parent_of, g'. rewrite create_func_blocks.
    rewrite lookup_app_r, Nat.sub_diag by (unfold nb; lia). done. }
  assert (E : ext g g').
  { split; [lia|]. split; [lia|]. intros b Hlt.
    by rewrite Pold, Oold. }
  assert (W : wf g').
  { intros b Hlt. rewrite Lb in Hlt. rewrite Lf.
    destruct (decide (b = nb)) as [->|]; [lia|].
    rewrite Pold by lia. specialize (Hwf b ltac:(unfold nb in *; lia)).
    unfold nf. lia. }
  assert (K : ∀ f' pad, pad_ok g f' pad → pad_ok g' f' pad).
  { intros f' pad. apply pad_ok_frame; [done| |].
    - intros b [Hlt _]. by apply Oold.
    - intros b [Hlt _]. rewrite Lb in Hlt.
      destruct (decide (b = nb)) as [->|]; [by right|left; unfold nb in *; lia]. }
  split; [|split; [|split; [|done]]].
  - unfold Inv. split_and!; try done; try lia.
    + by eapply block_of_ext.
    + by apply K.
    + intros f' Hf' Hlt. rewrite Lf in Hlt.
      destruct (decide (f' = nf)) as [->|Hne].
      * exists None. split; [|done]. intros b o [Hlt' Hpar] Ho.
        rewrite Lb in Hlt'. destruct (decide (b = nb)) as [->|].
        { rewrite Onew in Ho. by apply elem_of_nil in Ho. }
        rewrite Pold in Hpar by lia.
        specialize (Hwf b ltac:(unfold nb in *; lia)). unfold nf in Hpar. lia.
      * destruct (Hc f' Hf' ltac:(unfold nf in *; lia)) as [pad Hpad].
        exists pad. by apply K.
  - split; [done|]. split.
    + intros b Hlt _ _. by apply Oold.
    + intros b Hlo Hhi. rewrite Lb in Hhi.
      assert (b = nb) as -> by (unfold nb in *; lia). rewrite Pnew. right.
      unfold nf. lia.
  - split; [done|]. split; [done|]. split; [split; [lia|done]|].
    split; [|done]. intros b o [Hlt' Hpar] Ho.
    rewrite Lb in Hlt'. destruct (decide (b = nb)) as [->|].
    { rewrite Onew in Ho. by apply elem_of_nil in Ho. }
    rewrite Pold in Hpar by lia.
    specialize (Hwf b ltac:(unfold nb in *; lia)). unfold nf in Hpar. lia.
Qed.

(** The two argument loops of [create_fun]. *)
Lemma wp_capture_args fb cv i m ns cs cc self g
  (Q : gmap string Value * list string * list Value * list Value → t → State → Prop) :
  (∀ r, Q r self g) → wp (capture_args fb cv i m ns cs cc) self g Q.
Proof.
  intros HQ. revert i m ns cs cc.
  induction cv as [|a cv IH]; intros i m ns cs cc; simpl.
  - apply wp_ret, HQ.
  - apply wp_bind. unfold _lookup_cell. apply wp_bind, wp_get.
    destruct (_ !! _); [|done]. apply wp_ret. apply IH.
Qed.

Lemma wp_store_args fb cm cc names i self g (Q : unit → t → State → Prop) :
  (∀ g', quiet_at fb g g' → Q tt self g') →
  wp (store_args fb cm cc names i) self g Q.
Proof.
  revert i g. induction names as [|a names IH]; intros i g HQ; simpl.
  - apply wp_ret, HQ, quiet_refl.
  - destruct (_ !! _); [|done]. apply wp_bind, wp_state. simpl.
    apply IH. intros g' Hq. apply HQ. eapply quiet_trans; [|exact Hq].
    by apply quiet_append_harmless.
Qed.

Lemma create_fun_spec nm a vs f n self g :
  Inv f n self g →
  wp (create_fun nm a vs) self g
     (λ r s' g', Inv f n s' g' ∧ R f n g g' ∧
                 ∃ nf, (n ≤ nf)%nat ∧ Inv nf (S nf) r.1 g').
Proof.
  intros HI. unfold create_fun.
  do 5 (apply wp_bind, wp_assert).
  apply wp_bind.
  eapply (wp_quiet _ (block self)); [exact HI| | |intros I1 R1].
  { apply quiet_same_ir; unfold fresh_symbol; by destruct (Names.fresh_symbol _ _). }
  { left. by destruct (Inv_block _ _ _ _ HI). }
  destruct (Names.fresh_symbol (Some nm) (_vars g)) as [sym v].
  cbn [fst snd] in *. set (g1 := MkState _ _ _ _ v _) in *.
  apply wp_bind, wp_state.
  set (tys := [ScopeType] ++ _).
  destruct (create_func_spec f n self g1 sym tys [ReturnValueType] I1)
    as (I2 & R2 & C2 & Hn2).
  set (nf := length (funcs g1)) in *. set (nb := length (blocks g1)) in *.
  change (IR.create_func sym tys [ReturnValueType] g1).1 with nb.
  set (g2 := (IR.create_func sym tys [ReturnValueType] g1).2) in *.
  apply wp_bind, wp_capture_args. intros [[[cm1 ns1] cs1] cc1].
  apply wp_bind, wp_state.
  set (al := alloc_variable_cells cm1 ns1 cs1 nb (VariableScope.vars vs) g2).
  pose proof (quiet_alloc cm1 ns1 cs1 nb (VariableScope.vars vs) g2) as Q3.
  fold al in Q3. destruct al as [[[cm2 ns2] cs2] g3] eqn:Eal. simpl in Q3.
  cbn [fst snd].
  apply wp_bind, wp_state.
  set (mk := λ r, ScopeExtend r (BlockArg nb 0) ns2 cs2).
  assert (Q4 : quiet_at nb g3 (IR.build nb mk g3).2) by (by apply quiet_build).
  rewrite build_fst. set (g4 := (IR.build nb mk g3).2) in *.
  apply wp_bind, wp_store_args. intros g5 Q5.
  apply wp_bind, wp_get. apply wp_bind, wp_state.
  set (mk' := λ r, FunctionRef r sym (args a) (_scope_value self) cc1).
  assert (Q6 : quiet_at (block self) g5 (IR.build (block self) mk' g5).2)
    by (by apply quiet_build).
  rewrite build_fst. set (g6 := (IR.build (block self) mk' g5).2) in *.
  apply wp_ret. cbn [fst].
  assert (Q25 : quiet_at nb g2 g5).
  { eapply quiet_trans; [exact Q3|]. by eapply quiet_trans. }
  assert (Pnb : (n ≤ parent_of g2 nb)%nat).
  { destruct C2 as (_ & _ & [_ ->] & _). lia. }
  assert (I5 : Inv f n self g5) by (by eapply Inv_quiet).
  assert (R25 : R f n g2 g5) by (eapply quiet_R; [done|by right]).
  assert (I6 : Inv f n self g6) by (by eapply Inv_quiet).
  assert (R56 : R f n g5 g6).
  { eapply quiet_R; [done|]. left. by destruct (Inv_block _ _ _ _ I5). }
  split; [done|]. split.
  { eapply R_trans; [exact R1|]. eapply R_trans; [exact R2|].
    by eapply R_trans. }
  exists nf. split; [done|]. apply child_ready_Inv.
  eapply child_ready_quiet; [exact Q6|]. by eapply child_ready_quiet.
Qed.

(** Running a method of the translator of a function created since. *)
Lemma wp_child {A} (m : M A) f n nf child self g (Q : A * t → t → State → Prop) :
  sound m → Inv f n self g → (n ≤ nf)%nat → Inv nf (S nf) child g →
  (∀ a child' g', Inv f n self g' → R f n g g' → Inv nf (S nf) child' g' →
                  Q (a, child') self g') →
  wp (on child m) self g Q.
Proof.
  intros Hs HI Hn HC HQ. apply wp_on.
  eapply wp_sound; [exact Hs|exact HC|]. intros a child' g' IC (E & U & N).
  destruct HI as (Hfn & Hnf & Hwf & Hb & Hp & Hc).
  assert (RR : R f n g g').
  { split; [done|]. split.
    - intros b Hlt Hne Hlt'. apply U; [done|lia|lia].
    - intros b Hlo Hhi. right. destruct (N b Hlo Hhi); lia. }
  assert (Rc : R nf (S nf) g g') by done.
  apply HQ; [|done|done].
  destruct IC as (_ & Hn' & Hwf' & Hb' & Hp' & Hc').
  destruct HC as (_ & HnC & _).
  unfold Inv. split_and!; try done.
  - destruct E as (_ & F & _). lia.
  - by eapply block_of_ext.
  - eapply pad_ok_R; [exact Rc|lia|lia|done].
  - intros f' Hf' Hlt. destruct (Nat.lt_trichotomy f' nf) as [H|[->|H]].
    + destruct (Hc f' Hf' ltac:(lia)) as [pad Hpad]. exists pad.
      eapply pad_ok_R; [exact Rc|lia|lia|done].
    + by eexists.
    + apply Hc'; [lia|done].
Qed.

(** *** The loops of the expression lowerer *)

Lemma block_of_R f n g g' b : R f n g g' → block_of g f b → block_of g' f b.
Proof. intros [E _]. by apply block_of_ext. Qed.

Lemma pad_of_R f n g g' p : R f n g g' → pad_of g f p → pad_of g' f p.
Proof. intros [E _]. by apply pad_of_ext. Qed.

Ltac R_chain :=
  repeat first [ eassumption | apply R_refl | eapply R_trans; [eassumption|] ].

Lemma list_all_mono {A} (P Q : A → Prop) (l : list A) :
  (∀ x, P x → Q x) → list_all A P l → list_all A Q l.
Proof. intros H X. induction X; constructor; auto. Qed.

Lemma sound_mapM {A B} (h : A → M B) (l : list A) :
  list_all A (λ x, sound (h x)) l → sound (mapM h l).
Proof.
  intros X. induction X as [|x Hx l X IH]; simpl.
  - apply sound_ret.
  - apply sound_bind; [done|]. intros y.
    apply sound_bind; [done|]. intros ys. apply sound_ret.
Qed.

Lemma sound_forM_ {A} (h : A → M unit) (l : list A) :
  (∀ x, sound (h x)) → sound (forM_ h l).
Proof.
  intros H. induction l as [|x l IH]; simpl; [apply sound_ret|].
  apply sound_bind; [done|]. by intros _.
Qed.

Lemma sound_compare_loop e0 visit args :
  list_all expr (λ e, sound (visit e)) args →
  ∀ ops left_, sound (compare_loop e0 visit args ops left_).
Proof.
  intros X. induction X as [|a Ha args X IH]; intros ops left_.
  - destruct ops; [apply sound_ret|apply sound_raise].
  - destruct ops as [|o ops]; [apply sound_ret|].
    change (compare_loop e0 visit (a :: args) (o :: ops) left_)
      with (right_ ← visit a;
            left_ ← match comparison_map o with
                    | None => undef_value e0
                    | Some op => apply_binop left_ op right_
                    end;
            compare_loop e0 visit args ops left_).
    apply sound_bind; [done|]. intros r.
    apply sound_bind; [|intros v; apply IH].
    destruct (comparison_map o); [apply sound_apply_binop|apply sound_undef_value].
Qed.

Lemma sound_call_keywords visit ks :
  list_all keyword (λ k, sound (visit (kw_value k))) ks →
  ∀ args kws, sound (call_keywords visit ks args kws).
Proof.
  intros X. induction X as [|k Hk ks X IH]; intros args kws; simpl.
  - apply sound_ret.
  - destruct (kw_arg k); [|apply sound_raise].
    apply sound_bind; [done|]. intros v. apply IH.
Qed.

Lemma sound_joined_parts visit values :
  list_all expr (λ e, sound (visit e)) values → sound (joined_parts visit values).
Proof.
  intros X. induction X as [|a Ha values X IH]; simpl.
  - apply sound_ret.
  - apply sound_bind.
    + destruct a; try apply sound_raise; [apply sound_visit_Constant|done].
    + intros v. apply sound_bind; [done|]. intros vs. apply sound_ret.
Qed.

Lemma tuple_targets_spec assign b0 v elts :
  list_all expr (λ e, ∀ sv, sound (assign e sv)) elts →
  ∀ i f n self g, Inv f n self g → block_of g f b0 →
    wp (tuple_targets assign b0 v elts i) self g
       (λ _ s' g', Inv f n s' g' ∧ R f n g g').
Proof.
  intros X. induction X as [|a Ha elts X IH]; intros i f n self g HI Hb0; simpl.
  - apply wp_ret. split; [done|apply R_refl].
  - apply wp_bind.
    eapply (wp_quiet _ b0); [exact HI| | |intros I1 R1].
    { by apply quiet_build. }
    { left. apply Hb0. }
    apply wp_bind. eapply wp_sound; [apply Ha|exact I1|]. intros [] s2 g2 I2 R2.
    eapply wp_mono.
    { apply IH; [exact I2|]. eapply block_of_R; [exact R2|].
      eapply block_of_R; [exact R1|done]. }
    intros [] s3 g3 [I3 R3]. split; [done|R_chain].
Qed.

Lemma generators_loop_spec visit assign throw gens :
  list_all comprehension
    (comprehension__all expr (λ e, sound (visit e) ∧ ∀ v, sound (assign e v))) gens →
  ∀ done l f n self g, Inv f n self g → pad_of g f throw →
    wp (generators_loop visit assign throw gens done l) self g
       (λ _ s' g', Inv f n s' g' ∧ R f n g g').
Proof.
  intros X. induction X as [|gn Hg gens X IH]; intros done l f n self g HI Hpad.
  - apply wp_ret. split; [done|apply R_refl].
  - destruct Hg as [cid tg [_ Htg] it [Hit _] fs Hfs asy].
    change (generators_loop visit assign throw
              (Comprehension cid tg it fs asy :: gens) done l)
      with (_ ← assert (negb asy);
            _ ← assert (bool_decide (length fs = 0));
            l ← visit it;
            it_ ← get_method l "__iter__";
            i ← invoke it_ [] None;
            next ← get_method i "__next__";
            self ← get;
            '(nextBlock, bodyBlock, bodyValue) ←
              state (invoke_next next (block self) done throw);
            _ ← modify (set_block bodyBlock);
            inner_var_scope ← get_scope cid;
            self ← get;
            '(cell_map, var_name_attrs, cells) ←
              state (alloc_variable_cells (_cell_map self) [] [] (block self)
                       (VariableScope.vars inner_var_scope));
            _ ← modify (set_cell_map cell_map);
            self ← get;
            sv ← build (block self)
                   (λ r, ScopeExtend r (_scope_value self) var_name_attrs cells);
            _ ← modify (set_scope_value sv);
            _ ← assign tg bodyValue;
            generators_loop visit assign throw gens nextBlock (Some l)).
    do 2 (apply wp_bind, wp_assert).
    apply wp_bind. eapply wp_sound; [exact Hit|exact HI|]. intros lv s1 g1 I1 R1.
    apply wp_bind. eapply wp_sound; [apply sound_get_method|exact I1|].
    intros itv s2 g2 I2 R2.
    apply wp_bind. eapply wp_sound; [apply sound_invoke|exact I2|].
    intros iv s3 g3 I3 R3.
    apply wp_bind. eapply wp_sound; [apply sound_get_method|exact I3|].
    intros nx s4 g4 I4 R4.
    apply wp_bind, wp_get. apply wp_bind, wp_state.
    assert (R04 : R f n g g4) by R_chain.
    destruct (invoke_next_spec f n s4 g4 nx (block s4) done throw I4
                (Inv_block _ _ _ _ I4) (pad_of_R _ _ _ _ _ R04 Hpad))
      as (I5 & R5 & Hnb & Hbb).
    destruct (invoke_next nx (block s4) done throw g4) as [[[nb bb] bv] g5].
    cbn [fst snd] in *.
    apply wp_bind, wp_modify.
    assert (I5' : Inv f n (set_block bb s4) g5) by (by apply Inv_set_block).
    apply wp_bind. eapply wp_sound; [apply sound_get_scope|exact I5'|].
    intros sc s6 g6 I6 R6.
    apply wp_bind, wp_get. apply wp_bind.
    eapply (wp_quiet _ (block s6)); [exact I6|apply quiet_alloc| |intros I7 R7].
    { left. by destruct (Inv_block _ _ _ _ I6). }
    destruct (alloc_variable_cells _ _ _ _ _ g6) as [[[cm ns] cs] g7].
    cbn [fst snd] in *.
    apply wp_bind, wp_modify.
    assert (I7' : Inv f n (set_cell_map cm s6) g7) by (by eapply Inv_fields).
    apply wp_bind, wp_get. apply wp_bind.
    eapply (wp_quiet _ (block s6)); [exact I7'| | |intros I8 R8].
    { by apply quiet_build. }
    { left. by destruct (Inv_block _ _ _ _ I7). }
    apply wp_bind, wp_modify.
    set (s8 := set_scope_value _ _).
    assert (I8' : Inv f n s8 (IR.build (block s6)
                    (λ r, ScopeExtend r (_scope_value (set_cell_map cm s6)) ns cs) g7).2)
      by (by eapply Inv_fields).
    apply wp_bind. eapply wp_sound; [apply Htg|exact I8'|]. intros [] s9 g9 I9 R9.
    eapply wp_mono.
    { apply IH; [exact I9|]. eapply pad_of_R; [|exact Hpad]. R_chain. }
    intros r s10 g10 [I10 R10]. split; [done|R_chain].
Qed.

(** *** Expressions and assignment targets *)

Lemma exprs_visit (l : list expr) :
  list_all expr expr_sound l → list_all expr (λ e, sound (checked_visit_expr e)) l.
Proof. apply list_all_mono. by intros e [? ?]. Qed.

Lemma exprs_assign (l : list expr) :
  list_all expr expr_sound l → list_all expr (λ e, ∀ v, sound (assign_lhs e v)) l.
Proof. apply list_all_mono. by intros e [? ?]. Qed.

Lemma keywords_visit (l : list keyword) :
  list_all keyword (keyword__all expr expr_sound) l →
  list_all keyword (λ k, sound (checked_visit_expr (kw_value k))) l.
Proof.
  intros X. induction X as [|k Hk l X IH]; constructor; [|done].
  destruct Hk as [? ? [? ?]]. done.
Qed.

Lemma sound_opt_visit (o : option expr) :
  option_all expr expr_sound o →
  sound (match o with Some u => checked_visit_expr u | None => none_value end).
Proof. intros X. destruct X as [e [He _]|]; [done|apply sound_none_value]. Qed.

Lemma sound_list_like (mk : list Value → Value → Op) (elts : list expr) :
  (∀ args r, harmless (mk args r)) →
  list_all expr expr_sound elts →
  sound (self ← get;
         args ← mapM checked_visit_expr elts;
         build (block self) (λ r, mk args r)).
Proof.
  intros Hmk X f n self g HI. apply wp_bind, wp_get. apply wp_bind.
  eapply wp_sound; [apply sound_mapM, exprs_visit, X|exact HI|].
  intros args s1 g1 I1 R1.
  assert (Hb : block_of g1 f (block self)).
  { eapply block_of_R; [exact R1|by apply Inv_block in HI]. }
  eapply (wp_quiet _ (block self)); [exact I1| | |intros I2 R2].
  { by apply quiet_build. }
  { left. apply Hb. }
  split; [done|R_chain].
Qed.

Lemma sound_ListComp l elt generators :
  expr_sound elt →
  list_all comprehension (comprehension__all expr expr_sound) generators →
  sound (checked_visit_expr (ListComp l elt generators)).
Proof.
  intros [Helt _] X f n self g HI.
  change (checked_visit_expr (ListComp l elt generators))
    with (throwBlock ← get_except_block;
          self ← get;
          let orig_cell_map := _cell_map self in
          let orig_scope := _scope_value self in
          r ← build (block self) (λ r, ListOp r []);
          append ← get_method r "append";
          self ← get;
          finalBlock ← create_after (block self) [];
          '(doneBlock, l) ←
            generators_loop checked_visit_expr assign_lhs throwBlock
                            generators finalBlock None;
          e ← checked_visit_expr elt;
          _ ← invoke append [e] None;
          self ← get;
          _ ← emit (block self) (BranchOp [] doneBlock);
          _ ← modify (set_block finalBlock);
          _ ← modify (set_cell_map orig_cell_map);
          _ ← modify (set_scope_value orig_scope);
          match l with
          | Some l => mret l
          | None => raise (UnboundLocalError "l")
          end).
  apply wp_bind. eapply wp_mono; [by apply get_except_block_spec|].
  intros p s1 g1 (I1 & R1 & Hpad & _). cbv beta.
  apply wp_bind, wp_get. cbv zeta. apply wp_bind.
  eapply (wp_quiet _ (block s1)); [exact I1| | |intros I2 R2].
  { by apply quiet_build. }
  { left. by destruct (Inv_block _ _ _ _ I1). }
  rewrite build_fst. set (g2 := (IR.build _ _ g1).2) in *.
  apply wp_bind. eapply wp_sound; [apply sound_get_method|exact I2|].
  intros ap s3 g3 I3 R3.
  apply wp_bind, wp_get. apply wp_bind, wp_state.
  destruct (create_after_spec f n s3 g3 (block s3) [] I3 (Inv_block _ _ _ _ I3))
    as (I4 & R4 & Hfb & _).
  rewrite create_after_fst.
  set (fb := length (blocks g3)) in *. set (g4 := (IR.create_after _ _ g3).2) in *.
  apply wp_bind. eapply wp_mono.
  { apply (generators_loop_spec checked_visit_expr assign_lhs p generators X
             fb None f n s3 g4 I4).
    eapply pad_of_R; [|exact Hpad]. R_chain. }
  intros [db lv] s5 g5 [I5 R5]. cbv beta iota.
  apply wp_bind. eapply wp_sound; [exact Helt|exact I5|]. intros ev s6 g6 I6 R6.
  apply wp_bind. eapply wp_sound; [apply sound_invoke|exact I6|].
  intros iv s7 g7 I7 R7.
  apply wp_bind, wp_get. apply wp_bind.
  eapply (wp_quiet _ (block s7)); [exact I7| | |intros I8 R8].
  { by apply quiet_append_harmless. }
  { left. by destruct (Inv_block _ _ _ _ I7). }
  cbn [fst snd] in *. set (g8 := IR.append_op _ _ g7) in *.
  apply wp_bind, wp_modify. apply wp_bind, wp_modify. apply wp_bind, wp_modify.
  destruct lv; [|done]. apply wp_ret. split; [|R_chain].
  eapply Inv_fields; [| |apply (Inv_set_block f n s7 g8 fb); [|exact I8]]; [done|done|].
  eapply block_of_R; [|exact Hfb]. R_chain.
Qed.

Lemma sound_Lambda l node_id largs body :
  expr_sound body → sound (checked_visit_expr (Lambda l node_id largs body)).
Proof.
  intros [Hbody _] f n self g HI.
  change (checked_visit_expr (Lambda l node_id largs body))
    with (var_scope ← get_scope node_id;
          '(funTranslator, fun_value) ← create_fun "_lambda" largs var_scope;
          _ ← on funTranslator (v ← checked_visit_expr body; returnOp v);
          mret fun_value).
  apply wp_bind. eapply wp_sound; [apply sound_get_scope|exact HI|].
  intros sc s1 g1 I1 R1.
  apply wp_bind. eapply wp_mono; [by apply create_fun_spec|].
  intros [child fv] s2 g2 (I2 & R2 & nf & Hnf & IC). cbn [fst] in IC. cbv beta iota.
  apply wp_bind.
  eapply (wp_child _ f n nf child); [|exact I2|exact Hnf|exact IC|].
  { apply sound_bind; [exact Hbody|]. intros v. apply sound_returnOp. }
  intros a child' g3 I3 R3 _. apply wp_ret. split; [done|R_chain].
Qed.

Theorem expr_sound_all (e : expr) : expr_sound e.
Proof.
  induction e using expr_ind; (split; [|intros v; try apply sound_raise]).
  - (* Constant *) apply sound_visit_Constant.
  - (* Name *) apply sound_visit_Name.
  - (* Name, as a target *)
    intros f n self g HI. simpl. apply wp_bind, wp_get.
    apply wp_bind. eapply wp_sound; [apply sound_cell_of|exact HI|].
    intros c s1 g1 I1 R1.
    eapply (wp_quiet _ (block self)); [exact I1| | |intros I2 R2].
    { by apply quiet_append_harmless. }
    { left. eapply block_of_R; [exact R1|by apply Inv_block in HI]. }
    split; [done|R_chain].
  - (* Attribute *)
    simpl. apply sound_bind; [apply IHe|]. intros val.
    destruct ctx; [apply sound_load_value_attribute|apply sound_raise..].
  - (* Subscript *)
    simpl. apply sound_bind; [apply IHe1|]. intros v.
    apply sound_bind; [apply IHe2|]. intros sl.
    apply sound_bind; [apply sound_get_method|]. intros gi. apply sound_invoke.
  - (* Subscript, as a target *)
    simpl. apply sound_bind; [apply IHe1|]. intros a.
    apply sound_bind; [apply IHe2|]. intros idx.
    by apply (sound_emit_at_cursor (ArraySet a idx v)).
  - (* Slice *)
    simpl. apply sound_bind; [by apply sound_opt_visit|]. intros up.
    apply sound_bind; [apply sound_builtin|]. intros sf.
    match goal with H : option_all _ _ step |- _ => destruct H as [st [Hst _]|] end.
    + apply sound_bind; [by apply sound_opt_visit|]. intros lo.
      apply sound_bind; [done|]. intros stv. apply sound_invoke.
    + match goal with H : option_all _ _ lower |- _ => destruct H as [lo [Hlo _]|] end.
      * apply sound_bind; [done|]. intros lov. apply sound_invoke.
      * apply sound_invoke.
  - (* Tuple *)
    by apply (sound_list_like (λ args r, TupleOp r args)).
  - (* Tuple, as a target *)
    intros f n self g HI. simpl. apply wp_bind, wp_get. apply wp_bind.
    eapply (wp_quiet _ (block self)); [exact HI| | |intros I1 R1].
    { by apply quiet_append_harmless. }
    { left. by destruct (Inv_block _ _ _ _ HI). }
    eapply wp_mono.
    { apply (tuple_targets_spec assign_lhs (block self) v elts); [by apply exprs_assign|exact I1|].
      by apply Inv_block in I1. }
    intros [] s2 g2 [I2 R2]. split; [done|R_chain].
  - (* List *)
    by apply (sound_list_like (λ args r, ListOp r args)).
  - (* UnaryOp *)
    simpl. destruct (unary_operator_map op); [|apply sound_undef_value].
    apply sound_bind; [apply IHe|]. intros a. apply sound_apply_unop.
  - (* BinOp *)
    simpl. destruct (bin_operator_map op); [|apply sound_undef_value].
    apply sound_bind; [apply IHe1|]. intros va.
    apply sound_bind; [apply IHe2|]. intros vb. apply sound_apply_binop.
  - (* Compare *)
    simpl. apply sound_bind; [apply IHe|]. intros a.
    apply sound_compare_loop. by apply exprs_visit.
  - (* Call *)
    simpl. apply sound_bind.
    { destruct (is_other e); [apply sound_raise|apply IHe]. }
    intros fv. apply sound_bind; [by apply sound_mapM, exprs_visit|]. intros args.
    apply sound_bind; [by apply sound_call_keywords, keywords_visit|].
    intros [args' kws]. apply sound_invoke.
  - (* FormattedValue *)
    simpl. apply sound_bind; [apply IHe|]. intros val.
    case_bool_decide; [apply sound_raise|].
    apply sound_bind; [by apply sound_opt_visit|]. intros fmt.
    apply sound_format_value.
  - (* JoinedStr *)
    simpl. apply sound_bind; [by apply sound_joined_parts, exprs_visit|].
    intros args. apply sound_joined_string.
  - (* Lambda *) by apply sound_Lambda.
  - (* ListComp *) by apply sound_ListComp.
  - (* GeneratorExp *) apply sound_undef_value.
  - (* OtherExpr *) apply sound_raise.
Qed.

(** *** Statements *)

Lemma sound_visit (e : expr) : sound (checked_visit_expr e).
Proof. apply expr_sound_all. Qed.

Lemma sound_assign_lhs (e : expr) v : sound (assign_lhs e v).
Proof. apply expr_sound_all. Qed.

Lemma sound_call_onDone d : sound (call_onDone d).
Proof.
  induction d as [|exits prev IH]; simpl; [apply sound_ret|].
  apply sound_bind.
  - apply sound_forM_. intros exit.
    apply sound_bind; [apply sound_invoke|]. intros _. apply sound_ret.
  - intros _. destruct prev; [apply sound_ret|exact IH].
Qed.

Lemma sound_visit_Return value : sound (visit_Return value).
Proof.
  unfold visit_Return. apply sound_bind; [apply sound_get|]. intros s.
  apply sound_bind.
  { destruct (onDone s); [apply sound_ret|apply sound_call_onDone]. }
  intros _. apply sound_bind.
  - destruct value; [apply sound_visit|]. by intros f n self g HI.
  - intros v. apply sound_bind; [apply sound_returnOp|]. intros _. apply sound_ret.
Qed.

Lemma sound_with_items items exits : sound (with_items items exits).
Proof.
  revert exits. induction items as [|item items IH]; intros exits; simpl.
  - apply sound_ret.
  - apply sound_bind; [apply sound_visit|]. intros ctx.
    apply sound_bind; [apply sound_get_method|]. intros enter.
    apply sound_bind; [apply sound_get_method|]. intros exit.
    apply sound_bind; [apply sound_invoke|]. intros r.
    apply sound_bind; [|intros _; apply IH].
    destruct (optional_vars item) as [var|].
    + destruct var; apply sound_raise.
    + apply (sound_ret tt).
Qed.

Lemma sound_visit_Import names : sound (visit_Import names).
Proof.
  apply sound_bind; [|intros _; apply sound_ret].
  apply sound_forM_. intros a. apply sound_pythonImport.
Qed.

Lemma sound_visit_stmts_with visit (l : list stmt) :
  list_all stmt (λ s, sound (visit s)) l → sound (visit_stmts_with visit l).
Proof.
  intros X. induction X as [|s Hs l X IH]; simpl; [apply sound_ret|].
  apply sound_bind; [done|]. intros [|]; [done|apply sound_ret].
Qed.

(** The branch a block of statements ends in when it falls through. *)
Lemma sound_fall_through (c : bool) (dest : nat) :
  sound (if c then self ← get; emit (block self) (BranchOp [] dest) else mret tt).
Proof. destruct c; [by apply sound_emit_at_cursor|apply sound_ret]. Qed.

Lemma if_arm_spec visit_stmts initBlock newBlock stmts f n self g :
  sound (visit_stmts stmts) →
  Inv f n self g → block_of g f initBlock →
  wp (if_arm visit_stmts initBlock newBlock stmts) self g
     (λ _ s' g', Inv f n s' g' ∧ R f n g g').
Proof.
  intros Hs HI Hinit. unfold if_arm.
  destruct (VariableCapture.nonempty stmts).
  - apply wp_bind, wp_state.
    destruct (create_after_spec f n self g initBlock [] HI Hinit)
      as (I1 & R1 & Harm & _).
    rewrite create_after_fst. set (g1 := (IR.create_after _ _ g).2) in *.
    apply wp_bind, wp_modify.
    assert (I1' : Inv f n (set_block (length (blocks g)) self) g1)
      by (by apply Inv_set_block).
    apply wp_bind. eapply wp_sound; [exact Hs|exact I1'|]. intros c s2 g2 I2 R2.
    apply wp_bind. eapply wp_sound; [apply sound_fall_through|exact I2|].
    intros [] s3 g3 I3 R3. apply wp_ret. split; [done|R_chain].
  - apply wp_ret. split; [done|apply R_refl].
Qed.

Lemma sound_For tgt it body :
  list_all stmt (λ s, sound (checked_visit_stmt s)) body →
  sound (checked_visit_stmt (For tgt it body [])).
Proof.
  intros X f n self g HI.
  change (checked_visit_stmt (For tgt it body []))
    with (r ← checked_visit_expr it;
          enter ← get_method r "__iter__";
          i ← invoke enter [] None;
          next ← get_method i "__next__";
          throwBlock ← get_except_block;
          self ← get;
          doneBlock ← create_after (block self) [];
          '(nextBlock, bodyBlock, value) ←
            state (invoke_next next (block self) doneBlock throwBlock);
          _ ← modify (set_block bodyBlock);
          _ ← assign_lhs tgt value;
          bodyCont ← visit_stmts_with checked_visit_stmt body;
          _ ← (if (bodyCont : bool)
               then self ← get; emit (block self) (BranchOp [] nextBlock)
               else mret tt);
          _ ← modify (set_block doneBlock);
          mret true).
  apply wp_bind. eapply wp_sound; [apply sound_visit|exact HI|]. intros rv s1 g1 I1 R1.
  apply wp_bind. eapply wp_sound; [apply sound_get_method|exact I1|].
  intros en s2 g2 I2 R2.
  apply wp_bind. eapply wp_sound; [apply sound_invoke|exact I2|].
  intros iv s3 g3 I3 R3.
  apply wp_bind. eapply wp_sound; [apply sound_get_method|exact I3|].
  intros nx s4 g4 I4 R4.
  apply wp_bind. eapply wp_mono; [by apply get_except_block_spec|].
  intros p s5 g5 (I5 & R5 & Hpad & _). cbv beta.
  apply wp_bind, wp_get. apply wp_bind, wp_state.
  destruct (create_after_spec f n s5 g5 (block s5) [] I5 (Inv_block _ _ _ _ I5))
    as (I6 & R6 & Hdone & _).
  rewrite create_after_fst.
  set (db := length (blocks g5)) in *. set (g6 := (IR.create_after _ _ g5).2) in *.
  apply wp_bind, wp_state.
  destruct (invoke_next_spec f n s5 g6 nx (block s5) db p I6
              (Inv_block _ _ _ _ I6) (pad_of_R _ _ _ _ _ R6 Hpad))
    as (I7 & R7 & Hnb & Hbb).
  destruct (invoke_next nx (block s5) db p g6) as [[[nb bb] bv] g7].
  cbn [fst snd] in *.
  apply wp_bind, wp_modify.
  assert (I7' : Inv f n (set_block bb s5) g7) by (by apply Inv_set_block).
  apply wp_bind. eapply wp_sound; [apply sound_assign_lhs|exact I7'|].
  intros [] s8 g8 I8 R8.
  apply wp_bind. eapply wp_sound; [by apply sound_visit_stmts_with|exact I8|].
  intros c s9 g9 I9 R9.
  apply wp_bind. eapply wp_sound; [apply sound_fall_through|exact I9|].
  intros [] s10 g10 I10 R10.
  apply wp_bind, wp_modify, wp_ret. split; [|R_chain].
  apply Inv_set_block; [|done]. eapply block_of_R; [|exact Hdone]. R_chain.
Qed.

Lemma sound_If test body orelse :
  list_all stmt (λ s, sound (checked_visit_stmt s)) body →
  list_all stmt (λ s, sound (checked_visit_stmt s)) orelse →
  sound (checked_visit_stmt (If test body orelse)).
Proof.
  intros Xb Xo f n self g HI.
  change (checked_visit_stmt (If test body orelse))
    with (test ← checked_visit_expr test;
          self ← get;
          c ← build (block self) (λ r, Truthy r test);
          let initBlock := block self in
          newBlock ← create_after initBlock [];
          falseBlock ← if_arm (visit_stmts_with checked_visit_stmt)
                              initBlock newBlock orelse;
          trueBlock ← if_arm (visit_stmts_with checked_visit_stmt)
                             initBlock newBlock body;
          _ ← emit initBlock (CondBranchOp c [] [] trueBlock falseBlock);
          _ ← modify (set_block newBlock);
          mret true).
  apply wp_bind. eapply wp_sound; [apply sound_visit|exact HI|]. intros tv s1 g1 I1 R1.
  apply wp_bind, wp_get. apply wp_bind.
  eapply (wp_quiet _ (block s1)); [exact I1| | |intros I2 R2].
  { by apply quiet_build. }
  { left. by destruct (Inv_block _ _ _ _ I1). }
  rewrite build_fst. set (g2 := (IR.build _ _ g1).2) in *. cbv zeta.
  apply wp_bind, wp_state.
  assert (Hinit2 : block_of g2 f (block s1)) by (by apply Inv_block in I2).
  destruct (create_after_spec f n s1 g2 (block s1) [] I2 Hinit2)
    as (I3 & R3 & Hnew & _).
  rewrite create_after_fst.
  set (nb := length (blocks g2)) in *. set (g3 := (IR.create_after _ _ g2).2) in *.
  assert (Hinit3 : block_of g3 f (block s1)) by (by apply Inv_block in I3).
  apply wp_bind. eapply wp_mono.
  { apply if_arm_spec; [by apply sound_visit_stmts_with|exact I3|exact Hinit3]. }
  intros fbk s4 g4 [I4 R4]. cbv beta.
  apply wp_bind. eapply wp_mono.
  { apply if_arm_spec; [by apply sound_visit_stmts_with|exact I4|].
    eapply block_of_R; [exact R4|exact Hinit3]. }
  intros tbk s5 g5 [I5 R5]. cbv beta.
  apply wp_bind.
  eapply (wp_quiet _ (block s1)); [exact I5| | |intros I6 R6].
  { by apply quiet_append_harmless. }
  { left. assert (H5 : block_of g5 f (block s1)).
    { eapply block_of_R; [|exact Hinit3]. R_chain. }
    apply H5. }
  cbn [fst snd] in *.
  apply wp_bind, wp_modify, wp_ret. split; [|R_chain].
  apply Inv_set_block; [|done]. eapply block_of_R; [|exact Hnew]. R_chain.
Qed.

Lemma sound_While test body :
  list_all stmt (λ s, sound (checked_visit_stmt s)) body →
  sound (checked_visit_stmt (While test body [])).
Proof.
  intros X f n self g HI.
  change (checked_visit_stmt (While test body []))
    with (self ← get;
          testBlock ← create_after (block self) [];
          _ ← emit (block self) (BranchOp [] testBlock);
          _ ← modify (set_block testBlock);
          testExpr ← checked_visit_expr test;
          self ← get;
          c ← build (block self) (λ r, Truthy r testExpr);
          bodyBlock ← create_after (block self) [];
          doneBlock ← create_after bodyBlock [];
          _ ← emit (block self) (CondBranchOp c [] [] bodyBlock doneBlock);
          _ ← modify (set_block bodyBlock);
          bodyCont ← visit_stmts_with checked_visit_stmt body;
          _ ← (if (bodyCont : bool)
               then self ← get; emit (block self) (BranchOp [] testBlock)
               else mret tt);
          _ ← modify (set_block doneBlock);
          mret true).
  apply wp_bind, wp_get. apply wp_bind, wp_state.
  destruct (create_after_spec f n self g (block self) [] HI (Inv_block _ _ _ _ HI))
    as (I1 & R1 & Htest & _).
  rewrite create_after_fst.
  set (tb := length (blocks g)) in *. set (g1 := (IR.create_after _ _ g).2) in *.
  apply wp_bind.
  eapply (wp_quiet _ (block self)); [exact I1| | |intros I2 R2].
  { by apply quiet_append_harmless. }
  { left. by destruct (Inv_block _ _ _ _ I1). }
  cbn [fst snd] in *. set (g2 := IR.append_op _ _ g1) in *.
  apply wp_bind, wp_modify.
  assert (I2' : Inv f n (set_block tb self) g2).
  { apply Inv_set_block; [|done]. eapply block_of_R; [exact R2|done]. }
  apply wp_bind. eapply wp_sound; [apply sound_visit|exact I2'|].
  intros tv s3 g3 I3 R3.
  apply wp_bind, wp_get. apply wp_bind.
  eapply (wp_quiet _ (block s3)); [exact I3| | |intros I4 R4].
  { by apply quiet_build. }
  { left. by destruct (Inv_block _ _ _ _ I3). }
  rewrite build_fst. set (g4 := (IR.build _ _ g3).2) in *.
  apply wp_bind, wp_state.
  destruct (create_after_spec f n s3 g4 (block s3) [] I4 (Inv_block _ _ _ _ I4))
    as (I5 & R5 & Hbody & _).
  rewrite create_after_fst.
  set (bb := length (blocks g4)) in *. set (g5 := (IR.create_after _ _ g4).2) in *.
  apply wp_bind, wp_state.
  destruct (create_after_spec f n s3 g5 bb [] I5 Hbody) as (I6 & R6 & Hdone & _).
  rewrite create_after_fst.
  set (db := length (blocks g5)) in *. set (g6 := (IR.create_after _ _ g5).2) in *.
  apply wp_bind.
  eapply (wp_quiet _ (block s3)); [exact I6| | |intros I7 R7].
  { by apply quiet_append_harmless. }
  { left. by destruct (Inv_block _ _ _ _ I6). }
  cbn [fst snd] in *. set (g7 := IR.append_op _ _ g6) in *.
  apply wp_bind, wp_modify.
  assert (I7' : Inv f n (set_block bb s3) g7).
  { apply Inv_set_block; [|done]. eapply block_of_R; [|exact Hbody]. R_chain. }
  apply wp_bind. eapply wp_sound; [by apply sound_visit_stmts_with|exact I7'|].
  intros c s8 g8 I8 R8.
  apply wp_bind. eapply wp_sound; [apply sound_fall_through|exact I8|].
  intros [] s9 g9 I9 R9.
  apply wp_bind, wp_modify, wp_ret. split; [|R_chain].
  apply Inv_set_block; [|done]. eapply block_of_R; [|exact Hdone]. R_chain.
Qed.

Lemma sound_FunctionDef node_id fname fargs body :
  list_all stmt (λ s, sound (checked_visit_stmt s)) body →
  sound (checked_visit_stmt (FunctionDef node_id fname fargs body)).
Proof.
  intros X f n self g HI.
  change (checked_visit_stmt (FunctionDef node_id fname fargs body))
    with (var_scope ← get_scope node_id;
          '(fun_translator, fun_value) ← create_fun fname fargs var_scope;
          '(cont, fun_translator) ←
            on fun_translator (visit_stmts_with checked_visit_stmt body);
          _ ← (if (cont : bool) then
                 _ ← on fun_translator (n ← none_value; returnOp n); mret tt
               else mret tt);
          self ← get;
          c ← cell_of fname;
          _ ← emit (block self) (CellStore c fun_value);
          mret true).
  apply wp_bind. eapply wp_sound; [apply sound_get_scope|exact HI|].
  intros sc s1 g1 I1 R1.
  apply wp_bind. eapply wp_mono; [by apply create_fun_spec|].
  intros [child fv] s2 g2 (I2 & R2 & nf & Hnf & IC). cbn [fst] in IC. cbv beta iota.
  apply wp_bind.
  eapply (wp_child _ f n nf child); [|exact I2|exact Hnf|exact IC|].
  { by apply sound_visit_stmts_with. }
  intros cont child' g3 I3 R3 IC3. cbv beta iota.
  apply wp_bind.
  eapply (wp_mono _ _ _ (λ _ s' g', Inv f n s' g' ∧ R f n g3 g')).
  { destruct cont.
    - apply wp_bind.
      eapply (wp_child _ f n nf child'); [|exact I3|exact Hnf|exact IC3|].
      { apply sound_bind; [apply sound_none_value|]. intros v. apply sound_returnOp. }
      intros a child'' g4 I4 R4 _. by apply wp_ret.
    - apply wp_ret. split; [done|apply R_refl]. }
  intros [] s4 g4 [I4 R4]. cbv beta.
  apply wp_bind, wp_get.
  apply wp_bind. eapply wp_sound; [apply sound_cell_of|exact I4|].
  intros c s5 g5 I5 R5.
  apply wp_bind.
  eapply (wp_quiet _ (block s4)); [exact I5| | |intros I6 R6].
  { by apply quiet_append_harmless. }
  { left. eapply block_of_R; [exact R5|by apply Inv_block in I4]. }
  apply wp_ret. split; [done|R_chain].
Qed.

Lemma sound_With items body :
  list_all stmt (λ s, sound (checked_visit_stmt s)) body →
  sound (checked_visit_stmt (With items body)).
Proof.
  intros X.
  change (checked_visit_stmt (With items body))
    with (exitMethods ← with_items items [];
          self ← get;
          let prevDone := onDone self in
          let onDone_ := DoneClosure exitMethods prevDone in
          _ ← modify (set_onDone onDone_);
          cont ← visit_stmts_with checked_visit_stmt body;
          _ ← modify (set_onDone prevDone);
          _ ← (if (cont : bool) then call_onDone onDone_ else mret tt);
          mret cont).
  apply sound_bind; [apply sound_with_items|]. intros exits.
  apply sound_bind; [apply sound_get|]. intros s. cbv zeta.
  apply sound_bind; [by apply sound_modify|]. intros _.
  apply sound_bind; [by apply sound_visit_stmts_with|]. intros cont.
  apply sound_bind; [by apply sound_modify|]. intros _.
  apply sound_bind; [|intros _; apply sound_ret].
  destruct cont; [apply sound_call_onDone|apply sound_ret].
Qed.

Theorem stmt_sound_all (s : stmt) : sound (checked_visit_stmt s).
Proof.
  induction s using stmt_ind.
  - (* Assign *)
    simpl. destruct targets as [|tgt [|]]; try apply sound_raise.
    apply sound_bind; [apply sound_visit|]. intros r.
    apply sound_bind; [apply sound_assign_lhs|]. intros _. apply sound_ret.
  - (* AugAssign *) apply sound_ret.
  - (* Expr *)
    simpl. apply sound_bind; [apply sound_visit|]. intros _. apply sound_ret.
  - (* For *)
    destruct orelse; [by apply sound_For|apply sound_raise].
  - (* FunctionDef *) by apply sound_FunctionDef.
  - (* If *) by apply sound_If.
  - (* Import *) apply sound_visit_Import.
  - (* Return *) apply sound_visit_Return.
  - (* With *) by apply sound_With.
  - (* While *)
    destruct orelse; [by apply sound_While|apply sound_raise].
  - (* OtherStmt *) apply sound_raise.
Qed.

Lemma sound_visit_stmts (l : list stmt) : sound (visit_stmts l).
Proof.
  apply sound_visit_stmts_with. induction l; constructor; auto using stmt_sound_all.
Qed.

(** *** The module driver *)

(** The translator of [script_main] lowers function 0, and every other
    function was created under it. *)
Lemma Inv_all_functions self g :
  Inv 0 1 self g → ∀ f, f < length (funcs g) → ∃ pad, pad_ok g f pad.
Proof.
  intros (Hfn & Hn & Hwf & Hb & Hp & Hc) f Hlt.
  destruct (decide (f = 0)) as [->|Hne]; [by eexists|].
  apply Hc; [lia|done].
Qed.

Lemma script_main_ready sm :
  child_ready 0 0
    (IR.create_func "script_main" [] [ReturnValueType] (MkState [] [] 0 sm ∅ [])).2.
Proof.
  split; [done|]. split.
  { intros b Hb. change (b < 1) in Hb. assert (b = 0) as -> by lia.
    change (0 < 1). lia. }
  split; [split; [change (0 < 1); lia|done]|].
  split; [|done]. intros b o [Hb _] Ho. change (b < 1) in Hb.
  assert (b = 0) as -> by lia. by apply elem_of_nil in Ho.
Qed.

(** C5: in the module [translateModule] returns, every function has at
    most one block that builds an exception return, its landing pad, and
    every fallible op of the function ([invoke], binary, unary, the
    [invoke] of [invoke_next]) has exactly two successors, the second of
    which, its failure successor, is that landing pad or the
    [StopIteration] test block of an [invoke_next] whose other exit is
    that landing pad. *)
Theorem C5_one_landing_pad (tree : module_) (g : State) :
  translateModule tree = (g, Ok tt) →
  ∀ f, f < length (funcs g) →
    (∃ pad : option nat, pad_ok g f pad) ∧
    (∀ b1 b2 o1 o2,
       block_of g f b1 → block_of g f b2 →
       o1 ∈ ops_of g b1 → o2 ∈ ops_of g b2 →
       is_MkExcept o1 = true → is_MkExcept o2 = true → b1 = b2).
Proof.
  intros Htr f Hf.
  cut (∃ pad : option nat, pad_ok g f pad).
  { intros [pad Hpad]. split; [by exists pad|].
    intros b1 b2 o1 o2 B1 B2 O1 O2 M1 M2. destruct Hpad as [HA _].
    destruct (HA b1 o1 B1 O1) as [H1 _]. destruct (HA b2 o2 B2 O2) as [H2 _].
    specialize (H1 M1). specialize (H2 M2). congruence. }
  revert f Hf. revert Htr.
  unfold translateModule.
  destruct (VariableCapture.visit_stmts _ _ _) as [[vc sm]|]; [|done].
  destruct (VariableCapture.nonempty (VariableCapture.references vc)); [done|].
  pose proof (script_main_ready sm) as C1.
  change (IR.create_func "script_main" [] [ReturnValueType]
            (MkState (funcs Module_create) (blocks Module_create)
                     (next_result Module_create) sm ∅ (stderr Module_create)))
    with (0, (IR.create_func "script_main" [] [ReturnValueType]
                (MkState [] [] 0 sm ∅ [])).2).
  cbv beta iota.
  set (g1 := (IR.create_func "script_main" [] [ReturnValueType] _).2) in *.
  destruct (VariableCapture.nonempty _); [done|].
  pose proof (quiet_alloc ∅ [] [] 0
                (VariableScope.vars (VariableCapture.mkScope vc)) g1) as Q2.
  destruct (alloc_variable_cells _ _ _ _ _ g1) as [[[cm ns] cs] g2].
  cbn [snd] in Q2.
  assert (Q3 : quiet_at 0 g2 (IR.build 0 (λ r, ScopeInit r ns cs) g2).2)
    by (by apply quiet_build).
  change (IR.build 0 (λ r, ScopeInit r ns cs) g2)
    with (OpResult (next_result g2), (IR.build 0 (λ r, ScopeInit r ns cs) g2).2).
  cbv beta iota.
  set (g3 := (IR.build 0 (λ r, ScopeInit r ns cs) g2).2) in *.
  set (t0 := init 0 (OpResult (next_result g2)) cm).
  assert (I3 : Inv 0 1 t0 g3).
  { apply child_ready_Inv. eapply child_ready_quiet; [exact Q3|].
    by eapply child_ready_quiet. }
  pose proof (sound_visit_stmts (mbody tree) 0 1 t0 g3 I3) as W.
  unfold wp in W.
  destruct (visit_stmts (mbody tree) t0 g3) as [g4 [[cont t1]|e]]; [|done].
  destruct W as [I4 R4]. destruct cont.
  - assert (Hq : ∀ (mk : Value → Op) g0, harmless (mk (OpResult (next_result g0))) →
                   Inv 0 1 t1 g0 → Inv 0 1 t1 (IR.build (block t1) mk g0).2).
    { intros mk g0 Hh HI. eapply Inv_quiet; [|exact HI]. by apply quiet_build. }
    change (IR.build (block t1) NoneOp g4)
      with (OpResult (next_result g4), (IR.build (block t1) NoneOp g4).2).
    cbv beta iota.
    set (g5 := (IR.build (block t1) NoneOp g4).2).
    change (IR.build (block t1) (λ r, MkReturnOp r (OpResult (next_result g4))) g5)
      with (OpResult (next_result g5),
            (IR.build (block t1) (λ r, MkReturnOp r (OpResult (next_result g4))) g5).2).
    cbv beta iota.
    set (g6 := (IR.build (block t1) _ g5).2).
    intros [= <-].
    apply (Inv_all_functions t1).
    eapply (Inv_quiet _ _ _ (block t1)); [by apply quiet_append_harmless|].
    apply Hq; [done|]. by apply Hq.
  - intros [= <-]. by apply (Inv_all_functions t1).
Qed.

Lemma C5_one_landing_pad_witness :
  ∃ g, translateModule Examples.loop_and_lambda = (g, Ok tt) ∧
       length (funcs g) = 2 ∧
       ∀ f, f < length (funcs g) →
         (∃ pad : option nat, pad_ok g f pad) ∧
         (∀ b1 b2 o1 o2,
            block_of g f b1 → block_of g f b2 →
            o1 ∈ ops_of g b1 → o2 ∈ ops_of g b2 →
            is_MkExcept o1 = true → is_MkExcept o2 = true → b1 = b2).
Proof.
  eexists. split; [vm_compute; reflexivity|]. split; [reflexivity|].
  apply (C5_one_landing_pad Examples.loop_and_lambda). vm_compute. reflexivity.
Defined.

End Steps.

(** ** The ops of a chained comparison *)

Section ComparisonOps.
Import IR Pad Translator Lowering.

(** What [invoke], [apply_binop] and [apply_unop] leave: the op ends the
    block the cursor was in, its normal successor is the block the cursor
    is in now, whose argument is the value returned, and its failure
    successor is the exception block of the translator. *)
Lemma wp_fallible_op (mk : nat → nat → Op) (self : t) (g : State) :
  block self < length (blocks g) →
  wp (fallible_op mk) self g
     (λ v s' g',
        v = BlockArg (block s') 0 ∧
        ∃ exc, exceptBlock s' = Some exc ∧
               ops_of g' (block self) = ops_of g (block self) ++ [mk (block s') exc]).
Proof.
  intros Hb. unfold fallible_op, get_except_block.
  apply wp_bind, wp_bind, wp_get.
  destruct (exceptBlock self) as [p|] eqn:Ex.
  - apply wp_ret. apply wp_bind, wp_get. apply wp_bind, wp_state.
    rewrite create_after_fst. apply wp_bind, wp_state. cbn [fst snd].
    apply wp_bind, wp_modify, wp_ret. split; [done|].
    exists p. split; [done|]. cbn [block set_block].
    rewrite append_op_ops_eq
      by (rewrite create_after_blocks, length_app; simpl; lia).
    by rewrite create_after_ops_old.
  - apply wp_bind, wp_state. rewrite create_after_fst.
    set (nb := length (blocks g)). set (g1 := (IR.create_after _ _ g).2).
    apply wp_bind, wp_state. rewrite build_fst, build_snd.
    set (r := OpResult (next_result g1)).
    set (g2 := append_op nb (MkExceptOp r (BlockArg nb 0)) (fresh_result g1).2).
    apply wp_bind, wp_state. simpl fst. simpl snd.
    apply wp_bind, wp_modify, wp_ret.
    set (g3 := append_op nb (ReturnOp [r]) g2).
    apply wp_bind, wp_get. apply wp_bind, wp_state. rewrite create_after_fst.
    apply wp_bind, wp_state. cbn [fst snd].
    apply wp_bind, wp_modify, wp_ret. split; [done|].
    exists nb. split; [done|]. cbn [block set_block set_exceptBlock].
    assert (L1 : length (blocks g1) = S nb).
    { unfold g1. rewrite create_after_blocks, length_app. simpl. lia. }
    assert (L3 : length (blocks g3) = S nb).
    { unfold g3, g2. by rewrite !append_op_length, fresh_result_blocks. }
    rewrite append_op_ops_eq
      by (rewrite create_after_blocks, length_app, L3; simpl; lia).
    rewrite create_after_ops_old by lia.
    unfold g3, g2. rewrite !append_op_ops_ne by (unfold nb; lia).
    rewrite fresh_result_ops. unfold g1. by rewrite create_after_ops_old.
Qed.

(** The last comparison of a chain. *)
Lemma compare_chain_last (l l' : loc) (a : expr) (ops : list cmpop)
  (es : list expr) (op : cmpop) (e : expr) (cls : binop_class)
  (f n : nat) (self self' : t) (g g' : State) (v : Value) :
  length ops = length es →
  comparison_map op = Some cls →
  Inv f n self g →
  checked_visit_expr (Compare l a (ops ++ [op]) (es ++ [e])) self g
    = (g', Ok (v, self')) →
  ∃ left_ s1 g1 right_ s2 g2 exc,
    checked_visit_expr (Compare l' a ops es) self g = (g1, Ok (left_, s1)) ∧
    checked_visit_expr e s1 g1 = (g2, Ok (right_, s2)) ∧
    ops_of g' (block s2) =
      ops_of g2 (block s2) ++ [BinaryOp cls left_ right_ (block self') exc] ∧
    v = BlockArg (block self') 0.
Proof.
  intros Hlen Hcls HI E.
  rewrite (compare_chain_snoc l l' a ops es op e cls self g Hlen Hcls) in E.
  pose proof (sound_visit (Compare l' a ops es) f n self g HI) as W1.
  unfold mbind, M_bind, bind in E. unfold wp in W1.
  destruct (checked_visit_expr (Compare l' a ops es) self g)
    as [g1 [[left_ s1]|x]] eqn:E1; [|done].
  cbv beta iota in W1. destruct W1 as [I1 _].
  pose proof (sound_visit e f n s1 g1 I1) as W2. unfold wp in W2.
  destruct (checked_visit_expr e s1 g1) as [g2 [[right_ s2]|x]] eqn:E2; [|done].
  cbv beta iota in W2. destruct W2 as [I2 _].
  assert (Hb2 : block s2 < length (blocks g2))
    by (by destruct (Inv_block _ _ _ _ I2)).
  pose proof (wp_fallible_op (λ rb exc, BinaryOp cls left_ right_ rb exc) s2 g2 Hb2)
    as W3.
  unfold wp in W3.
  change (fallible_op (λ rb exc, BinaryOp cls left_ right_ rb exc))
    with (apply_binop left_ cls right_) in W3.
  rewrite E in W3. cbv beta iota in W3.
  destruct W3 as (-> & exc & _ & Hops).
  by exists left_, s1, g1, right_, s2, g2, exc.
Qed.

(** C2, as the code has it: a chained comparison [a op1 b ... opn z] is
    lowered left to right as a left fold. The chain before the last
    operator is lowered first, then the last comparator; the comparison
    op emitted last, at the end of the block the cursor was in, has for
    left operand the value the chain before it lowered to and for right
    operand the value of the last comparator, and the value of the whole
    chain is the result of that op, the argument of its normal successor:
    the chain runs as the single comparison of the chain before the last
    operator with the last comparator does.
    When the chain before it has a comparison, its value is in turn the
    result of that comparison: the left operand of each comparison after
    the first is the result of the comparison before it, not the
    comparator before it. *)
Theorem C2_chain_is_left_fold (l l' : loc) (a : expr) (ops : list cmpop)
  (es : list expr) (op : cmpop) (e : expr) (cls : binop_class)
  (f n : nat) (self self' : t) (g g' : State) (v : Value) :
  length ops = length es →
  comparison_map op = Some cls →
  Inv f n self g →
  checked_visit_expr (Compare l a (ops ++ [op]) (es ++ [e])) self g
    = (g', Ok (v, self')) →
  checked_visit_expr (Compare l a (ops ++ [op]) (es ++ [e])) self g =
    (left_ ← checked_visit_expr (Compare l' a ops es);
     right_ ← checked_visit_expr e;
     apply_binop left_ cls right_) self g ∧
  ∃ left_ s1 g1 right_ s2 g2 exc,
    checked_visit_expr (Compare l' a ops es) self g = (g1, Ok (left_, s1)) ∧
    checked_visit_expr e s1 g1 = (g2, Ok (right_, s2)) ∧
    ops_of g' (block s2) =
      ops_of g2 (block s2) ++ [BinaryOp cls left_ right_ (block self') exc] ∧
    v = BlockArg (block self') 0 ∧
    (ops ≠ [] →
       left_ = BlockArg (block s1) 0 ∧
       ∃ b op0 cls0 l0 r0 exc0,
         last ops = Some op0 ∧ comparison_map op0 = Some cls0 ∧
         last (ops_of g1 b) = Some (BinaryOp cls0 l0 r0 (block s1) exc0)).
Proof.
  intros Hlen Hcls HI E. split; [by apply compare_chain_snoc|].
  destruct (compare_chain_last l l' a ops es op e cls f n self self' g g' v
              Hlen Hcls HI E)
    as (left_ & s1 & g1 & right_ & s2 & g2 & exc & E1 & E2 & Hops & Hv).
  exists left_, s1, g1, right_, s2, g2, exc. split_and!; [done..|].
  intros Hne.
  destruct (exists_last Hne) as (ops0 & op0 & ->).
  destruct es as [|e1 es' _] using rev_ind.
  { rewrite length_app in Hlen. simpl in Hlen. lia. }
  rewrite !length_app in Hlen. simpl in Hlen.
  assert (∃ cls0, comparison_map op0 = Some cls0) as [cls0 Hcls0]
    by (destruct op0; eauto).
  destruct (compare_chain_last l' l' a ops0 es' op0 e1 cls0 f n self s1 g g1 left_
              ltac:(lia) Hcls0 HI E1)
    as (l0 & s0 & g0 & r0 & s0' & g0' & exc0 & _ & _ & Hops0 & Hv0).
  split; [done|].
  exists (block s0'), op0, cls0, l0, r0, exc0.
  split_and!; [by rewrite last_snoc|done|by rewrite Hops0, last_snoc].
Qed.

Lemma abc_ready : Inv 0 1 Examples2.abc_self Examples2.abc_state.
Proof.
  apply child_ready_Inv. unfold Examples2.abc_state.
  eapply (child_ready_quiet 0); [by apply quiet_build|].
  eapply (child_ready_quiet 0); [apply quiet_alloc|]. apply script_main_ready.
Qed.

Lemma C2_chain_is_left_fold_witness :
  ∃ g' v self',
    checked_visit_expr Examples2.a_lt_b_lt_c Examples2.abc_self Examples2.abc_state
      = (g', Ok (v, self')) ∧
    checked_visit_expr Examples2.a_lt_b_lt_c Examples2.abc_self Examples2.abc_state =
      (left_ ← checked_visit_expr
                 (Compare (Loc 4 0) (Name (Loc 4 0) "a") [Lt] [Name (Loc 4 4) "b"]);
       right_ ← checked_visit_expr (Name (Loc 4 8) "c");
       apply_binop left_ LtOp right_) Examples2.abc_self Examples2.abc_state ∧
    ∃ left_ s1 g1 right_ s2 g2 exc,
      checked_visit_expr
        (Compare (Loc 4 0) (Name (Loc 4 0) "a") [Lt] [Name (Loc 4 4) "b"])
        Examples2.abc_self Examples2.abc_state = (g1, Ok (left_, s1)) ∧
      checked_visit_expr (Name (Loc 4 8) "c") s1 g1 = (g2, Ok (right_, s2)) ∧
      ops_of g' (block s2) =
        ops_of g2 (block s2) ++ [BinaryOp LtOp left_ right_ (block self') exc] ∧
      v = BlockArg (block self') 0 ∧
      ([Lt] ≠ [] →
         left_ = BlockArg (block s1) 0 ∧
         ∃ b op0 cls0 l0 r0 exc0,
           last [Lt] = Some op0 ∧ comparison_map op0 = Some cls0 ∧
           last (ops_of g1 b) = Some (BinaryOp cls0 l0 r0 (block s1) exc0)).
Proof.
  assert (E : ∃ g' v self',
             checked_visit_expr Examples2.a_lt_b_lt_c Examples2.abc_self
               Examples2.abc_state = (g', Ok (v, self')))
    by (eexists _, _, _; vm_compute; reflexivity).
  destruct E as (g' & v & self' & E). exists g', v, self'. split; [exact E|].
  exact (C2_chain_is_left_fold (Loc 4 0) (Loc 4 0) (Name (Loc 4 0) "a") [Lt]
           [Name (Loc 4 4) "b"] Lt (Name (Loc 4 8) "c") LtOp 0 1
           Examples2.abc_self self' Examples2.abc_state g' v
           eq_refl eq_refl abc_ready E).
Defined.

End ComparisonOps.

(** ** Scope analyser: the shape of the scopes it produces *)

Section KeepsFacts.
Import VariableCapture Scopes.

Variables (P : t → Prop) (Q : scope_map → Prop).
Hypothesis P_init : P init.
Hypothesis P_ref : ∀ a c, P c → P (add_reference a c).
Hypothesis P_var : ∀ n c, P c → P (addVar n c).
Hypothesis Q_close : ∀ i c m, P c → Q m → Q (<[i := mkScope c]> m).

Lemma keeps_refs l c : P c → P (foldl (λ s v, add_reference v s) c l).
Proof. revert c. induction l; simpl; auto. Qed.

Lemma keeps_vars {A} (h : A → string) l c :
  P c → P (foldl (λ s x, addVar (h x) s) c l).
Proof. revert c. induction l; simpl; auto. Qed.

Lemma keeps_close_scope i inner : P inner → keeps P Q (close_scope i inner).
Proof.
  intros Hin c m c' m' Hc Hm E. unfold close_scope in E. inversion E; subst.
  split; [by apply keeps_refs|by apply Q_close].
Qed.

Lemma keeps_each_r {A} (f : A → t → res t) l :
  list_all A (λ x, ∀ c c', P c → f x c = Ok c' → P c') l →
  ∀ c c', P c → each_r f l c = Ok c' → P c'.
Proof.
  intros X. induction X as [|x Hx l X IH]; intros c c' Hc E; simpl in E.
  - by inversion E; subst.
  - destruct (f x c) as [c1|] eqn:E1; [|done]. eauto.
Qed.

Lemma keeps_addLhs tgt : ∀ c c', P c → addLhs tgt c = Ok c' → P c'.
Proof.
  induction tgt using expr_ind; intros c c' Hc E; simpl in E; try done.
  - inversion E; subst. by apply P_var.
  - eapply keeps_each_r; eauto.
Qed.

Lemma keeps_ret (h : t → t) : (∀ c, P c → P (h c)) → keeps P Q (λ c, ret (h c)).
Proof. intros H c m c' m' Hc Hm [-> ->]%ret_Ok. auto. Qed.

Lemma keeps_bind (f h : t → St t) :
  keeps P Q f → keeps P Q h → keeps P Q (λ c, c1 ← f c; h c1).
Proof.
  intros Hf Hh c m c' m' Hc Hm (c1 & m1 & E1 & E2)%bind_Ok.
  destruct (Hf _ _ _ _ Hc Hm E1). eauto.
Qed.

Lemma keeps_lift (f : t → res t) :
  (∀ c c', P c → f c = Ok c' → P c') → keeps P Q (λ c, lift (f c)).
Proof. intros H c m c' m' Hc Hm [E ->]%lift_Ok. eauto. Qed.

Lemma keeps_each {A} (f : A → t → St t) l :
  list_all A (λ x, keeps P Q (f x)) l → keeps P Q (each f l).
Proof.
  intros X. induction X as [|x Hx l X IH]; intros c m c' m' Hc Hm E; simpl in E.
  - apply ret_Ok in E as [-> ->]. done.
  - apply bind_Ok in E as (c1 & m1 & E1 & E2).
    destruct (Hx _ _ _ _ Hc Hm E1). eauto.
Qed.

Lemma keeps_opt {A} (f : A → t → St t) o :
  option_all A (λ x, keeps P Q (f x)) o → keeps P Q (opt f o).
Proof.
  intros X. destruct X; simpl; [done|].
  intros c m c' m' Hc Hm [-> ->]%ret_Ok. done.
Qed.

Lemma keeps_addArgs a c m c' m' :
  P c → addArgs a c m = Ok (c', m') → P c' ∧ m' = m.
Proof.
  intros Hc E. unfold addArgs in E.
  repeat (apply bind_Ok in E as (? & ? & [_ ->]%assert_Ok & E)).
  apply ret_Ok in E as [-> ->]. split; [|done].
  by apply (keeps_vars (λ x, x)).
Qed.

Lemma keeps_pop_captures ids captures :
  Forall P captures → keeps P Q (pop_captures ids captures).
Proof.
  revert captures. induction ids as [|i ids IH]; intros captures Hcs c m c' m' Hc Hm E.
  - destruct captures; simpl in E; apply ret_Ok in E as [-> ->]; done.
  - destruct captures as [|outer captures]; simpl in E.
    { apply ret_Ok in E as [-> ->]; done. }
    inversion Hcs; subst.
    apply bind_Ok in E as (o1 & m1 & E1 & E2).
    destruct (keeps_close_scope i c Hc outer m o1 m1) as [Ho1 Hm1]; auto.
    exact (IH captures ltac:(assumption) o1 m1 c' m' Ho1 Hm1 E2).
Qed.

Lemma keeps_comp_loop (visit : expr → t → St t) gen :
  list_all comprehension (comprehension__all expr (λ e, keeps P Q (visit e))) gen →
  ∀ c captures m c' captures' m',
    P c → Forall P captures → Q m →
    comp_loop visit gen c captures m = Ok ((c', captures'), m') →
    P c' ∧ Forall P captures' ∧ Q m'.
Proof.
  intros X. induction X as [|g Hg gen X IH]; intros c captures m c' captures' m' Hc Hcs Hm E;
    simpl in E.
  - apply ret_Ok in E as [[= -> ->] ->]. done.
  - apply bind_Ok in E as (? & ? & [_ ->]%assert_Ok & E).
    apply bind_Ok in E as (? & ? & [_ ->]%assert_Ok & E).
    apply bind_Ok in E as (c1 & m1 & E1 & E).
    apply bind_Ok in E as (inner & m2 & [E2 ->]%lift_Ok & E).
    destruct Hg as [cid tg Htg it Hit fs Hfs asy]. simpl in *.
    destruct (Hit _ _ _ _ Hc Hm E1) as [Hc1 Hm1].
    eapply IH; [ | | exact Hm1 | exact E ].
    + eapply keeps_addLhs; [apply P_init|exact E2].
    + by constructor.
Qed.

Lemma keeps_visit_expr e : keeps P Q (checked_visit_expr e).
Proof.
  induction e using expr_ind; simpl.
  - (* Constant *) by apply (keeps_ret (λ c, c)).
  - (* Name *) apply (keeps_ret (add_reference _)). apply P_ref.
  - (* Attribute *)
    intros c m c' m' Hc Hm (c1 & m1 & E1 & E2)%bind_Ok.
    destruct ctx; try done. apply ret_Ok in E2 as [-> ->]. eauto.
  - (* Subscript *) by apply keeps_bind.
  - (* Slice *)
    apply (keeps_bind (opt checked_visit_expr _)); [by apply keeps_opt|].
    apply (keeps_bind (opt checked_visit_expr _)); by apply keeps_opt.
  - (* Tuple *) by apply keeps_each.
  - (* List *) by apply keeps_each.
  - (* UnaryOp *) done.
  - (* BinOp *) by apply keeps_bind.
  - (* Compare *) apply keeps_bind; [done|by apply keeps_each].
  - (* Call *)
    apply keeps_bind; [done|].
    apply (keeps_bind (each checked_visit_expr _)); [by apply keeps_each|].
    apply keeps_each.
    by apply (keywords_all (λ e, keeps P Q (checked_visit_expr e))).
  - (* FormattedValue *)
    intros c m c' m' Hc Hm (c1 & m1 & E1 & E2)%bind_Ok.
    destruct (IHe _ _ _ _ Hc Hm E1).
    case_bool_decide; [done|]. eapply keeps_opt; eauto.
  - (* JoinedStr *) by apply keeps_each.
  - (* Lambda *)
    intros c m c' m' Hc Hm (c1 & m1 & E1 & E2)%bind_Ok.
    apply bind_Ok in E2 as (c2 & m2 & E2 & E3).
    apply keeps_addArgs in E1 as [Hc1 ->]; [|apply P_init].
    destruct (IHe _ _ _ _ Hc1 Hm E2) as [Hc2 Hm2].
    exact (keeps_close_scope node_id c2 Hc2 c m2 c' m' Hc Hm2 E3).
  - (* ListComp *)
    intros c m c' m' Hc Hm ([c1 caps] & m1 & E1 & E2)%bind_Ok.
    apply bind_Ok in E2 as (c2 & m2 & E2 & E3).
    eapply keeps_comp_loop in E1 as (Hc1 & Hcaps & Hm1); eauto.
    destruct (IHe _ _ _ _ Hc1 Hm1 E2) as [Hc2 Hm2].
    exact (keeps_pop_captures _ caps Hcaps c2 m2 c' m' Hc2 Hm2 E3).
  - (* GeneratorExp *) by apply (keeps_ret (λ c, c)).
  - (* OtherExpr *) intros c m c' m' _ _ E. done.
Qed.

Lemma keeps_addAssignLhs tgt : keeps P Q (addAssignLhs tgt).
Proof.
  destruct tgt; simpl;
    try (apply keeps_lift; intros c c'; apply keeps_addLhs).
  apply keeps_bind; apply keeps_visit_expr.
Qed.

Lemma keeps_visit_stmt s : keeps P Q (checked_visit_stmt s).
Proof.
  induction s using stmt_ind; simpl.
  - (* Assign *)
    apply keeps_bind; [apply keeps_visit_expr|].
    apply keeps_each. induction targets; constructor; auto using keeps_addAssignLhs.
  - (* AugAssign *)
    apply keeps_bind; [apply keeps_addAssignLhs|apply keeps_visit_expr].
  - (* Expr *) apply keeps_visit_expr.
  - (* For *)
    apply (keeps_bind (λ c, lift (addLhs _ c)));
      [apply keeps_lift; intros c c'; apply keeps_addLhs|].
    apply keeps_bind; [apply keeps_visit_expr|].
    apply (keeps_bind (each checked_visit_stmt _)); by apply keeps_each.
  - (* FunctionDef *)
    intros c m c' m' Hc Hm (c1 & m1 & E1 & E2)%bind_Ok.
    apply bind_Ok in E2 as (c2 & m2 & E2 & E3).
    apply keeps_addArgs in E1 as [Hc1 ->]; [|apply P_init].
    destruct (keeps_each checked_visit_stmt body ltac:(assumption) _ _ _ _ Hc1 Hm E2)
      as [Hc2 Hm2].
    exact (keeps_close_scope node_id c2 Hc2 _ m2 c' m' (P_var fname c Hc) Hm2 E3).
  - (* If *)
    apply keeps_bind; [apply keeps_visit_expr|].
    apply (keeps_bind (λ c, if nonempty body then _ else _)).
    + destruct (nonempty body); [by apply keeps_each|by apply (keeps_ret (λ c, c))].
    + destruct (nonempty orelse); [by apply keeps_each|by apply (keeps_ret (λ c, c))].
  - (* Import *)
    apply (keeps_ret (λ c, foldl _ c names)). intros c Hc. by apply keeps_vars.
  - (* Return *)
    apply keeps_opt. destruct value; constructor. apply keeps_visit_expr.
  - (* With *)
    apply (keeps_bind (each _ items)); [|by apply keeps_each].
    apply keeps_each. induction items; constructor; auto using keeps_visit_expr.
  - (* While *)
    apply keeps_bind; [apply keeps_visit_expr|].
    apply (keeps_bind (each checked_visit_stmt _)); by apply keeps_each.
  - (* OtherStmt *) intros c m c' m' _ _ E. done.
Qed.

Lemma keeps_visit_stmts stmts : keeps P Q (visit_stmts stmts).
Proof.
  apply keeps_each. induction stmts; constructor; auto using keeps_visit_stmt.
Qed.

End KeepsFacts.

Section ScopeFacts.
Import VariableCapture Scopes.

Lemma dict_pop_keys {V} n (d : list (string * V)) :
  (dict_pop n d).*1 = filter (λ k, k ≠ n) d.*1.
Proof.
  unfold dict_pop. induction d as [|[k v] d IH]; [done|].
  rewrite filter_cons. simpl. rewrite filter_cons.
  repeat case_decide; try (simpl in *; done).
  rewrite fmap_cons. simpl. f_equal. exact IH.
Qed.

Lemma set_add_NoDup n l : NoDup l → NoDup (set_add n l).
Proof.
  intros H. unfold set_add. case_bool_decide; [done|].
  apply NoDup_app. split_and!; [done| |apply NoDup_singleton].
  intros x Hx ->%list_elem_of_singleton. done.
Qed.

Lemma set_add_elem n l x : x ∈ set_add n l ↔ x ∈ l ∨ x = n.
Proof.
  unfold set_add. case_bool_decide.
  - split; [by left|]. by intros [?| ->].
  - rewrite elem_of_app, list_elem_of_singleton. done.
Qed.

Lemma tidy_init : tidy init.
Proof.
  split_and!; simpl; [apply NoDup_nil_2..|]. intros k a H. by apply elem_of_nil in H.
Qed.

Lemma tidy_add_reference a c : tidy c → tidy (add_reference a c).
Proof.
  intros (Hv & Hr & Hk). unfold add_reference, has_key.
  case_bool_decide as Hb; simpl; [|done].
  case_bool_decide as Hl; simpl; [done|].
  case_bool_decide as Hin; simpl; [done|].
  split_and!; simpl; [done| |].
  - rewrite fmap_app. apply NoDup_app. split_and!; [done| |apply NoDup_singleton].
    intros x Hx ->%list_elem_of_singleton. done.
  - intros k b [H|H]%elem_of_app; [by apply Hk|].
    apply list_elem_of_singleton in H. by inversion H; subst.
Qed.

Lemma tidy_addVar n c : tidy c → tidy (addVar n c).
Proof.
  intros (Hv & Hr & Hk). unfold addVar. split_and!; simpl.
  - by apply set_add_NoDup.
  - rewrite dict_pop_keys. by apply NoDup_filter.
  - intros k a [_ H]%list_elem_of_filter. by apply Hk.
Qed.

Lemma keys_are_ids (d : list (string * ast_Name)) :
  (∀ k a, (k, a) ∈ d → k = nm_id a) → nm_id <$> d.*2 = d.*1.
Proof.
  induction d as [|[k a] d IH]; intros H; [done|]. simpl. f_equal.
  - symmetry. apply H. left.
  - apply IH. intros k' a' Hin. apply H. by right.
Qed.

Lemma tidy_mkScope c : tidy c → tidy_scope (mkScope c).
Proof.
  intros (Hv & Hr & Hk). unfold mkScope, VariableScope.init, tidy_scope. simpl.
  split_and!; [done| |].
  - rewrite keys_are_ids; [done|]. intros k a H. by apply Hk.
  - intros a [[k a'] [-> Hin]]%list_elem_of_fmap. simpl.
    destruct (Hk _ _ Hin) as [-> Hb]. done.
Qed.

Lemma tidy_close i c (m : scope_map) :
  tidy c → (∀ j s, m !! j = Some s → tidy_scope s) →
  ∀ j s, <[i := mkScope c]> m !! j = Some s → tidy_scope s.
Proof.
  intros Hc Hm j s. rewrite lookup_insert. case_decide.
  - intros [= <-]. by apply tidy_mkScope.
  - apply Hm.
Qed.

(** X1: in every scope the analyser produces for a module body, a local is
    listed once, a free name is listed once, and no free name is a builtin. *)
Theorem analysis_scopes_tidy (stmts : list stmt) (c : t) (m : scope_map) :
  visit_stmts stmts init ∅ = Ok (c, m) →
  tidy_scope (mkScope c) ∧ ∀ i s, m !! i = Some s → tidy_scope s.
Proof.
  intros E.
  destruct (keeps_visit_stmts tidy (λ m, ∀ i s, m !! i = Some s → tidy_scope s)
              tidy_init tidy_add_reference tidy_addVar tidy_close
              stmts init ∅ c m tidy_init) as [Hc Hm]; [|done|].
  - intros i s. by rewrite lookup_empty.
  - split; [by apply tidy_mkScope|exact Hm].
Qed.

Lemma analysis_scopes_tidy_witness :
  ∃ c m, visit_stmts Examples.closure init ∅ = Ok (c, m) ∧
         tidy_scope (mkScope c) ∧ ∀ i s, m !! i = Some s → tidy_scope s.
Proof.
  eexists _, _. split; [vm_compute; reflexivity|].
  apply (analysis_scopes_tidy Examples.closure). vm_compute. reflexivity.
Defined.

End ScopeFacts.

(** ** Scope analyser: how a visit changes the analyser it runs on *)

Section MovesFacts.
Import VariableCapture Scopes.

Variable Rl : t → t → Prop.
Hypothesis Rl_refl : ∀ c, Rl c c.
Hypothesis Rl_trans : ∀ c1 c2 c3, Rl c1 c2 → Rl c2 c3 → Rl c1 c3.
Hypothesis Rl_ref : ∀ a c, Rl c (add_reference a c).
Hypothesis Rl_var : ∀ n c, Rl c (addVar n c).

Lemma moves_refs l c : Rl c (foldl (λ s v, add_reference v s) c l).
Proof. revert c. induction l as [|a l IH]; intros c; simpl; eauto. Qed.

Lemma moves_vars {A} (h : A → string) l c :
  Rl c (foldl (λ s x, addVar (h x) s) c l).
Proof. revert c. induction l as [|a l IH]; intros c; simpl; eauto. Qed.

Lemma moves_close_scope i inner : moves Rl (close_scope i inner).
Proof. intros c m c' m' E. inversion E; subst. apply moves_refs. Qed.

Lemma moves_ret (h : t → t) : (∀ c, Rl c (h c)) → moves Rl (λ c, ret (h c)).
Proof. intros H c m c' m' [-> ->]%ret_Ok. auto. Qed.

Lemma moves_bind (f h : t → St t) :
  moves Rl f → moves Rl h → moves Rl (λ c, c1 ← f c; h c1).
Proof. intros Hf Hh c m c' m' (c1 & m1 & E1 & E2)%bind_Ok. eauto. Qed.

Lemma moves_each {A} (f : A → t → St t) l :
  list_all A (λ x, moves Rl (f x)) l → moves Rl (each f l).
Proof.
  intros X. induction X as [|x Hx l X IH]; intros c m c' m' E; simpl in E.
  - apply ret_Ok in E as [-> ->]. done.
  - apply bind_Ok in E as (c1 & m1 & E1 & E2). eauto.
Qed.

Lemma moves_opt {A} (f : A → t → St t) o :
  option_all A (λ x, moves Rl (f x)) o → moves Rl (opt f o).
Proof.
  intros X. destruct X; simpl; [done|].
  intros c m c' m' [-> ->]%ret_Ok. done.
Qed.

Lemma moves_each_r {A} (f : A → t → res t) l :
  list_all A (λ x, ∀ c c', f x c = Ok c' → Rl c c') l →
  ∀ c c', each_r f l c = Ok c' → Rl c c'.
Proof.
  intros X. induction X as [|x Hx l X IH]; intros c c' E; simpl in E.
  - by inversion E; subst.
  - destruct (f x c) as [c1|] eqn:E1; [|done]. eauto.
Qed.

Lemma moves_addLhs tgt : ∀ c c', addLhs tgt c = Ok c' → Rl c c'.
Proof.
  induction tgt using expr_ind; intros c c' E; simpl in E; try done.
  - inversion E; subst. apply Rl_var.
  - eapply moves_each_r; eauto.
Qed.

Lemma bottom_cons c x captures : bottom c (x :: captures) = bottom x captures.
Proof.
  unfold bottom. destruct captures as [|y l]; [done|].
  rewrite last_cons_cons. destruct (last (y :: l)) eqn:E; [done|].
  rewrite last_cons in E. by destruct (last l).
Qed.

Lemma bottom_top c c' captures :
  Rl c c' → Rl (bottom c captures) (bottom c' captures).
Proof.
  intros H. unfold bottom. destruct (last captures); simpl; [apply Rl_refl|done].
Qed.

Lemma moves_comp_loop (visit : expr → t → St t) gen :
  list_all comprehension (comprehension__all expr (λ e, moves Rl (visit e))) gen →
  ∀ c captures m c' captures' m',
    comp_loop visit gen c captures m = Ok ((c', captures'), m') →
    length captures' = length captures + length gen ∧
    Rl (bottom c captures) (bottom c' captures').
Proof.
  intros X. induction X as [|g Hg gen X IH]; intros c captures m c' captures' m' E;
    simpl in E.
  - apply ret_Ok in E as [[= -> ->] ->]. simpl. split; [lia|apply Rl_refl].
  - apply bind_Ok in E as (? & ? & [_ ->]%assert_Ok & E).
    apply bind_Ok in E as (? & ? & [_ ->]%assert_Ok & E).
    apply bind_Ok in E as (c1 & m1 & E1 & E).
    apply bind_Ok in E as (inner & m2 & [E2 ->]%lift_Ok & E).
    destruct Hg as [cid tg Htg it Hit fs Hfs asy]. simpl in *.
    destruct (IH _ _ _ _ _ _ E) as [Hlen Hb]. split; [simpl in Hlen; lia|].
    rewrite bottom_cons in Hb.
    eapply Rl_trans; [|exact Hb]. apply bottom_top. eauto.
Qed.

Lemma moves_pop_captures ids : ∀ captures c m c' m',
  length ids = length captures →
  pop_captures ids captures c m = Ok (c', m') → Rl (bottom c captures) c'.
Proof.
  induction ids as [|i ids IH]; intros [|outer captures] c m c' m' Hlen E;
    simpl in Hlen; try done.
  - apply ret_Ok in E as [-> ->]. apply Rl_refl.
  - simpl in E. apply bind_Ok in E as (o1 & m1 & E1 & E2).
    rewrite bottom_cons. eapply Rl_trans; [|eapply IH; [|exact E2]; lia].
    apply bottom_top. eapply moves_close_scope. exact E1.
Qed.

Lemma moves_visit_expr e : moves Rl (checked_visit_expr e).
Proof.
  induction e using expr_ind; simpl.
  - (* Constant *) by apply (moves_ret (λ c, c)).
  - (* Name *) apply (moves_ret (add_reference _)). apply Rl_ref.
  - (* Attribute *)
    intros c m c' m' (c1 & m1 & E1 & E2)%bind_Ok.
    destruct ctx; try done. apply ret_Ok in E2 as [-> ->]. eauto.
  - (* Subscript *) by apply moves_bind.
  - (* Slice *)
    apply (moves_bind (opt checked_visit_expr _)); [by apply moves_opt|].
    apply (moves_bind (opt checked_visit_expr _)); by apply moves_opt.
  - (* Tuple *) by apply moves_each.
  - (* List *) by apply moves_each.
  - (* UnaryOp *) done.
  - (* BinOp *) by apply moves_bind.
  - (* Compare *) apply moves_bind; [done|by apply moves_each].
  - (* Call *)
    apply moves_bind; [done|].
    apply (moves_bind (each checked_visit_expr _)); [by apply moves_each|].
    apply moves_each.
    by apply (keywords_all (λ e, moves Rl (checked_visit_expr e))).
  - (* FormattedValue *)
    intros c m c' m' (c1 & m1 & E1 & E2)%bind_Ok.
    case_bool_decide; [done|]. eapply Rl_trans; [by eapply IHe|].
    eapply moves_opt; eauto.
  - (* JoinedStr *) by apply moves_each.
  - (* Lambda *)
    intros c m c' m' (c1 & m1 & E1 & E2)%bind_Ok.
    apply bind_Ok in E2 as (c2 & m2 & E2 & E3).
    eapply moves_close_scope. exact E3.
  - (* ListComp *)
    intros c m c' m' ([c1 caps] & m1 & E1 & E2)%bind_Ok.
    apply bind_Ok in E2 as (c2 & m2 & E2 & E3).
    eapply moves_comp_loop in E1 as [Hlen Hb]; [|done].
    eapply Rl_trans; [exact Hb|].
    eapply Rl_trans; [apply bottom_top; by eapply IHe|].
    eapply moves_pop_captures; [|exact E3].
    rewrite length_rev, length_map. simpl in Hlen. lia.
  - (* GeneratorExp *) by apply (moves_ret (λ c, c)).
  - (* OtherExpr *) intros c m c' m' E. done.
Qed.

Lemma moves_addAssignLhs tgt : moves Rl (addAssignLhs tgt).
Proof.
  destruct tgt; simpl;
    try (intros c m c' m' [E ->]%lift_Ok; by eapply moves_addLhs).
  apply moves_bind; apply moves_visit_expr.
Qed.

Lemma moves_visit_stmt s : moves Rl (checked_visit_stmt s).
Proof.
  induction s using stmt_ind; simpl.
  - (* Assign *)
    apply moves_bind; [apply moves_visit_expr|].
    apply moves_each. induction targets; constructor; auto using moves_addAssignLhs.
  - (* AugAssign *)
    apply moves_bind; [apply moves_addAssignLhs|apply moves_visit_expr].
  - (* Expr *) apply moves_visit_expr.
  - (* For *)
    apply (moves_bind (λ c, lift (addLhs _ c))).
    { intros c m c' m' [E ->]%lift_Ok. by eapply moves_addLhs. }
    apply moves_bind; [apply moves_visit_expr|].
    apply (moves_bind (each checked_visit_stmt _)); by apply moves_each.
  - (* FunctionDef *)
    intros c m c' m' (c1 & m1 & E1 & E2)%bind_Ok.
    apply bind_Ok in E2 as (c2 & m2 & E2 & E3).
    eapply Rl_trans; [apply (Rl_var fname)|]. eapply moves_close_scope. exact E3.
  - (* If *)
    apply moves_bind; [apply moves_visit_expr|].
    apply (moves_bind (λ c, if nonempty body then _ else _)).
    + destruct (nonempty body); [by apply moves_each|by apply (moves_ret (λ c, c))].
    + destruct (nonempty orelse); [by apply moves_each|by apply (moves_ret (λ c, c))].
  - (* Import *)
    apply (moves_ret (λ c, foldl _ c names)). intros c. apply moves_vars.
  - (* Return *)
    apply moves_opt. destruct value; constructor. apply moves_visit_expr.
  - (* With *)
    apply (moves_bind (each _ items)); [|by apply moves_each].
    apply moves_each. induction items; constructor; auto using moves_visit_expr.
  - (* While *)
    apply moves_bind; [apply moves_visit_expr|].
    apply (moves_bind (each checked_visit_stmt _)); by apply moves_each.
  - (* OtherStmt *) intros c m c' m' E. done.
Qed.

Lemma moves_visit_stmts stmts : moves Rl (visit_stmts stmts).
Proof.
  apply moves_each. induction stmts; constructor; auto using moves_visit_stmt.
Qed.

End MovesFacts.

Section LocalsFacts.
Import VariableCapture Scopes.

Lemma same_locals_refl c : same_locals c c.
Proof. by split. Qed.

Lemma same_locals_trans c1 c2 c3 :
  same_locals c1 c2 → same_locals c2 c3 → same_locals c1 c3.
Proof. intros [E1 P1] [E2 P2]. split; [congruence|by etrans]. Qed.

Lemma same_locals_add_reference a c : same_locals c (add_reference a c).
Proof.
  unfold add_reference.
  destruct (_ && _); split; simpl; try done. by apply prefix_app_r.
Qed.

(** X2: analysing an expression leaves the locals of the scope as they
    were, whatever lambdas and comprehensions it holds, and only adds free
    references after the ones recorded before. *)
Theorem expr_analysis_same_locals (e : expr) (c c' : t) (m m' : scope_map) :
  checked_visit_expr e c m = Ok (c', m') →
  vars c' = vars c ∧ references c `prefix_of` references c'.
Proof.
  apply (moves_visit_expr same_locals same_locals_refl same_locals_trans
           same_locals_add_reference e c m c' m').
Qed.

Lemma expr_analysis_same_locals_witness :
  ∃ c' m', checked_visit_expr Examples2.lambda_free (Mk ["z"] []) ∅ = Ok (c', m') ∧
           vars c' = ["z"] ∧ [] `prefix_of` references c'.
Proof.
  eexists _, _. split; [vm_compute; reflexivity|].
  eapply (expr_analysis_same_locals Examples2.lambda_free (Mk ["z"] []) _ ∅).
  vm_compute. reflexivity.
Defined.

Lemma locals_prefix_addVar n c : locals_prefix c (addVar n c).
Proof.
  unfold locals_prefix, addVar, set_add. simpl.
  case_bool_decide; [done|by apply prefix_app_r].
Qed.

(** X3: analysing statements only adds locals, and adds them after the
    ones the scope had: a local keeps its place in the order of first
    binding. *)
Theorem stmts_analysis_locals_prefix (stmts : list stmt) (c c' : t) (m m' : scope_map) :
  visit_stmts stmts c m = Ok (c', m') → vars c `prefix_of` vars c'.
Proof.
  apply (moves_visit_stmts locals_prefix).
  - intros c0. unfold locals_prefix. reflexivity.
  - intros c1 c2 c3 H1 H2. unfold locals_prefix in *. by etrans.
  - intros a c0. unfold locals_prefix. by rewrite (proj1 (same_locals_add_reference a c0)).
  - apply locals_prefix_addVar.
Qed.

Lemma stmts_analysis_locals_prefix_witness :
  ∃ c' m', visit_stmts Examples.closure (Mk ["a"] []) ∅ = Ok (c', m') ∧
           vars c' = ["a"; "f"; "y"] ∧ ["a"] `prefix_of` vars c'.
Proof.
  eexists _, _. split; [vm_compute; reflexivity|].
  split; [vm_compute; reflexivity|].
  eapply (stmts_analysis_locals_prefix Examples.closure (Mk ["a"] []) _ ∅).
  vm_compute. reflexivity.
Defined.

End LocalsFacts.

Section TargetFacts.
Import VariableCapture Scopes.

Lemma addVar_vars n c x : x ∈ vars (addVar n c) ↔ x ∈ vars c ∨ x = n.
Proof. apply set_add_elem. Qed.

Lemma addVar_references n c k a :
  (k, a) ∈ references (addVar n c) ↔ (k, a) ∈ references c ∧ k ≠ n.
Proof.
  unfold addVar, dict_pop. simpl. rewrite list_elem_of_filter. simpl. tauto.
Qed.

Lemma each_r_addLhs_binds elts :
  list_all expr
    (λ tgt, ∀ c c', addLhs tgt c = Ok c' →
       (∀ n, n ∈ vars c' ↔ n ∈ vars c ∨ n ∈ target_names tgt) ∧
       (∀ k a, (k, a) ∈ references c' ↔
               (k, a) ∈ references c ∧ k ∉ target_names tgt)) elts →
  ∀ c c', each_r addLhs elts c = Ok c' →
    (∀ n, n ∈ vars c' ↔ n ∈ vars c ∨ n ∈ concat (map target_names elts)) ∧
    (∀ k a, (k, a) ∈ references c' ↔
            (k, a) ∈ references c ∧ k ∉ concat (map target_names elts)).
Proof.
  intros X. induction X as [|x Hx l X IH]; intros c c' E; simpl in E.
  - inversion E; subst. simpl. split.
    + intros n. rewrite elem_of_nil. tauto.
    + intros k a. rewrite elem_of_nil. tauto.
  - destruct (addLhs x c) as [c1|] eqn:E1; [|done].
    destruct (Hx _ _ E1) as [V1 R1]. destruct (IH _ _ E) as [V2 R2].
    simpl. split.
    + intros n. rewrite V2, V1, elem_of_app. tauto.
    + intros k a. rewrite R2, R1, elem_of_app. tauto.
Qed.

(** X4: when [addLhs] accepts a target, the locals it leaves are the ones
    it found plus the names of the target, and the free references it
    leaves are the ones it found less those names. *)
Theorem addLhs_binds (tgt : expr) (c c' : t) :
  addLhs tgt c = Ok c' →
  (∀ n, n ∈ vars c' ↔ n ∈ vars c ∨ n ∈ target_names tgt) ∧
  (∀ k a, (k, a) ∈ references c' ↔ (k, a) ∈ references c ∧ k ∉ target_names tgt).
Proof.
  revert c c'. induction tgt using expr_ind; intros c c' E; simpl in E; try done.
  - inversion E; subst. cbn [target_names]. split.
    + intros n. rewrite addVar_vars, list_elem_of_singleton. done.
    + intros k a. rewrite addVar_references, list_elem_of_singleton. done.
  - by apply each_r_addLhs_binds.
Qed.

Lemma addLhs_binds_witness :
  let tgt := Tuple (Loc 1 0) [Name (Loc 1 0) "a";
                              Tuple (Loc 1 3) [Name (Loc 1 4) "b"; Name (Loc 1 7) "a"]] in
  let c := Mk ["b"] [("a", AstName "a" (Loc 0 0)); ("z", AstName "z" (Loc 0 2))] in
  addLhs tgt c = Ok (Mk ["b"; "a"] [("z", AstName "z" (Loc 0 2))]) ∧
  (∀ n, n ∈ ["b"; "a"] ↔ n ∈ vars c ∨ n ∈ target_names tgt).
Proof.
  split; [vm_compute; reflexivity|].
  refine (proj1 (addLhs_binds
    (Tuple (Loc 1 0) [Name (Loc 1 0) "a";
                      Tuple (Loc 1 3) [Name (Loc 1 4) "b"; Name (Loc 1 7) "a"]])
    (Mk ["b"] [("a", AstName "a" (Loc 0 0)); ("z", AstName "z" (Loc 0 2))])
    (Mk ["b"; "a"] [("z", AstName "z" (Loc 0 2))]) _)).
  vm_compute. reflexivity.
Defined.

Lemma add_reference_filed a c n :
  n ∈ vars c ∨ n ∈ (references c).*1 →
  n ∈ vars (add_reference a c) ∨ n ∈ (references (add_reference a c)).*1.
Proof.
  intros [H|H]; unfold add_reference; destruct (_ && _); simpl; auto.
  right. rewrite fmap_app, elem_of_app. by left.
Qed.

Lemma add_reference_files a c :
  Builtins.builtin_mlir_name (nm_id a) = None →
  nm_id a ∈ vars (add_reference a c) ∨
  nm_id a ∈ (references (add_reference a c)).*1.
Proof.
  intros Hb. unfold add_reference, has_key. rewrite Hb.
  rewrite bool_decide_eq_true_2 by done. simpl.
  case_bool_decide as Hv; simpl; [by left|].
  case_bool_decide as Hr; simpl; [by right|].
  right. rewrite fmap_app, elem_of_app. right. simpl. left.
Qed.

Lemma add_references_file l : ∀ c,
  (∀ a, a ∈ l → Builtins.builtin_mlir_name (nm_id a) = None) →
  let c' := foldl (λ s v, add_reference v s) c l in
  (∀ n, n ∈ vars c ∨ n ∈ (references c).*1 →
        n ∈ vars c' ∨ n ∈ (references c').*1) ∧
  (∀ a, a ∈ l → nm_id a ∈ vars c' ∨ nm_id a ∈ (references c').*1).
Proof.
  induction l as [|a l IH]; intros c Hb; simpl.
  - split; [done|]. intros a Ha. by apply elem_of_nil in Ha.
  - destruct (IH (add_reference a c)) as [Hm Hn].
    { intros b Hin. apply Hb. by right. }
    split.
    + intros n Hin. by apply Hm, add_reference_filed.
    + intros b [->|Hin]%elem_of_cons; [|by apply Hn].
      apply Hm, add_reference_files, Hb. left.
Qed.

(** X5: closing an inner scope files it under the node's identity and
    hands every free name of it to the enclosing scope: the name is then a
    local of the enclosing scope or one of its own free references. The
    locals of the enclosing scope are as they were. *)
Theorem close_scope_propagates (i : nat) (inner c c' : t) (m m' : scope_map) :
  tidy inner →
  close_scope i inner c m = Ok (c', m') →
  m' !! i = Some (mkScope inner) ∧
  vars c' = vars c ∧
  ∀ a, a ∈ VariableScope.parent_vars (mkScope inner) →
       nm_id a ∈ vars c' ∨ nm_id a ∈ (references c').*1.
Proof.
  intros (_ & _ & Hk) E. unfold close_scope in E. inversion E; subst. clear E.
  split; [by rewrite lookup_insert_eq|]. split.
  - apply (moves_refs same_locals same_locals_refl same_locals_trans
             same_locals_add_reference).
  - apply add_references_file.
    intros a [[k a'] [-> Hin]]%list_elem_of_fmap. simpl.
    destruct (Hk _ _ Hin) as [-> Hb]. done.
Qed.

Lemma close_scope_propagates_witness :
  let inner := Mk ["x"] [("y", AstName "y" (Loc 1 21)); ("w", AstName "w" (Loc 1 25))] in
  let c := Mk ["y"] [] in
  tidy inner ∧
  ∃ c' m', close_scope 7 inner c ∅ = Ok (c', m') ∧
           vars c' = ["y"] ∧ (references c').*1 = ["w"] ∧
           m' !! 7 = Some (mkScope inner).
Proof.
  assert (T : tidy (Mk ["x"] [("y", AstName "y" (Loc 1 21));
                              ("w", AstName "w" (Loc 1 25))])).
  { split_and!; simpl.
    - apply NoDup_singleton.
    - apply NoDup_cons. split; [|apply NoDup_singleton].
      intros H%list_elem_of_singleton. discriminate H.
    - intros k a Hin.
      repeat (apply elem_of_cons in Hin as [[= -> ->]|Hin];
              [split; [reflexivity|vm_compute; reflexivity]|]).
      by apply elem_of_nil in Hin. }
  split; [exact T|]. eexists _, _. split; [reflexivity|].
  split; [vm_compute; reflexivity|]. split; [vm_compute; reflexivity|].
  eapply (close_scope_propagates 7 _ (Mk ["y"] []) _ ∅); [exact T|reflexivity].
Defined.

End TargetFacts.

(** ** Generator clauses neither visitor supports *)

Section Unsupported.
Import Scopes Outcome.

Lemma raises_bind_l {A B} (m : Translator.M A) (k : A → Translator.M B) :
  raises m → raises (m ≫= k).
Proof.
  intros H self g. destruct (H self g) as (g' & e & E).
  exists g', e. unfold mbind, Translator.M_bind, Translator.bind. by rewrite E.
Qed.

Lemma raises_bind_r {A B} (m : Translator.M A) (k : A → Translator.M B) :
  (∀ a, raises (k a)) → raises (m ≫= k).
Proof.
  intros H self g. unfold mbind, Translator.M_bind, Translator.bind.
  destruct (m self g) as [g1 [[a s1]|e]]; [apply H|by eexists _, _].
Qed.

Lemma raises_raise {A} e : raises (@Translator.raise A e).
Proof. intros self g. by eexists _, _. Qed.

Lemma unsupported_asserts (g : comprehension) :
  unsupported_generator g →
  negb (is_async g) = false ∨ bool_decide (length (ifs g) = 0) = false.
Proof.
  intros [H|H]; [left; by rewrite H|right].
  apply bool_decide_eq_false_2. by destruct (ifs g).
Qed.

Lemma comp_loop_rejects visit gens :
  Exists unsupported_generator gens →
  ∀ c caps m, ∃ e, VariableCapture.comp_loop visit gens c caps m = Raise e.
Proof.
  induction 1 as [g gens Hg|g gens Hex IH]; intros c caps m; simpl;
    unfold mbind, VariableCapture.St_bind, VariableCapture.bind.
  - destruct (unsupported_asserts g Hg) as [-> | E]; simpl; [by eexists|].
    destruct (negb (is_async g)); simpl; [|by eexists].
    rewrite E. simpl. by eexists.
  - destruct (VariableCapture.assert (negb (is_async g)) m) as [[[] m1]|]; [|by eexists].
    destruct (VariableCapture.assert _ m1) as [[[] m2]|]; [|by eexists].
    destruct (visit (iter g) c m2) as [[c1 m3]|]; [|by eexists].
    destruct (VariableCapture.lift _ m3) as [[inner m4]|]; [|by eexists].
    apply IH.
Qed.

Lemma generators_loop_rejects visit assign throw gens :
  Exists unsupported_generator gens →
  ∀ done l, raises (Translator.generators_loop visit assign throw gens done l).
Proof.
  induction 1 as [g gens Hg|g gens Hex IH]; intros done l; simpl.
  - destruct (unsupported_asserts g Hg) as [-> | E].
    + apply raises_bind_l, raises_raise.
    + apply raises_bind_r. intros _. rewrite E. apply raises_bind_l, raises_raise.
  - do 7 (apply raises_bind_r; intros ?).
    apply raises_bind_r. intros [[nb bb] bv].
    do 3 (apply raises_bind_r; intros ?).
    apply raises_bind_r. intros [[cm ns] cs].
    do 5 (apply raises_bind_r; intros ?). apply IH.
Qed.

(** X6: a list comprehension with an [async] generator or with an [if]
    filter in any of its generators is rejected by the analyser and by the
    translator: both raise, whatever state they are in. *)
Theorem unsupported_generator_rejected (l : loc) (elt : expr)
    (gens : list comprehension) :
  Exists unsupported_generator gens →
  (∀ c m, ∃ e, VariableCapture.checked_visit_expr (ListComp l elt gens) c m = Raise e) ∧
  (∀ self g, ∃ g' e,
     Translator.checked_visit_expr (ListComp l elt gens) self g = (g', Raise e)).
Proof.
  intros Hex. split.
  - intros c m. simpl. unfold mbind, VariableCapture.St_bind, VariableCapture.bind.
    destruct (comp_loop_rejects VariableCapture.checked_visit_expr gens Hex c [] m)
      as [e ->]. by eexists.
  - change (raises (Translator.checked_visit_expr (ListComp l elt gens))).
    simpl. do 6 (apply raises_bind_r; intros ?).
    apply raises_bind_l. by apply generators_loop_rejects.
Qed.

Lemma unsupported_generator_rejected_witness :
  Exists unsupported_generator
    [Comprehension 5 (Name (Loc 1 7) "x") (Name (Loc 1 12) "xs")
       [Name (Loc 1 18) "x"] false] ∧
  VariableCapture.checked_visit_expr Examples2.listcomp_filtered
    VariableCapture.init ∅ = Raise AssertionError ∧
  ∃ e, VariableCapture.checked_visit_expr Examples2.listcomp_filtered
         VariableCapture.init ∅ = Raise e.
Proof.
  assert (H : Exists unsupported_generator
    [Comprehension 5 (Name (Loc 1 7) "x") (Name (Loc 1 12) "xs")
       [Name (Loc 1 18) "x"] false]).
  { apply Exists_cons_hd. right. simpl. discriminate. }
  split; [exact H|]. split; [vm_compute; reflexivity|].
  apply (unsupported_generator_rejected (Loc 1 0) (Name (Loc 1 1) "x") _ H).
Defined.

End Unsupported.

(** ** Cells for the locals of a scope *)

Section CellFacts.
Import IR.

Lemma build_ops_eq b mk g :
  b < length (blocks g) →
  ops_of (build b mk g).2 b = ops_of g b ++ [mk (OpResult (next_result g))].
Proof. intros Hb. rewrite build_snd. by rewrite append_op_ops_eq. Qed.

Lemma build_ops_ne b mk g b' :
  b' ≠ b → ops_of (build b mk g).2 b' = ops_of g b'.
Proof. intros Hb. rewrite build_snd. by rewrite append_op_ops_ne. Qed.

Lemma build_length b mk g : length (blocks (build b mk g).2) = length (blocks g).
Proof. rewrite build_snd. by rewrite append_op_length. Qed.

Lemma build_next_result b mk g : next_result (build b mk g).2 = S (next_result g).
Proof. done. Qed.

(** X7: [alloc_variable_cells] builds one [CellAlloc] per name, in the order
    of the names, at the end of the block it is given; the cells are the
    results of these ops, each name is appended to [names] and mapped to
    its cell, the other entries of the map and the other blocks are as they
    were. *)
Theorem alloc_variable_cells_spec (vars : list string) :
  ∀ (map : gmap string Value) (names : list string) (cells : list Value)
    (b : nat) (g : State) map' names' cells' g',
  b < length (blocks g) → NoDup vars →
  alloc_variable_cells map names cells b vars g = ((map', names', cells'), g') →
  names' = names ++ vars ∧
  cells' = cells ++ (OpResult <$> seq (next_result g) (length vars)) ∧
  ops_of g' b =
    ops_of g b ++ (CellAlloc <$> (OpResult <$> seq (next_result g) (length vars))) ∧
  (∀ b', b' ≠ b → ops_of g' b' = ops_of g b') ∧
  length (blocks g') = length (blocks g) ∧
  next_result g' = next_result g + length vars ∧
  (∀ i v, vars !! i = Some v → map' !! v = Some (OpResult (next_result g + i))) ∧
  (∀ k, k ∉ vars → map' !! k = map !! k).
Proof.
  induction vars as [|var rest IH]; intros map names cells b g map' names' cells' g' Hb Hnd E.
  - simpl in E. inversion E; subst. simpl. rewrite !app_nil_r.
    split_and!; first [done|lia].
  - change (alloc_variable_cells map names cells b (var :: rest) g)
      with (alloc_variable_cells (<[var := OpResult (next_result g)]> map)
              (names ++ [var]) (cells ++ [OpResult (next_result g)]) b rest
              (build b CellAlloc g).2) in E.
    apply NoDup_cons in Hnd as [Hvar Hnd].
    apply IH in E as (En & Ec & Eo & Eo' & El & Er & Ei & Ek); [|by rewrite build_length|done].
    rewrite build_next_result in *. rewrite build_ops_eq in Eo by done.
    split_and!.
    + by rewrite En, <- app_assoc.
    + by rewrite Ec, <- app_assoc.
    + by rewrite Eo, <- app_assoc.
    + intros b' Hne. rewrite Eo' by done. by apply build_ops_ne.
    + by rewrite El, build_length.
    + rewrite Er. simpl. lia.
    + intros [|i] v Hi; simpl in Hi.
      * inversion Hi; subst. rewrite Ek by done.
        rewrite lookup_insert_eq. do 2 f_equal. lia.
      * rewrite (Ei i v Hi). do 2 f_equal. lia.
    + intros k Hk. apply not_elem_of_cons in Hk as [Hne Hk].
      rewrite Ek by done. by rewrite lookup_insert_ne.
Qed.

Lemma alloc_variable_cells_spec_witness :
  ∃ map' g',
    alloc_variable_cells ∅ [] [] 0 ["a"; "b"] Examples.listcomp_state
      = ((map', ["a"; "b"], [OpResult 2; OpResult 3]), g') ∧
    ops_of g' 0 = ops_of Examples.listcomp_state 0
                    ++ [CellAlloc (OpResult 2); CellAlloc (OpResult 3)] ∧
    map' !! "b" = Some (OpResult 3).
Proof.
  eexists _, _. split; [vm_compute; reflexivity|].
  edestruct (alloc_variable_cells_spec ["a"; "b"] ∅ [] [] 0 Examples.listcomp_state)
    as (_ & _ & Eo & _ & _ & _ & Ei & _);
    [| |vm_compute; reflexivity|].
  - simpl. lia.
  - apply NoDup_cons. split; [|apply NoDup_singleton].
    intros H%list_elem_of_singleton. discriminate H.
  - split; [exact Eo|]. exact (Ei 1 "b" eq_refl).
Defined.

End CellFacts.

(** ** Leaving [with] statements and statement lists *)

Section Leaving.
Import Translator Outcome.



Lemma visit_Return_false value self g (k k' : bool → M bool) :
  (∀ s1 g1, k false s1 g1 = k' false s1 g1) →
  (visit_Return value ≫= k) self g = (visit_Return value ≫= k') self g.
Proof.
  intros H. unfold visit_Return.
  rewrite !M_bind_assoc. apply M_bind_ext. intros s0 s1 g1.
  rewrite !M_bind_assoc. apply M_bind_ext. intros _ s2 g2.
  rewrite !M_bind_assoc. apply M_bind_ext. intros r s3 g3.
  rewrite !M_bind_assoc. apply M_bind_ext. intros _ s4 g4.
  apply H.
Qed.

(** X9: the statements that follow a [return] in a statement list are not
    lowered: the list is lowered as if it ended with the [return]. *)
Theorem statements_after_return_dropped (pre post : list stmt) (value : option expr)
    (self : t) (g : State) :
  visit_stmts (pre ++ Return value :: post) self g =
  visit_stmts (pre ++ [Return value]) self g.
Proof.
  unfold visit_stmts. revert self g.
  induction pre as [|s pre IH]; intros self g.
  - change (visit_stmts_with checked_visit_stmt ([] ++ Return value :: post))
      with (c ← visit_Return value;
            if (c : bool) then visit_stmts_with checked_visit_stmt post
            else mret false).
    change (visit_stmts_with checked_visit_stmt ([] ++ [Return value]))
      with (c ← visit_Return value;
            if (c : bool) then visit_stmts_with checked_visit_stmt []
            else mret false).
    by apply visit_Return_false.
  - change (visit_stmts_with checked_visit_stmt ((s :: pre) ++ Return value :: post))
      with (c ← checked_visit_stmt s;
            if (c : bool)
            then visit_stmts_with checked_visit_stmt (pre ++ Return value :: post)
            else mret false).
    change (visit_stmts_with checked_visit_stmt ((s :: pre) ++ [Return value]))
      with (c ← checked_visit_stmt s;
            if (c : bool)
            then visit_stmts_with checked_visit_stmt (pre ++ [Return value])
            else mret false).
    apply M_bind_ext. intros [] s1 g1; [apply IH|done].
Qed.

End Leaving.

(** ** Assignment to a tuple of names *)

Section TupleAssign.
Import IR Translator Outcome.

Lemma bind_Ok_eq {A B} (m : M A) (k : A → M B) self g g1 a s1 :
  m self g = (g1, Ok (a, s1)) → (m ≫= k) self g = k a s1 g1.
Proof. intros E. unfold mbind, M_bind, bind. by rewrite E. Qed.

Lemma assign_name l id v c self g :
  _cell_map self !! id = Some c →
  assign_lhs (Name l id) v self g =
  (append_op (block self) (CellStore c v) g, Ok (tt, self)).
Proof.
  intros H. simpl. unfold cell_of, mbind, M_bind, bind, get. by rewrite H.
Qed.

Lemma tuple_targets_names v (ids : list (loc * string)) (cs : list Value) i self g :
  block self < length (blocks g) →
  Forall2 (λ id c, _cell_map self !! id.2 = Some c) ids cs →
  ∃ g',
    tuple_targets assign_lhs (block self) v ((λ id, Name id.1 id.2) <$> ids) i self g
      = (g', Ok (tt, self)) ∧
    ops_of g' (block self) = ops_of g (block self) ++ unpack v (next_result g) i cs ∧
    (∀ b', b' ≠ block self → ops_of g' b' = ops_of g b') ∧
    length (blocks g') = length (blocks g) ∧
    next_result g' = next_result g + length ids.
Proof.
  intros Hb H. revert i g Hb.
  induction H as [|[l id] c ids cs Hc H IH]; intros i g Hb.
  - exists g. simpl. rewrite app_nil_r. split_and!; first [done|lia].
  - simpl in Hc.
    set (sv := OpResult (next_result g)).
    set (g1 := (IR.build (block self) (λ r, TupleGet r v i) g).2).
    set (g2 := append_op (block self) (CellStore c sv) g1).
    assert (Hb2 : block self < length (blocks g2)).
    { unfold g2, g1. by rewrite append_op_length, build_length. }
    destruct (IH (i + 1)%Z g2 Hb2) as (g' & E & Eo & Eo' & El & Er).
    exists g'. split_and!.
    + change (tuple_targets assign_lhs (block self) v
                ((λ id, Name id.1 id.2) <$> (l, id) :: ids) i)
        with (sv ← Translator.build (block self) (λ r, TupleGet r v i);
              _ ← assign_lhs (Name l id) sv;
              tuple_targets assign_lhs (block self) v
                ((λ id, Name id.1 id.2) <$> ids) (i + 1)%Z).
      rewrite (bind_Ok_eq _ _ self g g1 sv self) by done.
      rewrite (bind_Ok_eq _ _ self g1 g2 tt self) by (by apply assign_name).
      exact E.
    + rewrite Eo. unfold g2. rewrite append_op_ops_eq by (unfold g1; by rewrite build_length).
      unfold g1. rewrite build_ops_eq by done. simpl. by rewrite <- !app_assoc.
    + intros b' Hne. rewrite Eo' by done. unfold g2, g1.
      rewrite append_op_ops_ne by done. by apply build_ops_ne.
    + rewrite El. unfold g2, g1. by rewrite append_op_length, build_length.
    + rewrite Er. unfold g2, g1. rewrite append_op_next_result, build_next_result.
      simpl. lia.
Qed.

(** X10: assigning to a tuple of names whose cells are known builds, at the
    end of the current block, a length check of the value and then, for
    each name in order, the read of the element at its index and the store
    of it into the cell of the name; nothing else is touched and the
    translator is as it was. *)
Theorem assign_tuple_of_names (l : loc) (ids : list (loc * string)) (cs : list Value)
    (v : Value) (self : t) (g : State) :
  block self < length (blocks g) →
  Forall2 (λ id c, _cell_map self !! id.2 = Some c) ids cs →
  ∃ g',
    assign_lhs (Tuple l ((λ id, Name id.1 id.2) <$> ids)) v self g
      = (g', Ok (tt, self)) ∧
    ops_of g' (block self) =
      ops_of g (block self)
        ++ TupleCheck v (Z.of_nat (length ids)) :: unpack v (next_result g) 0 cs ∧
    (∀ b', b' ≠ block self → ops_of g' b' = ops_of g b') ∧
    next_result g' = next_result g + length ids.
Proof.
  intros Hb H.
  set (g1 := append_op (block self) (TupleCheck v (Z.of_nat (length ids))) g).
  assert (Hb1 : block self < length (blocks g1)).
  { unfold g1. by rewrite append_op_length. }
  destruct (tuple_targets_names v ids cs 0%Z self g1 Hb1 H)
    as (g' & E & Eo & Eo' & El & Er).
  exists g'. split_and!.
  - change (assign_lhs (Tuple l ((λ id, Name id.1 id.2) <$> ids)) v)
      with (self ← get;
            _ ← emit (block self)
                  (TupleCheck v (Z.of_nat (length ((λ id, Name id.1 id.2) <$> ids))));
            tuple_targets assign_lhs (block self) v
              ((λ id, Name id.1 id.2) <$> ids) 0%Z).
    rewrite length_fmap.
    rewrite (bind_Ok_eq _ _ self g g self self) by done.
    rewrite (bind_Ok_eq _ _ self g g1 tt self) by done.
    exact E.
  - rewrite Eo. unfold g1. rewrite append_op_ops_eq by done.
    by rewrite <- app_assoc.
  - intros b' Hne. rewrite Eo' by done. unfold g1. by rewrite append_op_ops_ne.
  - rewrite Er. done.
Qed.

Lemma assign_tuple_of_names_witness :
  ∃ g',
    assign_lhs (Tuple (Loc 3 0) [Name (Loc 3 0) "xs"; Name (Loc 3 4) "xs"])
               (OpResult 1) Examples.listcomp_self Examples.listcomp_state
      = (g', Ok (tt, Examples.listcomp_self)) ∧
    ops_of g' 0 =
      ops_of Examples.listcomp_state 0
        ++ [TupleCheck (OpResult 1) 2;
            TupleGet (OpResult 2) (OpResult 1) 0; CellStore (OpResult 0) (OpResult 2);
            TupleGet (OpResult 3) (OpResult 1) 1; CellStore (OpResult 0) (OpResult 3)].
Proof.
  destruct (assign_tuple_of_names (Loc 3 0) [(Loc 3 0, "xs"); (Loc 3 4, "xs")]
              [OpResult 0; OpResult 0] (OpResult 1)
              Examples.listcomp_self Examples.listcomp_state)
    as (g' & E & Eo & _).
  - simpl. lia.
  - repeat constructor.
  - exists g'. split; [exact E|exact Eo].
Defined.

End TupleAssign.

(** ** Every change to the module is one of five edits *)

Section Traced.
Import IR Translator Trace.

Lemma edits_one g g' : edit g g' → edits g g'.
Proof. apply rtc_once. Qed.

Lemma edits_trans g1 g2 g3 : edits g1 g2 → edits g2 g3 → edits g1 g3.
Proof. apply rtc_trans. Qed.

Lemma traced_ret {A} (a : A) : traced (mret a).
Proof. intros self g. apply rtc_refl. Qed.

Lemma traced_raise {A} e : traced (@raise A e).
Proof. intros self g. apply rtc_refl. Qed.

Lemma traced_get : traced get.
Proof. intros self g. apply rtc_refl. Qed.

Lemma traced_modify h : traced (modify h).
Proof. intros self g. apply rtc_refl. Qed.

Lemma traced_read {A} (h : State → A) : traced (read h).
Proof. intros self g. apply rtc_refl. Qed.

Lemma traced_assert b : traced (assert b).
Proof. intros self g. destruct b; apply rtc_refl. Qed.

Lemma traced_bind {A B} (m : M A) (k : A → M B) :
  traced m → (∀ a, traced (k a)) → traced (m ≫= k).
Proof.
  intros Hm Hk self g. specialize (Hm self g).
  unfold mbind, M_bind, bind. destruct (m self g) as [g1 [[a s1]|e]]; [|done].
  eapply edits_trans; [exact Hm|apply Hk].
Qed.

Lemma traced_on {A} (child : t) (m : M A) : traced m → traced (on child m).
Proof.
  intros Hm self g. specialize (Hm child g). unfold on.
  by destruct (m child g) as [g1 [[a s1]|e]].
Qed.

Lemma traced_state {A} (h : State → A * State) :
  (∀ g, edits g (h g).2) → traced (state h).
Proof. intros H self g. specialize (H g). unfold state. by destruct (h g). Qed.

Lemma traced_build b mk :
  (∀ r, result_of (mk r) = Some r) → traced (Translator.build b mk).
Proof. intros H. apply traced_state. intros g. by apply edits_one, edit_build. Qed.

Lemma traced_emit b o : result_of o = None → traced (emit b o).
Proof. intros H. apply traced_state. intros g. by apply edits_one, edit_emit. Qed.

Lemma traced_create_after b tys : traced (Translator.create_after b tys).
Proof. apply traced_state. intros g. apply edits_one, edit_block. Qed.

Lemma edits_alloc map names cells b vars g :
  edits g (alloc_variable_cells map names cells b vars g).2.
Proof.
  revert map names cells g.
  induction vars as [|v vars IH]; intros map names cells g; [apply rtc_refl|].
  change (alloc_variable_cells map names cells b (v :: vars) g)
    with (alloc_variable_cells (<[v := OpResult (next_result g)]> map)
            (names ++ [v]) (cells ++ [OpResult (next_result g)]) b vars
            (IR.build b CellAlloc g).2).
  eapply edits_trans; [|apply IH]. by apply edits_one, edit_build.
Qed.

Lemma edits_invoke_next next cur done throw g :
  edits g (invoke_next next cur done throw g).2.
Proof.
  rewrite invoke_next_unfold. cbn [snd].
  repeat first
    [ apply rtc_refl
    | eapply rtc_r; [|first [ by apply edit_emit | by apply edit_build
                            | apply edit_block ]] ].
Qed.


Create HintDb traced.

Ltac tr_step :=
  first
    [ apply traced_ret | apply traced_raise | apply traced_get | apply traced_modify
    | apply traced_read | apply traced_assert | apply traced_create_after
    | (apply traced_build; intros ?; reflexivity)
    | (apply traced_emit; reflexivity)
    | assumption
    | solve [auto 2 with traced nocore]
    | (apply traced_state; intros ?; first [apply edits_alloc|apply edits_invoke_next])
    | (apply traced_bind; [|intros ?])
    | match goal with |- ∀ _, _ => intros ? end
    | match goal with
      | |- traced (match ?x with _ => _ end) => destruct x
      end ].

Ltac tr := repeat tr_step.

Lemma traced_undef_value e : traced (undef_value e).
Proof.
  unfold undef_value. apply traced_bind; [|intros ?; tr].
  apply traced_state. intros g. apply edits_one.
  apply (edit_warn _ g).
Qed.
#[local] Hint Resolve traced_undef_value : traced.

Lemma traced_none_value : traced none_value.
Proof. unfold none_value. tr. Qed.

Lemma traced_get_method w nm : traced (get_method w nm).
Proof. unfold get_method. tr. Qed.

Lemma traced_get_except_block : traced get_except_block.
Proof. unfold get_except_block. tr. Qed.

Lemma traced_invoke m args kw : traced (invoke m args kw).
Proof. unfold invoke. pose proof traced_get_except_block. tr. Qed.

Lemma traced_apply_binop l op r : traced (apply_binop l op r).
Proof. unfold apply_binop. pose proof traced_get_except_block. tr. Qed.

Lemma traced_apply_unop op a : traced (apply_unop op a).
Proof. unfold apply_unop. pose proof traced_get_except_block. tr. Qed.

Lemma traced_format_value v f : traced (format_value v f).
Proof.
  unfold format_value. apply traced_bind; [apply traced_get_method|].
  intros ?. apply traced_invoke.
Qed.
#[local] Hint Resolve traced_format_value : traced.

Lemma traced_cell_of nm : traced (cell_of nm).
Proof. unfold cell_of. tr. Qed.

Lemma traced_pythonImport module nm : traced (pythonImport module nm).
Proof. unfold pythonImport. pose proof (traced_cell_of nm). tr. Qed.

Lemma traced_joined_string args : traced (joined_string args).
Proof. unfold joined_string. tr. Qed.

Lemma traced_string_constant c : traced (string_constant c).
Proof. unfold string_constant. tr. Qed.

Lemma traced_int_constant c : traced (int_constant c).
Proof. unfold int_constant. tr. Qed.

Lemma traced_builtin nm : traced (builtin nm).
Proof. unfold builtin. tr. Qed.

Lemma traced_load_value_attribute v attr : traced (load_value_attribute v attr).
Proof.
  unfold load_value_attribute.
  apply traced_bind; [apply traced_builtin|]. intros ?.
  apply traced_bind; [apply traced_string_constant|]. intros ?.
  apply traced_invoke.
Qed.
#[local] Hint Resolve traced_load_value_attribute : traced.

Lemma traced_returnOp v : traced (returnOp v).
Proof. unfold returnOp. tr. Qed.

Lemma traced__lookup_cell l nm : traced (_lookup_cell l nm).
Proof. unfold _lookup_cell. tr. Qed.

Lemma traced_get_scope i : traced (get_scope i).
Proof. unfold get_scope. tr. Qed.

Lemma traced_visit_Constant c : traced (visit_Constant c).
Proof.
  destruct c; simpl; auto using traced_string_constant, traced_int_constant, traced_raise.
Qed.
#[local] Hint Resolve traced_visit_Constant : traced.

Lemma traced_visit_Name l nm : traced (visit_Name l nm).
Proof. unfold visit_Name. pose proof traced_builtin. tr. Qed.

Lemma traced_capture_args fb cv : ∀ i m ns cs cc,
  traced (capture_args fb cv i m ns cs cc).
Proof.
  induction cv as [|a cv IH]; intros i m ns cs cc; simpl; [apply traced_ret|].
  apply traced_bind; [apply traced__lookup_cell|]. intros c. apply IH.
Qed.
#[local] Hint Resolve traced_capture_args : traced.

Lemma traced_store_args fb cm cc names : ∀ i, traced (store_args fb cm cc names i).
Proof.
  induction names as [|a names IH]; intros i; simpl; [apply traced_ret|].
  destruct (_ !! _); [|apply traced_raise].
  apply traced_bind; [by apply traced_emit|]. intros _. apply IH.
Qed.
#[local] Hint Resolve traced_store_args : traced.

Lemma traced_new_func {B} nm a r (k : string → nat → M B) :
  (∀ sym fb, traced (k sym fb)) →
  traced (sym ← fresh_symbol nm; fb ← state (IR.create_func sym a r); k sym fb).
Proof.
  intros Hk self g. unfold mbind, M_bind, bind, fresh_symbol, state.
  pose proof (edit_func nm a r g) as S. unfold with_vars in S.
  destruct (Names.fresh_symbol nm (_vars g)) as [sym v]. cbn [fst snd] in S.
  set (p := IR.create_func sym a r _) in *. destruct p as [fb g1].
  eapply edits_trans; [|apply Hk]. apply edits_one. exact S.
Qed.

Lemma traced_create_fun nm a vs : traced (create_fun nm a vs).
Proof.
  unfold create_fun. do 5 (apply traced_bind; [apply traced_assert|intros _]).
  cbv zeta. apply traced_new_func. intros sym fb.
  pose proof traced_capture_args. pose proof traced_store_args. tr. 
Qed.
#[local] Hint Resolve traced_create_fun : traced.


Lemma traced_mapM {A B} (h : A → M B) (l : list A) :
  list_all A (λ x, traced (h x)) l → traced (mapM h l).
Proof. intros X. induction X as [|x Hx l X IH]; simpl; tr. Qed.

Lemma traced_forM_ {A} (h : A → M unit) (l : list A) :
  (∀ x, traced (h x)) → traced (forM_ h l).
Proof. intros H. induction l as [|x l IH]; simpl; tr. Qed.

Lemma traced_compare_loop e0 visit args :
  list_all expr (λ e, traced (visit e)) args →
  ∀ ops left_, traced (compare_loop e0 visit args ops left_).
Proof.
  intros X. induction X as [|a Ha args X IH]; intros ops left_.
  - destruct ops; [apply traced_ret|apply traced_raise].
  - destruct ops as [|o ops]; [apply traced_ret|].
    change (compare_loop e0 visit (a :: args) (o :: ops) left_)
      with (right_ ← visit a;
            left_ ← match comparison_map o with
                    | None => undef_value e0
                    | Some op => apply_binop left_ op right_
                    end;
            compare_loop e0 visit args ops left_).
    tr.
Qed.

Lemma traced_call_keywords visit ks :
  list_all keyword (λ k, traced (visit (kw_value k))) ks →
  ∀ args kws, traced (call_keywords visit ks args kws).
Proof.
  intros X. induction X as [|k Hk ks X IH]; intros args kws; simpl; tr.
Qed.

Lemma traced_joined_parts visit values :
  list_all expr (λ e, traced (visit e)) values → traced (joined_parts visit values).
Proof.
  intros X. induction X as [|a Ha values X IH]; simpl; [tr|].
  apply traced_bind; [|tr]. destruct a; tr.
Qed.

Lemma traced_tuple_targets assign b0 v elts :
  list_all expr (λ e, ∀ sv, traced (assign e sv)) elts →
  ∀ i, traced (tuple_targets assign b0 v elts i).
Proof.
  intros X. induction X as [|a Ha elts X IH]; intros i; simpl; tr.
Qed.

Lemma traced_generators_loop visit assign throw gens :
  list_all comprehension
    (comprehension__all expr (λ e, traced (visit e) ∧ ∀ v, traced (assign e v))) gens →
  ∀ done l, traced (generators_loop visit assign throw gens done l).
Proof.
  intros X. induction X as [|gn Hg gens X IH]; intros done l; [apply traced_ret|].
  destruct Hg as [cid tg [_ Htg] it [Hit _] fs Hfs asy].
  change (generators_loop visit assign throw
            (Comprehension cid tg it fs asy :: gens) done l)
    with (_ ← assert (negb asy);
          _ ← assert (bool_decide (length fs = 0));
          l ← visit it;
          it_ ← get_method l "__iter__";
          i ← invoke it_ [] None;
          next ← get_method i "__next__";
          self ← get;
          '(nextBlock, bodyBlock, bodyValue) ←
            state (invoke_next next (block self) done throw);
          _ ← modify (set_block bodyBlock);
          inner_var_scope ← get_scope cid;
          self ← get;
          '(cell_map, var_name_attrs, cells) ←
            state (alloc_variable_cells (_cell_map self) [] [] (block self)
                     (VariableScope.vars inner_var_scope));
          _ ← modify (set_cell_map cell_map);
          self ← get;
          sv ← Translator.build (block self)
                 (λ r, ScopeExtend r (_scope_value self) var_name_attrs cells);
          _ ← modify (set_scope_value sv);
          _ ← assign tg bodyValue;
          generators_loop visit assign throw gens nextBlock (Some l)).
  tr.
Qed.

Lemma exprs_traced_visit (l : list expr) :
  list_all expr expr_traced l → list_all expr (λ e, traced (checked_visit_expr e)) l.
Proof. apply list_all_mono. by intros e [? ?]. Qed.

Lemma exprs_traced_assign (l : list expr) :
  list_all expr expr_traced l → list_all expr (λ e, ∀ v, traced (assign_lhs e v)) l.
Proof. apply list_all_mono. by intros e [? ?]. Qed.

Lemma keywords_traced (l : list keyword) :
  list_all keyword (keyword__all expr expr_traced) l →
  list_all keyword (λ k, traced (checked_visit_expr (kw_value k))) l.
Proof.
  intros X. induction X as [|k Hk l X IH]; constructor; [|done].
  destruct Hk as [? ? [? ?]]. done.
Qed.

Lemma traced_opt_visit (o : option expr) :
  option_all expr expr_traced o →
  traced (match o with Some u => checked_visit_expr u | None => none_value end).
Proof. intros X. destruct X as [e [He _]|]; [done|apply traced_none_value]. Qed.

Theorem expr_traced_all (e : expr) : expr_traced e.
Proof.
  induction e using expr_ind; (split; [|intros v; try apply traced_raise]).
  - (* Constant *) apply traced_visit_Constant.
  - (* Name *) apply traced_visit_Name.
  - (* Name, as a target *) simpl. tr.
  - (* Attribute *)
    simpl. apply traced_bind; [apply IHe|]. intros val. destruct ctx; tr.
  - (* Subscript *)
    simpl. apply traced_bind; [apply IHe1|]. intros v.
    apply traced_bind; [apply IHe2|]. intros sl. tr.
  - (* Subscript, as a target *)
    simpl. apply traced_bind; [apply IHe1|]. intros a.
    apply traced_bind; [apply IHe2|]. intros idx. tr.
  - (* Slice *)
    simpl. apply traced_bind; [by apply traced_opt_visit|]. intros up.
    apply traced_bind; [apply traced_builtin|]. intros sf.
    match goal with H : option_all _ _ step |- _ => destruct H as [st [Hst _]|] end.
    + apply traced_bind; [by apply traced_opt_visit|]. intros lo. tr.
    + match goal with H : option_all _ _ lower |- _ => destruct H as [lo [Hlo _]|] end; tr.
  - (* Tuple *)
    simpl. apply traced_bind; [apply traced_get|]. intros s.
    apply traced_bind; [by apply traced_mapM, exprs_traced_visit|]. intros args. tr.
  - (* Tuple, as a target *)
    simpl. apply traced_bind; [apply traced_get|]. intros s.
    apply traced_bind; [by apply traced_emit|]. intros _.
    by apply traced_tuple_targets, exprs_traced_assign.
  - (* List *)
    simpl. apply traced_bind; [apply traced_get|]. intros s.
    apply traced_bind; [by apply traced_mapM, exprs_traced_visit|]. intros args. tr.
  - (* UnaryOp *)
    simpl. destruct (unary_operator_map op); [|apply traced_undef_value].
    apply traced_bind; [apply IHe|]. intros a. apply traced_apply_unop.
  - (* BinOp *)
    simpl. destruct (bin_operator_map op); [|apply traced_undef_value].
    apply traced_bind; [apply IHe1|]. intros va.
    apply traced_bind; [apply IHe2|]. intros vb. apply traced_apply_binop.
  - (* Compare *)
    simpl. apply traced_bind; [apply IHe|]. intros a.
    apply traced_compare_loop. by apply exprs_traced_visit.
  - (* Call *)
    simpl. apply traced_bind.
    { destruct (is_other e); [apply traced_raise|apply IHe]. }
    intros fv. apply traced_bind; [by apply traced_mapM, exprs_traced_visit|]. intros args.
    apply traced_bind; [by apply traced_call_keywords, keywords_traced|].
    intros [args' kws]. apply traced_invoke.
  - (* FormattedValue *)
    simpl. apply traced_bind; [apply IHe|]. intros val.
    case_bool_decide; [apply traced_raise|].
    apply traced_bind; [by apply traced_opt_visit|]. intros fmt.
    apply traced_format_value.
  - (* JoinedStr *)
    simpl. apply traced_bind; [by apply traced_joined_parts, exprs_traced_visit|].
    intros args. apply traced_joined_string.
  - (* Lambda *)
    destruct IHe as [Hbody _].
    change (checked_visit_expr (Lambda l node_id largs e))
      with (var_scope ← get_scope node_id;
            '(funTranslator, fun_value) ← create_fun "_lambda" largs var_scope;
            _ ← on funTranslator (v ← checked_visit_expr e; returnOp v);
            mret fun_value).
    apply traced_bind; [apply traced_get_scope|]. intros sc.
    apply traced_bind; [apply traced_create_fun|]. intros [child fv].
    apply traced_bind; [|tr]. apply traced_on. tr.
  - (* ListComp *)
    destruct IHe as [Helt _].
    change (checked_visit_expr (ListComp l e generators))
      with (throwBlock ← get_except_block;
            self ← get;
            let orig_cell_map := _cell_map self in
            let orig_scope := _scope_value self in
            r ← Translator.build (block self) (λ r, ListOp r []);
            append ← get_method r "append";
            self ← get;
            finalBlock ← Translator.create_after (block self) [];
            '(doneBlock, l) ←
              generators_loop checked_visit_expr assign_lhs throwBlock
                              generators finalBlock None;
            e ← checked_visit_expr e;
            _ ← invoke append [e] None;
            self ← get;
            _ ← emit (block self) (BranchOp [] doneBlock);
            _ ← modify (set_block finalBlock);
            _ ← modify (set_cell_map orig_cell_map);
            _ ← modify (set_scope_value orig_scope);
            match l with
            | Some l => mret l
            | None => raise (UnboundLocalError "l")
            end).
    pose proof (traced_generators_loop checked_visit_expr assign_lhs).
    apply traced_bind; [apply traced_get_except_block|]. intros p.
    apply traced_bind; [apply traced_get|]. intros s. cbv zeta. tr.
  - (* GeneratorExp *) apply traced_undef_value.
  - (* OtherExpr *) apply traced_raise.
Qed.

Lemma traced_visit (e : expr) : traced (checked_visit_expr e).
Proof. apply expr_traced_all. Qed.
#[local] Hint Resolve traced_visit : traced.

Lemma traced_assign_lhs (e : expr) v : traced (assign_lhs e v).
Proof. apply expr_traced_all. Qed.
#[local] Hint Resolve traced_assign_lhs : traced.

Lemma traced_call_onDone d : traced (call_onDone d).
Proof.
  induction d as [|exits prev IH]; simpl; [apply traced_ret|].
  apply traced_bind; [|intros _; destruct prev; tr].
  apply traced_forM_. intros exit. tr.
Qed.
#[local] Hint Resolve traced_call_onDone : traced.

Lemma traced_visit_Return value : traced (visit_Return value).
Proof.
  unfold visit_Return. apply traced_bind; [apply traced_get|]. intros s.
  apply traced_bind; [destruct (onDone s); tr|]. intros _.
  apply traced_bind; [|tr]. destruct value; [tr|].
  intros self g. apply rtc_refl.
Qed.
#[local] Hint Resolve traced_visit_Return : traced.

Lemma traced_with_items items : ∀ exits, traced (with_items items exits).
Proof.
  induction items as [|item items IH]; intros exits; simpl; [apply traced_ret|].
  apply traced_bind; [apply traced_visit|]. intros ctx.
  apply traced_bind; [apply traced_get_method|]. intros en.
  apply traced_bind; [apply traced_get_method|]. intros ex.
  apply traced_bind; [apply traced_invoke|]. intros r.
  apply traced_bind; [|intros _; apply IH].
  destruct (optional_vars item) as [[]|]; first [apply traced_raise|apply traced_ret].
Qed.
#[local] Hint Resolve traced_with_items : traced.

Lemma traced_visit_Import names : traced (visit_Import names).
Proof.
  unfold visit_Import. apply traced_bind; [|tr].
  apply traced_forM_. intros a. apply traced_pythonImport.
Qed.
#[local] Hint Resolve traced_visit_Import : traced.

Lemma traced_visit_stmts_with visit (l : list stmt) :
  list_all stmt (λ s, traced (visit s)) l → traced (visit_stmts_with visit l).
Proof. intros X. induction X as [|s Hs l X IH]; simpl; tr. Qed.

Lemma traced_if_arm visit_stmts initBlock newBlock stmts :
  traced (visit_stmts stmts) → traced (if_arm visit_stmts initBlock newBlock stmts).
Proof. intros H. unfold if_arm. tr. Qed.

Theorem stmt_traced_all (s : stmt) : traced (checked_visit_stmt s).
Proof.
  induction s using stmt_ind.
  - (* Assign *) simpl. destruct targets as [|tgt [|]]; tr.
  - (* AugAssign *) apply traced_ret.
  - (* Expr *) simpl. tr.
  - (* For *)
    match goal with H : list_all _ _ body |- _ =>
      pose proof (traced_visit_stmts_with checked_visit_stmt body H) end.
    simpl. destruct (VariableCapture.nonempty orelse); [apply traced_raise|]. tr.
  - (* FunctionDef *)
    match goal with H : list_all _ _ body |- _ =>
      pose proof (traced_visit_stmts_with checked_visit_stmt body H) end.
    simpl. apply traced_bind; [apply traced_get_scope|]. intros sc.
    apply traced_bind; [apply traced_create_fun|]. intros [child fv].
    apply traced_bind; [by apply traced_on|]. intros [cont child'].
    apply traced_bind; [|tr]. destruct cont; [|tr].
    apply traced_bind; [|tr]. apply traced_on. tr.
  - (* If *)
    match goal with H : list_all _ _ body |- _ =>
      pose proof (traced_visit_stmts_with checked_visit_stmt body H) end.
    match goal with H : list_all _ _ orelse |- _ =>
      pose proof (traced_visit_stmts_with checked_visit_stmt orelse H) end.
    simpl. apply traced_bind; [apply traced_visit|]. intros tv.
    apply traced_bind; [apply traced_get|]. intros s.
    apply traced_bind; [by apply traced_build|]. intros c.
    apply traced_bind; [apply traced_create_after|]. intros nb.
    apply traced_bind; [by apply traced_if_arm|]. intros fb.
    apply traced_bind; [by apply traced_if_arm|]. intros tb. tr.
  - (* Import *) apply traced_visit_Import.
  - (* Return *) apply traced_visit_Return.
  - (* With *)
    match goal with H : list_all _ _ body |- _ =>
      pose proof (traced_visit_stmts_with checked_visit_stmt body H) end.
    simpl. tr; apply traced_forM_; tr.
  - (* While *)
    match goal with H : list_all _ _ body |- _ =>
      pose proof (traced_visit_stmts_with checked_visit_stmt body H) end.
    simpl. destruct (VariableCapture.nonempty orelse); [apply traced_raise|]. tr.
  - (* OtherStmt *) apply traced_raise.
Qed.

Lemma traced_visit_stmts (l : list stmt) : traced (visit_stmts l).
Proof.
  apply traced_visit_stmts_with. induction l; constructor; auto using stmt_traced_all.
Qed.

End Traced.

(** ** What the edits keep *)

Section Grows.
Import IR Translator Trace Lowering.

Lemma grows_refl g : grows g g.
Proof.
  split_and!; [apply ext_refl| | |done|done|done].
  - intros b blk H. by exists blk.
  - intros f fn H. by exists fn.
Qed.

Lemma grows_trans g1 g2 g3 : grows g1 g2 → grows g2 g3 → grows g1 g3.
Proof.
  intros (E1 & B1 & F1 & S1 & P1 & N1) (E2 & B2 & F2 & S2 & P2 & N2).
  split_and!.
  - by eapply ext_trans.
  - intros b blk H. destruct (B1 _ _ H) as (blk1 & L1 & A1).
    destruct (B2 _ _ L1) as (blk2 & L2 & A2). exists blk2. split; [done|congruence].
  - intros f fn H. destruct (F1 _ _ H) as (fn1 & L1 & ? & ? & ? & ?).
    destruct (F2 _ _ L1) as (fn2 & L2 & ? & ? & ? & ?).
    exists fn2. split_and!; try congruence. by etrans.
  - congruence.
  - by etrans.
  - lia.
Qed.

Lemma grows_append_op b o g : grows g (append_op b o g).
Proof.
  split_and!; [apply ext_append_op| | |done|done|done].
  - intros b' blk H. unfold append_op, set_blocks. simpl.
    destruct (decide (b = b')) as [->|Hne].
    + rewrite list_lookup_alter_eq, H. simpl. by eexists.
    + rewrite list_lookup_alter_ne by done. by exists blk.
  - intros f fn H. by exists fn.
Qed.

Lemma grows_fresh_result g : grows g (fresh_result g).2.
Proof.
  split_and!; [apply ext_fresh_result| | |done|done|simpl; lia].
  - intros b blk H. by exists blk.
  - intros f fn H. by exists fn.
Qed.

Lemma grows_build b mk g : grows g (IR.build b mk g).2.
Proof.
  rewrite build_snd. eapply grows_trans; [apply grows_fresh_result|apply grows_append_op].
Qed.

Lemma insert_after_sublist b new r : r `sublist_of` insert_after b new r.
Proof.
  induction r as [|x r IH]; simpl; [apply sublist_nil_l|].
  case_decide.
  - apply sublist_skip. by apply sublist_cons.
  - by apply sublist_skip.
Qed.

Lemma ext_create_after b tys g : ext g (IR.create_after b tys g).2.
Proof.
  split_and!.
  - rewrite create_after_blocks, length_app. lia.
  - by rewrite create_after_funcs_length.
  - intros b' Hb'. split.
    + by apply create_after_parent_old.
    + by rewrite create_after_ops_old.
Qed.

Lemma grows_create_after b tys g : grows g (IR.create_after b tys g).2.
Proof.
  split_and!; [apply ext_create_after| | |done|done|done].
  - intros b' blk H. exists blk. split; [|done].
    rewrite create_after_blocks. by apply lookup_app_l_Some.
  - intros f fn H. unfold IR.create_after, set_funcs. simpl.
    destruct (decide (parent_of g b = f)) as [->|Hne].
    + rewrite list_lookup_alter_eq, H. simpl. eexists. split; [done|].
      split_and!; try done. apply insert_after_sublist.
    + rewrite list_lookup_alter_ne by done. by exists fn.
Qed.

Lemma ext_create_func nm a r g : ext g (IR.create_func nm a r g).2.
Proof.
  split_and!.
  - rewrite create_func_blocks, length_app. lia.
  - rewrite create_func_funcs, length_app. lia.
  - intros b Hb. unfold parent_of, ops_of. rewrite create_func_blocks.
    by rewrite lookup_app_l.
Qed.

Lemma grows_create_func nm a r g : grows g (IR.create_func nm a r g).2.
Proof.
  split_and!; [apply ext_create_func| | |done|done|done].
  - intros b' blk H. exists blk. split; [|done].
    rewrite create_func_blocks. by apply lookup_app_l_Some.
  - intros f fn H. exists fn. split; [|done].
    rewrite create_func_funcs. by apply lookup_app_l_Some.
Qed.

Lemma grows_with_vars v g : grows g (with_vars v g).
Proof.
  split_and!; [|intros b blk H; by exists blk|intros f fn H; by exists fn|done..].
  by split_and!.
Qed.

Lemma grows_with_stderr s g : grows g (with_stderr (stderr g ++ [s]) g).
Proof.
  split_and!; [|intros b blk H; by exists blk|intros f fn H; by exists fn|done| |done].
  - by split_and!.
  - by apply prefix_app_r.
Qed.

Lemma grows_edit g g' : edit g g' → grows g g'.
Proof.
  destruct 1.
  - apply grows_build.
  - apply grows_append_op.
  - apply grows_create_after.
  - eapply grows_trans; [apply grows_with_vars|apply grows_create_func].
  - apply grows_with_stderr.
Qed.

Lemma grows_edits g g' : edits g g' → grows g g'.
Proof.
  induction 1 as [|g1 g2 g3 H _ IH]; [apply grows_refl|].
  eapply grows_trans; [by apply grows_edit|done].
Qed.



End Grows.


(** ** The module the driver builds *)

Section Built.
Import IR Translator Trace.

Lemma translateModule_edits tree :
  (translateModule tree).1 = Module_create ∨
  ∃ sm, edits (script_main_state sm) (translateModule tree).1.
Proof.
  unfold translateModule.
  destruct (VariableCapture.visit_stmts _ _ _) as [[c sm]|e]; [|by left].
  destruct (VariableCapture.nonempty (VariableCapture.references c)); [by left|].
  right. exists sm.
  change (IR.create_func "script_main" [] [ReturnValueType] _)
    with (0, script_main_state sm).
  cbv beta iota.
  destruct (VariableCapture.nonempty _); [apply rtc_refl|].
  pose proof (edits_alloc ∅ [] [] 0
                (VariableScope.vars (VariableCapture.mkScope c))
                (script_main_state sm)) as E1.
  destruct (alloc_variable_cells _ _ _ _ _ _) as [[[cm ns] cs] g1]. cbn [snd] in E1.
  pose proof (edit_build 0 (λ r, ScopeInit r ns cs) g1 (λ r, eq_refl)) as E2.
  destruct (IR.build 0 _ g1) as [sc g2]. cbn [snd] in E2.
  pose proof (traced_visit_stmts (mbody tree) (init 0 sc cm) g2) as E3.
  destruct (visit_stmts _ _ g2) as [g3 [[cont t3]|e]]; cbn [fst] in *.
  - assert (E : edits (script_main_state sm) g3).
    { eapply edits_trans; [exact E1|]. eapply rtc_l; [exact E2|exact E3]. }
    destruct cont; [|exact E].
    pose proof (edit_build (block t3) NoneOp g3 (λ r, eq_refl)) as E4.
    destruct (IR.build (block t3) NoneOp g3) as [n g4]. cbn [snd] in E4.
    pose proof (edit_build (block t3) (λ r, MkReturnOp r n) g4 (λ r, eq_refl)) as E5.
    destruct (IR.build (block t3) _ g4) as [r g5]. cbn [fst snd] in *.
    eapply rtc_r; [|by apply (edit_emit (block t3) (ReturnOp [r]))].
    eapply rtc_r; [|exact E5]. eapply rtc_r; [|exact E4]. exact E.
  - eapply edits_trans; [exact E1|]. eapply rtc_l; [exact E2|exact E3].
Qed.

End Built.

(** ** Function symbols *)

Section Symbols.
Import IR Translator Trace.

Lemma create_after_symbols b tys g :
  sym_name <$> funcs (IR.create_after b tys g).2 = sym_name <$> funcs g.
Proof.
  unfold IR.create_after, set_funcs. simpl.
  apply list_eq. intros i. rewrite !list_lookup_fmap.
  destruct (decide (parent_of g b = i)) as [->|Hne].
  - rewrite list_lookup_alter_eq. by destruct (funcs g !! i).
  - by rewrite list_lookup_alter_ne.
Qed.

Lemma symbols_same g g' :
  sym_name <$> funcs g' = sym_name <$> funcs g → _vars g' = _vars g →
  symbols_ok g → symbols_ok g'.
Proof. unfold symbols_ok. by intros -> ->. Qed.

Lemma symbols_new_func nm a r g :
  symbols_ok g →
  symbols_ok (create_func (Names.fresh_symbol nm (_vars g)).1 a r
                (with_vars (Names.fresh_symbol nm (_vars g)).2 g)).2.
Proof.
  intros (rest & En & Hnd & Hr).
  set (sym := (Names.fresh_symbol nm (_vars g)).1).
  set (v := (Names.fresh_symbol nm (_vars g)).2).
  exists (rest ++ [sym]). rewrite create_func_funcs, fmap_app. simpl.
  assert (Hs : ∀ st, (Names.seen (_vars g) st ≤ Names.seen v st)%nat).
  { intros st. unfold v. rewrite fresh_symbol_seen. lia. }
  split_and!.
  - by rewrite En.
  - apply NoDup_app. split_and!; [done| |apply NoDup_singleton].
    intros s Hin ->%list_elem_of_singleton.
    destruct (Hr _ Hin) as (st & k & Hat & Es & Hk).
    unfold sym in Es. rewrite fresh_symbol_render in Es.
    apply render_inj in Es as [<- <-]; [lia|apply stem_clean|done].
  - intros s [Hin| ->%list_elem_of_singleton]%elem_of_app.
    + destruct (Hr _ Hin) as (st & k & Hat & Es & Hk).
      exists st, k. split_and!; [done..|]. specialize (Hs st). lia.
    + exists (Names.stem nm), (Names.seen (_vars g) (Names.stem nm)).
      split_and!; [apply stem_clean|apply fresh_symbol_render|].
      unfold v. rewrite fresh_symbol_seen. rewrite decide_True by done. lia.
Qed.

Lemma symbols_edit g g' : edit g g' → symbols_ok g → symbols_ok g'.
Proof.
  destruct 1; intros Hs.
  - by apply (symbols_same g).
  - by apply (symbols_same g).
  - apply (symbols_same g); [apply create_after_symbols|done|done].
  - by apply symbols_new_func.
  - by apply (symbols_same g).
Qed.

Lemma symbols_edits g g' : edits g g' → symbols_ok g → symbols_ok g'.
Proof. induction 1; eauto using symbols_edit. Qed.

Lemma symbols_script_main sm : symbols_ok (script_main_state sm).
Proof.
  exists []. split_and!; [done|apply NoDup_nil_2|].
  intros s Hs. by apply elem_of_nil in Hs.
Qed.

(** X13: when [translateModule] got as far as creating a function, the
    first function of the module is [script_main] and the functions made
    for the [def]s and lambdas have pairwise distinct symbols, each a name
    [fresh_symbol] handed out; this holds of the module it returns and of
    the one it leaves when it raises. A symbol after the first is not
    shown to differ from [script_main]. *)
Theorem translateModule_symbols (tree : module_) :
  funcs (translateModule tree).1 ≠ [] → symbols_ok (translateModule tree).1.
Proof.
  destruct (translateModule_edits tree) as [->|(sm & E)]; [done|].
  intros _. eapply symbols_edits; [exact E|apply symbols_script_main].
Qed.

Lemma translateModule_symbols_witness :
  sym_name <$> funcs (translateModule Examples2.two_lambdas).1
    = ["script_main"; "_lambda"; "_lambda@0"] ∧
  symbols_ok (translateModule Examples2.two_lambdas).1.
Proof.
  split; [vm_compute; reflexivity|].
  apply (translateModule_symbols Examples2.two_lambdas).
  vm_compute. discriminate.
Defined.

(** The symbol of a [def] can be the driver's own: [def script_main(): ...]
    makes a second function of that name. *)
Lemma script_main_symbol_reused :
  sym_name <$> funcs (translateModule Examples2.def_script_main).1
    = ["script_main"; "script_main"].
Proof. vm_compute. reflexivity. Qed.

End Symbols.



(** ** What lowering leaves of the translator *)

Section Framed.
Import IR Translator Trace Lowering.

#[global] Instance kept_rel : FrameRel kept.
Proof.
  split.
  - by intros s.
  - intros s1 s2 s3 [D1 E1] [D2 E2]. split; [congruence|auto].
  - by intros s b.
  - intros s b E. split; [done|]. intros p. by rewrite E.
Qed.

#[global] Instance frame_rel : FrameRel frame.
Proof.
  split.
  - by intros s.
  - intros s1 s2 s3 (K1 & C1 & V1) (K2 & C2 & V2).
    split_and!; [by eapply (fr_trans (Rt:=kept))|congruence..].
  - by intros s b.
  - intros s b E. split_and!; [by apply (fr_except (Rt:=kept))|done..].
Qed.

Lemma frame_kept s s' : frame s s' → kept s s'.
Proof. by intros [? _]. Qed.

Context {Rt : t → t → Prop} {HR : FrameRel Rt}.

Lemma fb_ret {A} (a : A) : framed_by Rt (mret a).
Proof. intros self g. apply wp_ret, fr_refl. Qed.

Lemma fb_raise {A} e : framed_by Rt (@raise A e).
Proof. intros self g. apply wp_raise. Qed.

Lemma fb_get : framed_by Rt get.
Proof. intros self g. apply wp_get, fr_refl. Qed.

Lemma fb_read {A} (h : State → A) : framed_by Rt (read h).
Proof. intros self g. apply wp_read, fr_refl. Qed.

Lemma fb_assert b : framed_by Rt (assert b).
Proof. intros self g. apply wp_assert, fr_refl. Qed.

Lemma fb_state {A} (h : State → A * State) : framed_by Rt (state h).
Proof. intros self g. apply wp_state, fr_refl. Qed.

Lemma fb_set_block b : framed_by Rt (modify (set_block b)).
Proof. intros self g. apply wp_modify, fr_block. Qed.

Lemma fb_bind {A B} (m : M A) (k : A → M B) :
  framed_by Rt m → (∀ a, framed_by Rt (k a)) → framed_by Rt (m ≫= k).
Proof.
  intros Hm Hk self g. apply wp_bind. eapply wp_mono; [apply Hm|].
  intros a s1 g1 H1. cbv beta. eapply wp_mono; [apply Hk|].
  intros b s2 g2 H2. cbv beta in *. by eapply fr_trans.
Qed.

Lemma fb_on {A} (child : t) (m : M A) : framed_by Rt (on child m).
Proof.
  intros self g. unfold wp, on. destruct (m child g) as [g1 [[a c1]|e]]; [|done].
  apply fr_refl.
Qed.

Lemma fb_get_except_block : framed_by Rt get_except_block.
Proof.
  intros self g. unfold get_except_block. apply wp_bind, wp_get.
  destruct (exceptBlock self) eqn:E; [apply wp_ret, fr_refl|].
  apply wp_bind, wp_state. apply wp_bind, wp_state. apply wp_bind, wp_state.
  apply wp_bind, wp_modify. apply wp_ret. by apply fr_except.
Qed.


Lemma fb_modify h : (∀ s, Rt s (h s)) → framed_by Rt (modify h).
Proof. intros H self g. apply wp_modify, H. Qed.

Lemma fb_build b mk : framed_by Rt (Translator.build b mk).
Proof. apply fb_state. Qed.

Lemma fb_emit b o : framed_by Rt (emit b o).
Proof. apply fb_state. Qed.

Lemma fb_create_after b tys : framed_by Rt (Translator.create_after b tys).
Proof. apply fb_state. Qed.

Create HintDb framed.

Ltac fb_step :=
  first
    [ apply fb_ret | apply fb_raise | apply fb_get | apply fb_read | apply fb_assert
    | apply fb_build | apply fb_emit | apply fb_create_after | apply fb_state
    | apply fb_set_block | apply fb_on | apply fb_get_except_block
    | assumption
    | solve [auto 2 with framed nocore]
    | (apply fb_bind; [|intros ?])
    | match goal with |- ∀ _, _ => intros ? end
    | match goal with
      | |- framed_by _ (match ?x with _ => _ end) => destruct x
      end ].

Ltac fb := repeat fb_step.

Lemma fb_undef_value e : framed_by Rt (undef_value e).
Proof. unfold undef_value. fb. Qed.

Lemma fb_none_value : framed_by Rt none_value.
Proof. unfold none_value. fb. Qed.

Lemma fb_get_method w nm : framed_by Rt (get_method w nm).
Proof. unfold get_method. fb. Qed.

Lemma fb_invoke m args kw : framed_by Rt (invoke m args kw).
Proof. unfold invoke. fb. Qed.

Lemma fb_apply_binop l op r : framed_by Rt (apply_binop l op r).
Proof. unfold apply_binop. fb. Qed.

Lemma fb_apply_unop op a : framed_by Rt (apply_unop op a).
Proof. unfold apply_unop. fb. Qed.

Lemma fb_format_value v f : framed_by Rt (format_value v f).
Proof.
  unfold format_value. apply fb_bind; [apply fb_get_method|]. intros ?. apply fb_invoke.
Qed.

Lemma fb_cell_of nm : framed_by Rt (cell_of nm).
Proof. unfold cell_of. fb. Qed.

Lemma fb_pythonImport module nm : framed_by Rt (pythonImport module nm).
Proof. unfold pythonImport. pose proof (fb_cell_of nm). fb. Qed.

Lemma fb_joined_string args : framed_by Rt (joined_string args).
Proof. unfold joined_string. fb. Qed.

Lemma fb_string_constant c : framed_by Rt (string_constant c).
Proof. unfold string_constant. fb. Qed.

Lemma fb_int_constant c : framed_by Rt (int_constant c).
Proof. unfold int_constant. fb. Qed.

Lemma fb_builtin nm : framed_by Rt (builtin nm).
Proof. unfold builtin. fb. Qed.

Lemma fb_load_value_attribute v attr : framed_by Rt (load_value_attribute v attr).
Proof.
  unfold load_value_attribute.
  apply fb_bind; [apply fb_builtin|]. intros ?.
  apply fb_bind; [apply fb_string_constant|]. intros ?.
  apply fb_invoke.
Qed.

Lemma fb_returnOp v : framed_by Rt (returnOp v).
Proof. unfold returnOp. fb. Qed.

Lemma fb__lookup_cell l nm : framed_by Rt (_lookup_cell l nm).
Proof. unfold _lookup_cell. fb. Qed.

Lemma fb_get_scope i : framed_by Rt (get_scope i).
Proof. unfold get_scope. fb. Qed.

Lemma fb_visit_Constant c : framed_by Rt (visit_Constant c).
Proof.
  destruct c; simpl; auto using fb_string_constant, fb_int_constant, fb_raise.
Qed.

Lemma fb_visit_Name l nm : framed_by Rt (visit_Name l nm).
Proof. unfold visit_Name. pose proof fb_builtin. fb. Qed.

Lemma fb_capture_args fbk cv : ∀ i m ns cs cc,
  framed_by Rt (capture_args fbk cv i m ns cs cc).
Proof.
  induction cv as [|a cv IH]; intros i m ns cs cc; simpl; [apply fb_ret|].
  apply fb_bind; [apply fb__lookup_cell|]. intros c. apply IH.
Qed.

Lemma fb_store_args fbk cm cc names : ∀ i, framed_by Rt (store_args fbk cm cc names i).
Proof.
  induction names as [|a names IH]; intros i; simpl; [apply fb_ret|].
  destruct (_ !! _); [|apply fb_raise].
  apply fb_bind; [apply fb_emit|]. intros _. apply IH.
Qed.

Lemma fb_create_fun nm a vs : framed_by Rt (create_fun nm a vs).
Proof.
  unfold create_fun. pose proof fb_capture_args. pose proof fb_store_args.
  unfold fresh_symbol. fb.
Qed.

Lemma fb_mapM {A B} (h : A → M B) (l : list A) :
  list_all A (λ x, framed_by Rt (h x)) l → framed_by Rt (mapM h l).
Proof. intros X. induction X as [|x Hx l X IH]; simpl; fb. Qed.

Lemma fb_forM_ {A} (h : A → M unit) (l : list A) :
  (∀ x, framed_by Rt (h x)) → framed_by Rt (forM_ h l).
Proof. intros H. induction l as [|x l IH]; simpl; fb. Qed.

Lemma fb_compare_loop e0 visit args :
  list_all expr (λ e, framed_by Rt (visit e)) args →
  ∀ ops left_, framed_by Rt (compare_loop e0 visit args ops left_).
Proof.
  intros X. induction X as [|a Ha args X IH]; intros ops left_.
  - destruct ops; [apply fb_ret|apply fb_raise].
  - destruct ops as [|o ops]; [apply fb_ret|].
    change (compare_loop e0 visit (a :: args) (o :: ops) left_)
      with (right_ ← visit a;
            left_ ← match comparison_map o with
                    | None => undef_value e0
                    | Some op => apply_binop left_ op right_
                    end;
            compare_loop e0 visit args ops left_).
    pose proof fb_undef_value. pose proof fb_apply_binop. fb.
Qed.

Lemma fb_call_keywords visit ks :
  list_all keyword (λ k, framed_by Rt (visit (kw_value k))) ks →
  ∀ args kws, framed_by Rt (call_keywords visit ks args kws).
Proof.
  intros X. induction X as [|k Hk ks X IH]; intros args kws; simpl; fb.
Qed.

Lemma fb_joined_parts visit values :
  list_all expr (λ e, framed_by Rt (visit e)) values →
  framed_by Rt (joined_parts visit values).
Proof.
  intros X. induction X as [|a Ha values X IH]; simpl; [fb|].
  apply fb_bind; [|fb]. pose proof fb_visit_Constant. destruct a; fb.
Qed.

Lemma fb_tuple_targets assign b0 v elts :
  list_all expr (λ e, ∀ sv, framed_by Rt (assign e sv)) elts →
  ∀ i, framed_by Rt (tuple_targets assign b0 v elts i).
Proof.
  intros X. induction X as [|a Ha elts X IH]; intros i; simpl; fb.
Qed.

Lemma fb_call_onDone d : framed_by Rt (call_onDone d).
Proof.
  induction d as [|exits prev IH]; simpl; [apply fb_ret|].
  apply fb_bind; [|intros _; destruct prev; fb].
  apply fb_forM_. intros exit. pose proof fb_invoke. fb.
Qed.

Lemma fb_visit_stmts_with visit (l : list stmt) :
  list_all stmt (λ s, framed_by Rt (visit s)) l → framed_by Rt (visit_stmts_with visit l).
Proof. intros X. induction X as [|s Hs l X IH]; simpl; fb. Qed.

Lemma fb_if_arm visit_stmts initBlock newBlock stmts :
  framed_by Rt (visit_stmts stmts) →
  framed_by Rt (if_arm visit_stmts initBlock newBlock stmts).
Proof. intros H. unfold if_arm. fb. Qed.

Lemma fb_mono {A} {Rt' : t → t → Prop} (m : M A) :
  (∀ s s', Rt s s' → Rt' s s') → framed_by Rt m → framed_by Rt' m.
Proof. intros H Hm self g. eapply wp_mono; [apply Hm|]. intros a s' g'. apply H. Qed.

End Framed.

Section FramedAll.
Import IR Translator Trace Lowering.

Lemma kept_set_cell_map m s : kept s (set_cell_map m s).
Proof. by split. Qed.

Lemma kept_set_scope_value v s : kept s (set_scope_value v s).
Proof. by split. Qed.

Lemma fb_generators_loop visit assign throw gens :
  list_all comprehension
    (comprehension__all expr
       (λ e, framed_by frame (visit e) ∧ ∀ v, framed_by frame (assign e v))) gens →
  ∀ done l, framed_by kept (generators_loop visit assign throw gens done l).
Proof.
  intros X. induction X as [|gn Hg gens X IH]; intros done l; [apply fb_ret|].
  destruct Hg as [cid tg [_ Htg] it [Hit _] fs Hfs asy].
  change (generators_loop visit assign throw
            (Comprehension cid tg it fs asy :: gens) done l)
    with (_ ← assert (negb asy);
          _ ← assert (bool_decide (length fs = 0));
          l ← visit it;
          it_ ← get_method l "__iter__";
          i ← invoke it_ [] None;
          next ← get_method i "__next__";
          self ← get;
          '(nextBlock, bodyBlock, bodyValue) ←
            state (invoke_next next (block self) done throw);
          _ ← modify (set_block bodyBlock);
          inner_var_scope ← get_scope cid;
          self ← get;
          '(cell_map, var_name_attrs, cells) ←
            state (alloc_variable_cells (_cell_map self) [] [] (block self)
                     (VariableScope.vars inner_var_scope));
          _ ← modify (set_cell_map cell_map);
          self ← get;
          sv ← Translator.build (block self)
                 (λ r, ScopeExtend r (_scope_value self) var_name_attrs cells);
          _ ← modify (set_scope_value sv);
          _ ← assign tg bodyValue;
          generators_loop visit assign throw gens nextBlock (Some l)).
  assert (Hit' : framed_by kept (visit it)) by (eapply fb_mono; [apply frame_kept|done]).
  assert (Htg' : ∀ v, framed_by kept (assign tg v)).
  { intros v. eapply fb_mono; [apply frame_kept|done]. }
  do 2 (apply fb_bind; [apply fb_assert|intros _]).
  apply fb_bind; [done|intros lv].
  apply fb_bind; [apply fb_get_method|intros itv].
  apply fb_bind; [apply fb_invoke|intros iv].
  apply fb_bind; [apply fb_get_method|intros nx].
  apply fb_bind; [apply fb_get|intros s4].
  apply fb_bind; [apply fb_state|intros [[nb bb] bv]].
  apply fb_bind; [apply fb_set_block|intros _].
  apply fb_bind; [apply fb_get_scope|intros sc].
  apply fb_bind; [apply fb_get|intros s6].
  apply fb_bind; [apply fb_state|intros [[cm ns] cs]].
  apply fb_bind; [apply fb_modify; intros s; apply kept_set_cell_map|intros _].
  apply fb_bind; [apply fb_get|intros s7].
  apply fb_bind; [apply fb_build|intros sv].
  apply fb_bind; [apply fb_modify; intros s; apply kept_set_scope_value|intros _].
  apply fb_bind; [done|intros _]. apply IH.
Qed.

Lemma exprs_framed_visit (l : list expr) :
  list_all expr expr_framed l →
  list_all expr (λ e, framed_by frame (checked_visit_expr e)) l.
Proof. apply list_all_mono. by intros e [? ?]. Qed.

Lemma exprs_framed_assign (l : list expr) :
  list_all expr expr_framed l →
  list_all expr (λ e, ∀ v, framed_by frame (assign_lhs e v)) l.
Proof. apply list_all_mono. by intros e [? ?]. Qed.

Lemma keywords_framed (l : list keyword) :
  list_all keyword (keyword__all expr expr_framed) l →
  list_all keyword (λ k, framed_by frame (checked_visit_expr (kw_value k))) l.
Proof.
  intros X. induction X as [|k Hk l X IH]; constructor; [|done].
  destruct Hk as [? ? [? ?]]. done.
Qed.

Lemma fb_opt_visit (o : option expr) :
  option_all expr expr_framed o →
  framed_by frame (match o with Some u => checked_visit_expr u | None => none_value end).
Proof. intros X. destruct X as [e [He _]|]; [done|apply fb_none_value]. Qed.

Lemma fb_ListComp l elt generators :
  expr_framed elt →
  list_all comprehension (comprehension__all expr expr_framed) generators →
  framed_by frame (checked_visit_expr (ListComp l elt generators)).
Proof.
  intros [Helt _] X self g.
  change (checked_visit_expr (ListComp l elt generators))
    with (throwBlock ← get_except_block;
          self ← get;
          let orig_cell_map := _cell_map self in
          let orig_scope := _scope_value self in
          r ← Translator.build (block self) (λ r, ListOp r []);
          append ← get_method r "append";
          self ← get;
          finalBlock ← Translator.create_after (block self) [];
          '(doneBlock, l) ←
            generators_loop checked_visit_expr assign_lhs throwBlock
                            generators finalBlock None;
          e ← checked_visit_expr elt;
          _ ← invoke append [e] None;
          self ← get;
          _ ← emit (block self) (BranchOp [] doneBlock);
          _ ← modify (set_block finalBlock);
          _ ← modify (set_cell_map orig_cell_map);
          _ ← modify (set_scope_value orig_scope);
          match l with
          | Some l => mret l
          | None => raise (UnboundLocalError "l")
          end).
  apply wp_bind. eapply wp_mono; [apply (fb_get_except_block (Rt:=frame))|].
  intros p s1 g1 F1. cbv beta. apply wp_bind, wp_get. cbv zeta.
  apply wp_bind, wp_state. apply wp_bind.
  eapply wp_mono; [apply (fb_get_method (Rt:=kept))|]. intros ap s2 g2 K2. cbv beta.
  apply wp_bind, wp_get. apply wp_bind, wp_state. apply wp_bind.
  eapply wp_mono; [by apply (fb_generators_loop checked_visit_expr assign_lhs)|].
  intros [db lv] s3 g3 K3. cbv beta iota.
  apply wp_bind. eapply wp_mono; [apply Helt|]. intros ev s4 g4 F4. cbv beta.
  apply wp_bind. eapply wp_mono; [apply (fb_invoke (Rt:=kept))|]. intros iv s5 g5 K5. cbv beta.
  apply wp_bind, wp_get. apply wp_bind, wp_state.
  apply wp_bind, wp_modify. apply wp_bind, wp_modify. apply wp_bind, wp_modify.
  destruct lv; [|done]. apply wp_ret.
  destruct F1 as (K1 & C1 & V1).
  split_and!; [|done..].
  eapply (fr_trans (Rt:=kept)); [exact K1|].
  eapply (fr_trans (Rt:=kept)); [exact K2|].
  eapply (fr_trans (Rt:=kept)); [exact K3|].
  eapply (fr_trans (Rt:=kept)); [exact (frame_kept _ _ F4)|].
  eapply (fr_trans (Rt:=kept)); [exact K5|]. by split.
Qed.

Theorem expr_framed_all (e : expr) : expr_framed e.
Proof.
  induction e using expr_ind; (split; [|intros v; try apply fb_raise]).
  - (* Constant *) apply fb_visit_Constant.
  - (* Name *) apply fb_visit_Name.
  - (* Name, as a target *)
    simpl. apply fb_bind; [apply fb_get|]. intros s.
    apply fb_bind; [apply fb_cell_of|]. intros c. apply fb_emit.
  - (* Attribute *)
    simpl. apply fb_bind; [apply IHe|]. intros val.
    destruct ctx; [apply fb_load_value_attribute|apply fb_raise..].
  - (* Subscript *)
    simpl. apply fb_bind; [apply IHe1|]. intros v.
    apply fb_bind; [apply IHe2|]. intros sl.
    apply fb_bind; [apply fb_get_method|]. intros gi. apply fb_invoke.
  - (* Subscript, as a target *)
    simpl. apply fb_bind; [apply IHe1|]. intros a.
    apply fb_bind; [apply IHe2|]. intros idx.
    apply fb_bind; [apply fb_get|]. intros s. apply fb_emit.
  - (* Slice *)
    simpl. apply fb_bind; [by apply fb_opt_visit|]. intros up.
    apply fb_bind; [apply fb_builtin|]. intros sf.
    match goal with H : option_all _ _ step |- _ => destruct H as [st [Hst _]|] end.
    + apply fb_bind; [by apply fb_opt_visit|]. intros lo.
      apply fb_bind; [done|]. intros stv. apply fb_invoke.
    + match goal with H : option_all _ _ lower |- _ => destruct H as [lo [Hlo _]|] end.
      * apply fb_bind; [done|]. intros lov. apply fb_invoke.
      * apply fb_invoke.
  - (* Tuple *)
    simpl. apply fb_bind; [apply fb_get|]. intros s.
    apply fb_bind; [by apply fb_mapM, exprs_framed_visit|]. intros args. apply fb_build.
  - (* Tuple, as a target *)
    simpl. apply fb_bind; [apply fb_get|]. intros s.
    apply fb_bind; [apply fb_emit|]. intros _.
    by apply fb_tuple_targets, exprs_framed_assign.
  - (* List *)
    simpl. apply fb_bind; [apply fb_get|]. intros s.
    apply fb_bind; [by apply fb_mapM, exprs_framed_visit|]. intros args. apply fb_build.
  - (* UnaryOp *)
    simpl. destruct (unary_operator_map op); [|apply fb_undef_value].
    apply fb_bind; [apply IHe|]. intros a. apply fb_apply_unop.
  - (* BinOp *)
    simpl. destruct (bin_operator_map op); [|apply fb_undef_value].
    apply fb_bind; [apply IHe1|]. intros va.
    apply fb_bind; [apply IHe2|]. intros vb. apply fb_apply_binop.
  - (* Compare *)
    simpl. apply fb_bind; [apply IHe|]. intros a.
    apply fb_compare_loop. by apply exprs_framed_visit.
  - (* Call *)
    simpl. apply fb_bind.
    { destruct (is_other e); [apply fb_raise|apply IHe]. }
    intros fv. apply fb_bind; [by apply fb_mapM, exprs_framed_visit|]. intros args.
    apply fb_bind; [by apply fb_call_keywords, keywords_framed|].
    intros [args' kws]. apply fb_invoke.
  - (* FormattedValue *)
    simpl. apply fb_bind; [apply IHe|]. intros val.
    case_bool_decide; [apply fb_raise|].
    apply fb_bind; [by apply fb_opt_visit|]. intros fmt.
    apply fb_format_value.
  - (* JoinedStr *)
    simpl. apply fb_bind; [by apply fb_joined_parts, exprs_framed_visit|].
    intros args. apply fb_joined_string.
  - (* Lambda *)
    change (checked_visit_expr (Lambda l node_id largs e))
      with (var_scope ← get_scope node_id;
            '(funTranslator, fun_value) ← create_fun "_lambda" largs var_scope;
            _ ← on funTranslator (v ← checked_visit_expr e; returnOp v);
            mret fun_value).
    apply fb_bind; [apply fb_get_scope|]. intros sc.
    apply fb_bind; [apply fb_create_fun|]. intros [child fv].
    apply fb_bind; [apply fb_on|]. intros _. apply fb_ret.
  - (* ListComp *) by apply fb_ListComp.
  - (* GeneratorExp *) apply fb_undef_value.
  - (* OtherExpr *) apply fb_raise.
Qed.

Lemma fb_visit (e : expr) : framed_by frame (checked_visit_expr e).
Proof. apply expr_framed_all. Qed.

Lemma fb_assign_lhs (e : expr) v : framed_by frame (assign_lhs e v).
Proof. apply expr_framed_all. Qed.

Lemma fb_visit_Return value : framed_by frame (visit_Return value).
Proof.
  unfold visit_Return. apply fb_bind; [apply fb_get|]. intros s.
  apply fb_bind.
  { destruct (onDone s); [apply fb_ret|apply fb_call_onDone]. }
  intros _. apply fb_bind.
  - destruct value; [apply fb_visit|]. by intros self g.
  - intros v. apply fb_bind; [apply fb_returnOp|]. intros _. apply fb_ret.
Qed.

Lemma fb_with_items items : ∀ exits, framed_by frame (with_items items exits).
Proof.
  induction items as [|item items IH]; intros exits; simpl; [apply fb_ret|].
  apply fb_bind; [apply fb_visit|]. intros ctx.
  apply fb_bind; [apply fb_get_method|]. intros en.
  apply fb_bind; [apply fb_get_method|]. intros ex.
  apply fb_bind; [apply fb_invoke|]. intros r.
  apply fb_bind; [|intros _; apply IH].
  destruct (optional_vars item) as [[]|]; first [apply fb_raise|apply fb_ret].
Qed.

Lemma fb_visit_Import names : framed_by frame (visit_Import names).
Proof.
  unfold visit_Import. apply fb_bind; [|intros _; apply fb_ret].
  apply fb_forM_. intros a. apply fb_pythonImport.
Qed.

Lemma fb_fall_through (c : bool) (dest : nat) :
  framed_by frame (if c then self ← get; emit (block self) (BranchOp [] dest) else mret tt).
Proof.
  destruct c; [|apply fb_ret]. apply fb_bind; [apply fb_get|]. intros s. apply fb_emit.
Qed.

Lemma fb_With items body :
  framed_by frame (visit_stmts_with checked_visit_stmt body) →
  framed_by frame (checked_visit_stmt (With items body)).
Proof.
  intros Hbody self g.
  change (checked_visit_stmt (With items body))
    with (exitMethods ← with_items items [];
          self ← get;
          let prevDone := onDone self in
          let onDone_ := DoneClosure exitMethods prevDone in
          _ ← modify (set_onDone onDone_);
          cont ← visit_stmts_with checked_visit_stmt body;
          _ ← modify (set_onDone prevDone);
          _ ← (if (cont : bool) then call_onDone onDone_ else mret tt);
          mret cont).
  apply wp_bind. eapply wp_mono; [apply fb_with_items|]. intros ex s1 g1 F1. cbv beta.
  apply wp_bind, wp_get. cbv zeta. apply wp_bind, wp_modify.
  apply wp_bind. eapply wp_mono; [apply Hbody|]. intros cont s2 g2 F2. cbv beta.
  apply wp_bind, wp_modify.
  assert (F3 : frame self (set_onDone (onDone s1) s2)).
  { eapply (fr_trans (Rt:=frame)); [exact F1|].
    destruct F2 as ((D2 & E2) & C2 & V2). split_and!; [split| |]; simpl in *; auto. }
  apply wp_bind. eapply wp_mono.
  { instantiate (1 := λ _ s' _, frame (set_onDone (onDone s1) s2) s').
    destruct cont; [apply (fb_call_onDone (Rt:=frame))|apply wp_ret, (fr_refl (Rt:=frame))]. }
  intros u s4 g4 F4. cbv beta in *. apply wp_ret. by eapply (fr_trans (Rt:=frame)).
Qed.

Theorem stmt_framed_all (s : stmt) : framed_by frame (checked_visit_stmt s).
Proof.
  induction s using stmt_ind.
  - (* Assign *)
    simpl. destruct targets as [|tgt [|]]; try apply fb_raise.
    apply fb_bind; [apply fb_visit|]. intros r.
    apply fb_bind; [apply fb_assign_lhs|]. intros _. apply fb_ret.
  - (* AugAssign *) apply fb_ret.
  - (* Expr *)
    simpl. apply fb_bind; [apply fb_visit|]. intros _. apply fb_ret.
  - (* For *)
    match goal with H : list_all _ _ body |- _ =>
      pose proof (fb_visit_stmts_with (Rt:=frame) checked_visit_stmt body H) as Hbody end.
    simpl. destruct (VariableCapture.nonempty orelse); [apply fb_raise|].
    apply fb_bind; [apply fb_visit|]. intros r.
    apply fb_bind; [apply fb_get_method|]. intros en.
    apply fb_bind; [apply fb_invoke|]. intros i.
    apply fb_bind; [apply fb_get_method|]. intros nx.
    apply fb_bind; [apply fb_get_except_block|]. intros tb.
    apply fb_bind; [apply fb_get|]. intros s.
    apply fb_bind; [apply fb_create_after|]. intros db.
    apply fb_bind; [apply fb_state|]. intros [[nb bb] bv].
    apply fb_bind; [apply fb_set_block|]. intros _.
    apply fb_bind; [apply fb_assign_lhs|]. intros _.
    apply fb_bind; [done|]. intros c.
    apply fb_bind; [apply fb_fall_through|]. intros _.
    apply fb_bind; [apply fb_set_block|]. intros _. apply fb_ret.
  - (* FunctionDef *)
    simpl. apply fb_bind; [apply fb_get_scope|]. intros sc.
    apply fb_bind; [apply fb_create_fun|]. intros [child fv].
    apply fb_bind; [apply fb_on|]. intros [cont child'].
    apply fb_bind.
    { destruct cont; [|apply fb_ret].
      apply fb_bind; [apply fb_on|]. intros _. apply fb_ret. }
    intros _. apply fb_bind; [apply fb_get|]. intros s.
    apply fb_bind; [apply fb_cell_of|]. intros c.
    apply fb_bind; [apply fb_emit|]. intros _. apply fb_ret.
  - (* If *)
    match goal with H : list_all _ _ body |- _ =>
      pose proof (fb_visit_stmts_with (Rt:=frame) checked_visit_stmt body H) as Hbody end.
    match goal with H : list_all _ _ orelse |- _ =>
      pose proof (fb_visit_stmts_with (Rt:=frame) checked_visit_stmt orelse H) as Horelse end.
    simpl. apply fb_bind; [apply fb_visit|]. intros tv.
    apply fb_bind; [apply fb_get|]. intros s.
    apply fb_bind; [apply fb_build|]. intros c.
    apply fb_bind; [apply fb_create_after|]. intros nb.
    apply fb_bind; [by apply fb_if_arm|]. intros fbk.
    apply fb_bind; [by apply fb_if_arm|]. intros tbk.
    apply fb_bind; [apply fb_emit|]. intros _.
    apply fb_bind; [apply fb_set_block|]. intros _. apply fb_ret.
  - (* Import *) apply fb_visit_Import.
  - (* Return *) apply fb_visit_Return.
  - (* With *)
    apply fb_With. by apply fb_visit_stmts_with.
  - (* While *)
    match goal with H : list_all _ _ body |- _ =>
      pose proof (fb_visit_stmts_with (Rt:=frame) checked_visit_stmt body H) as Hbody end.
    simpl. destruct (VariableCapture.nonempty orelse); [apply fb_raise|].
    apply fb_bind; [apply fb_get|]. intros s.
    apply fb_bind; [apply fb_create_after|]. intros tb.
    apply fb_bind; [apply fb_emit|]. intros _.
    apply fb_bind; [apply fb_set_block|]. intros _.
    apply fb_bind; [apply fb_visit|]. intros te.
    apply fb_bind; [apply fb_get|]. intros s'.
    apply fb_bind; [apply fb_build|]. intros c.
    apply fb_bind; [apply fb_create_after|]. intros bb.
    apply fb_bind; [apply fb_create_after|]. intros db.
    apply fb_bind; [apply fb_emit|]. intros _.
    apply fb_bind; [apply fb_set_block|]. intros _.
    apply fb_bind; [done|]. intros bc.
    apply fb_bind; [apply fb_fall_through|]. intros _.
    apply fb_bind; [apply fb_set_block|]. intros _. apply fb_ret.
  - (* OtherStmt *) apply fb_raise.
Qed.

Lemma fb_visit_stmts (l : list stmt) : framed_by frame (visit_stmts l).
Proof.
  apply fb_visit_stmts_with. induction l; constructor; auto using stmt_framed_all.
Qed.

(** X16: when lowering a list of statements returns, the translator has
    the cell map, the scope value and the [onDone] closure it was entered
    with, and the exception block it had, if it had one: the cells of a
    comprehension and the closure of a [with] do not outlive them. *)
Theorem statements_keep_translator (stmts : list stmt) (self self' : t)
    (g g' : State) (c : bool) :
  visit_stmts stmts self g = (g', Ok (c, self')) →
  _cell_map self' = _cell_map self ∧
  _scope_value self' = _scope_value self ∧
  onDone self' = onDone self ∧
  ∀ p, exceptBlock self = Some p → exceptBlock self' = Some p.
Proof.
  intros E. pose proof (fb_visit_stmts stmts self g) as H.
  unfold wp in H. rewrite E in H. by destruct H as ((D & X) & C & V).
Qed.

Lemma statements_keep_translator_witness :
  ∃ g' self',
    visit_stmts [Expr Examples.listcomp_expr] Examples.listcomp_self
                Examples.listcomp_state = (g', Ok (true, self')) ∧
    _cell_map self' = _cell_map Examples.listcomp_self ∧
    _scope_value self' = _scope_value Examples.listcomp_self ∧
    onDone self' = onDone Examples.listcomp_self ∧
    ∀ p, exceptBlock Examples.listcomp_self = Some p → exceptBlock self' = Some p.
Proof.
  assert (E : ∃ g' self',
             visit_stmts [Expr Examples.listcomp_expr] Examples.listcomp_self
                         Examples.listcomp_state = (g', Ok (true, self')))
    by (eexists _, _; vm_compute; reflexivity).
  destruct E as (g' & self' & E). exists g', self'. split; [exact E|].
  exact (statements_keep_translator _ _ _ _ _ _ E).
Defined.

(** X17: when lowering an expression returns, the translator has the cell
    map, the scope value and the [onDone] closure it was entered with, and
    the exception block it had, if it had one; so has it after an
    assignment to a target. *)
Theorem expression_keeps_translator (e : expr) (self self' : t)
    (g g' : State) (v : Value) :
  checked_visit_expr e self g = (g', Ok (v, self')) →
  _cell_map self' = _cell_map self ∧
  _scope_value self' = _scope_value self ∧
  onDone self' = onDone self ∧
  ∀ p, exceptBlock self = Some p → exceptBlock self' = Some p.
Proof.
  intros E. pose proof (fb_visit e self g) as H.
  unfold wp in H. rewrite E in H. by destruct H as ((D & X) & C & V).
Qed.

Lemma expression_keeps_translator_witness :
  ∃ g' v self',
    checked_visit_expr Examples.listcomp_expr Examples.listcomp_self
                       Examples.listcomp_state = (g', Ok (v, self')) ∧
    _cell_map self' = _cell_map Examples.listcomp_self ∧
    _scope_value self' = _scope_value Examples.listcomp_self ∧
    onDone self' = onDone Examples.listcomp_self ∧
    ∀ p, exceptBlock Examples.listcomp_self = Some p → exceptBlock self' = Some p.
Proof.
  assert (E : ∃ g' v self',
             checked_visit_expr Examples.listcomp_expr Examples.listcomp_self
                                Examples.listcomp_state = (g', Ok (v, self')))
    by (eexists _, _, _; vm_compute; reflexivity).
  destruct E as (g' & v & self' & E). exists g', v, self'. split; [exact E|].
  exact (expression_keeps_translator _ _ _ _ _ _ E).
Defined.

End FramedAll.

(** ** Entering and leaving a [with] statement *)

Section WithExits.
Import IR Pad Translator Lowering Outcome Exits Trace.









End WithExits.

(** ** The function [create_fun] makes *)

Section CreateFun.
Import IR Translator Lowering.
#[local] Set Warnings "-clear-no-such-hyp".

Lemma wp_elim {A} (m : M A) self g (Q : A → t → State → Prop) g' a self' :
  wp m self g Q → m self g = (g', Ok (a, self')) → Q a self' g'.
Proof. unfold wp. intros H E. by rewrite E in H. Qed.

Lemma capture_args_spec fb cv : ∀ i m ns cs cc self g
    (Q : gmap string Value * list string * list Value * list Value → t → State → Prop),
  (∀ m' new,
     dom m' = dom m ∪ list_to_set (nm_id <$> cv) →
     Forall2 (λ an c, _cell_map self !! nm_id an = Some c) cv new →
     Q (m', ns ++ (nm_id <$> cv),
        cs ++ (BlockArg fb <$> seq (1 + i) (length cv)), cc ++ new) self g) →
  wp (capture_args fb cv i m ns cs cc) self g Q.
Proof.
  induction cv as [|an cv IH]; intros i m ns cs cc self g Q HQ.
  - simpl. apply wp_ret. specialize (HQ m []). simpl in HQ. rewrite !app_nil_r in HQ.
    apply HQ; [set_solver|constructor].
  - simpl. apply wp_bind. unfold _lookup_cell. apply wp_bind, wp_get.
    destruct (_cell_map self !! nm_id an) as [c|] eqn:Ec; [|done].
    apply wp_ret. apply IH. intros m' new Hd Hf.
    specialize (HQ m' (c :: new)). simpl in HQ.
    rewrite <- !app_assoc. simpl. apply HQ.
    + rewrite Hd, dom_insert_L. set_solver.
    + by constructor.
Qed.

Lemma alloc_funcs map names cells b vars g :
  funcs (alloc_variable_cells map names cells b vars g).2 = funcs g.
Proof.
  revert map names cells g. induction vars as [|v vars IH]; intros map names cells g; [done|].
  change (alloc_variable_cells map names cells b (v :: vars) g)
    with (alloc_variable_cells (<[v := OpResult (next_result g)]> map)
            (names ++ [v]) (cells ++ [OpResult (next_result g)]) b vars
            (IR.build b CellAlloc g).2).
  by rewrite IH.
Qed.

Lemma alloc_dom map names cells b vars g :
  dom (alloc_variable_cells map names cells b vars g).1.1.1
  = dom map ∪ list_to_set vars.
Proof.
  revert map names cells g. induction vars as [|v vars IH]; intros map names cells g.
  - simpl. set_solver.
  - change (alloc_variable_cells map names cells b (v :: vars) g)
      with (alloc_variable_cells (<[v := OpResult (next_result g)]> map)
              (names ++ [v]) (cells ++ [OpResult (next_result g)]) b vars
              (IR.build b CellAlloc g).2).
    rewrite IH, dom_insert_L. set_solver.
Qed.

Lemma alloc_length map names cells b vars g :
  length (blocks (alloc_variable_cells map names cells b vars g).2) = length (blocks g).
Proof.
  revert map names cells g. induction vars as [|v vars IH]; intros map names cells g; [done|].
  change (alloc_variable_cells map names cells b (v :: vars) g)
    with (alloc_variable_cells (<[v := OpResult (next_result g)]> map)
            (names ++ [v]) (cells ++ [OpResult (next_result g)]) b vars
            (IR.build b CellAlloc g).2).
  by rewrite IH, build_length.
Qed.

Lemma store_args_spec fb cm cc names : ∀ i self g (Q : unit → t → State → Prop),
  (∀ g', funcs g' = funcs g → length (blocks g') = length (blocks g) → Q tt self g') →
  wp (store_args fb cm cc names i) self g Q.
Proof.
  induction names as [|a names IH]; intros i self g Q HQ; simpl.
  - apply wp_ret. by apply HQ.
  - destruct (_ !! _); [|done]. apply wp_bind, wp_state. simpl.
    apply IH. intros g' Ef El. apply HQ; [done|]. by rewrite El, append_op_length.
Qed.

Lemma create_fun_wp (nm : string) (a : arguments) (vs : VariableScope.t)
    (self : t) (g : State) :
  wp (create_fun nm a vs) self g
    (λ r s' g',
       s' = self ∧ block r.1 = length (blocks g) ∧
       funcs g' = funcs g ++
         [MkFuncOp (Names.fresh_symbol (Some nm) (_vars g)).1
            ([ScopeType] ++ replicate (length (VariableScope.parent_vars vs)) CellType
                         ++ replicate (length (args a)) ValueType)
            [ReturnValueType] [block r.1]] ∧
       (∃ cc,
          Forall2 (λ an c, _cell_map self !! nm_id an = Some c)
                  (VariableScope.parent_vars vs) cc ∧
          (block self < length (blocks g) →
           last (ops_of g' (block self)) =
             Some (FunctionRef r.2 (Names.fresh_symbol (Some nm) (_vars g)).1 (args a)
                               (_scope_value self) cc))) ∧
       dom (_cell_map r.1) =
         list_to_set (nm_id <$> VariableScope.parent_vars vs)
           ∪ list_to_set (VariableScope.vars vs)).
Proof.
  unfold create_fun.
  do 5 (apply wp_bind, wp_assert).
  apply wp_bind, wp_state. unfold fresh_symbol.
  destruct (Names.fresh_symbol (Some nm) (_vars g)) as [sym v]. cbn [fst snd].
  set (g1 := MkState _ _ _ _ v _).
  apply wp_bind, wp_state.
  set (tys := [ScopeType] ++ _).
  change (IR.create_func sym tys [ReturnValueType] g1).1 with (length (blocks g)).
  set (fb := length (blocks g)).
  set (g2 := (IR.create_func sym tys [ReturnValueType] g1).2).
  apply wp_bind, capture_args_spec. intros cm1 cc Hd1 Hcc. cbv beta iota.
  apply wp_bind, wp_state.
  pose proof (alloc_funcs cm1 ([] ++ (nm_id <$> VariableScope.parent_vars vs))
                ([] ++ (BlockArg fb <$> seq (1 + 0) (length (VariableScope.parent_vars vs))))
                fb (VariableScope.vars vs) g2) as Ef3.
  pose proof (alloc_dom cm1 ([] ++ (nm_id <$> VariableScope.parent_vars vs))
                ([] ++ (BlockArg fb <$> seq (1 + 0) (length (VariableScope.parent_vars vs))))
                fb (VariableScope.vars vs) g2) as Ed3.
  pose proof (alloc_length cm1 ([] ++ (nm_id <$> VariableScope.parent_vars vs))
                ([] ++ (BlockArg fb <$> seq (1 + 0) (length (VariableScope.parent_vars vs))))
                fb (VariableScope.vars vs) g2) as El3.
  destruct (alloc_variable_cells _ _ _ _ _ g2) as [[[cm2 ns2] cs2] g3].
  cbn [fst snd] in *.
  apply wp_bind, wp_state. rewrite build_fst.
  set (g4 := (IR.build fb _ g3).2).
  apply wp_bind, store_args_spec. intros g5 Ef5 El5.
  apply wp_bind, wp_get. apply wp_bind, wp_state. rewrite build_fst.
  apply wp_ret. cbn [fst snd].
  assert (L5 : length (blocks g5) = S (length (blocks g))).
  { rewrite El5. unfold g4. rewrite build_length, El3. unfold g2.
    rewrite create_func_blocks, length_app. simpl. lia. }
  split_and!.
  - done.
  - done.
  - cbn [block init]. change (funcs (IR.build (block self) ?mk g5).2) with (funcs g5).
    rewrite Ef5. change (funcs g4) with (funcs g3). rewrite Ef3. done.
  - exists cc. split; [done|]. intros Hb.
    rewrite build_ops_eq by lia. by rewrite last_snoc.
  - cbn [_cell_map init]. rewrite Ed3, Hd1, dom_empty_L. set_solver.
Qed.

(** X18: when [create_fun] returns, the calling translator is as it was;
    the module has one more function, named by [fresh_symbol], that takes
    a scope, a cell for each captured variable and a value for each
    parameter and whose region is the entry block of the child translator;
    the current block ends with the [FunctionRef] to it, whose closure
    cells are the caller's cells of the captured variables, one for each
    and in their order; the child translator has a cell for each captured
    variable and each local of the scope, and for nothing else. *)
Theorem create_fun_signature (nm : string) (a : arguments) (vs : VariableScope.t)
    (self self' child : t) (fv : Value) (g g' : State) :
  block self < length (blocks g) →
  create_fun nm a vs self g = (g', Ok ((child, fv), self')) →
  self' = self ∧
  block child = length (blocks g) ∧
  funcs g' = funcs g ++
    [MkFuncOp (Names.fresh_symbol (Some nm) (_vars g)).1
       ([ScopeType] ++ replicate (length (VariableScope.parent_vars vs)) CellType
                    ++ replicate (length (args a)) ValueType)
       [ReturnValueType] [block child]] ∧
  (∃ cc,
     Forall2 (λ an c, _cell_map self !! nm_id an = Some c)
             (VariableScope.parent_vars vs) cc ∧
     last (ops_of g' (block self)) =
       Some (FunctionRef fv (Names.fresh_symbol (Some nm) (_vars g)).1 (args a)
                         (_scope_value self) cc)) ∧
  dom (_cell_map child) =
    list_to_set (nm_id <$> VariableScope.parent_vars vs)
      ∪ list_to_set (VariableScope.vars vs).
Proof.
  intros Hb E.
  destruct (wp_elim _ _ _ _ _ _ _ (create_fun_wp nm a vs self g) E)
    as (H1 & H2 & H3 & (cc & Hcc & Hl) & H5).
  split_and!; [done..| |done]. exists cc. split; [done|]. by apply Hl.
Qed.

Lemma create_fun_signature_witness :
  ∃ g' child fv,
    create_fun "f" (Examples.no_defaults ["x"])
      (VariableScope.Mk ["x"] [AstName "xs" (Loc 1 1)])
      Examples.listcomp_self Examples.listcomp_state
      = (g', Ok ((child, fv), Examples.listcomp_self)) ∧
    block child = 1 ∧
    sym_name <$> funcs g' = ["script_main"; "f"] ∧
    arg_types <$> funcs g' = [[]; [ScopeType; CellType; ValueType]].
Proof.
  assert (E : ∃ g' child fv,
             create_fun "f" (Examples.no_defaults ["x"])
               (VariableScope.Mk ["x"] [AstName "xs" (Loc 1 1)])
               Examples.listcomp_self Examples.listcomp_state
               = (g', Ok ((child, fv), Examples.listcomp_self)))
    by (eexists _, _, _; vm_compute; reflexivity).
  destruct E as (g' & child & fv & E). exists g', child, fv. split; [exact E|].
  assert (Hb : block Examples.listcomp_self < length (blocks Examples.listcomp_state))
    by (simpl; lia).
  destruct (create_fun_signature _ _ _ _ _ _ _ _ _ Hb E) as (_ & H2 & H3 & _).
  split; [exact H2|]. rewrite H3. split; reflexivity.
Defined.

End CreateFun.

(** ** Lookups that find their name *)

Section Finds.
Import IR Translator Trace Lowering Resolve.

Lemma wpn_bind {A B} (m : M A) (k : A → M B) self g Q :
  wpn m self g (λ a s' g', wpn (k a) s' g' Q) → wpn (m ≫= k) self g Q.
Proof.
  unfold wpn, mbind, M_bind, bind. by destruct (m self g) as [g1 [[a s1]|e]].
Qed.

Lemma wpn_mono {A} (m : M A) self g (Q Q' : A → t → State → Prop) :
  wpn m self g Q → (∀ a s' g', Q a s' g' → Q' a s' g') → wpn m self g Q'.
Proof. unfold wpn. destruct (m self g) as [g1 [[a s1]|e]]; auto. Qed.

Lemma wpn_intro {A} (m : M A) self g (Q : A → t → State → Prop) :
  (∀ g' e, m self g = (g', Raise e) → is_unknown e = false) →
  (∀ g' a s', m self g = (g', Ok (a, s')) → Q a s' g') →
  wpn m self g Q.
Proof. unfold wpn. intros N H. destruct (m self g) as [g1 [[a s1]|e]]; eauto. Qed.

Lemma wpn_ret {A} (a : A) self g (Q : A → t → State → Prop) :
  Q a self g → wpn (mret a) self g Q.
Proof. done. Qed.

Lemma wpn_get self g (Q : t → t → State → Prop) : Q self self g → wpn get self g Q.
Proof. done. Qed.

Lemma wpn_modify h self g (Q : unit → t → State → Prop) :
  Q tt (h self) g → wpn (modify h) self g Q.
Proof. done. Qed.

Lemma wpn_state {A} (h : State → A * State) self g (Q : A → t → State → Prop) :
  Q (h g).1 self (h g).2 → wpn (state h) self g Q.
Proof. unfold wpn, state. by destruct (h g). Qed.

Lemma wpn_raise {A} e self g (Q : A → t → State → Prop) :
  is_unknown e = false → wpn (raise e) self g Q.
Proof. done. Qed.

Lemma wpn_assert b self g (Q : unit → t → State → Prop) :
  Q tt self g → wpn (assert b) self g Q.
Proof. by destruct b. Qed.

(** *** Methods that never raise the exception *)

Lemma nu0_ret {A} (a : A) : nu0 (mret a).
Proof. by intros self g g' e. Qed.

Lemma nu0_raise {A} e : is_unknown e = false → nu0 (@raise A e).
Proof. intros H self g g' e' [= _ <-]. done. Qed.

Lemma nu0_get : nu0 get.
Proof. by intros self g g' e. Qed.

Lemma nu0_modify h : nu0 (modify h).
Proof. by intros self g g' e. Qed.

Lemma nu0_read {A} (h : State → A) : nu0 (read h).
Proof. by intros self g g' e. Qed.

Lemma nu0_state {A} (h : State → A * State) : nu0 (state h).
Proof. intros self g g' e. unfold state. by destruct (h g). Qed.

Lemma nu0_assert b : nu0 (assert b).
Proof. destruct b; [apply nu0_ret|by apply nu0_raise]. Qed.

Lemma nu0_bind {A B} (m : M A) (k : A → M B) :
  nu0 m → (∀ a, nu0 (k a)) → nu0 (m ≫= k).
Proof.
  intros Hm Hk self g g' e. unfold mbind, M_bind, bind.
  destruct (m self g) as [g1 [[a s1]|e1]] eqn:E.
  - apply Hk.
  - intros [= <- <-]. by eapply Hm.
Qed.

Lemma nu0_on {A} (child : t) (m : M A) : nu0 m → nu0 (on child m).
Proof.
  intros Hm self g g' e. unfold on.
  destruct (m child g) as [g1 [[a s1]|e1]] eqn:E; [done|].
  intros [= <- <-]. by eapply Hm.
Qed.

Create HintDb calm.

Ltac nu_step :=
  first
    [ apply nu0_ret | apply nu0_get | apply nu0_modify | apply nu0_read
    | apply nu0_assert | apply nu0_state
    | (apply nu0_raise; reflexivity)
    | assumption
    | solve [auto 2 with calm nocore]
    | (apply nu0_bind; [|intros ?])
    | match goal with |- ∀ _, _ => intros ? end
    | match goal with
      | |- nu0 (match ?x with _ => _ end) => destruct x
      end ].

Ltac nu := repeat nu_step.

Lemma nu0_undef_value e : nu0 (undef_value e).
Proof. unfold undef_value. nu. Qed.

Lemma nu0_none_value : nu0 none_value.
Proof. unfold none_value. nu. Qed.

Lemma nu0_get_method w nm : nu0 (get_method w nm).
Proof. unfold get_method. nu. Qed.

Lemma nu0_get_except_block : nu0 get_except_block.
Proof. unfold get_except_block. nu. Qed.

Lemma nu0_invoke m args kw : nu0 (invoke m args kw).
Proof. unfold invoke. pose proof nu0_get_except_block. nu. Qed.

Lemma nu0_apply_binop l op r : nu0 (apply_binop l op r).
Proof. unfold apply_binop. pose proof nu0_get_except_block. nu. Qed.

Lemma nu0_apply_unop op a : nu0 (apply_unop op a).
Proof. unfold apply_unop. pose proof nu0_get_except_block. nu. Qed.

Lemma nu0_format_value v f : nu0 (format_value v f).
Proof.
  unfold format_value. apply nu0_bind; [apply nu0_get_method|].
  intros ?. apply nu0_invoke.
Qed.

Lemma nu0_cell_of nm : nu0 (cell_of nm).
Proof. unfold cell_of. nu. Qed.

Lemma nu0_pythonImport module nm : nu0 (pythonImport module nm).
Proof. unfold pythonImport. pose proof (nu0_cell_of nm). nu. Qed.

Lemma nu0_joined_string args : nu0 (joined_string args).
Proof. unfold joined_string. nu. Qed.

Lemma nu0_string_constant c : nu0 (string_constant c).
Proof. unfold string_constant. nu. Qed.

Lemma nu0_int_constant c : nu0 (int_constant c).
Proof. unfold int_constant. nu. Qed.

Lemma nu0_builtin nm : nu0 (builtin nm).
Proof. unfold builtin. nu. Qed.

Lemma nu0_load_value_attribute v attr : nu0 (load_value_attribute v attr).
Proof.
  unfold load_value_attribute.
  apply nu0_bind; [apply nu0_builtin|]. intros ?.
  apply nu0_bind; [apply nu0_string_constant|]. intros ?.
  apply nu0_invoke.
Qed.

Lemma nu0_returnOp v : nu0 (returnOp v).
Proof. unfold returnOp. nu. Qed.

Lemma nu0_get_scope i : nu0 (get_scope i).
Proof. unfold get_scope. nu. Qed.

Lemma nu0_visit_Constant c : nu0 (visit_Constant c).
Proof.
  destruct c; simpl; try apply nu0_string_constant; try apply nu0_int_constant;
    by apply nu0_raise.
Qed.

Lemma nu0_store_args fbk cm cc names : ∀ i, nu0 (store_args fbk cm cc names i).
Proof.
  induction names as [|a names IH]; intros i; simpl; [apply nu0_ret|].
  destruct (_ !! _); [|by apply nu0_raise].
  apply nu0_bind; [apply nu0_state|]. intros _. apply IH.
Qed.

Lemma nu0_forM_ {A} (h : A → M unit) (l : list A) :
  (∀ x, nu0 (h x)) → nu0 (forM_ h l).
Proof. intros H. induction l as [|x l IH]; simpl; nu. Qed.

Lemma nu0_call_onDone d : nu0 (call_onDone d).
Proof.
  induction d as [|exits prev IH]; simpl; [apply nu0_ret|].
  apply nu0_bind; [|intros _; destruct prev; nu].
  apply nu0_forM_. intros exit. pose proof nu0_invoke. nu.
Qed.

Lemma nu0_tuple_targets assign b0 v elts :
  list_all expr (λ e, Resolve.plain_target e → ∀ sv, nu0 (assign e sv)) elts →
  all_ Resolve.plain_target elts →
  ∀ i, nu0 (tuple_targets assign b0 v elts i).
Proof.
  intros X. induction X as [|a Ha elts X IH]; intros Hp i; simpl; [apply nu0_ret|].
  destruct Hp as [Hp1 Hp2].
  apply nu0_bind; [apply nu0_state|]. intros sv.
  apply nu0_bind; [by apply Ha|]. intros _. by apply IH.
Qed.

Lemma nu0_assign_plain tgt : Resolve.plain_target tgt → ∀ v, nu0 (assign_lhs tgt v).
Proof.
  induction tgt using expr_ind; intros Hp v; try done.
  - simpl. pose proof nu0_cell_of. nu.
  - simpl. apply nu0_bind; [apply nu0_get|]. intros s.
    apply nu0_bind; [apply nu0_state|]. intros _.
    by apply nu0_tuple_targets.
Qed.


(** *** From the three facts to [finds] *)

Lemma traced_scope_map {A} (m : M A) self g :
  traced m → _scope_map (m self g).1 = _scope_map g.
Proof. intros T. by destruct (grows_edits _ _ (T self g)) as (_ & _ & _ & E & _). Qed.

Section At.
Variables (sm : scope_map) (D : gset string).

Lemma finds_simple {A} (m : M A) :
  framed_by frame m → traced m → nu0 m → finds sm D m.
Proof.
  intros F T N self g Es Ed. apply wpn_intro.
  - intros g' e E. by eapply N.
  - intros g' a s' E. split.
    + pose proof (traced_scope_map m self g T) as S. rewrite E in S. simpl in S. congruence.
    + pose proof (F self g) as HF. unfold wp in HF. rewrite E in HF.
      destruct HF as (_ & C & _). by rewrite C.
Qed.

Lemma finds_bind {A B} (m : M A) (k : A → M B) :
  finds sm D m → (∀ a, finds sm D (k a)) → finds sm D (m ≫= k).
Proof.
  intros Hm Hk self g Es Ed. apply wpn_bind. eapply wpn_mono; [by apply Hm|].
  intros a s1 g1 [Es1 Ed1]. by apply Hk.
Qed.

Lemma finds_ret {A} (a : A) : finds sm D (mret a).
Proof. by intros self g Es Ed. Qed.

Lemma finds_raise {A} e : is_unknown e = false → finds sm D (@raise A e).
Proof. by intros H self g Es Ed. Qed.

Lemma finds_get : finds sm D get.
Proof. by intros self g Es Ed. Qed.

Lemma finds_set_block b : finds sm D (modify (set_block b)).
Proof. by intros self g Es Ed. Qed.

Lemma finds_build b mk :
  (∀ r, result_of (mk r) = Some r) → finds sm D (Translator.build b mk).
Proof.
  intros H. apply finds_simple; [apply fb_build|by apply traced_build|apply nu0_state].
Qed.

Lemma finds_emit b o : result_of o = None → finds sm D (emit b o).
Proof.
  intros H. apply finds_simple; [apply fb_emit|by apply traced_emit|apply nu0_state].
Qed.

Lemma finds_create_after b tys : finds sm D (Translator.create_after b tys).
Proof.
  apply finds_simple; [apply fb_create_after|apply traced_create_after|apply nu0_state].
Qed.

Lemma finds_undef_value e : finds sm D (undef_value e).
Proof.
  apply finds_simple; [apply fb_undef_value|apply traced_undef_value|apply nu0_undef_value].
Qed.

Lemma finds_none_value : finds sm D none_value.
Proof.
  apply finds_simple; [apply fb_none_value|apply traced_none_value|apply nu0_none_value].
Qed.

Lemma finds_get_method w nm : finds sm D (get_method w nm).
Proof.
  apply finds_simple; [apply fb_get_method|apply traced_get_method|apply nu0_get_method].
Qed.

Lemma finds_get_except_block : finds sm D get_except_block.
Proof.
  apply finds_simple;
    [apply fb_get_except_block|apply traced_get_except_block|apply nu0_get_except_block].
Qed.

Lemma finds_invoke m args kw : finds sm D (invoke m args kw).
Proof.
  apply finds_simple; [apply fb_invoke|apply traced_invoke|apply nu0_invoke].
Qed.

Lemma finds_apply_binop l op r : finds sm D (apply_binop l op r).
Proof.
  apply finds_simple; [apply fb_apply_binop|apply traced_apply_binop|apply nu0_apply_binop].
Qed.

Lemma finds_apply_unop op a : finds sm D (apply_unop op a).
Proof.
  apply finds_simple; [apply fb_apply_unop|apply traced_apply_unop|apply nu0_apply_unop].
Qed.

Lemma finds_format_value v f : finds sm D (format_value v f).
Proof.
  apply finds_simple;
    [apply fb_format_value|apply traced_format_value|apply nu0_format_value].
Qed.

Lemma finds_cell_of nm : finds sm D (cell_of nm).
Proof.
  apply finds_simple; [apply fb_cell_of|apply traced_cell_of|apply nu0_cell_of].
Qed.

Lemma finds_joined_string args : finds sm D (joined_string args).
Proof.
  apply finds_simple;
    [apply fb_joined_string|apply traced_joined_string|apply nu0_joined_string].
Qed.

Lemma finds_builtin nm : finds sm D (builtin nm).
Proof.
  apply finds_simple; [apply fb_builtin|apply traced_builtin|apply nu0_builtin].
Qed.

Lemma finds_load_value_attribute v attr : finds sm D (load_value_attribute v attr).
Proof.
  apply finds_simple;
    [apply fb_load_value_attribute|apply traced_load_value_attribute
    |apply nu0_load_value_attribute].
Qed.

Lemma finds_returnOp v : finds sm D (returnOp v).
Proof.
  apply finds_simple; [apply fb_returnOp|apply traced_returnOp|apply nu0_returnOp].
Qed.

Lemma finds_visit_Constant c : finds sm D (visit_Constant c).
Proof.
  apply finds_simple;
    [apply fb_visit_Constant|apply traced_visit_Constant|apply nu0_visit_Constant].
Qed.

Lemma finds_call_onDone d : finds sm D (call_onDone d).
Proof.
  apply finds_simple; [apply fb_call_onDone|apply traced_call_onDone|apply nu0_call_onDone].
Qed.

Lemma finds_visit_Import names : finds sm D (visit_Import names).
Proof.
  apply finds_simple; [apply fb_visit_Import|apply traced_visit_Import|].
  unfold visit_Import. apply nu0_bind; [|intros _; apply nu0_ret].
  apply nu0_forM_. intros a. apply nu0_pythonImport.
Qed.

Lemma finds_assign_plain tgt v :
  Resolve.plain_target tgt → finds sm D (assign_lhs tgt v).
Proof.
  intros Hp. apply finds_simple;
    [apply fb_assign_lhs|apply traced_assign_lhs|by apply nu0_assign_plain].
Qed.

Lemma finds_visit_Name l id :
  id ∈ D ∨ Builtins.builtin_mlir_name id ≠ None → finds sm D (visit_Name l id).
Proof.
  intros H self g Es Ed. unfold visit_Name. apply wpn_bind, wpn_get.
  destruct (_cell_map self !! id) as [c|] eqn:Ec.
  - by apply (finds_build (block self) (λ r, CellLoad r c)).
  - destruct H as [H|H].
    + rewrite <- Ed in H. apply elem_of_dom in H as [c Hc]. congruence.
    + destruct (Builtins.builtin_mlir_name id); [|done]. by apply finds_builtin.
Qed.

End At.

Lemma wpn_read {A} (h : State → A) self g (Q : A → t → State → Prop) :
  Q (h g) self g → wpn (read h) self g Q.
Proof. done. Qed.

Lemma wpn_on {A} (child : t) (m : M A) self g (Q : A * t → t → State → Prop) :
  wpn m child g (λ a c' g', Q (a, c') self g') → wpn (on child m) self g Q.
Proof. unfold wpn, on. by destruct (m child g) as [g1 [[a c1]|e]]. Qed.

Lemma wpn_nu0 {A} (m : M A) self g : nu0 m → wpn m self g (λ _ _ _, True).
Proof. intros N. apply wpn_intro; [|done]. intros g' e E. by eapply N. Qed.

Lemma scope_map_edits g g' : edits g g' → _scope_map g' = _scope_map g.
Proof. intros E. by destruct (grows_edits _ _ E) as (_ & _ & _ & H & _). Qed.

Lemma wpn_capture_args fb cv : ∀ i m ns cs cc self g
    (Q : gmap string Value * list string * list Value * list Value → t → State → Prop),
  (∀ an, an ∈ cv → nm_id an ∈ dom (_cell_map self)) →
  (∀ r, Q r self g) →
  wpn (capture_args fb cv i m ns cs cc) self g Q.
Proof.
  induction cv as [|an cv IH]; intros i m ns cs cc self g Q Hin HQ; simpl.
  - apply wpn_ret, HQ.
  - apply wpn_bind. unfold _lookup_cell. apply wpn_bind, wpn_get.
    destruct (_cell_map self !! nm_id an) as [c|] eqn:Ec.
    + apply wpn_ret. apply IH; [|done]. intros b Hb. apply Hin. by right.
    + assert (H : nm_id an ∈ dom (_cell_map self)) by (apply Hin; left).
      apply elem_of_dom in H as [c Hc]. congruence.
Qed.

Lemma wpn_create_fun nm a vs self g :
  (∀ an, an ∈ VariableScope.parent_vars vs → nm_id an ∈ dom (_cell_map self)) →
  wpn (create_fun nm a vs) self g
      (λ r s' g', s' = self ∧ _scope_map g' = _scope_map g ∧
                  dom (_cell_map r.1) = scope_names vs).
Proof.
  intros Hin. apply wpn_intro.
  - assert (W : wpn (create_fun nm a vs) self g (λ _ _ _, True)).
    { unfold create_fun. do 5 (apply wpn_bind, wpn_assert).
      apply wpn_bind, wpn_state. apply wpn_bind, wpn_state.
      apply wpn_bind, wpn_capture_args; [done|]. intros [[[cm ns] cs] cc].
      apply wpn_bind, wpn_state.
      destruct (alloc_variable_cells _ _ _ _ _ _) as [[[cm2 ns2] cs2] g3].
      cbn [fst snd]. apply wpn_bind, wpn_state. apply wpn_bind.
      eapply wpn_mono; [apply wpn_nu0, nu0_store_args|]. intros _ s5 g5 _. cbv beta.
      apply wpn_bind, wpn_get. apply wpn_bind, wpn_state. by apply wpn_ret. }
    intros g' e E. unfold wpn in W. by rewrite E in W.
  - intros g' [child fv] s' E.
    destruct (wp_elim _ _ _ _ _ _ _ (create_fun_wp nm a vs self g) E)
      as (H1 & _ & _ & _ & H5).
    split_and!; [done| |done].
    pose proof (traced_scope_map (create_fun nm a vs) self g (traced_create_fun nm a vs)) as S.
    by rewrite E in S.
Qed.

Section Visit.
Variable sm : scope_map.

Lemma finds_mapM {A B} (R : A → Prop) (f : A → M B) D (l : list A) :
  list_all A (λ x, R x → finds sm D (f x)) l → all_ R l → finds sm D (mapM f l).
Proof.
  intros X. induction X as [|x Hx l X IH]; intros Hl; simpl; [apply finds_ret|].
  destruct Hl as [H1 H2].
  apply finds_bind; [by apply Hx|]. intros y.
  apply finds_bind; [by apply IH|]. intros ys. apply finds_ret.
Qed.

Lemma finds_compare_loop e0 visit D args :
  list_all expr (λ e, resolves sm D e → finds sm D (visit e)) args →
  all_ (resolves sm D) args →
  ∀ ops left_, finds sm D (compare_loop e0 visit args ops left_).
Proof.
  intros X. induction X as [|a Ha args X IH]; intros Hl ops left_.
  - destruct ops; [apply finds_ret|by apply finds_raise].
  - destruct ops as [|o ops]; [apply finds_ret|]. destruct Hl as [H1 H2].
    change (compare_loop e0 visit (a :: args) (o :: ops) left_)
      with (right_ ← visit a;
            left_ ← match comparison_map o with
                    | None => undef_value e0
                    | Some op => apply_binop left_ op right_
                    end;
            compare_loop e0 visit args ops left_).
    apply finds_bind; [by apply Ha|]. intros r.
    apply finds_bind; [|intros v; by apply IH].
    destruct (comparison_map o); [apply finds_apply_binop|apply finds_undef_value].
Qed.

Lemma finds_call_keywords visit D ks :
  list_all keyword (λ k, resolves sm D (kw_value k) → finds sm D (visit (kw_value k))) ks →
  all_ (λ k, resolves sm D (kw_value k)) ks →
  ∀ args kws, finds sm D (call_keywords visit ks args kws).
Proof.
  intros X. induction X as [|k Hk ks X IH]; intros Hl args kws; simpl.
  - apply finds_ret.
  - destruct Hl as [H1 H2]. destruct (kw_arg k); [|by apply finds_raise].
    apply finds_bind; [by apply Hk|]. intros v. by apply IH.
Qed.

Lemma finds_joined_parts visit D values :
  list_all expr (λ e, resolves sm D e → finds sm D (visit e)) values →
  all_ (resolves sm D) values →
  finds sm D (joined_parts visit values).
Proof.
  intros X. induction X as [|a Ha values X IH]; intros Hl; simpl; [apply finds_ret|].
  destruct Hl as [H1 H2]. apply finds_bind.
  - destruct a; try (by apply finds_raise); [apply finds_visit_Constant|by apply Ha].
  - intros v. apply finds_bind; [by apply IH|]. intros vs. apply finds_ret.
Qed.

Lemma visit_finds_at D (l : list expr) :
  list_all expr (visit_finds sm) l →
  list_all expr (λ e, resolves sm D e → finds sm D (checked_visit_expr e)) l.
Proof. apply list_all_mono. intros e H. apply H. Qed.

Lemma keywords_finds_at D (l : list keyword) :
  list_all keyword (keyword__all expr (visit_finds sm)) l →
  list_all keyword
    (λ k, resolves sm D (kw_value k) → finds sm D (checked_visit_expr (kw_value k))) l.
Proof.
  intros X. induction X as [|k Hk l X IH]; constructor; [|done].
  destruct Hk as [? ? H]. apply H.
Qed.

Lemma finds_opt_visit D (o : option expr) :
  option_all expr (visit_finds sm) o → opt_ (resolves sm D) o →
  finds sm D (match o with Some u => checked_visit_expr u | None => none_value end).
Proof. intros X H. destruct X as [e He|]; [by apply He|apply finds_none_value]. Qed.


Lemma wpn_generators_loop throw gens :
  list_all comprehension (comprehension__all expr (visit_finds sm)) gens →
  ∀ (last : gset string → Prop) D done l self g,
    gens_resolve sm (resolves sm) last gens D →
    _scope_map g = sm → dom (_cell_map self) = D →
    wpn (generators_loop checked_visit_expr assign_lhs throw gens done l) self g
        (λ _ s' g', _scope_map g' = sm ∧ last (dom (_cell_map s'))).
Proof.
  intros X. induction X as [|gn Hg gens X IH]; intros last D done l self g Hres Es Ed.
  - simpl in *. apply wpn_ret. split; [done|]. by rewrite Ed.
  - destruct Hg as [cid tg _ it Hit fs Hfs asy].
    destruct Hres as (Hrit & Hpt & Hrest). cbn [iter target comp_id] in *.
    change (generators_loop checked_visit_expr assign_lhs throw
              (Comprehension cid tg it fs asy :: gens) done l)
      with (_ ← assert (negb asy);
            _ ← assert (bool_decide (length fs = 0));
            l ← checked_visit_expr it;
            it_ ← get_method l "__iter__";
            i ← invoke it_ [] None;
            next ← get_method i "__next__";
            self ← get;
            '(nextBlock, bodyBlock, bodyValue) ←
              state (invoke_next next (block self) done throw);
            _ ← modify (set_block bodyBlock);
            inner_var_scope ← get_scope cid;
            self ← get;
            '(cell_map, var_name_attrs, cells) ←
              state (alloc_variable_cells (_cell_map self) [] [] (block self)
                       (VariableScope.vars inner_var_scope));
            _ ← modify (set_cell_map cell_map);
            self ← get;
            sv ← Translator.build (block self)
                   (λ r, ScopeExtend r (_scope_value self) var_name_attrs cells);
            _ ← modify (set_scope_value sv);
            _ ← assign_lhs tg bodyValue;
            generators_loop checked_visit_expr assign_lhs throw gens nextBlock (Some l)).
    do 2 (apply wpn_bind, wpn_assert).
    apply wpn_bind. eapply wpn_mono; [by apply (Hit D Hrit)|].
    intros lv s1 g1 [Es1 Ed1]. cbv beta.
    apply wpn_bind. eapply wpn_mono; [by apply (finds_get_method sm D)|].
    intros itv s2 g2 [Es2 Ed2]. cbv beta.
    apply wpn_bind. eapply wpn_mono; [by apply (finds_invoke sm D)|].
    intros iv s3 g3 [Es3 Ed3]. cbv beta.
    apply wpn_bind. eapply wpn_mono; [by apply (finds_get_method sm D)|].
    intros nx s4 g4 [Es4 Ed4]. cbv beta.
    apply wpn_bind, wpn_get. apply wpn_bind, wpn_state.
    pose proof (scope_map_edits _ _ (edits_invoke_next nx (block s4) done throw g4)) as Es5.
    destruct (invoke_next nx (block s4) done throw g4) as [[[nb bb] bv] g5].
    cbn [fst snd] in *.
    apply wpn_bind, wpn_modify. apply wpn_bind. unfold get_scope.
    apply wpn_bind, wpn_read. rewrite Es5, Es4.
    destruct (sm !! cid) as [sc|] eqn:Esc; [|done]. apply wpn_ret.
    apply wpn_bind, wpn_get. apply wpn_bind, wpn_state.
    pose proof (scope_map_edits _ _
      (edits_alloc (_cell_map (set_block bb s4)) [] [] (block (set_block bb s4))
         (VariableScope.vars sc) g5)) as Es6.
    pose proof (alloc_dom (_cell_map (set_block bb s4)) [] [] (block (set_block bb s4))
                  (VariableScope.vars sc) g5) as Ed6.
    destruct (alloc_variable_cells _ _ _ _ _ g5) as [[[cm ns] cs] g6].
    cbn [fst snd] in *.
    apply wpn_bind, wpn_modify. apply wpn_bind, wpn_get. apply wpn_bind, wpn_state.
    rewrite build_fst. apply wpn_bind, wpn_modify.
    set (s7 := set_scope_value _ _). set (g7 := (IR.build _ _ g6).2).
    assert (Es7 : _scope_map g7 = sm) by (unfold g7; simpl; congruence).
    assert (Ed7 : dom (_cell_map s7) = D ∪ list_to_set (VariableScope.vars sc)).
    { unfold s7. simpl. rewrite Ed6. simpl. by rewrite Ed4. }
    apply wpn_bind. eapply wpn_mono; [by apply (finds_assign_plain sm (D ∪ list_to_set (VariableScope.vars sc)) tg bv Hpt)|].
    intros u s8 g8 [Es8 Ed8]. cbv beta.
    by apply (IH last (D ∪ list_to_set (VariableScope.vars sc))); [apply Hrest|..].
Qed.

Lemma finds_ListComp l elt generators :
  visit_finds sm elt →
  list_all comprehension (comprehension__all expr (visit_finds sm)) generators →
  visit_finds sm (ListComp l elt generators).
Proof.
  intros Helt X D Hres self g Es Ed.
  change (resolves sm D (ListComp l elt generators))
    with (gens_resolve sm (resolves sm) (λ D', resolves sm D' elt) generators D) in Hres.
  change (checked_visit_expr (ListComp l elt generators))
    with (throwBlock ← get_except_block;
          self ← get;
          let orig_cell_map := _cell_map self in
          let orig_scope := _scope_value self in
          r ← Translator.build (block self) (λ r, ListOp r []);
          append ← get_method r "append";
          self ← get;
          finalBlock ← Translator.create_after (block self) [];
          '(doneBlock, l) ←
            generators_loop checked_visit_expr assign_lhs throwBlock
                            generators finalBlock None;
          e ← checked_visit_expr elt;
          _ ← invoke append [e] None;
          self ← get;
          _ ← emit (block self) (BranchOp [] doneBlock);
          _ ← modify (set_block finalBlock);
          _ ← modify (set_cell_map orig_cell_map);
          _ ← modify (set_scope_value orig_scope);
          match l with
          | Some l => mret l
          | None => raise (UnboundLocalError "l")
          end).
  apply wpn_bind. eapply wpn_mono; [by apply (finds_get_except_block sm D)|].
  intros p s1 g1 [Es1 Ed1]. cbv beta. apply wpn_bind, wpn_get. cbv zeta.
  apply wpn_bind. eapply wpn_mono; [by apply (finds_build sm D)|].
  intros r s2 g2 [Es2 Ed2]. cbv beta.
  apply wpn_bind. eapply wpn_mono; [by apply (finds_get_method sm D)|].
  intros ap s3 g3 [Es3 Ed3]. cbv beta. apply wpn_bind, wpn_get.
  apply wpn_bind. eapply wpn_mono; [by apply (finds_create_after sm D)|].
  intros fb s4 g4 [Es4 Ed4]. cbv beta.
  apply wpn_bind. eapply wpn_mono.
  { by apply (wpn_generators_loop p generators X _ D fb None s4 g4 Hres). }
  intros [db lv] s5 g5 [Es5 Hlast]. cbv beta iota.
  apply wpn_bind. eapply wpn_mono; [by apply (Helt _ Hlast)|].
  intros ev s6 g6 [Es6 Ed6]. cbv beta.
  apply wpn_bind. eapply wpn_mono; [by apply (finds_invoke sm (dom (_cell_map s5)))|].
  intros iv s7 g7 [Es7 Ed7]. cbv beta. apply wpn_bind, wpn_get.
  apply wpn_bind. eapply wpn_mono; [by apply (finds_emit sm (dom (_cell_map s5)))|].
  intros u s8 g8 [Es8 Ed8]. cbv beta.
  apply wpn_bind, wpn_modify. apply wpn_bind, wpn_modify. apply wpn_bind, wpn_modify.
  destruct lv; [|done]. apply wpn_ret. split; [done|]. simpl. done.
Qed.

Lemma finds_Lambda l node_id largs body :
  visit_finds sm body → visit_finds sm (Lambda l node_id largs body).
Proof.
  intros Hbody D Hres self g Es Ed.
  change (resolves sm D (Lambda l node_id largs body))
    with (∀ s, sm !! node_id = Some s →
            (∀ an, an ∈ VariableScope.parent_vars s → nm_id an ∈ D) ∧
            resolves sm (scope_names s) body) in Hres.
  change (checked_visit_expr (Lambda l node_id largs body))
    with (var_scope ← get_scope node_id;
          '(funTranslator, fun_value) ← create_fun "_lambda" largs var_scope;
          _ ← on funTranslator (v ← checked_visit_expr body; returnOp v);
          mret fun_value).
  apply wpn_bind. unfold get_scope. apply wpn_bind, wpn_read. rewrite Es.
  destruct (sm !! node_id) as [sc|] eqn:Esc; [|done]. apply wpn_ret.
  destruct (Hres sc eq_refl) as [Hpv Hb].
  apply wpn_bind. eapply wpn_mono.
  { apply wpn_create_fun. intros an Han. rewrite Ed. by apply Hpv. }
  intros [child fv] s1 g1 (-> & Es1 & Edc). cbv beta iota. cbn [fst] in Edc.
  apply wpn_bind, wpn_on. eapply wpn_mono.
  { apply (finds_bind sm (scope_names sc) (checked_visit_expr body) returnOp);
      [by apply Hbody|intros v; apply finds_returnOp|congruence|done]. }
  intros u c2 g2 [Es2 _]. cbv beta. apply wpn_ret. done.
Qed.


Theorem visit_finds_all (e : expr) : visit_finds sm e.
Proof.
  induction e using expr_ind.
  - (* Constant *) intros D _. apply finds_visit_Constant.
  - (* Name *) intros D Hr. by apply finds_visit_Name.
  - (* Attribute *)
    intros D Hr. simpl in *. apply finds_bind; [by apply IHe|]. intros val.
    destruct ctx; [apply finds_load_value_attribute|by apply finds_raise..].
  - (* Subscript *)
    intros D [Hr1 Hr2]. simpl. apply finds_bind; [by apply IHe1|]. intros v.
    apply finds_bind; [by apply IHe2|]. intros sl.
    apply finds_bind; [apply finds_get_method|]. intros gi. apply finds_invoke.
  - (* Slice *)
    intros D (Rlo & Rup & Rst). simpl.
    apply finds_bind; [by apply finds_opt_visit|]. intros up.
    apply finds_bind; [apply finds_builtin|]. intros sf.
    match goal with H : option_all _ _ step |- _ => destruct H as [st Hst'|] end.
    + apply finds_bind; [by apply finds_opt_visit|]. intros lo.
      apply finds_bind; [by apply Hst'|]. intros stv. apply finds_invoke.
    + match goal with H : option_all _ _ lower |- _ => destruct H as [lo Hlo'|] end.
      * apply finds_bind; [by apply Hlo'|]. intros lov. apply finds_invoke.
      * apply finds_invoke.
  - (* Tuple *)
    intros D Hr. simpl. apply finds_bind; [apply finds_get|]. intros s.
    apply finds_bind; [by eapply finds_mapM; [apply visit_finds_at|]|].
    intros args. by apply finds_build.
  - (* List *)
    intros D Hr. simpl. apply finds_bind; [apply finds_get|]. intros s.
    apply finds_bind; [by eapply finds_mapM; [apply visit_finds_at|]|].
    intros args. by apply finds_build.
  - (* UnaryOp *)
    intros D Hr. simpl. destruct (unary_operator_map op); [|apply finds_undef_value].
    apply finds_bind; [by apply IHe|]. intros a. apply finds_apply_unop.
  - (* BinOp *)
    intros D [Hr1 Hr2]. simpl. destruct (bin_operator_map op); [|apply finds_undef_value].
    apply finds_bind; [by apply IHe1|]. intros va.
    apply finds_bind; [by apply IHe2|]. intros vb. apply finds_apply_binop.
  - (* Compare *)
    intros D [Hr1 Hr2]. simpl. apply finds_bind; [by apply IHe|]. intros a.
    apply finds_compare_loop; [by apply visit_finds_at|done].
  - (* Call *)
    intros D (Hr1 & Hr2 & Hr3). simpl. apply finds_bind.
    { destruct (is_other e); [by apply finds_raise|by apply IHe]. }
    intros fv.
    apply finds_bind; [by eapply finds_mapM; [apply visit_finds_at|]|]. intros args.
    apply finds_bind; [by apply finds_call_keywords; [apply keywords_finds_at|]|].
    intros [args' kws]. apply finds_invoke.
  - (* FormattedValue *)
    intros D [Hr1 Hr2]. simpl. apply finds_bind; [by apply IHe|]. intros val.
    case_bool_decide; [by apply finds_raise|].
    apply finds_bind; [by apply finds_opt_visit|]. intros fmt.
    apply finds_format_value.
  - (* JoinedStr *)
    intros D Hr. simpl.
    apply finds_bind; [by apply finds_joined_parts; [apply visit_finds_at|]|].
    intros args. apply finds_joined_string.
  - (* Lambda *) by apply finds_Lambda.
  - (* ListComp *) by apply finds_ListComp.
  - (* GeneratorExp *) intros D _. apply finds_undef_value.
  - (* OtherExpr *) intros D _. by apply finds_raise.
Qed.

(** *** Statements *)

Lemma finds_modify D h :
  (∀ s, _cell_map (h s) = _cell_map s) → finds sm D (modify h).
Proof. intros H self g Es Ed. apply wpn_modify. by rewrite H. Qed.

Lemma finds_state_edits {A} D (h : State → A * State) :
  (∀ g, edits g (h g).2) → finds sm D (state h).
Proof. intros H. apply finds_simple; [apply fb_state|by apply traced_state|apply nu0_state]. Qed.

Lemma finds_assignable D tgt v : assignable sm D tgt → finds sm D (assign_lhs tgt v).
Proof.
  destruct tgt; try apply finds_assign_plain.
  intros [H1 H2]. simpl.
  apply finds_bind; [by apply visit_finds_all|]. intros a.
  apply finds_bind; [by apply visit_finds_all|]. intros idx.
  apply finds_bind; [apply finds_get|]. intros s. by apply finds_emit.
Qed.

Lemma finds_visit_Return D value :
  opt_ (resolves sm D) value → finds sm D (visit_Return value).
Proof.
  intros H. unfold visit_Return. apply finds_bind; [apply finds_get|]. intros s.
  apply finds_bind.
  { destruct (onDone s); [apply finds_ret|apply finds_call_onDone]. }
  intros _. apply finds_bind.
  - destruct value; [by apply visit_finds_all|]. by intros self g Es Ed.
  - intros v. apply finds_bind; [apply finds_returnOp|]. intros _. apply finds_ret.
Qed.

Lemma finds_with_items D items :
  all_ (λ it, resolves sm D (context_expr it)) items →
  ∀ exits, finds sm D (with_items items exits).
Proof.
  induction items as [|item items IH]; intros H exits; simpl; [apply finds_ret|].
  destruct H as [H1 H2].
  apply finds_bind; [by apply visit_finds_all|]. intros ctx.
  apply finds_bind; [apply finds_get_method|]. intros en.
  apply finds_bind; [apply finds_get_method|]. intros ex.
  apply finds_bind; [apply finds_invoke|]. intros r.
  apply finds_bind; [|intros _; by apply IH].
  destruct (optional_vars item) as [[]|];
    first [apply finds_ret|by apply finds_raise|by intros self g Es Ed].
Qed.

Lemma finds_visit_stmts_with visit D (l : list stmt) :
  list_all stmt (λ s, closed sm D s → finds sm D (visit s)) l →
  all_ (closed sm D) l →
  finds sm D (visit_stmts_with visit l).
Proof.
  intros X. induction X as [|s Hs l X IH]; intros Hl; simpl; [apply finds_ret|].
  destruct Hl as [H1 H2]. apply finds_bind; [by apply Hs|].
  intros [|]; [by apply IH|apply finds_ret].
Qed.

Lemma stmts_finds_at D (l : list stmt) :
  list_all stmt (stmt_finds sm) l →
  list_all stmt (λ s, closed sm D s → finds sm D (checked_visit_stmt s)) l.
Proof. apply list_all_mono. intros s H. apply H. Qed.

Lemma finds_fall_through D (c : bool) (dest : nat) :
  finds sm D (if c then self ← get; emit (block self) (BranchOp [] dest) else mret tt).
Proof.
  destruct c; [|apply finds_ret].
  apply finds_bind; [apply finds_get|]. intros s. by apply finds_emit.
Qed.

Lemma finds_if_arm D visit_stmts initBlock newBlock stmts :
  finds sm D (visit_stmts stmts) →
  finds sm D (if_arm visit_stmts initBlock newBlock stmts).
Proof.
  intros H. unfold if_arm. destruct (VariableCapture.nonempty stmts); [|apply finds_ret].
  apply finds_bind; [apply finds_create_after|]. intros ab.
  apply finds_bind; [apply finds_set_block|]. intros _.
  apply finds_bind; [done|]. intros c.
  apply finds_bind; [apply finds_fall_through|]. intros _. apply finds_ret.
Qed.

Lemma finds_FunctionDef node_id fname fargs body :
  list_all stmt (stmt_finds sm) body →
  stmt_finds sm (FunctionDef node_id fname fargs body).
Proof.
  intros X D Hres self g Es Ed.
  change (closed sm D (FunctionDef node_id fname fargs body))
    with (∀ s, sm !! node_id = Some s →
            (∀ an, an ∈ VariableScope.parent_vars s → nm_id an ∈ D) ∧
            all_ (closed sm (scope_names s)) body) in Hres.
  change (checked_visit_stmt (FunctionDef node_id fname fargs body))
    with (var_scope ← get_scope node_id;
          '(fun_translator, fun_value) ← create_fun fname fargs var_scope;
          '(cont, fun_translator) ←
            on fun_translator (visit_stmts_with checked_visit_stmt body);
          _ ← (if (cont : bool) then
                 _ ← on fun_translator (n ← none_value; returnOp n); mret tt
               else mret tt);
          self ← get;
          c ← cell_of fname;
          _ ← emit (block self) (CellStore c fun_value);
          mret true).
  apply wpn_bind. unfold get_scope. apply wpn_bind, wpn_read. rewrite Es.
  destruct (sm !! node_id) as [sc|] eqn:Esc; [|done]. apply wpn_ret.
  destruct (Hres sc eq_refl) as [Hpv Hb].
  apply wpn_bind. eapply wpn_mono.
  { apply wpn_create_fun. intros an Han. rewrite Ed. by apply Hpv. }
  intros [child fv] s1 g1 (-> & Es1 & Edc). cbv beta iota. cbn [fst] in Edc.
  apply wpn_bind, wpn_on. eapply wpn_mono.
  { apply (finds_visit_stmts_with checked_visit_stmt (scope_names sc) body);
      [by apply stmts_finds_at|done|congruence|done]. }
  intros cont c2 g2 [Es2 Ed2]. cbv beta iota.
  apply wpn_bind. eapply wpn_mono.
  { instantiate (1 := λ _ s' g', s' = self ∧ _scope_map g' = sm).
    destruct cont; [|by apply wpn_ret].
    apply wpn_bind, wpn_on. eapply wpn_mono.
    { apply (finds_bind sm (scope_names sc) none_value returnOp);
        [apply finds_none_value|intros n; apply finds_returnOp|done|done]. }
    intros u c3 g3 [Es3 _]. cbv beta. by apply wpn_ret. }
  intros u s3 g3 [-> Es3]. cbv beta.
  apply wpn_bind, wpn_get.
  apply wpn_bind. eapply wpn_mono; [by apply (finds_cell_of sm D)|].
  intros c s4 g4 [Es4 Ed4]. cbv beta.
  apply wpn_bind. eapply wpn_mono; [by apply (finds_emit sm D)|].
  intros u' s5 g5 [Es5 Ed5]. cbv beta. by apply wpn_ret.
Qed.

Theorem stmt_finds_all (s : stmt) : stmt_finds sm s.
Proof.
  induction s using stmt_ind.
  - (* Assign *)
    intros D [Hr1 Hr2]. simpl. destruct targets as [|tgt [|]]; try by apply finds_raise.
    destruct Hr2 as [Hr2 _].
    apply finds_bind; [by apply visit_finds_all|]. intros r.
    apply finds_bind; [by apply finds_assignable|]. intros _. apply finds_ret.
  - (* AugAssign *) intros D _. apply finds_ret.
  - (* Expr *)
    intros D Hr. simpl. apply finds_bind; [by apply visit_finds_all|]. intros _.
    apply finds_ret.
  - (* For *)
    intros D (Hr1 & Hr2 & Hr3). simpl.
    destruct (VariableCapture.nonempty orelse); [by apply finds_raise|].
    apply finds_bind; [by apply visit_finds_all|]. intros r.
    apply finds_bind; [apply finds_get_method|]. intros en.
    apply finds_bind; [apply finds_invoke|]. intros i.
    apply finds_bind; [apply finds_get_method|]. intros nx.
    apply finds_bind; [apply finds_get_except_block|]. intros tb.
    apply finds_bind; [apply finds_get|]. intros s.
    apply finds_bind; [apply finds_create_after|]. intros db.
    apply finds_bind; [apply finds_state_edits; intros g; apply edits_invoke_next|].
    intros [[nb bb] bv].
    apply finds_bind; [apply finds_set_block|]. intros _.
    apply finds_bind; [by apply finds_assign_plain|]. intros _.
    apply finds_bind; [by apply finds_visit_stmts_with; [apply stmts_finds_at|]|].
    intros c.
    apply finds_bind; [apply finds_fall_through|]. intros _.
    apply finds_bind; [apply finds_set_block|]. intros _. apply finds_ret.
  - (* FunctionDef *) by apply finds_FunctionDef.
  - (* If *)
    intros D (Hr1 & Hr2 & Hr3). simpl.
    apply finds_bind; [by apply visit_finds_all|]. intros tv.
    apply finds_bind; [apply finds_get|]. intros s.
    apply finds_bind; [by apply finds_build|]. intros c.
    apply finds_bind; [apply finds_create_after|]. intros nb.
    apply finds_bind.
    { apply finds_if_arm. by apply finds_visit_stmts_with; [apply stmts_finds_at|]. }
    intros fbk. apply finds_bind.
    { apply finds_if_arm. by apply finds_visit_stmts_with; [apply stmts_finds_at|]. }
    intros tbk.
    apply finds_bind; [by apply finds_emit|]. intros _.
    apply finds_bind; [apply finds_set_block|]. intros _. apply finds_ret.
  - (* Import *) intros D _. apply finds_visit_Import.
  - (* Return *) intros D Hr. by apply finds_visit_Return.
  - (* With *)
    intros D [Hr1 Hr2].
    change (checked_visit_stmt (With items body))
      with (exitMethods ← with_items items [];
            self ← get;
            let prevDone := onDone self in
            let onDone_ := DoneClosure exitMethods prevDone in
            _ ← modify (set_onDone onDone_);
            cont ← visit_stmts_with checked_visit_stmt body;
            _ ← modify (set_onDone prevDone);
            _ ← (if (cont : bool) then call_onDone onDone_ else mret tt);
            mret cont).
    apply finds_bind; [by apply finds_with_items|]. intros ex.
    apply finds_bind; [apply finds_get|]. intros s. cbv zeta.
    apply finds_bind; [by apply finds_modify|]. intros _.
    apply finds_bind; [by apply finds_visit_stmts_with; [apply stmts_finds_at|]|].
    intros cont.
    apply finds_bind; [by apply finds_modify|]. intros _.
    apply finds_bind; [|intros _; apply finds_ret].
    destruct cont; [apply finds_call_onDone|apply finds_ret].
  - (* While *)
    intros D [Hr1 Hr2]. simpl.
    destruct (VariableCapture.nonempty orelse); [by apply finds_raise|].
    apply finds_bind; [apply finds_get|]. intros s.
    apply finds_bind; [apply finds_create_after|]. intros tb.
    apply finds_bind; [by apply finds_emit|]. intros _.
    apply finds_bind; [apply finds_set_block|]. intros _.
    apply finds_bind; [by apply visit_finds_all|]. intros te.
    apply finds_bind; [apply finds_get|]. intros s'.
    apply finds_bind; [by apply finds_build|]. intros c.
    apply finds_bind; [apply finds_create_after|]. intros bb.
    apply finds_bind; [apply finds_create_after|]. intros db.
    apply finds_bind; [by apply finds_emit|]. intros _.
    apply finds_bind; [apply finds_set_block|]. intros _.
    apply finds_bind; [by apply finds_visit_stmts_with; [apply stmts_finds_at|]|].
    intros bc.
    apply finds_bind; [apply finds_fall_through|]. intros _.
    apply finds_bind; [apply finds_set_block|]. intros _. apply finds_ret.
  - (* OtherStmt *) intros D _. by apply finds_raise.
Qed.

Lemma finds_visit_stmts D (l : list stmt) :
  all_ (closed sm D) l → finds sm D (visit_stmts l).
Proof.
  apply finds_visit_stmts_with.
  induction l; constructor; [intros H; by apply stmt_finds_all|done].
Qed.

End Visit.

End Finds.

(** ** The comprehension loops as a nest of scopes *)

Section Nested.
Import VariableCapture Resolve.

Lemma St_bind_assoc {A B C} (x : St A) (k : A → St B) (h : B → St C) m :
  ((x ≫= k) ≫= h) m = (x ≫= (λ a, k a ≫= h)) m.
Proof. unfold mbind, St_bind, bind. by destruct (x m) as [[a m1]|]. Qed.

Lemma St_bind_ext {A B} (x : St A) (k k' : A → St B) m :
  (∀ a m1, k a m1 = k' a m1) → (x ≫= k) m = (x ≫= k') m.
Proof. intros H. unfold mbind, St_bind, bind. destruct (x m) as [[a m1]|]; auto. Qed.

Lemma St_bind_ret {A} (x : St A) m : (x ≫= ret) m = x m.
Proof. unfold mbind, St_bind, bind, ret. by destruct (x m) as [[a m1]|]. Qed.

Lemma comp_loop_nested visit elt gens : ∀ c caps ids0 m,
  ('(vc, caps') ← comp_loop visit gens c caps;
   vc ← visit elt vc;
   pop_captures (rev (map comp_id gens) ++ ids0) caps' vc) m
  = (top ← nested_scopes visit elt gens c; pop_captures ids0 caps top) m.
Proof.
  induction gens as [|g gens IH]; intros c caps ids0 m; [done|].
  change (comp_loop visit (g :: gens) c caps)
    with (_ ← assert (negb (is_async g));
          _ ← assert (bool_decide (length (ifs g) = 0));
          c1 ← visit (iter g) c;
          inner ← lift (addLhs (target g) init);
          comp_loop visit gens inner (c1 :: caps)).
  change (nested_scopes visit elt (g :: gens) c)
    with (_ ← assert (negb (is_async g));
          _ ← assert (bool_decide (length (ifs g) = 0));
          c1 ← visit (iter g) c;
          inner ← lift (addLhs (target g) init);
          inner ← nested_scopes visit elt gens inner;
          close_scope (comp_id g) inner c1).
  replace (rev (map comp_id (g :: gens)) ++ ids0)
    with (rev (map comp_id gens) ++ comp_id g :: ids0)
    by (simpl; by rewrite <- app_assoc).
  rewrite !St_bind_assoc. apply St_bind_ext. intros _ m1.
  rewrite !St_bind_assoc. apply St_bind_ext. intros _ m2.
  rewrite !St_bind_assoc. apply St_bind_ext. intros c1 m3.
  rewrite !St_bind_assoc. apply St_bind_ext. intros inner m4.
  rewrite IH. rewrite !St_bind_assoc. done.
Qed.

Lemma visit_ListComp_nested l elt gens c m :
  checked_visit_expr (ListComp l elt gens) c m
  = nested_scopes checked_visit_expr elt gens c m.
Proof.
  change (checked_visit_expr (ListComp l elt gens))
    with (λ self, '(var_capture, captures) ← comp_loop checked_visit_expr gens self [];
                  var_capture ← checked_visit_expr elt var_capture;
                  pop_captures (rev (map comp_id gens)) captures var_capture).
  cbv beta.
  rewrite <- (app_nil_r (rev (map comp_id gens))).
  rewrite (comp_loop_nested checked_visit_expr elt gens c [] [] m).
  apply St_bind_ret.
Qed.

(** X19: the two loops of [visit_ListComp] nest the scopes of the
    generators: the analysis of a comprehension is that of its first
    iterable in the enclosing scope, then of the rest of the comprehension
    in a scope of its own that holds the first target and is closed into
    the enclosing scope under the identity of the first generator; with no
    generator left, the rest is the element. *)
Theorem listcomp_scopes_nest (l : loc) (elt : expr) (g : comprehension)
    (gens : list comprehension) (c : t) (m : scope_map) :
  checked_visit_expr (ListComp l elt []) c m = checked_visit_expr elt c m ∧
  checked_visit_expr (ListComp l elt (g :: gens)) c m =
    (_ ← assert (negb (is_async g));
     _ ← assert (bool_decide (length (ifs g) = 0));
     c1 ← checked_visit_expr (iter g) c;
     inner ← lift (addLhs (target g) init);
     inner ← checked_visit_expr (ListComp l elt gens) inner;
     close_scope (comp_id g) inner c1) m.
Proof.
  split; [by rewrite visit_ListComp_nested|].
  rewrite visit_ListComp_nested.
  change (nested_scopes checked_visit_expr elt (g :: gens) c)
    with (_ ← assert (negb (is_async g));
          _ ← assert (bool_decide (length (ifs g) = 0));
          c1 ← checked_visit_expr (iter g) c;
          inner ← lift (addLhs (target g) init);
          inner ← nested_scopes checked_visit_expr elt gens inner;
          close_scope (comp_id g) inner c1).
  apply St_bind_ext. intros _ m1. apply St_bind_ext. intros _ m2.
  apply St_bind_ext. intros c1 m3. apply St_bind_ext. intros inner m4.
  unfold mbind, St_bind, bind. by rewrite visit_ListComp_nested.
Qed.

End Nested.

(** ** What the analyser files covers what the translator looks up *)

Section Covers.
Import VariableCapture Scopes Resolve.
#[local] Set Warnings "-clear-no-such-hyp".

Lemma filed_elem c n :
  n ∈ filed c ↔ n ∈ vars c ∨ n ∈ (references c).*1.
Proof. unfold filed. rewrite elem_of_union, !elem_of_list_to_set. done. Qed.

Lemma filed_add_reference a c : filed c ⊆ filed (add_reference a c).
Proof. intros n. rewrite !filed_elem. apply add_reference_filed. Qed.

Lemma filed_addVar x c : filed c ⊆ filed (addVar x c).
Proof.
  intros n. rewrite !filed_elem. unfold addVar. simpl.
  rewrite set_add_elem, dict_pop_keys, list_elem_of_filter.
  destruct (decide (n = x)); tauto.
Qed.

Lemma filed_moves (f : t → St t) c m c' m' :
  moves (λ c c', filed c ⊆ filed c') f → f c m = Ok (c', m') → filed c ⊆ filed c'.
Proof. intros H. apply H. Qed.

Lemma filed_refs l c : filed c ⊆ filed (foldl (λ s v, add_reference v s) c l).
Proof.
  revert c. induction l as [|a l IH]; intros c; simpl; [done|].
  etrans; [apply filed_add_reference|apply IH].
Qed.

Lemma filed_vars {A} (h : A → string) l c :
  filed c ⊆ filed (foldl (λ s x, addVar (h x) s) c l).
Proof.
  revert c. induction l as [|a l IH]; intros c; simpl; [done|].
  etrans; [apply filed_addVar|apply IH].
Qed.

Lemma cov_ext f f' I R : (∀ c m, f c m = f' c m) → cov f I R → cov f' I R.
Proof. intros E H c m c' m' Hf. apply H. by rewrite E. Qed.

Lemma cov_weaken f I (R R' : scope_map → gset string → Prop) :
  (∀ mf D, R mf D → R' mf D) → cov f I R → cov f I R'.
Proof.
  intros HR H c m c' m' Hf. destruct (H _ _ _ _ Hf) as (H1 & H2 & H3).
  split_and!; [done..|]. intros Hnd mf D Ha Hd. by apply HR, H3.
Qed.

Lemma cov_ret (h : t → t) (R : scope_map → gset string → Prop) :
  (∀ c, filed c ⊆ filed (h c)) →
  (∀ c mf D, filed (h c) ⊆ D → R mf D) →
  cov (λ c, ret (h c)) [] R.
Proof.
  intros Hf HR c m c' m' [-> ->]%ret_Ok. split_and!; [done..|].
  intros _ mf D _ Hd. by eapply HR.
Qed.

Lemma cov_fail f I R : (∀ c m c' m', f c m ≠ Ok (c', m')) → cov f I R.
Proof. intros H c m c' m' E. by apply H in E. Qed.

Lemma cov_bind f1 f2 I1 I2 (R1 R2 : scope_map → gset string → Prop) :
  cov f1 I1 R1 → cov f2 I2 R2 →
  cov (λ c, c1 ← f1 c; f2 c1) (I1 ++ I2) (λ mf D, R1 mf D ∧ R2 mf D).
Proof.
  intros H1 H2 c m c' m' (c1 & m1 & E1 & E2)%bind_Ok.
  destruct (H1 _ _ _ _ E1) as (F1 & W1 & C1).
  destruct (H2 _ _ _ _ E2) as (F2 & W2 & C2).
  split_and!.
  - by etrans.
  - intros j Hj. rewrite elem_of_app in Hj. rewrite W2, W1; tauto.
  - intros [Hn1 [Hdis Hn2]]%NoDup_app mf D Ha Hd. split.
    + apply C1; [done| |by etrans].
      intros j Hj. rewrite Ha by (rewrite elem_of_app; tauto).
      apply W2. by apply Hdis.
    + apply C2; [done| |done]. intros j Hj. apply Ha. rewrite elem_of_app. tauto.
Qed.

Lemma cov_assert b (k : t → St t) I R :
  cov k I R → cov (λ c, _ ← assert b; k c) I R.
Proof.
  intros H c m c' m' (u & m1 & [_ ->]%assert_Ok & E)%bind_Ok. by apply H.
Qed.

Lemma cov_each {A} (f : A → t → St t) (idx : A → list nat)
    (R : scope_map → gset string → A → Prop) (l : list A) :
  list_all A (λ x, cov (f x) (idx x) (λ mf D, R mf D x)) l →
  cov (each f l) (concat (map idx l)) (λ mf D, all_ (R mf D) l).
Proof.
  intros X. induction X as [|x Hx l X IH].
  - simpl. by apply (cov_ret (λ c, c)).
  - simpl. by apply (cov_bind (f x) (each f l)).
Qed.

Lemma cov_opt {A} (f : A → t → St t) (idx : A → list nat)
    (R : scope_map → gset string → A → Prop) (o : option A) :
  option_all A (λ x, cov (f x) (idx x) (λ mf D, R mf D x)) o →
  cov (opt f o) (from_option idx [] o) (λ mf D, opt_ (R mf D) o).
Proof.
  intros X. destruct X as [x Hx|]; simpl; [done|]. by apply (cov_ret (λ c, c)).
Qed.

Lemma each_r_plain elts :
  list_all expr (λ tgt, ∀ c c', addLhs tgt c = Ok c' → plain_target tgt) elts →
  ∀ c c', each_r addLhs elts c = Ok c' → all_ plain_target elts.
Proof.
  intros X. induction X as [|x Hx l X IH]; intros c c' E; simpl in *; [done|].
  destruct (addLhs x c) as [c1|] eqn:E1; [|done]. eauto.
Qed.

Lemma addLhs_plain tgt : ∀ c c', addLhs tgt c = Ok c' → plain_target tgt.
Proof.
  induction tgt using expr_ind; intros c c' E; simpl in E; try done.
  simpl. by eapply each_r_plain.
Qed.

Lemma filed_addLhs tgt c c' : addLhs tgt c = Ok c' → filed c ⊆ filed c'.
Proof.
  apply (moves_addLhs (λ c c', filed c ⊆ filed c')); [done| |apply filed_addVar].
  intros c1 c2 c3 ? ?. by etrans.
Qed.

Lemma cov_addLhs tgt :
  cov (λ c, lift (addLhs tgt c)) [] (λ _ _, plain_target tgt).
Proof.
  intros c m c' m' [E ->]%lift_Ok. split_and!; [by eapply filed_addLhs|done|].
  intros _ mf D _ _. by eapply addLhs_plain.
Qed.

Lemma tidy_keeps_expr e : keeps tidy (λ _, True) (checked_visit_expr e).
Proof.
  apply keeps_visit_expr;
    auto using tidy_init, tidy_add_reference, tidy_addVar.
Qed.

Lemma tidy_keeps_stmts l : keeps tidy (λ _, True) (each checked_visit_stmt l).
Proof.
  apply (keeps_visit_stmts tidy (λ _, True));
    auto using tidy_init, tidy_add_reference, tidy_addVar.
Qed.

Lemma filed_scope_names c : tidy c → scope_names (mkScope c) = filed c.
Proof.
  intros (_ & _ & Hk). unfold scope_names, filed, mkScope, VariableScope.init. simpl.
  rewrite keys_are_ids; [set_solver|]. intros k a H. by apply Hk.
Qed.

(** A nested scope: [pre] makes the analyser of the scope, [body] visits
    what is inside on it, and the scope is closed into the enclosing
    analyser under [i]. *)
Lemma cov_scope (pre : St t) (body : t → St t) (i : nat) (Tp : Prop)
    (Ib : list nat) (Rb : scope_map → gset string → Prop) :
  (∀ m c0 m0, pre m = Ok (c0, m0) → tidy c0 ∧ m0 = m ∧ Tp) →
  keeps tidy (λ _, True) body →
  cov body Ib Rb →
  cov (λ c, inner ← pre; inner ← body inner; close_scope i inner c) (Ib ++ [i])
      (λ mf D, Tp ∧ ∀ s, mf !! i = Some s →
         (∀ an, an ∈ VariableScope.parent_vars s → nm_id an ∈ D) ∧
         ∀ D', scope_names s ⊆ D' → Rb mf D').
Proof.
  intros Hpre Hk Hb c m c' m' (c0 & m0 & E0 & E)%bind_Ok.
  apply bind_Ok in E as (c1 & m1 & E1 & E2).
  destruct (Hpre _ _ _ E0) as (T0 & -> & HT).
  destruct (Hk _ _ _ _ T0 I E1) as [T1 _].
  destruct (Hb _ _ _ _ E1) as (_ & W1 & C1).
  unfold close_scope in E2. injection E2 as <- <-.
  split_and!.
  - apply filed_refs.
  - intros j Hj. rewrite elem_of_app, list_elem_of_singleton in Hj.
    rewrite lookup_insert_ne by (intros ->; tauto). apply W1. tauto.
  - intros [Hn [Hdis _]]%NoDup_app mf D Ha Hd. split; [done|].
    intros s Hs. rewrite Ha in Hs by (rewrite elem_of_app, list_elem_of_singleton; tauto).
    rewrite lookup_insert_eq in Hs. injection Hs as <-. split.
    + intros an Han. apply Hd, filed_elem.
      destruct T1 as (_ & _ & Hkeys).
      apply (add_references_file (references c1).*2 c); [|done].
      intros a [[k a'] [-> Hin]]%list_elem_of_fmap. simpl.
      by destruct (Hkeys _ _ Hin) as [-> ?].
    + intros D' HD'. apply C1; [done| |by rewrite <- filed_scope_names].
      intros j Hj. rewrite Ha by (rewrite elem_of_app; tauto).
      apply lookup_insert_ne. intros ->. eapply Hdis; [done|]. by left.
Qed.

Lemma pre_addArgs a m c0 m0 :
  addArgs a init m = Ok (c0, m0) → tidy c0 ∧ m0 = m ∧ True.
Proof.
  intros E.
  destruct (keeps_addArgs tidy tidy_addVar a init m c0 m0 tidy_init E) as [? ?]. done.
Qed.

Lemma pre_addLhs tgt m c0 m0 :
  lift (addLhs tgt init) m = Ok (c0, m0) → tidy c0 ∧ m0 = m ∧ plain_target tgt.
Proof.
  intros [E ->]%lift_Ok. split_and!; [|done|by eapply addLhs_plain].
  eapply (keeps_addLhs tidy tidy_addVar); [apply tidy_init|exact E].
Qed.

Lemma cov_nested l elt gens :
  cov (checked_visit_expr elt) (ids elt) (λ mf D, resolves mf D elt) →
  list_all comprehension
    (comprehension__all expr
       (λ e, cov (checked_visit_expr e) (ids e) (λ mf D, resolves mf D e))) gens →
  cov (nested_scopes checked_visit_expr elt gens) (ids (ListComp l elt gens))
      (λ mf D, resolves mf D (ListComp l elt gens)).
Proof.
  intros He X. induction X as [|g Hg gens X IH]; [exact He|].
  destruct Hg as [cid tg Htg it Hit fs Hfs asy].
  change (ids (ListComp l elt (Comprehension cid tg it fs asy :: gens)))
    with (ids it ++ ids (ListComp l elt gens) ++ [cid]).
  cbn [nested_scopes is_async ifs iter target comp_id].
  do 2 apply cov_assert.
  assert (Hk : keeps tidy (λ _, True) (nested_scopes checked_visit_expr elt gens)).
  { intros c m c' m' Hc _ E. rewrite <- (visit_ListComp_nested l) in E.
    by eapply (tidy_keeps_expr (ListComp l elt gens)). }
  pose proof (cov_scope (lift (addLhs tg init)) _ cid (plain_target tg) _ _
                (pre_addLhs tg) Hk IH) as Hs.
  pose proof (cov_bind _ _ _ _ _ _ Hit Hs) as Hb.
  eapply cov_weaken; [|exact Hb].
  intros mf D (H1 & H2 & H3). cbn. split_and!; [done..|].
  intros s Hsc. destruct (H3 s Hsc) as [Hp Hbody]. apply Hbody.
  unfold scope_names. intros n [Hn|Hn]%elem_of_union; [|set_solver].
  apply elem_of_list_to_set, list_elem_of_fmap in Hn as (an & -> & Han).
  apply elem_of_union. left. by apply Hp.
Qed.

Lemma cov_visit_expr e :
  cov (checked_visit_expr e) (ids e) (λ mf D, resolves mf D e).
Proof.
  induction e using expr_ind; cbn [checked_visit_expr ids resolves].
  - (* Constant *) by apply (cov_ret (λ c, c)).
  - (* Name *)
    apply (cov_ret (add_reference _)); [intros c; apply filed_add_reference|].
    intros c mf D Hd.
    destruct (Builtins.builtin_mlir_name id) eqn:Hb; [by right|]. left.
    apply Hd, filed_elem. by apply (add_reference_files (AstName id l)).
  - (* Attribute *)
    intros c m c' m' (c1 & m1 & E1 & E2)%bind_Ok.
    destruct ctx; try done. apply ret_Ok in E2 as [-> ->]. by apply IHe.
  - (* Subscript *) by apply cov_bind.
  - (* Slice *)
    pose proof (cov_opt checked_visit_expr ids (λ mf D e, resolves mf D e) _ H) as Cl.
    pose proof (cov_opt checked_visit_expr ids (λ mf D e, resolves mf D e) _ H0) as Cu.
    pose proof (cov_opt checked_visit_expr ids (λ mf D e, resolves mf D e) _ H1) as Cs.
    pose proof (cov_bind _ _ _ _ _ _ Cu (cov_bind _ _ _ _ _ _ Cl Cs)) as Hb.
    eapply cov_weaken; [|exact Hb]. cbn. tauto.
  - (* Tuple *) by apply (cov_each checked_visit_expr ids (λ mf D e, resolves mf D e)).
  - (* List *) by apply (cov_each checked_visit_expr ids (λ mf D e, resolves mf D e)).
  - (* UnaryOp *) done.
  - (* BinOp *) by apply cov_bind.
  - (* Compare *)
    apply cov_bind; [done|].
    by apply (cov_each checked_visit_expr ids (λ mf D e, resolves mf D e)).
  - (* Call *)
    apply cov_bind; [done|].
    apply (cov_bind (each checked_visit_expr _)).
    + by apply (cov_each checked_visit_expr ids (λ mf D e, resolves mf D e)).
    + apply (cov_each (λ k, checked_visit_expr (kw_value k)) (λ k, ids (kw_value k))
               (λ mf D k, resolves mf D (kw_value k))).
      by apply (keywords_all
                  (λ e, cov (checked_visit_expr e) (ids e) (λ mf D, resolves mf D e))).
  - (* FormattedValue *)
    case_bool_decide.
    + apply cov_fail. intros c m c' m' (c1 & m1 & E1 & E2)%bind_Ok. done.
    + apply cov_bind; [done|].
      by apply (cov_opt checked_visit_expr ids (λ mf D e, resolves mf D e)).
  - (* JoinedStr *) by apply (cov_each checked_visit_expr ids (λ mf D e, resolves mf D e)).
  - (* Lambda *)
    pose proof (cov_scope (addArgs largs init) _ node_id True _ _ (pre_addArgs largs)
                  (tidy_keeps_expr e) IHe) as Hs.
    eapply cov_weaken; [|exact Hs].
    intros mf D [_ Hsc] s E. destruct (Hsc s E) as [Hp Hb]. split; [done|]. by apply Hb.
  - (* ListComp *)
    eapply cov_ext; [intros c m; symmetry; apply (visit_ListComp_nested l)|].
    by apply (cov_nested l).
  - (* GeneratorExp *) by apply (cov_ret (λ c, c)).
  - (* OtherExpr *) by apply cov_fail.
Qed.

Lemma cov_addAssignLhs tgt :
  cov (addAssignLhs tgt) (target_ids tgt) (λ mf D, assignable mf D tgt).
Proof.
  destruct tgt; cbn [addAssignLhs target_ids assignable];
    try apply cov_addLhs.
  apply cov_bind; apply cov_visit_expr.
Qed.

Lemma cov_nonempty {A} (f : A → t → St t) (l : list A) I R :
  cov (each f l) I R →
  cov (λ c, if nonempty l then each f l c else ret c) I R.
Proof. apply cov_ext. intros c m. by destruct l. Qed.

Lemma list_all_intro {A} (P : A → Prop) (l : list A) : (∀ x, P x) → list_all A P l.
Proof. intros H. induction l; constructor; auto. Qed.

Lemma cov_visit_stmt s :
  cov (checked_visit_stmt s) (stmt_ids s) (λ mf D, closed mf D s).
Proof.
  induction s using stmt_ind; cbn [checked_visit_stmt stmt_ids closed].
  - (* Assign *)
    apply cov_bind; [apply cov_visit_expr|].
    apply (cov_each addAssignLhs target_ids (λ mf D tgt, assignable mf D tgt)).
    apply list_all_intro, cov_addAssignLhs.
  - (* AugAssign *)
    eapply cov_weaken; [|apply cov_bind; [apply cov_addAssignLhs|apply cov_visit_expr]].
    done.
  - (* Expr *) apply cov_visit_expr.
  - (* For *)
    pose proof (cov_each checked_visit_stmt stmt_ids (λ mf D s, closed mf D s) _ H) as Cb.
    pose proof (cov_each checked_visit_stmt stmt_ids (λ mf D s, closed mf D s) _ H0) as Co.
    pose proof (cov_bind _ _ _ _ _ _ (cov_addLhs tgt)
                  (cov_bind _ _ _ _ _ _ (cov_visit_expr it)
                     (cov_bind _ _ _ _ _ _ Cb Co))) as Hb.
    eapply cov_weaken; [|exact Hb]. cbn. tauto.
  - (* FunctionDef *)
    pose proof (cov_each checked_visit_stmt stmt_ids (λ mf D s, closed mf D s) _ H) as Cb.
    pose proof (cov_scope (addArgs fargs init) _ node_id True _ _ (pre_addArgs fargs)
                  (tidy_keeps_stmts body) Cb) as Hs.
    pose proof (cov_bind _ _ _ _ _ _
                  (cov_ret (addVar fname) (λ _ _, True) (filed_addVar fname)
                     (λ _ _ _ _, I)) Hs) as Hb.
    eapply cov_weaken; [|exact Hb].
    intros mf D [_ [_ Hsc]] s E. destruct (Hsc s E) as [Hp Hbody].
    split; [done|]. by apply Hbody.
  - (* If *)
    pose proof (cov_each checked_visit_stmt stmt_ids (λ mf D s, closed mf D s) _ H) as Cb.
    pose proof (cov_each checked_visit_stmt stmt_ids (λ mf D s, closed mf D s) _ H0) as Co.
    exact (cov_bind _ _ _ _ _ _ (cov_visit_expr test)
             (cov_bind _ _ _ _ _ _ (cov_nonempty _ _ _ _ Cb) (cov_nonempty _ _ _ _ Co))).
  - (* Import *)
    apply (cov_ret (λ c, foldl _ c names)); [|done]. intros c. apply filed_vars.
  - (* Return *)
    apply (cov_opt checked_visit_expr ids (λ mf D e, resolves mf D e)).
    destruct value; constructor. apply cov_visit_expr.
  - (* With *)
    pose proof (cov_each checked_visit_stmt stmt_ids (λ mf D s, closed mf D s) _ H) as Cb.
    apply (cov_bind (each _ items)); [|exact Cb].
    apply (cov_each (λ it, checked_visit_expr (context_expr it))
             (λ it, ids (context_expr it)) (λ mf D it, resolves mf D (context_expr it))).
    apply list_all_intro. intros it. apply cov_visit_expr.
  - (* While *)
    pose proof (cov_each checked_visit_stmt stmt_ids (λ mf D s, closed mf D s) _ H) as Cb.
    pose proof (cov_each checked_visit_stmt stmt_ids (λ mf D s, closed mf D s) _ H0) as Co.
    pose proof (cov_bind _ _ _ _ _ _ (cov_visit_expr test)
                  (cov_bind _ _ _ _ _ _ Cb Co)) as Hb.
    eapply cov_weaken; [|exact Hb]. cbn. tauto.
  - (* OtherStmt *) by apply cov_fail.
Qed.

Lemma cov_visit_stmts l :
  cov (visit_stmts l) (concat (map stmt_ids l)) (λ mf D, all_ (closed mf D) l).
Proof.
  apply (cov_each checked_visit_stmt stmt_ids (λ mf D s, closed mf D s)).
  apply list_all_intro, cov_visit_stmt.
Qed.

(** *** The analyser does not raise the translator's exception *)

Lemma bind_Raise {A B} (x : St A) (f : A → St B) m e :
  (x ≫= f) m = Raise e →
  x m = Raise e ∨ ∃ a m1, x m = Ok (a, m1) ∧ f a m1 = Raise e.
Proof.
  unfold mbind, St_bind, bind. destruct (x m) as [[a m1]|e0]; [eauto|].
  intros [= ->]. by left.
Qed.

Lemma never_unknown_ret (h : t → t) : never_unknown (λ c, ret (h c)).
Proof. by intros c m e. Qed.

Lemma never_unknown_bind (f h : t → St t) :
  never_unknown f → never_unknown h → never_unknown (λ c, c1 ← f c; h c1).
Proof.
  intros Hf Hh c m e [E|(c1 & m1 & _ & E)]%bind_Raise; [by eapply Hf|by eapply Hh].
Qed.

Lemma assert_Raise b m e : assert b m = Raise e → is_unknown e = false.
Proof. destruct b; [done|]. by intros [= <-]. Qed.

Lemma never_unknown_assert b (k : t → St t) : never_unknown k → never_unknown (λ c, _ ← assert b; k c).
Proof.
  intros Hk c m e [E|(u & m1 & _ & E)]%bind_Raise; [|by eapply Hk].
  by apply assert_Raise in E.
Qed.

Lemma never_unknown_each {A} (f : A → t → St t) l :
  list_all A (λ x, never_unknown (f x)) l → never_unknown (each f l).
Proof.
  intros X. induction X as [|x Hx l X IH]; simpl;
    [apply (never_unknown_ret (λ c, c))|by apply (never_unknown_bind (f x))].
Qed.

Lemma never_unknown_opt {A} (f : A → t → St t) o :
  option_all A (λ x, never_unknown (f x)) o → never_unknown (opt f o).
Proof. intros X. destruct X; simpl; [done|apply (never_unknown_ret (λ c, c))]. Qed.

Lemma each_r_never_unknown elts :
  list_all expr (λ tgt, ∀ c e, addLhs tgt c = Raise e → is_unknown e = false) elts →
  ∀ c e, each_r addLhs elts c = Raise e → is_unknown e = false.
Proof.
  intros X. induction X as [|x Hx l X IH]; intros c e E; simpl in E; [done|].
  destruct (addLhs x c) as [c1|e1] eqn:E1; [by eapply IH|].
  injection E as <-. by eapply Hx.
Qed.

Lemma addLhs_raises_known tgt : ∀ c e, addLhs tgt c = Raise e → is_unknown e = false.
Proof.
  induction tgt using expr_ind; intros c e E; simpl in E;
    try done; try (by injection E as <-).
  by eapply each_r_never_unknown.
Qed.

Lemma never_unknown_addLhs tgt : never_unknown (λ c, lift (addLhs tgt c)).
Proof.
  intros c m e E. unfold lift in E.
  destruct (addLhs tgt c) as [c1|e1] eqn:E1; [done|].
  injection E as <-. by eapply addLhs_raises_known.
Qed.

Lemma never_unknown_addArgs a : never_unknown (addArgs a).
Proof.
  intros c m e E. unfold addArgs in E.
  repeat (apply bind_Raise in E as [E|(? & ? & _ & E)];
          [by apply assert_Raise in E|]).
  done.
Qed.

Lemma never_unknown_addArgs_scope a i (body : t → St t) :
  never_unknown body →
  never_unknown (λ c, inner ← addArgs a init; inner ← body inner; close_scope i inner c).
Proof.
  intros Hb c m e [E|(c0 & m0 & _ & E)]%bind_Raise.
  - by eapply never_unknown_addArgs.
  - apply bind_Raise in E as [E|(c1 & m1 & _ & E)]; [by eapply Hb|done].
Qed.

Lemma never_unknown_nested elt gens :
  never_unknown (checked_visit_expr elt) →
  list_all comprehension
    (comprehension__all expr (λ e, never_unknown (checked_visit_expr e))) gens →
  never_unknown (nested_scopes checked_visit_expr elt gens).
Proof.
  intros He X. induction X as [|g Hg gens X IH]; [exact He|].
  destruct Hg as [cid tg Htg it Hit fs Hfs asy].
  cbn [nested_scopes is_async ifs iter target comp_id].
  do 2 apply never_unknown_assert. apply never_unknown_bind; [exact Hit|].
  intros c m e [E|(c0 & m0 & _ & E)]%bind_Raise.
  - by eapply (never_unknown_addLhs tg init).
  - apply bind_Raise in E as [E|(c1 & m1 & _ & E)]; [by eapply IH|done].
Qed.

Lemma never_unknown_visit_expr e : never_unknown (checked_visit_expr e).
Proof.
  induction e using expr_ind; cbn [checked_visit_expr].
  - (* Constant *) apply (never_unknown_ret (λ c, c)).
  - (* Name *) apply (never_unknown_ret (add_reference _)).
  - (* Attribute *)
    intros c m e0 [E|(c1 & m1 & _ & E)]%bind_Raise; [by eapply IHe|].
    destruct ctx; [done|by injection E as <-..].
  - (* Subscript *) by apply never_unknown_bind.
  - (* Slice *)
    apply (never_unknown_bind (opt checked_visit_expr _)); [by apply never_unknown_opt|].
    apply (never_unknown_bind (opt checked_visit_expr _)); by apply never_unknown_opt.
  - (* Tuple *) by apply never_unknown_each.
  - (* List *) by apply never_unknown_each.
  - (* UnaryOp *) done.
  - (* BinOp *) by apply never_unknown_bind.
  - (* Compare *) apply never_unknown_bind; [done|by apply never_unknown_each].
  - (* Call *)
    apply never_unknown_bind; [done|].
    apply (never_unknown_bind (each checked_visit_expr _)); [by apply never_unknown_each|].
    apply never_unknown_each.
    by apply (keywords_all (λ e, never_unknown (checked_visit_expr e))).
  - (* FormattedValue *)
    intros c m e0 [E|(c1 & m1 & _ & E)]%bind_Raise; [by eapply IHe|].
    case_bool_decide; [by injection E as <-|]. eapply never_unknown_opt; eauto.
  - (* JoinedStr *) by apply never_unknown_each.
  - (* Lambda *) by apply never_unknown_addArgs_scope.
  - (* ListComp *)
    intros c m e0 E. eapply (never_unknown_nested e generators); [done..|].
    rewrite <- (visit_ListComp_nested l). exact E.
  - (* GeneratorExp *) apply (never_unknown_ret (λ c, c)).
  - (* OtherExpr *) intros c m e0 E. by injection E as <-.
Qed.

Lemma never_unknown_addAssignLhs tgt : never_unknown (addAssignLhs tgt).
Proof.
  destruct tgt; cbn [addAssignLhs]; try apply never_unknown_addLhs.
  apply never_unknown_bind; apply never_unknown_visit_expr.
Qed.

Lemma never_unknown_visit_stmt s : never_unknown (checked_visit_stmt s).
Proof.
  induction s using stmt_ind; cbn [checked_visit_stmt].
  - (* Assign *)
    apply never_unknown_bind; [apply never_unknown_visit_expr|].
    apply never_unknown_each, list_all_intro, never_unknown_addAssignLhs.
  - (* AugAssign *)
    apply never_unknown_bind; [apply never_unknown_addAssignLhs|apply never_unknown_visit_expr].
  - (* Expr *) apply never_unknown_visit_expr.
  - (* For *)
    apply (never_unknown_bind (λ c, lift (addLhs _ c))); [apply never_unknown_addLhs|].
    apply never_unknown_bind; [apply never_unknown_visit_expr|].
    apply (never_unknown_bind (each checked_visit_stmt _)); by apply never_unknown_each.
  - (* FunctionDef *)
    intros c. apply (never_unknown_addArgs_scope fargs node_id (each checked_visit_stmt body)).
    by apply never_unknown_each.
  - (* If *)
    apply never_unknown_bind; [apply never_unknown_visit_expr|].
    apply (never_unknown_bind (λ c, if nonempty body then _ else _)).
    + destruct (nonempty body); [by apply never_unknown_each|apply (never_unknown_ret (λ c, c))].
    + destruct (nonempty orelse); [by apply never_unknown_each|apply (never_unknown_ret (λ c, c))].
  - (* Import *) apply (never_unknown_ret (λ c, foldl _ c names)).
  - (* Return *)
    apply never_unknown_opt. destruct value; constructor. apply never_unknown_visit_expr.
  - (* With *)
    apply (never_unknown_bind (each _ items)); [|by apply never_unknown_each].
    apply never_unknown_each, list_all_intro. intros it. apply never_unknown_visit_expr.
  - (* While *)
    apply never_unknown_bind; [apply never_unknown_visit_expr|].
    apply (never_unknown_bind (each checked_visit_stmt _)); by apply never_unknown_each.
  - (* OtherStmt *) intros c m e E. by injection E as <-.
Qed.

Lemma never_unknown_visit_stmts l : never_unknown (visit_stmts l).
Proof. apply never_unknown_each, list_all_intro, never_unknown_visit_stmt. Qed.

End Covers.

(** ** The two passes together *)

Section Linked.
Import IR Translator Trace Resolve.
#[local] Set Warnings "-clear-no-such-hyp".

(** X20: when the scopes of a module are filed under pairwise distinct
    identities, [translateModule] does not raise the exception for a
    variable that cannot be found: every name the lowering looks up has a
    cell, or is a builtin, once the analysis has accepted the module and
    reported no unknown variable. *)
Theorem translateModule_finds_variables (tree : module_) (g : State) (e : exn) :
  NoDup (concat (map stmt_ids (mbody tree))) →
  translateModule tree = (g, Raise e) →
  is_unknown e = false.
Proof.
  intros Hnd E. unfold translateModule in E.
  destruct (VariableCapture.visit_stmts (mbody tree) VariableCapture.init ∅)
    as [[c sm]|e0] eqn:Ea.
  2: { injection E as <- <-. by eapply never_unknown_visit_stmts. }
  destruct (VariableCapture.nonempty (VariableCapture.references c)) eqn:Hr.
  { by injection E as <- <-. }
  change (IR.create_func "script_main" [] [ReturnValueType] _)
    with (0, script_main_state sm) in E.
  cbv beta iota in E.
  destruct (VariableCapture.nonempty (VariableScope.parent_vars _));
    [by injection E as <- <-|].
  pose proof (edits_alloc ∅ [] [] 0
                (VariableScope.vars (VariableCapture.mkScope c))
                (script_main_state sm)) as E1.
  pose proof (alloc_dom ∅ [] [] 0
                (VariableScope.vars (VariableCapture.mkScope c))
                (script_main_state sm)) as Hd.
  destruct (alloc_variable_cells _ _ _ _ _ _) as [[[cm ns] cs] g1].
  cbn [fst snd] in E1, Hd.
  pose proof (edit_build 0 (λ r, ScopeInit r ns cs) g1 (λ r, eq_refl)) as E2.
  destruct (IR.build 0 _ g1) as [sc g2]. cbn [snd] in E2.
  destruct (cov_visit_stmts _ _ _ _ _ Ea) as (_ & _ & C).
  assert (Hc : all_ (closed sm (list_to_set (VariableCapture.vars c))) (mbody tree)).
  { apply C; [done..|]. unfold filed. destruct (VariableCapture.references c); [|done].
    set_solver. }
  pose proof (finds_visit_stmts sm _ (mbody tree) Hc (init 0 sc cm) g2) as W.
  unfold wpn in W.
  destruct (visit_stmts (mbody tree) (init 0 sc cm) g2) as [g3 [[cont t3]|e1]].
  - destruct cont; [|done].
    destruct (IR.build (block t3) NoneOp g3) as [n g4].
    by destruct (IR.build (block t3) _ g4).
  - injection E as <- <-. apply W.
    + transitivity (_scope_map g1); [by apply scope_map_edits, edits_one|].
      by apply scope_map_edits in E1.
    + simpl. rewrite Hd. set_solver.
Qed.

Lemma translateModule_finds_variables_witness :
  ∃ g e, translateModule Examples2.lambda_then_for_else = (g, Raise e) ∧
         is_unknown e = false.
Proof.
  assert (E : ∃ g e, translateModule Examples2.lambda_then_for_else = (g, Raise e))
    by (eexists _, _; vm_compute; reflexivity).
  destruct E as (g & e & E). exists g, e. split; [exact E|].
  apply (translateModule_finds_variables Examples2.lambda_then_for_else g e);
    [simpl; apply NoDup_singleton|exact E].
Defined.

End Linked.
